(** * A shallow embedding of the MESI cache-coherence simulator (directory CACHE)

    The development follows the C++ classes bottom-up: [CacheLine],
    [CacheSet], [Statistics], [Cache], [Bus], [Processor], [Simulator].
    Every method [Class::method] is embedded as [Class_method]; objects that
    the C++ code reaches through pointers (the caches known to the bus and
    to each other) live in one explicit store, a list indexed by core id.

    Integers: [unsigned int] addresses and [uint64_t] counters are [Z] with
    the wrap-around written out ([u32], [u64]); the [int] cycle and LRU
    counters are [Z] (signed overflow is undefined in C++ and unreachable
    below the simulator's cycle ceiling). *)

From Stdlib Require Import ZArith Lia Bool Ascii String.
From stdpp Require Import base tactics option list strings pretty.

Open Scope Z_scope.

(** ** Machine integers *)

Definition u32 (x : Z) : Z := x mod 2 ^ 32.
Definition u64 (x : Z) : Z := x mod 2 ^ 64.
Definition INT_MAX : Z := 2147483647.

(** ** CacheLine (CacheLine.h, CacheLine.cpp) *)

Inductive CacheState := MODIFIED | EXCLUSIVE | SHARED | INVALID.

#[global] Instance CacheState_eq_dec : EqDecision CacheState.
Proof. solve_decision. Defined.

(** The [data] payload and [blockSize] of a line are never read by the
    coherence engine and are left out. *)
Record CacheLine := mkCacheLine {
  CacheLine_tag : Z;
  CacheLine_state : CacheState
}.

(** [CacheLine::CacheLine]: tag 0, state INVALID. *)
Definition CacheLine_new : CacheLine := mkCacheLine 0 INVALID.

Definition CacheLine_getTag (l : CacheLine) : Z := CacheLine_tag l.
Definition CacheLine_setTag (newTag : Z) (l : CacheLine) : CacheLine :=
  mkCacheLine newTag (CacheLine_state l).
Definition CacheLine_getState (l : CacheLine) : CacheState := CacheLine_state l.
Definition CacheLine_setState (newState : CacheState) (l : CacheLine) : CacheLine :=
  mkCacheLine (CacheLine_tag l) newState.
Definition CacheLine_isValid (l : CacheLine) : bool :=
  negb (bool_decide (CacheLine_state l = INVALID)).
Definition CacheLine_isdirty (l : CacheLine) : bool :=
  bool_decide (CacheLine_state l = MODIFIED).
Definition CacheLine_invalidate (l : CacheLine) : CacheLine :=
  mkCacheLine (CacheLine_tag l) INVALID.

(** ** CacheSet (CacheSet.h, CacheSet.cpp)

    [lines] and [lruCounter] are the two parallel vectors of the class; the
    constructor gives both [associativity] entries and nothing resizes them,
    so the loops [for (i = 0; i < associativity; i++)] are traversals of the
    vectors. *)

Record CacheSet := mkCacheSet {
  CacheSet_lines : list CacheLine;
  CacheSet_lruCounter : list Z
}.

(** [CacheSet::CacheSet(associativity, blockSize)] *)
Definition CacheSet_new (associativity : nat) : CacheSet :=
  mkCacheSet (replicate associativity CacheLine_new) (replicate associativity 0).

Definition CacheSet_getAssociativity (cs : CacheSet) : nat :=
  length (CacheSet_lines cs).

(** [getLine(index)]: [None] where the source throws [std::out_of_range]. *)
Definition CacheSet_getLine (index : nat) (cs : CacheSet) : option CacheLine :=
  CacheSet_lines cs !! index.

(** Assignment through the reference returned by [getLine(index)]. *)
Definition CacheSet_updLine (index : nat) (f : CacheLine → CacheLine)
    (cs : CacheSet) : CacheSet :=
  mkCacheSet (alter f index (CacheSet_lines cs)) (CacheSet_lruCounter cs).

(** The scan condition of [findLine]. *)
Definition line_matches (tag : Z) (l : CacheLine) : Prop :=
  CacheLine_isValid l = true ∧ CacheLine_getTag l = tag.

#[global] Instance line_matches_dec tag l : Decision (line_matches tag l).
Proof. unfold line_matches. apply _. Defined.

(** [findLine(tag)]: index of the first valid line with that tag; [None]
    stands for the source's [-1]. *)
Definition CacheSet_findLine (tag : Z) (cs : CacheSet) : option nat :=
  fst <$> list_find (line_matches tag) (CacheSet_lines cs).

(** [updateLRU(lineIndex)]: the range check throws before anything is
    changed; otherwise every counter is incremented and the accessed one is
    reset to 0. *)
Definition CacheSet_updateLRU (lineIndex : nat) (cs : CacheSet) : CacheSet :=
  if decide (lineIndex < length (CacheSet_lines cs))%nat
  then mkCacheSet (CacheSet_lines cs)
                  (<[lineIndex := 0]> (Z.succ <$> CacheSet_lruCounter cs))
  else cs.

(** The loop of [getLRUIndex], started at index [i] with the running
    [maxCounter] and [lruIndex]. *)
Fixpoint getLRUIndex_loop (i : nat) (counters : list Z)
    (maxCounter : Z) (lruIndex : nat) : nat :=
  match counters with
  | [] => lruIndex
  | c :: rest =>
      if maxCounter <? c
      then getLRUIndex_loop (S i) rest c i
      else getLRUIndex_loop (S i) rest maxCounter lruIndex
  end.

Definition CacheSet_getLRUIndex (cs : CacheSet) : nat :=
  getLRUIndex_loop 0 (CacheSet_lruCounter cs) (-1) 0.

Definition CacheSet_getLRUValue (lineIndex : nat) (cs : CacheSet) : option Z :=
  CacheSet_lruCounter cs !! lineIndex.

Definition CacheSet_isFull (cs : CacheSet) : bool :=
  forallb CacheLine_isValid (CacheSet_lines cs).

(** [CacheSet::allocateLine(tag)] *)
Definition CacheSet_allocateLine (tag : Z) (cs : CacheSet) : nat * CacheSet :=
  match list_find (λ l, CacheLine_isValid l = false) (CacheSet_lines cs) with
  | Some (i, _) =>
      (i, CacheSet_updateLRU i (CacheSet_updLine i (CacheLine_setTag tag) cs))
  | None =>
      let lruIndex := CacheSet_getLRUIndex cs in
      (lruIndex,
       CacheSet_updateLRU lruIndex
         (CacheSet_updLine lruIndex (CacheLine_setTag tag) cs))
  end.

Definition CacheSet_invalidateLine (lineIndex : nat) (cs : CacheSet) : CacheSet :=
  CacheSet_updLine lineIndex CacheLine_invalidate cs.

Definition CacheSet_invalidateTag (tag : Z) (cs : CacheSet) : CacheSet :=
  match CacheSet_findLine tag cs with
  | Some index => CacheSet_invalidateLine index cs
  | None => cs
  end.

(** The class invariant of a set built by the constructor: at least one
    way, one counter per line, counters non-negative and below [INT_MAX]
    (so that the increments of [updateLRU] are defined). *)
Record CacheSet_wf (cs : CacheSet) : Prop := {
  wf_assoc : (0 < length (CacheSet_lines cs))%nat;
  wf_lru_len : length (CacheSet_lruCounter cs) = length (CacheSet_lines cs);
  wf_lru_range : Forall (λ c, 0 ≤ c < INT_MAX) (CacheSet_lruCounter cs)
}.

(** Slot [i] is the first INVALID slot of the set. *)
Definition first_invalid (cs : CacheSet) (i : nat) : Prop :=
  (∃ l, CacheSet_lines cs !! i = Some l ∧ CacheLine_isValid l = false) ∧
  ∀ j l, (j < i)%nat → CacheSet_lines cs !! j = Some l →
         CacheLine_isValid l = true.

(** Slot [i] holds the maximum LRU counter, and no lower slot does. *)
Definition lru_victim (counters : list Z) (i : nat) : Prop :=
  ∃ m, counters !! i = Some m ∧
       (∀ j c, counters !! j = Some c → c ≤ m) ∧
       (∀ j c, (j < i)%nat → counters !! j = Some c → c < m).

(** Slot [i] carries the minimum counter of the set. *)
Definition most_recently_used (counters : list Z) (i : nat) : Prop :=
  ∃ m, counters !! i = Some m ∧ ∀ j c, counters !! j = Some c → m ≤ c.

(** ** Statistics (Statistics.h, Statistics.cpp): fifteen [uint64_t] counters *)

Record Statistics := mkStatistics {
  Statistics_accesses : Z;
  Statistics_misses : Z;
  Statistics_readMisses : Z;
  Statistics_writeMisses : Z;
  Statistics_evictions : Z;
  Statistics_writebacks : Z;
  Statistics_totalInstructions : Z;
  Statistics_readInstructions : Z;
  Statistics_writeInstructions : Z;
  Statistics_busReads : Z;
  Statistics_busReadXs : Z;
  Statistics_busUpgrades : Z;
  Statistics_busFlushes : Z;
  Statistics_invalidations : Z;
  Statistics_busTraffic : Z
}.

(** [Statistics::reset] (also the constructor) *)
Definition Statistics_reset : Statistics :=
  mkStatistics 0 0 0 0 0 0 0 0 0 0 0 0 0 0 0.

Definition Statistics_incrementAccesses (count : Z) (s : Statistics) : Statistics :=
  let 'mkStatistics a m rm wm ev wb ti ri wi br bx bu bf inv bt := s in
  mkStatistics (u64 (a + count)) m rm wm ev wb ti ri wi br bx bu bf inv bt.
Definition Statistics_incrementMisses (count : Z) (s : Statistics) : Statistics :=
  let 'mkStatistics a m rm wm ev wb ti ri wi br bx bu bf inv bt := s in
  mkStatistics a (u64 (m + count)) rm wm ev wb ti ri wi br bx bu bf inv bt.
Definition Statistics_incrementReadMisses (count : Z) (s : Statistics) : Statistics :=
  let 'mkStatistics a m rm wm ev wb ti ri wi br bx bu bf inv bt := s in
  mkStatistics a (u64 (m + count)) (u64 (rm + count)) wm ev wb ti ri wi br bx bu bf inv bt.
Definition Statistics_incrementWriteMisses (count : Z) (s : Statistics) : Statistics :=
  let 'mkStatistics a m rm wm ev wb ti ri wi br bx bu bf inv bt := s in
  mkStatistics a (u64 (m + count)) rm (u64 (wm + count)) ev wb ti ri wi br bx bu bf inv bt.
Definition Statistics_incrementEvictions (count : Z) (s : Statistics) : Statistics :=
  let 'mkStatistics a m rm wm ev wb ti ri wi br bx bu bf inv bt := s in
  mkStatistics a m rm wm (u64 (ev + count)) wb ti ri wi br bx bu bf inv bt.
Definition Statistics_incrementWritebacks (count : Z) (s : Statistics) : Statistics :=
  let 'mkStatistics a m rm wm ev wb ti ri wi br bx bu bf inv bt := s in
  mkStatistics a m rm wm ev (u64 (wb + count)) ti ri wi br bx bu bf inv bt.
Definition Statistics_incrementTotalInstructions (count : Z) (s : Statistics) : Statistics :=
  let 'mkStatistics a m rm wm ev wb ti ri wi br bx bu bf inv bt := s in
  mkStatistics a m rm wm ev wb (u64 (ti + count)) ri wi br bx bu bf inv bt.
Definition Statistics_incrementReadInstructions (count : Z) (s : Statistics) : Statistics :=
  let 'mkStatistics a m rm wm ev wb ti ri wi br bx bu bf inv bt := s in
  mkStatistics a m rm wm ev wb (u64 (ti + count)) (u64 (ri + count)) wi br bx bu bf inv bt.
Definition Statistics_incrementWriteInstructions (count : Z) (s : Statistics) : Statistics :=
  let 'mkStatistics a m rm wm ev wb ti ri wi br bx bu bf inv bt := s in
  mkStatistics a m rm wm ev wb (u64 (ti + count)) ri (u64 (wi + count)) br bx bu bf inv bt.
(** [incrementReads] and [incrementWrites] forward to the instruction counters. *)
Definition Statistics_incrementReads (count : Z) (s : Statistics) : Statistics :=
  Statistics_incrementReadInstructions count s.
Definition Statistics_incrementWrites (count : Z) (s : Statistics) : Statistics :=
  Statistics_incrementWriteInstructions count s.
Definition Statistics_incrementBusReads (count : Z) (s : Statistics) : Statistics :=
  let 'mkStatistics a m rm wm ev wb ti ri wi br bx bu bf inv bt := s in
  mkStatistics a m rm wm ev wb ti ri wi (u64 (br + count)) bx bu bf inv bt.
Definition Statistics_incrementBusReadXs (count : Z) (s : Statistics) : Statistics :=
  let 'mkStatistics a m rm wm ev wb ti ri wi br bx bu bf inv bt := s in
  mkStatistics a m rm wm ev wb ti ri wi br (u64 (bx + count)) bu bf inv bt.
Definition Statistics_incrementBusUpgrades (count : Z) (s : Statistics) : Statistics :=
  let 'mkStatistics a m rm wm ev wb ti ri wi br bx bu bf inv bt := s in
  mkStatistics a m rm wm ev wb ti ri wi br bx (u64 (bu + count)) bf inv bt.
Definition Statistics_incrementBusFlushes (count : Z) (s : Statistics) : Statistics :=
  let 'mkStatistics a m rm wm ev wb ti ri wi br bx bu bf inv bt := s in
  mkStatistics a m rm wm ev wb ti ri wi br bx bu (u64 (bf + count)) inv bt.
Definition Statistics_incrementInvalidations (count : Z) (s : Statistics) : Statistics :=
  let 'mkStatistics a m rm wm ev wb ti ri wi br bx bu bf inv bt := s in
  mkStatistics a m rm wm ev wb ti ri wi br bx bu bf (u64 (inv + count)) bt.
Definition Statistics_incrementBusTraffic (bytes : Z) (s : Statistics) : Statistics :=
  let 'mkStatistics a m rm wm ev wb ti ri wi br bx bu bf inv bt := s in
  mkStatistics a m rm wm ev wb ti ri wi br bx bu bf inv (u64 (bt + bytes)).

(** ** Cache (Cache.h, Cache.cpp): data and the methods that touch one cache

    [bus] and [caches] are pointers in the source; here the bus and all
    caches live in the [System] store below and a cache is named by its
    position in it.  [numSets], [associativity] and [tagBits] are only
    printed and are left out. *)

Record Cache := mkCache {
  Cache_coreId : nat;
  Cache_blockSize : Z;
  Cache_blockOffsetBits : Z;
  Cache_setIndexBits : Z;
  Cache_sets : list CacheSet;
  Cache_stats : Statistics;
  Cache_isBlocked : bool;
  Cache_blockedCycles : Z
}.

(** [Cache::Cache]: [numSets = 1 << s] copies of an empty set,
    [blockSize = 1 << b]. *)
Definition Cache_new (coreId : nat) (setIndexBits associativity blockOffsetBits : Z)
    : Cache :=
  mkCache coreId (Z.shiftl 1 blockOffsetBits) blockOffsetBits setIndexBits
    (replicate (Z.to_nat (Z.shiftl 1 setIndexBits))
               (CacheSet_new (Z.to_nat associativity)))
    Statistics_reset false 0.

Definition Cache_with_sets (sets : list CacheSet) (c : Cache) : Cache :=
  mkCache (Cache_coreId c) (Cache_blockSize c) (Cache_blockOffsetBits c)
    (Cache_setIndexBits c) sets (Cache_stats c) (Cache_isBlocked c)
    (Cache_blockedCycles c).
Definition Cache_with_stats (stats : Statistics) (c : Cache) : Cache :=
  mkCache (Cache_coreId c) (Cache_blockSize c) (Cache_blockOffsetBits c)
    (Cache_setIndexBits c) (Cache_sets c) stats (Cache_isBlocked c)
    (Cache_blockedCycles c).
Definition Cache_with_isBlocked (b : bool) (c : Cache) : Cache :=
  mkCache (Cache_coreId c) (Cache_blockSize c) (Cache_blockOffsetBits c)
    (Cache_setIndexBits c) (Cache_sets c) (Cache_stats c) b
    (Cache_blockedCycles c).
Definition Cache_with_blockedCycles (n : Z) (c : Cache) : Cache :=
  mkCache (Cache_coreId c) (Cache_blockSize c) (Cache_blockOffsetBits c)
    (Cache_setIndexBits c) (Cache_sets c) (Cache_stats c) (Cache_isBlocked c) n.
Definition Cache_updStats (f : Statistics → Statistics) (c : Cache) : Cache :=
  Cache_with_stats (f (Cache_stats c)) c.

Definition Cache_getTag (c : Cache) (address : Z) : Z :=
  Z.shiftr address (Cache_setIndexBits c + Cache_blockOffsetBits c).
Definition Cache_getSetIndex (c : Cache) (address : Z) : Z :=
  Z.land (Z.shiftr address (Cache_blockOffsetBits c))
         (Z.shiftl 1 (Cache_setIndexBits c) - 1).
Definition Cache_getBlockOffset (c : Cache) (address : Z) : Z :=
  Z.land address (Z.shiftl 1 (Cache_blockOffsetBits c) - 1).

(** [sets[setIndex]]; the index always comes from [getSetIndex] and is
    below [numSets].  Outside the vector (undefined in the source) the
    model reads a set without lines. *)
Definition Cache_getSet (c : Cache) (setIndex : Z) : CacheSet :=
  default (mkCacheSet [] []) (Cache_sets c !! Z.to_nat setIndex).
(** Assignment through the reference [CacheSet& set = sets[setIndex]]. *)
Definition Cache_updSet (setIndex : Z) (f : CacheSet → CacheSet) (c : Cache) : Cache :=
  Cache_with_sets (alter f (Z.to_nat setIndex) (Cache_sets c)) c.

Definition Cache_getLineIndex (address : Z) (c : Cache) : option nat :=
  CacheSet_findLine (Cache_getTag c address) (Cache_getSet c (Cache_getSetIndex c address)).

Definition Cache_isHit (address : Z) (c : Cache) : bool :=
  bool_decide (is_Some (Cache_getLineIndex address c)).
Definition Cache_isBlocking (c : Cache) : bool := Cache_isBlocked c.
Definition Cache_unblock (c : Cache) : Cache := Cache_with_isBlocked false c.
Definition Cache_getBlockedCycles (c : Cache) : Z := Cache_blockedCycles c.

(** [Cache::processCycle] (never called by the simulator loop). *)
Definition Cache_processCycle (c : Cache) : Cache :=
  if Cache_isBlocked c && (0 <? Cache_blockedCycles c)
  then
    let c1 := Cache_with_blockedCycles (Cache_blockedCycles c - 1) c in
    if Cache_blockedCycles c1 =? 0 then Cache_with_isBlocked false c1 else c1
  else c.

(** [Cache::getCacheLineState], as the state instead of its name. *)
Definition Cache_getCacheLineState (address : Z) (c : Cache) : CacheState :=
  let set := Cache_getSet c (Cache_getSetIndex c address) in
  match CacheSet_findLine (Cache_getTag c address) set with
  | None => INVALID
  | Some lineIndex =>
      match CacheSet_getLine lineIndex set with
      | Some line => CacheLine_getState line
      | None => INVALID
      end
  end.

(** [Cache::lookupAndUpdate]: [isWrite] and [cycles] are not used by the body. *)
Definition Cache_lookupAndUpdate (address : Z) (isWrite : bool) (c : Cache)
    : bool * Cache :=
  let tag := Cache_getTag c address in
  let setIndex := Cache_getSetIndex c address in
  match CacheSet_findLine tag (Cache_getSet c setIndex) with
  | Some lineIndex => (true, Cache_updSet setIndex (CacheSet_updateLRU lineIndex) c)
  | None => (false, c)
  end.

(** ** Bus operations and transactions (Bus.h) *)

Inductive BusOperation := BusRd | BusRdX | BusUpgr | Flush | FlushOpt.

Record BusTransaction := mkBusTransaction {
  BusTransaction_operation : BusOperation;
  BusTransaction_address : Z;
  BusTransaction_sourceId : nat;
  BusTransaction_dataProvided : bool;
  BusTransaction_cycles : Z
}.

(** [BusTransaction(op, addr, src)] *)
Definition BusTransaction_new (op : BusOperation) (addr : Z) (src : nat)
    : BusTransaction :=
  mkBusTransaction op addr src false 0.

(** ** [Cache::snoop]

    The result is the returned [bool], the cache after the call and the two
    reference parameters [providedData] and [cycles] after the call. *)

Definition Cache_setLineState (setIndex : Z) (lineIndex : nat) (s : CacheState)
    (c : Cache) : Cache :=
  Cache_updSet setIndex (CacheSet_updLine lineIndex (CacheLine_setState s)) c.

Definition Cache_snoop (op : BusOperation) (address : Z) (sourceId : nat)
    (providedData : bool) (cycles : Z) (c : Cache) : bool * Cache * bool * Z :=
  if decide (sourceId = Cache_coreId c) then (true, c, providedData, cycles) else
  let tag := Cache_getTag c address in
  let setIndex := Cache_getSetIndex c address in
  let set := Cache_getSet c setIndex in
  match CacheSet_findLine tag set with
  | None => (true, c, providedData, cycles)
  | Some lineIndex =>
    match CacheSet_getLine lineIndex set with
    | None => (true, c, providedData, cycles)
    | Some line =>
      let currentState := CacheLine_getState line in
      let blockSize := Cache_blockSize c in
      let wordsInBlock := Z.quot blockSize 4 in
      let traffic := Statistics_incrementBusTraffic blockSize in
      let setState := Cache_setLineState setIndex lineIndex in
      match op with
      | BusRd =>
          match currentState with
          | MODIFIED =>
              (true,
               setState SHARED
                 (Cache_updStats (λ s, traffic (traffic
                    (Statistics_incrementWritebacks 1 s))) c),
               true, cycles + 2 * wordsInBlock + 100)
          | EXCLUSIVE =>
              (true, setState SHARED (Cache_updStats traffic c),
               true, cycles + 2 * wordsInBlock)
          | SHARED =>
              (true, Cache_updStats traffic c, true, cycles + 2 * wordsInBlock)
          | INVALID => (true, c, providedData, cycles)
          end
      | BusRdX =>
          match currentState with
          | MODIFIED =>
              (true,
               Cache_updStats (Statistics_incrementInvalidations 1)
                 (setState INVALID
                    (Cache_updStats (λ s, traffic (traffic
                       (Statistics_incrementWritebacks 1 s))) c)),
               true, cycles + 200)
          | EXCLUSIVE | SHARED =>
              (true,
               Cache_updStats (Statistics_incrementInvalidations 1)
                 (setState INVALID (Cache_updStats traffic c)),
               true, cycles + 100)
          | INVALID => (true, c, providedData, cycles)
          end
      | BusUpgr =>
          match currentState with
          | SHARED =>
              (true,
               Cache_updStats (Statistics_incrementInvalidations 1)
                 (setState INVALID c),
               providedData, cycles)
          | EXCLUSIVE | MODIFIED =>
              (true,
               Cache_updStats (Statistics_incrementInvalidations 1)
                 (setState INVALID (Cache_updStats traffic c)),
               true, cycles + 2 * wordsInBlock)
          | INVALID => (true, c, providedData, cycles)
          end
      | Flush | FlushOpt => (true, c, providedData, cycles)
      end
    end
  end.

(** ** Bus (Bus.h, Bus.cpp)

    [Bus::caches] is the roster filled by [registerCache]; the simulator
    registers cache [i] in slot [i], so the roster is the store of caches
    itself, without null entries. *)

Record Bus := mkBus {
  Bus_busy : bool;
  Bus_currentCycles : Z;
  Bus_stats : Statistics;
  Bus_pendingTransactions : list BusTransaction
}.

(** [Bus::Bus] *)
Definition Bus_new : Bus := mkBus false 0 Statistics_reset [].

Definition Bus_isBusy (b : Bus) : bool := Bus_busy b.
(** [Bus::reset] (Bus.h) *)
Definition Bus_reset (b : Bus) : Bus := mkBus false 0 (Bus_stats b) [].
Definition Bus_resetStatistics (b : Bus) : Bus :=
  mkBus (Bus_busy b) (Bus_currentCycles b) Statistics_reset
        (Bus_pendingTransactions b).

(** The store: every cache of the machine, by core id, and the bus. *)
Record System := mkSystem {
  System_caches : list Cache;
  System_bus : Bus
}.

(** The loop of [Bus::processSnooping] from roster index [i] on; it gives
    back the snooped caches and the transaction with [dataProvided] and
    [cycles] updated. *)
Fixpoint Bus_processSnooping_loop (i : nat) (caches : list Cache)
    (transaction : BusTransaction) : list Cache * BusTransaction :=
  match caches with
  | [] => ([], transaction)
  | c :: rest =>
      if decide (i ≠ BusTransaction_sourceId transaction) then
        let '(_, c', dataProvided, snoopCycles) :=
          Cache_snoop (BusTransaction_operation transaction)
                      (BusTransaction_address transaction)
                      (BusTransaction_sourceId transaction)
                      (BusTransaction_dataProvided transaction) 0 c in
        let cycles' :=
          if (0 <? snoopCycles) && dataProvided
          then BusTransaction_cycles transaction + snoopCycles
          else BusTransaction_cycles transaction in
        let transaction' :=
          mkBusTransaction (BusTransaction_operation transaction)
                           (BusTransaction_address transaction)
                           (BusTransaction_sourceId transaction)
                           dataProvided cycles' in
        let '(rest', transaction'') :=
          Bus_processSnooping_loop (S i) rest transaction' in
        (c' :: rest', transaction'')
      else
        let '(rest', transaction') :=
          Bus_processSnooping_loop (S i) rest transaction in
        (c :: rest', transaction')
  end.

Definition Bus_processSnooping (caches : list Cache) (transaction : BusTransaction)
    : list Cache * BusTransaction :=
  Bus_processSnooping_loop 0 caches transaction.

Definition Bus_with_busy (busy : bool) (b : Bus) : Bus :=
  mkBus busy (Bus_currentCycles b) (Bus_stats b) (Bus_pendingTransactions b).
Definition Bus_with_currentCycles (n : Z) (b : Bus) : Bus :=
  mkBus (Bus_busy b) n (Bus_stats b) (Bus_pendingTransactions b).
Definition Bus_updStats (f : Statistics → Statistics) (b : Bus) : Bus :=
  mkBus (Bus_busy b) (Bus_currentCycles b) (f (Bus_stats b))
        (Bus_pendingTransactions b).
Definition Bus_with_pending (q : list BusTransaction) (b : Bus) : Bus :=
  mkBus (Bus_busy b) (Bus_currentCycles b) (Bus_stats b) q.

(** [Bus::busOperation]: the result is the store after the call, the
    returned [bool] and the reference parameters [dataProvided], [cycles]
    after the call. *)
Definition Bus_busOperation (operation : BusOperation) (address : Z)
    (sourceId : nat) (dataProvided : bool) (cycles : Z) (sys : System)
    : System * bool * bool * Z :=
  let transaction := BusTransaction_new operation address sourceId in
  let bus := System_bus sys in
  if Bus_busy bus then
    (mkSystem (System_caches sys)
       (Bus_with_pending (Bus_pendingTransactions bus ++ [transaction]) bus),
     false, dataProvided, cycles)
  else
    let bus1 := Bus_with_busy true bus in
    let '(caches', transaction') :=
      Bus_processSnooping (System_caches sys) transaction in
    let bus2 :=
      match operation with
      | BusRd => Bus_updStats (Statistics_incrementBusReads 1) bus1
      | BusRdX => Bus_updStats (Statistics_incrementBusReadXs 1) bus1
      | BusUpgr => Bus_updStats (Statistics_incrementBusUpgrades 1) bus1
      | Flush | FlushOpt => Bus_updStats (Statistics_incrementBusFlushes 1) bus1
      end in
    let '(bus3, cycles') :=
      if BusTransaction_dataProvided transaction'
      then (Bus_updStats (Statistics_incrementBusTraffic 32) bus2,
            BusTransaction_cycles transaction')
      else (bus2, 100) in
    let bus4 := Bus_with_currentCycles cycles' bus3 in
    let bus5 := Bus_with_busy false bus4 in
    (mkSystem caches' bus5, true, BusTransaction_dataProvided transaction', cycles').

(** [Bus::processNextPendingTransaction] *)
Definition Bus_processNextPendingTransaction (sys : System) : System :=
  match Bus_pendingTransactions (System_bus sys) with
  | [] => sys
  | transaction :: rest =>
      let sys1 := mkSystem (System_caches sys)
                           (Bus_with_pending rest (System_bus sys)) in
      let '(sys2, success, _, _) :=
        Bus_busOperation (BusTransaction_operation transaction)
                         (BusTransaction_address transaction)
                         (BusTransaction_sourceId transaction) false 0 sys1 in
      if success then sys2
      else mkSystem (System_caches sys2)
             (Bus_with_pending
                (Bus_pendingTransactions (System_bus sys2) ++ [transaction])
                (System_bus sys2))
  end.

(** [Bus::processCycle] *)
Definition Bus_processCycle (sys : System) : System :=
  let bus := System_bus sys in
  if Bus_busy bus && (0 <? Bus_currentCycles bus) then
    let bus1 := Bus_with_currentCycles (Bus_currentCycles bus - 1) bus in
    if Bus_currentCycles bus1 =? 0
    then Bus_processNextPendingTransaction
           (mkSystem (System_caches sys) (Bus_with_busy false bus1))
    else mkSystem (System_caches sys) bus1
  else if negb (Bus_busy bus) &&
          negb (bool_decide (Bus_pendingTransactions bus = []))
  then Bus_processNextPendingTransaction sys
  else sys.

(** ** The parts of [Cache] that reach other caches and the bus *)

(** The test of the peer loop of [evictLine] on one peer [cache]: it holds
    a valid SHARED line for [address].  The set is indexed with the
    evicting cache's [getSetIndex], as in the source. *)
Definition peer_holds_shared (self cache : Cache) (address : Z) : bool :=
  match Cache_getLineIndex address cache with
  | Some lineIndex =>
      match CacheSet_getLine lineIndex
              (Cache_getSet cache (Cache_getSetIndex self address)) with
      | Some otherLine =>
          CacheLine_isValid otherLine &&
          bool_decide (CacheLine_getState otherLine = SHARED)
      | None => false
      end
  | None => false
  end.

(** The peer loop of [evictLine]: [sharedCacheCount] and
    [lastSharedCacheId] ([None] for the initial -1). *)
Definition evict_scan (self : Cache) (address : Z) (caches : list Cache)
    : Z * option nat :=
  foldl (λ acc cache,
           if bool_decide (Cache_coreId cache ≠ Cache_coreId self) &&
              peer_holds_shared self cache address
           then (fst acc + 1, Some (Cache_coreId cache))
           else acc)
        (0, None) caches.

(** The promotion at the end of the SHARED case of [evictLine]:
    [caches[lastSharedCacheId]] gets its line for [address] set to
    EXCLUSIVE. *)
Definition evict_promote (self : Cache) (address : Z) (last : nat)
    (caches : list Cache) : list Cache :=
  match caches !! last with
  | Some lastCache =>
      match Cache_getLineIndex address lastCache with
      | Some lineIndex =>
          <[last := Cache_setLineState (Cache_getSetIndex self address)
                      lineIndex EXCLUSIVE lastCache]> caches
      | None => caches
      end
  | None => caches
  end.

(** [Cache::evictLine(line, address, cycles)] called on cache [me] of the
    store, [line] being line [lineIndex] of its set [setIndex]. *)
Definition Cache_evictLine (me : nat) (setIndex : Z) (lineIndex : nat)
    (address : Z) (cycles : Z) (caches : list Cache) : list Cache * Z :=
  match caches !! me with
  | None => (caches, cycles)
  | Some self =>
      let state :=
        from_option CacheLine_getState INVALID
          (CacheSet_getLine lineIndex (Cache_getSet self setIndex)) in
      let '(caches1, cycles1) :=
        match state with
        | MODIFIED =>
            (alter (Cache_updStats (Statistics_incrementWritebacks 1)) me caches,
             cycles + 100)
        | SHARED =>
            match evict_scan self address caches with
            | (count, Some last) =>
                if count =? 1
                then (evict_promote self address last caches, cycles)
                else (caches, cycles)
            | (_, None) => (caches, cycles)
            end
        | _ => (caches, cycles)
        end in
      (alter (Cache_setLineState setIndex lineIndex INVALID) me caches1, cycles1)
  end.

(** [Cache::allocateLine(address, isWrite, cycles, busresponse)] on cache
    [me]; [Cache::caches], the roster that [Bus::connectCaches] publishes
    before the first cycle, is the store. *)
Definition Cache_allocateLine (me : nat) (address : Z) (isWrite : bool)
    (cycles : Z) (busresponse : bool) (caches : list Cache) : list Cache * Z :=
  match caches !! me with
  | None => (caches, cycles)
  | Some self =>
      let tag := Cache_getTag self address in
      let setIndex := Cache_getSetIndex self address in
      let set := Cache_getSet self setIndex in
      let '(caches1, cycles1) :=
        if CacheSet_isFull set then
          let victimIndex := CacheSet_getLRUIndex set in
          match CacheSet_getLine victimIndex set with
          | Some victimLine =>
              if CacheLine_isValid victimLine then
                let victimAddress :=
                  Z.lor (u32 (Z.shiftl (CacheLine_getTag victimLine)
                                (Cache_setIndexBits self + Cache_blockOffsetBits self)))
                        (u32 (Z.shiftl setIndex (Cache_blockOffsetBits self))) in
                let '(cs, cy) :=
                  Cache_evictLine me setIndex victimIndex victimAddress cycles caches in
                (alter (Cache_updStats (Statistics_incrementEvictions 1)) me cs, cy)
              else (caches, cycles)
          | None => (caches, cycles)
          end
        else (caches, cycles) in
      let newState :=
        if isWrite then MODIFIED
        else if busresponse then SHARED else EXCLUSIVE in
      let install (c : Cache) : Cache :=
        let '(lineIndex, set') :=
          CacheSet_allocateLine tag (Cache_getSet c setIndex) in
        Cache_with_isBlocked false
          (Cache_setLineState setIndex lineIndex newState
             (Cache_updSet setIndex (λ _, set') c)) in
      (alter install me caches1, cycles1)
  end.

(** [Cache::read(address, cycles)] on cache [me]: the store after the
    call, the returned [bool] and [cycles] after the call. *)
Definition Cache_read (me : nat) (address : Z) (cycles : Z) (sys : System)
    : System * bool * Z :=
  match System_caches sys !! me with
  | None => (sys, false, cycles)
  | Some self =>
      if Cache_isBlocked self then (sys, false, cycles) else
      let c1 := Cache_updStats
                  (λ s, Statistics_incrementReads 1 (Statistics_incrementAccesses 1 s))
                  self in
      let '(hit, c2) := Cache_lookupAndUpdate address false c1 in
      if hit then
        (mkSystem (<[me := c2]> (System_caches sys)) (System_bus sys), true, 1)
      else
        let c3 := Cache_with_isBlocked true
                    (Cache_updStats (Statistics_incrementReadMisses 1) c2) in
        let sys1 := mkSystem (<[me := c3]> (System_caches sys)) (System_bus sys) in
        let '(sys2, success, dataProvided, busCycles) :=
          Bus_busOperation BusRd address (Cache_coreId self) false 0 sys1 in
        let '(caches3, busCycles') :=
          Cache_allocateLine me address false busCycles
            (success && dataProvided) (System_caches sys2) in
        let caches4 :=
          alter (λ c, Cache_with_blockedCycles
                        (Cache_blockedCycles c + (busCycles' - 1)) c)
                me caches3 in
        (mkSystem caches4 (System_bus sys2), true, cycles + busCycles')
  end.

(** [Cache::write(address, cycles)] on cache [me]. *)
Definition Cache_write (me : nat) (address : Z) (cycles : Z) (sys : System)
    : System * bool * Z :=
  match System_caches sys !! me with
  | None => (sys, false, cycles)
  | Some self =>
      if Cache_isBlocked self then (sys, false, cycles) else
      let c1 := Cache_updStats
                  (λ s, Statistics_incrementWrites 1 (Statistics_incrementAccesses 1 s))
                  self in
      let '(hit, c2) := Cache_lookupAndUpdate address true c1 in
      let sys1 := mkSystem (<[me := c2]> (System_caches sys)) (System_bus sys) in
      if hit then
        let tag := Cache_getTag c2 address in
        let setIndex := Cache_getSetIndex c2 address in
        let set := Cache_getSet c2 setIndex in
        match CacheSet_findLine tag set with
        | None => (sys1, true, cycles)
        | Some lineIndex =>
            let state :=
              from_option CacheLine_getState INVALID
                (CacheSet_getLine lineIndex set) in
            match state with
            | SHARED =>
                let '(sys2, _, _, busCycles) :=
                  Bus_busOperation BusUpgr address (Cache_coreId self) false 0 sys1 in
                (mkSystem
                   (alter (Cache_setLineState setIndex lineIndex MODIFIED) me
                          (System_caches sys2))
                   (System_bus sys2),
                 true, cycles + busCycles)
            | EXCLUSIVE =>
                (mkSystem
                   (alter (Cache_setLineState setIndex lineIndex MODIFIED) me
                          (System_caches sys1))
                   (System_bus sys1),
                 true, cycles)
            | _ => (sys1, true, cycles)
            end
        end
      else
        let c3 := Cache_with_isBlocked true
                    (Cache_updStats (Statistics_incrementWriteMisses 1) c2) in
        let sys1' := mkSystem (<[me := c3]> (System_caches sys)) (System_bus sys) in
        let evictionCycles := 0 in
        let '(sys2, success, dataProvided, busCycles) :=
          Bus_busOperation BusRdX address (Cache_coreId self) false evictionCycles sys1' in
        let '(caches3, busCycles') :=
          Cache_allocateLine me address true busCycles
            (success && dataProvided) (System_caches sys2) in
        let caches4 :=
          alter (Cache_with_blockedCycles
                   (if 0 <? busCycles' then busCycles' - 1 else 0))
                me caches3 in
        (mkSystem caches4 (System_bus sys2), true, cycles + busCycles')
  end.

(** ** Trace input: the [std::ifstream] of a processor and the parsing
    primitives [std::getline], [operator>>] and [std::stoul] *)

Inductive exn := invalid_argument | out_of_range.

(** The outcome of code that may throw. *)
Inductive result (A : Type) :=
| Ok (a : A)
| Throw (e : exn).
Arguments Ok {A} a.
Arguments Throw {A} e.

Definition result_bind {A B : Type} (r : result A) (k : A → result B) : result B :=
  match r with
  | Ok a => k a
  | Throw e => Throw e
  end.

(** The stream: whether the file could be opened, the bytes not yet read,
    and [eofbit].  ([failbit] is only ever set together with [eofbit].) *)
Record ifstream := mkIfstream {
  ifstream_is_open : bool;
  ifstream_buffer : string;
  ifstream_eof : bool
}.

(** [traceFile.open(path)]: [None] is a file that cannot be opened. *)
Definition ifstream_open (file : option string) : ifstream :=
  match file with
  | Some content => mkIfstream true content false
  | None => mkIfstream false EmptyString false
  end.

Definition newline : ascii := ascii_of_nat 10.

(** Characters up to the first newline, and the rest after it when there
    is one. *)
Fixpoint read_line (s : string) : string * option string :=
  match s with
  | EmptyString => (EmptyString, None)
  | String c rest =>
      if Ascii.eqb c newline then (EmptyString, Some rest)
      else let '(l, r) := read_line rest in (String c l, r)
  end.

(** [std::getline(traceFile, line)] on a stream without error bits:
    nothing left sets [eofbit] (and fails); a last line without newline is
    delivered and sets [eofbit]. *)
Definition getline (f : ifstream) : option string * ifstream :=
  match ifstream_buffer f with
  | EmptyString => (None, mkIfstream (ifstream_is_open f) EmptyString true)
  | buf =>
      match read_line buf with
      | (l, Some rest) => (Some l, mkIfstream (ifstream_is_open f) rest (ifstream_eof f))
      | (l, None) => (Some l, mkIfstream (ifstream_is_open f) EmptyString true)
      end
  end.

(** [std::isspace] in the C locale. *)
Definition isspace (c : ascii) : bool :=
  let n := nat_of_ascii c in
  (n =? 32)%nat || ((9 <=? n)%nat && (n <=? 13)%nat).

Fixpoint skip_ws (s : string) : string :=
  match s with
  | EmptyString => EmptyString
  | String c rest => if isspace c then skip_ws rest else s
  end.

(** The maximal run of non-space characters at the head of [s]. *)
Fixpoint read_token (s : string) : string * string :=
  match s with
  | EmptyString => (EmptyString, EmptyString)
  | String c rest =>
      if isspace c then (EmptyString, s)
      else let '(t, r) := read_token rest in (String c t, r)
  end.

(** [iss >> opType >> addressStr]: [None] when an extraction fails. *)
Definition parse_fields (line : string) : option (ascii * string) :=
  match skip_ws line with
  | EmptyString => None
  | String opType rest =>
      match read_token (skip_ws rest) with
      | (EmptyString, _) => None
      | (addressStr, _) => Some (opType, addressStr)
      end
  end.

(** The value of a digit character in bases up to 36. *)
Definition digit_value (c : ascii) : option Z :=
  let n := Z.of_nat (nat_of_ascii c) in
  if (48 <=? n) && (n <=? 57) then Some (n - 48)
  else if (97 <=? n) && (n <=? 122) then Some (n - 87)
  else if (65 <=? n) && (n <=? 90) then Some (n - 55)
  else None.

(** The longest prefix of digits of [base]: its value, [None] when there
    is no digit at all. *)
Fixpoint read_digits (base : Z) (s : string) (acc : option Z) : option Z :=
  match s with
  | EmptyString => acc
  | String c rest =>
      match digit_value c with
      | Some d =>
          if d <? base
          then read_digits base rest (Some (default 0 acc * base + d))
          else acc
      | None => acc
      end
  end.

Definition is_hex_digit (c : ascii) : bool :=
  match digit_value c with
  | Some d => d <? 16
  | None => false
  end.

(** [std::stoul(str, nullptr, base)] with a 64-bit [unsigned long]:
    optional blanks and sign, for base 16 an optional [0x]/[0X] that is
    followed by a hexadecimal digit, then the digits; no digit throws
    [std::invalid_argument], a magnitude above [ULONG_MAX] throws
    [std::out_of_range], a minus sign negates modulo 2^64. *)
Definition stoul (str : string) (base : Z) : result Z :=
  let s0 := skip_ws str in
  let '(negative, s1) :=
    match s0 with
    | String "-" r => (true, r)
    | String "+" r => (false, r)
    | _ => (false, s0)
    end in
  let s2 :=
    match s1 with
    | String "0" (String x (String h r)) =>
        if (base =? 16) && (Ascii.eqb x "x" || Ascii.eqb x "X") && is_hex_digit h
        then String h r else s1
    | _ => s1
    end in
  match read_digits base s2 None with
  | None => Throw invalid_argument
  | Some v =>
      if 2 ^ 64 <=? v then Throw out_of_range
      else Ok (if negative then u64 (- v) else v)
  end.

(** ** Processor (Processor.h, Processor.cpp) *)

Inductive MemoryOperation := READ | WRITE.

Record MemoryReference := mkMemoryReference {
  MemoryReference_operation : MemoryOperation;
  MemoryReference_address : Z
}.

(** [cache] is the handle of the processor's cache in the store ([None]
    before [setCache]); [Processor_cerr] collects what the processor wrote
    to [std::cerr]. *)
Record Processor := mkProcessor {
  Processor_coreId : nat;
  Processor_cache : option nat;
  Processor_traceFile : ifstream;
  Processor_pendingReferences : list MemoryReference;
  Processor_totalInstructions : Z;
  Processor_readInstructions : Z;
  Processor_writeInstructions : Z;
  Processor_totalCycles : Z;
  Processor_idleCycles : Z;
  Processor_traceComplete : bool;
  Processor_blocked : bool;
  Processor_cerr : list string
}.

Definition Processor_with_traceFile (f : ifstream) (p : Processor) : Processor :=
  let 'mkProcessor id c _ q ti ri wi tc ic done bl err := p in
  mkProcessor id c f q ti ri wi tc ic done bl err.
Definition Processor_with_pending (q : list MemoryReference) (p : Processor) : Processor :=
  let 'mkProcessor id c f _ ti ri wi tc ic done bl err := p in
  mkProcessor id c f q ti ri wi tc ic done bl err.
Definition Processor_with_traceComplete (done : bool) (p : Processor) : Processor :=
  let 'mkProcessor id c f q ti ri wi tc ic _ bl err := p in
  mkProcessor id c f q ti ri wi tc ic done bl err.
Definition Processor_with_blocked (bl : bool) (p : Processor) : Processor :=
  let 'mkProcessor id c f q ti ri wi tc ic done _ err := p in
  mkProcessor id c f q ti ri wi tc ic done bl err.
Definition Processor_with_totalCycles (tc : Z) (p : Processor) : Processor :=
  let 'mkProcessor id c f q ti ri wi _ ic done bl err := p in
  mkProcessor id c f q ti ri wi tc ic done bl err.
Definition Processor_with_idleCycles (ic : Z) (p : Processor) : Processor :=
  let 'mkProcessor id c f q ti ri wi tc _ done bl err := p in
  mkProcessor id c f q ti ri wi tc ic done bl err.
Definition Processor_print_cerr (msg : string) (p : Processor) : Processor :=
  let 'mkProcessor id c f q ti ri wi tc ic done bl err := p in
  mkProcessor id c f q ti ri wi tc ic done bl (err ++ [msg]).
(** [readInstructions++; totalInstructions++] *)
Definition Processor_countRead (p : Processor) : Processor :=
  let 'mkProcessor id c f q ti ri wi tc ic done bl err := p in
  mkProcessor id c f q (ti + 1) (ri + 1) wi tc ic done bl err.
(** [writeInstructions++; totalInstructions++] *)
Definition Processor_countWrite (p : Processor) : Processor :=
  let 'mkProcessor id c f q ti ri wi tc ic done bl err := p in
  mkProcessor id c f q (ti + 1) ri (wi + 1) tc ic done bl err.

Definition Processor_setCache (newCache : nat) (p : Processor) : Processor :=
  let 'mkProcessor id _ f q ti ri wi tc ic done bl err := p in
  mkProcessor id (Some newCache) f q ti ri wi tc ic done bl err.

Definition Processor_isTraceComplete (p : Processor) : bool := Processor_traceComplete p.
Definition Processor_isBlocked (p : Processor) : bool := Processor_blocked p.

(** [Processor::resetStatistics] *)
Definition Processor_resetStatistics (p : Processor) : Processor :=
  let 'mkProcessor id c f q _ _ _ _ _ done _ err := p in
  mkProcessor id c f q 0 0 0 0 0 done false err.

(** [Processor::loadNextReference]: the returned [bool] and the processor
    after the call; [Throw] when [std::stoul] throws. *)
Definition Processor_loadNextReference (p : Processor) : result (bool * Processor) :=
  let traceFile := Processor_traceFile p in
  if ifstream_eof traceFile || negb (ifstream_is_open traceFile) then Ok (false, p)
  else
    let '(got, traceFile') := getline traceFile in
    let p1 := Processor_with_traceFile traceFile' p in
    (* the code after the [if (std::getline ...)] block *)
    let fallthrough :=
      if ifstream_eof traceFile' &&
         bool_decide (Processor_pendingReferences p1 = [])
      then Ok (false, Processor_with_traceComplete true p1)
      else Ok (false, p1) in
    match got with
    | None => fallthrough
    | Some line =>
        match parse_fields line with
        | None => fallthrough
        | Some (opType, addressStr) =>
            let enqueue (op : MemoryOperation) : result (bool * Processor) :=
              result_bind
                (if String.prefix "0x" addressStr
                 then stoul addressStr 16 else stoul addressStr 10)
                (λ v, Ok (true,
                          Processor_with_pending
                            (Processor_pendingReferences p1 ++
                               [mkMemoryReference op (u32 v)]) p1)) in
            if Ascii.eqb opType "R" || Ascii.eqb opType "r" then enqueue READ
            else if Ascii.eqb opType "W" || Ascii.eqb opType "w" then enqueue WRITE
            else Ok (false,
                     Processor_print_cerr
                       ("Error: Unknown operation type: " ++ String opType EmptyString)
                       p1)
        end
    end.

(** The loops [for (i = 0; i < n && loadNextReference(); i++) {}] of the
    constructor (n = 10) and of [executeCycle] (n = 5). *)
Fixpoint Processor_preload (n : nat) (p : Processor) : result Processor :=
  match n with
  | O => Ok p
  | S n' =>
      match Processor_loadNextReference p with
      | Ok (true, p') => Processor_preload n' p'
      | Ok (false, p') => Ok p'
      | Throw e => Throw e
      end
  end.

(** [Processor::Processor(coreId, traceFilePath)]; [file] is what the file
    system holds at [traceFilePath]. *)
Definition Processor_new (coreId : nat) (traceFilePath : string)
    (file : option string) : result Processor :=
  let traceFile := ifstream_open file in
  let p0 := mkProcessor coreId None traceFile [] 0 0 0 0 0 false false [] in
  let p1 :=
    if negb (ifstream_is_open traceFile)
    then Processor_with_traceComplete true
           (Processor_print_cerr
              ("Error: Could not open trace file: " ++ traceFilePath) p0)
    else p0 in
  Processor_preload 10 p1.

(** [cache->isBlocking()] through the processor's handle. *)
Definition Processor_cacheIsBlocking (p : Processor) (sys : System) : bool :=
  match Processor_cache p with
  | Some h => from_option Cache_isBlocking false (System_caches sys !! h)
  | None => false
  end.

(** [Processor::executeCycle]: the returned [bool], the processor and the
    store after the call. *)
Definition Processor_executeCycle (p : Processor) (sys : System)
    : result (bool * Processor * System) :=
  let p1 := Processor_with_totalCycles (Processor_totalCycles p + 1) p in
  if Processor_blocked p1 && Processor_cacheIsBlocking p1 sys then
    Ok (false, Processor_with_idleCycles (Processor_idleCycles p1 + 1) p1, sys)
  else
    let p2 := if Processor_blocked p1 then Processor_with_blocked false p1 else p1 in
    result_bind
      (if bool_decide (Processor_pendingReferences p2 = [])
       then Processor_loadNextReference p2 else Ok (true, p2))
      (λ '(loaded, p3),
         if negb loaded then
           Ok (false,
               Processor_with_totalCycles (Processor_totalCycles p3 - 1)
                 (Processor_with_traceComplete true p3),
               sys)
         else
           match Processor_pendingReferences p3, Processor_cache p3 with
           | ref :: rest, Some h =>
               let p4 := Processor_with_pending rest p3 in
               let cycles := 0 in
               let '(sys', success, cycles') :=
                 match MemoryReference_operation ref with
                 | READ => Cache_read h (MemoryReference_address ref) cycles sys
                 | WRITE => Cache_write h (MemoryReference_address ref) cycles sys
                 end in
               let p5 :=
                 if success then
                   match MemoryReference_operation ref with
                   | READ => Processor_countRead p4
                   | WRITE => Processor_countWrite p4
                   end
                 else p4 in
               let p6 :=
                 if success && (1 <? cycles') then
                   Processor_with_idleCycles (Processor_idleCycles p5 + cycles')
                     (Processor_with_blocked true p5)
                 else p5 in
               result_bind
                 (if (length (Processor_pendingReferences p6) <? 5)%nat
                  then Processor_preload 5 p6 else Ok p6)
                 (λ p7, Ok (success, p7, sys'))
           | _, _ => Ok (false, p3, sys)
           end).

(** ** Simulator (Simulator.h, Simulator.cpp) *)

Record Simulator := mkSimulator {
  Simulator_numCores : nat;
  Simulator_processors : list Processor;
  Simulator_system : System;
  Simulator_currentCycle : Z;
  Simulator_simulationComplete : bool
}.

(** The file system seen by the constructor. *)
Definition FileSystem := string → option string.

Definition tracePath (tracePrefix : string) (i : nat) : string :=
  tracePrefix ++ "_proc" ++ pretty i ++ ".trace".

(** The construction loop of [Simulator::Simulator] from core [i] on, for
    [n] more cores: processor [i] reads its trace, cache [i] registers
    itself with the bus in slot [i] and becomes the processor's cache. *)
Fixpoint Simulator_build (fs : FileSystem) (tracePrefix : string)
    (setIndexBits associativity blockOffsetBits : Z) (i n : nat)
    : result (list Processor * list Cache) :=
  match n with
  | O => Ok ([], [])
  | S n' =>
      let path := tracePath tracePrefix i in
      result_bind (Processor_new i path (fs path)) (λ p,
      let c := Cache_new i setIndexBits associativity blockOffsetBits in
      result_bind
        (Simulator_build fs tracePrefix setIndexBits associativity
           blockOffsetBits (S i) n')
        (λ '(ps, cs), Ok (Processor_setCache i p :: ps, c :: cs)))
  end.

Definition Simulator_new (fs : FileSystem) (tracePrefix : string)
    (setIndexBits associativity blockOffsetBits : Z) (numCores : nat)
    : result Simulator :=
  result_bind
    (Simulator_build fs tracePrefix setIndexBits associativity blockOffsetBits
       0 numCores)
    (λ '(ps, cs), Ok (mkSimulator numCores ps (mkSystem cs Bus_new) 0 false)).

(** [Simulator::initialize]; [Bus::connectCaches] hands every cache the
    roster, which in the model is the store. *)
Definition Simulator_initialize (sim : Simulator) : Simulator :=
  mkSimulator (Simulator_numCores sim)
    (Processor_resetStatistics <$> Simulator_processors sim)
    (mkSystem
       (Cache_with_stats Statistics_reset <$> System_caches (Simulator_system sim))
       (Bus_resetStatistics (System_bus (Simulator_system sim))))
    0 false.

Definition Simulator_allProcessorsComplete (sim : Simulator) : bool :=
  forallb Processor_isTraceComplete (Simulator_processors sim).

(** The loop of [checkForDeadlock] with its [break]:
    ([allBlockedOrComplete], [anyBlocked]). *)
Fixpoint deadlock_scan (ps : list Processor) (anyBlocked : bool) : bool * bool :=
  match ps with
  | [] => (true, anyBlocked)
  | p :: rest =>
      if negb (Processor_isTraceComplete p) then
        if Processor_isBlocked p then deadlock_scan rest true
        else (false, anyBlocked)
      else deadlock_scan rest anyBlocked
  end.

(** [Simulator::resolveDeadlock] *)
Definition Simulator_resolveDeadlock (sim : Simulator) : Simulator :=
  let sys := Simulator_system sim in
  let caches' :=
    foldl (λ cs p,
             if Processor_isBlocked p
             then alter Cache_unblock (Processor_coreId p) cs else cs)
          (System_caches sys) (Simulator_processors sim) in
  mkSimulator (Simulator_numCores sim) (Simulator_processors sim)
    (mkSystem caches' (Bus_reset (System_bus sys)))
    (Simulator_currentCycle sim) (Simulator_simulationComplete sim).

(** [Simulator::checkForDeadlock] *)
Definition Simulator_checkForDeadlock (sim : Simulator) : Simulator :=
  let '(allBlockedOrComplete, anyBlocked) :=
    deadlock_scan (Simulator_processors sim) false in
  if allBlockedOrComplete && anyBlocked &&
     negb (Bus_isBusy (System_bus (Simulator_system sim)))
  then Simulator_resolveDeadlock sim else sim.

(** The processor loop of [runCycles]: every processor whose trace is not
    complete executes one cycle, in core order, on the shared store. *)
Fixpoint Simulator_stepProcessors (ps : list Processor) (sys : System)
    : result (list Processor * System) :=
  match ps with
  | [] => Ok ([], sys)
  | p :: rest =>
      result_bind
        (if negb (Processor_isTraceComplete p)
         then result_bind (Processor_executeCycle p sys)
                (λ '(_, p', sys'), Ok (p', sys'))
         else Ok (p, sys))
        (λ '(p', sys'),
           result_bind (Simulator_stepProcessors rest sys')
             (λ '(rest', sys''), Ok (p' :: rest', sys'')))
  end.

(** One iteration of the loop of [Simulator::runCycles].  The final test
    [currentCycle > 2147483647] is never true of an [int]. *)
Definition Simulator_tick (sim : Simulator) : result Simulator :=
  let currentCycle := Simulator_currentCycle sim + 1 in
  let sys1 := Bus_processCycle (Simulator_system sim) in
  result_bind (Simulator_stepProcessors (Simulator_processors sim) sys1)
    (λ '(ps, sys2),
       let sim1 := mkSimulator (Simulator_numCores sim) ps sys2 currentCycle false in
       let sim2 := mkSimulator (Simulator_numCores sim) ps sys2 currentCycle
                     (Simulator_allProcessorsComplete sim1) in
       Ok (Simulator_checkForDeadlock sim2)).

(** [Simulator::runCycles(numCycles)] *)
Fixpoint Simulator_runCycles (numCycles : nat) (sim : Simulator) : result Simulator :=
  match numCycles with
  | O => Ok sim
  | S n =>
      if Simulator_simulationComplete sim then Ok sim
      else result_bind (Simulator_tick sim) (Simulator_runCycles n)
  end.

(** [Simulator::collectStatistics] into a freshly reset [globalStats]. *)
Definition Simulator_collectStatistics (sim : Simulator) : Statistics :=
  let g1 :=
    foldl (λ g p,
             Statistics_incrementWriteInstructions (Processor_writeInstructions p)
               (Statistics_incrementReadInstructions (Processor_readInstructions p)
                  (Statistics_incrementTotalInstructions
                     (Processor_totalInstructions p) g)))
          Statistics_reset (Simulator_processors sim) in
  let g2 :=
    foldl (λ g c,
             let s := Cache_stats c in
             Statistics_incrementBusTraffic (Statistics_busTraffic s)
               (Statistics_incrementInvalidations (Statistics_invalidations s)
                  (Statistics_incrementWritebacks (Statistics_writebacks s)
                     (Statistics_incrementEvictions (Statistics_evictions s)
                        (Statistics_incrementMisses (Statistics_misses s)
                           (Statistics_incrementAccesses (Statistics_accesses s) g))))))
          g1 (System_caches (Simulator_system sim)) in
  let b := Bus_stats (System_bus (Simulator_system sim)) in
  Statistics_incrementInvalidations (Statistics_invalidations b)
    (Statistics_incrementBusTraffic (Statistics_busTraffic b)
       (Statistics_incrementBusFlushes (Statistics_busFlushes b)
          (Statistics_incrementBusUpgrades (Statistics_busUpgrades b)
             (Statistics_incrementBusReadXs (Statistics_busReadXs b)
                (Statistics_incrementBusReads (Statistics_busReads b) g2))))).

(** ** Vocabulary of the coherence properties *)

(** The MESI state in which a set holds the block with tag [tag]: the
    state of the line that [findLine] returns, INVALID when there is none
    (the body of [Cache::getCacheLineState]). *)
Definition set_state (tag : Z) (cs : CacheSet) : CacheState :=
  match CacheSet_findLine tag cs with
  | None => INVALID
  | Some lineIndex =>
      match CacheSet_getLine lineIndex cs with
      | Some line => CacheLine_getState line
      | None => INVALID
      end
  end.

(** The state in which cache [c] holds the block (set [setIndex], [tag]). *)
Definition block_state (c : Cache) (setIndex : nat) (tag : Z) : CacheState :=
  set_state tag (default (mkCacheSet [] []) (Cache_sets c !! setIndex)).

(** Within a set, distinct valid lines have distinct tags. *)
Definition tags_unique (cs : CacheSet) : Prop :=
  ∀ i j li lj,
    CacheSet_lines cs !! i = Some li → CacheSet_lines cs !! j = Some lj →
    CacheLine_isValid li = true → CacheLine_isValid lj = true →
    CacheLine_getTag li = CacheLine_getTag lj → i = j.

(** Structure of a set in a cache with [s] index bits and [b] offset
    bits: at least one way, one LRU counter per line, unique valid tags, and
    the tag of a valid line is the tag of some 32-bit address. *)
Record CacheSet_ok (s b : Z) (cs : CacheSet) : Prop := {
  ok_ways : (0 < length (CacheSet_lines cs))%nat;
  ok_lru : length (CacheSet_lruCounter cs) = length (CacheSet_lines cs);
  ok_unique : tags_unique cs;
  ok_tags : ∀ i l, CacheSet_lines cs !! i = Some l →
                   CacheLine_isValid l = true →
                   0 ≤ CacheLine_getTag l < 2 ^ (32 - (s + b))
}.

(** Structure of the cache in slot [i] of the store. *)
Record Cache_ok (s b : Z) (i : nat) (c : Cache) : Prop := {
  ok_coreId : Cache_coreId c = i;
  ok_setIndexBits : Cache_setIndexBits c = s;
  ok_blockOffsetBits : Cache_blockOffsetBits c = b;
  ok_numSets : length (Cache_sets c) = Z.to_nat (2 ^ s);
  ok_sets : ∀ n cs, Cache_sets c !! n = Some cs → CacheSet_ok s b cs
}.

Definition caches_ok (s b : Z) (caches : list Cache) : Prop :=
  ∀ i c, caches !! i = Some c → Cache_ok s b i c.

(** (P1) A block that some cache holds in MODIFIED or EXCLUSIVE is held
    by no other cache in a valid state. *)
Definition exclusivity (caches : list Cache) : Prop :=
  ∀ i j ci cj setIndex tag,
    i ≠ j → caches !! i = Some ci → caches !! j = Some cj →
    block_state ci setIndex tag = MODIFIED ∨
    block_state ci setIndex tag = EXCLUSIVE →
    block_state cj setIndex tag = INVALID.

(** (P1) in terms of addresses and [Cache::getCacheLineState]. *)
Definition exclusivity_by_address (caches : list Cache) : Prop :=
  ∀ i j ci cj address,
    i ≠ j → caches !! i = Some ci → caches !! j = Some cj →
    Cache_getCacheLineState address ci = MODIFIED ∨
    Cache_getCacheLineState address ci = EXCLUSIVE →
    Cache_getCacheLineState address cj = INVALID.

(** The invariant of the store between two accesses. *)
Record System_ok (s b : Z) (sys : System) : Prop := {
  sys_caches_ok : caches_ok s b (System_caches sys);
  sys_exclusive : exclusivity (System_caches sys);
  sys_not_busy : Bus_busy (System_bus sys) = false;
  sys_no_pending : Bus_pendingTransactions (System_bus sys) = []
}.

Definition address_ok (address : Z) : Prop := 0 ≤ address < 2 ^ 32.

(** The invariant of the simulator between two ticks: the store is
    coherent and every queued reference carries a 32-bit address. *)
Definition refs_ok (p : Processor) : Prop :=
  Forall (λ r, address_ok (MemoryReference_address r))
         (Processor_pendingReferences p).

Record Simulator_ok (s b : Z) (sim : Simulator) : Prop := {
  sim_system_ok : System_ok s b (Simulator_system sim);
  sim_refs_ok : Forall refs_ok (Simulator_processors sim)
}.

(** What a snoop of [op] makes of a line in state [st]. *)
Definition snoop_next (op : BusOperation) (st : CacheState) : CacheState :=
  match op with
  | BusRd => match st with INVALID => INVALID | _ => SHARED end
  | BusRdX | BusUpgr => INVALID
  | Flush | FlushOpt => st
  end.

(** Whether a snoop of [op] that finds the line in state [st] sets
    [providedData]. *)
Definition snoop_provides (op : BusOperation) (st : CacheState) : bool :=
  match op, st with
  | (BusRd | BusRdX), (MODIFIED | EXCLUSIVE | SHARED) => true
  | BusUpgr, (MODIFIED | EXCLUSIVE) => true
  | _, _ => false
  end.

(** The set index and the tag of an address in a cache with [s] index
    bits and [b] offset bits ([getSetIndex], [getTag]). *)
Definition address_set (s b address : Z) : nat :=
  Z.to_nat (Z.land (Z.shiftr address b) (Z.shiftl 1 s - 1)).
Definition address_tag (s b address : Z) : Z := Z.shiftr address (s + b).

(** The store [caches'] holds the caches of [caches] slot by slot, every
    block state rewritten by [F] (slot, set index, tag, old state). *)
Definition store_rel (s b : Z)
    (F : nat → nat → Z → CacheState → CacheState)
    (caches caches' : list Cache) : Prop :=
  length caches' = length caches ∧
  ∀ k c, caches !! k = Some c →
    ∃ c', caches' !! k = Some c' ∧ Cache_ok s b k c' ∧
          ∀ n tag, block_state c' n tag = F k n tag (block_state c n tag).

(** [F] for a change of one block in one slot. *)
Definition point_update (me setIndex : nat) (tag : Z) (st : CacheState)
    : nat → nat → Z → CacheState → CacheState :=
  λ k n tag' old,
    if decide (k = me ∧ n = setIndex ∧ tag' = tag) then st else old.

(** [F] for the snoop pass of a transaction of [op] from [src] on the
    block ([setIndex], [tag]). *)
Definition snoop_update (op : BusOperation) (src setIndex : nat) (tag : Z)
    : nat → nat → Z → CacheState → CacheState :=
  λ k n tag' old,
    if decide (k ≠ src ∧ n = setIndex ∧ tag' = tag) then snoop_next op old else old.

(** The cycles that [allocateLine] adds for the victim of an access to
    [address]: 100 when the set is full and the LRU line is MODIFIED. *)
Definition eviction_cycles (self : Cache) (address : Z) : Z :=
  let set := Cache_getSet self (Cache_getSetIndex self address) in
  if CacheSet_isFull set then
    match CacheSet_getLine (CacheSet_getLRUIndex set) set with
    | Some victimLine => if CacheLine_isdirty victimLine then 100 else 0
    | None => 0
    end
  else 0.

(** The state that [allocateLine] gives the new line. *)
Definition allocated_state (isWrite busresponse : bool) : CacheState :=
  if isWrite then MODIFIED else if busresponse then SHARED else EXCLUSIVE.

(** ** Scenarios *)

(** The store right after construction: [numCores] empty caches on an
    idle bus. *)
Definition fresh_system (s E b : Z) (numCores : nat) : System :=
  mkSystem ((λ i, Cache_new i s E b) <$> seq 0 numCores) Bus_new.

(** One reference offered to the cache of [core] the way
    [Processor::executeCycle] does it, with [cycles] starting at 0. *)
Definition access (op : MemoryOperation) (core : nat) (address : Z)
    (sys : System) : System * bool * Z :=
  match op with
  | READ => Cache_read core address 0 sys
  | WRITE => Cache_write core address 0 sys
  end.

(** A sequence of references, one after the other. *)
Definition run_accesses (refs : list (nat * MemoryOperation * Z)) (sys : System)
    : System :=
  foldl (λ sys ref, (access ref.1.2 ref.1.1 ref.2 sys).1.1) sys refs.

(** The sum of a counter over all caches. *)
Definition sum_caches (counter : Statistics → Z) (sys : System) : Z :=
  foldr (λ c acc, counter (Cache_stats c) + acc) 0 (System_caches sys).

(** A trace file from its lines, each ended by a newline. *)
Definition trace_file (lines : list string) : string :=
  foldr (λ l rest, l +:+ String newline rest) EmptyString lines.

(** A file system that holds the given traces of cores 0, 1, ... under
    the prefix [app] and nothing else. *)
Definition trace_fs (traces : list (list string)) : FileSystem :=
  λ path,
    foldr (λ t found,
             if String.eqb path (tracePath "app" t.1)
             then Some (trace_file t.2) else found)
          None (imap (λ i t, (i, t)) traces).

(** [Simulator::Simulator], [initialize] and [runCycles(numCycles)] on the
    configuration s = 1, E = 2, b = 5 with the default four cores. *)
Definition simulate (traces : list (list string)) (numCycles : nat)
    : result Simulator :=
  result_bind (Simulator_new (trace_fs traces) "app" 1 2 5 4)
    (λ sim, Simulator_runCycles numCycles (Simulator_initialize sim)).

(** Whether a snoop of [op] on a line in state [st] records a writeback. *)
Definition snoop_writes_back (op : BusOperation) (st : CacheState) : bool :=
  match op, st with
  | (BusRd | BusRdX), MODIFIED => true
  | _, _ => false
  end.

(** Scenario 6: two cores write alternately to two words of one block. *)
Definition false_sharing : list (nat * MemoryOperation * Z) :=
  [(0%nat, WRITE, 0); (1%nat, WRITE, 4); (0%nat, WRITE, 0); (1%nat, WRITE, 4)].

(** The same scenario as trace files of cores 0 and 1. *)
Definition false_sharing_traces : list (list string) :=
  [["W 0x00"; "W 0x00"]; ["W 0x04"; "W 0x04"]].

(** ** Vocabulary of the frame properties *)

(** A property of a cache's counters that every counter update made by
    [Cache::read], [Cache::write], [Cache::snoop], [Cache::evictLine] and
    [Cache::allocateLine] keeps. *)
Record stats_stable (Sinv : Statistics → Prop) : Prop := {
  stable_accesses : ∀ st, Sinv st → Sinv (Statistics_incrementAccesses 1 st);
  stable_reads : ∀ st, Sinv st → Sinv (Statistics_incrementReads 1 st);
  stable_writes : ∀ st, Sinv st → Sinv (Statistics_incrementWrites 1 st);
  stable_readMisses : ∀ st, Sinv st → Sinv (Statistics_incrementReadMisses 1 st);
  stable_writeMisses : ∀ st, Sinv st → Sinv (Statistics_incrementWriteMisses 1 st);
  stable_evictions : ∀ st, Sinv st → Sinv (Statistics_incrementEvictions 1 st);
  stable_writebacks : ∀ st, Sinv st → Sinv (Statistics_incrementWritebacks 1 st);
  stable_invalidations :
    ∀ st, Sinv st → Sinv (Statistics_incrementInvalidations 1 st);
  stable_busTraffic :
    ∀ bytes st, Sinv st → Sinv (Statistics_incrementBusTraffic bytes st)
}.

(** What an operation leaves alone in a cache: its identity and geometry,
    and any stable property of its counters. *)
Definition cache_frame (Sinv : Statistics → Prop) (c c' : Cache) : Prop :=
  Cache_coreId c' = Cache_coreId c ∧
  Cache_blockSize c' = Cache_blockSize c ∧
  Cache_blockOffsetBits c' = Cache_blockOffsetBits c ∧
  Cache_setIndexBits c' = Cache_setIndexBits c ∧
  length (Cache_sets c') = length (Cache_sets c) ∧
  (Sinv (Cache_stats c) → Sinv (Cache_stats c')).

(** The frame together with [isBlocked]. *)
Definition cache_frame_b (Sinv : Statistics → Prop) (c c' : Cache) : Prop :=
  cache_frame Sinv c c' ∧ Cache_isBlocked c' = Cache_isBlocked c.

(** The frame of an access by cache [me]: only [me] may change its
    [isBlocked]. *)
Definition access_frame (Sinv : Statistics → Prop) (me k : nat)
    (c c' : Cache) : Prop :=
  cache_frame Sinv c c' ∧ (k ≠ me → Cache_isBlocked c' = Cache_isBlocked c).

(** The store [caches'] holds the caches of [caches] slot by slot, each
    related to its predecessor by [Q]. *)
Definition frame_rel (Q : nat → Cache → Cache → Prop)
    (caches caches' : list Cache) : Prop :=
  length caches' = length caches ∧
  ∀ k c c', caches !! k = Some c → caches' !! k = Some c' → Q k c c'.

(** No cache of the store is blocked. *)
Definition unblocked (caches : list Cache) : Prop :=
  ∀ k c, caches !! k = Some c → Cache_isBlocking c = false.

(** ** Vocabulary of the processor properties *)

(** What reading the trace leaves alone in a processor: its identity, its
    cache and all its counters. *)
Definition Processor_frame (p p' : Processor) : Prop :=
  Processor_coreId p' = Processor_coreId p ∧
  Processor_cache p' = Processor_cache p ∧
  Processor_totalInstructions p' = Processor_totalInstructions p ∧
  Processor_readInstructions p' = Processor_readInstructions p ∧
  Processor_writeInstructions p' = Processor_writeInstructions p ∧
  Processor_totalCycles p' = Processor_totalCycles p ∧
  Processor_idleCycles p' = Processor_idleCycles p ∧
  Processor_blocked p' = Processor_blocked p ∧
  (Processor_traceComplete p = true → Processor_traceComplete p' = true).

(** The work a processor has left: nothing once its trace is complete,
    otherwise one step for every queued reference and for every character
    of the trace not yet read, and one to notice the end. *)
Definition Processor_measure (p : Processor) : nat :=
  if Processor_traceComplete p then 0%nat
  else S (length (Processor_pendingReferences p) +
          String.length (ifstream_buffer (Processor_traceFile p))).

(** The counters of a processor agree: every executed instruction is a
    read or a write and has taken one counted cycle. *)
Definition Processor_counters_ok (p : Processor) : Prop :=
  Processor_totalInstructions p =
    Processor_readInstructions p + Processor_writeInstructions p ∧
  Processor_totalCycles p = Processor_totalInstructions p ∧
  0 ≤ Processor_readInstructions p ∧ 0 ≤ Processor_writeInstructions p.

(** The structure of the simulator between two ticks: processor [i] is
    wired to cache [i], no cache is blocked, the counters of every processor
    agree, and the counters of every cache satisfy [Sinv]. *)
Record Simulator_inv (Sinv : Statistics → Prop) (sim : Simulator) : Prop := {
  inv_wired :
    ∀ i p, Simulator_processors sim !! i = Some p →
           Processor_cache p = Some i ∧ Processor_coreId p = i ∧
           (i < length (System_caches (Simulator_system sim)))%nat;
  inv_unblocked : unblocked (System_caches (Simulator_system sim));
  inv_counters :
    ∀ i p, Simulator_processors sim !! i = Some p → Processor_counters_ok p;
  inv_stats :
    ∀ k c, System_caches (Simulator_system sim) !! k = Some c →
           Sinv (Cache_stats c)
}.

(** The ticks a simulation has left at most. *)
Definition Simulator_measure (sim : Simulator) : nat :=
  if Simulator_simulationComplete sim then 0%nat
  else S (sum_list (Processor_measure <$> Simulator_processors sim)).

(** The counters that one cache keeps agree among themselves: the misses
    are the read misses plus the write misses, the accesses counted as
    instructions are the reads plus the writes, and the four counters of
    bus operations, which only the bus updates, are zero. *)
Definition Statistics_consistent (st : Statistics) : Prop :=
  Statistics_misses st =
    u64 (Statistics_readMisses st + Statistics_writeMisses st) ∧
  Statistics_totalInstructions st =
    u64 (Statistics_readInstructions st + Statistics_writeInstructions st) ∧
  Statistics_busReads st = 0 ∧ Statistics_busReadXs st = 0 ∧
  Statistics_busUpgrades st = 0 ∧ Statistics_busFlushes st = 0.

(** [Simulator::runUntilCompletion]: the loop
    [while (!simulationComplete && currentCycle < MAX_CYCLES) runCycles(1)].
    [fuel] bounds the iterations; [None] is the loop still running when the
    fuel is used up. *)
Definition MAX_CYCLES : Z := 2147483647.

Fixpoint Simulator_runUntilCompletion (fuel : nat) (sim : Simulator)
    : result (option Simulator) :=
  if negb (Simulator_simulationComplete sim) &&
     (Simulator_currentCycle sim <? MAX_CYCLES)
  then
    match fuel with
    | O => Ok None
    | S fuel' =>
        result_bind (Simulator_runCycles 1 sim)
          (Simulator_runUntilCompletion fuel')
    end
  else Ok (Some sim).

(** The sum of a counter over all processors. *)
Definition sum_processors (counter : Processor → Z) (sim : Simulator) : Z :=
  foldr (λ p acc, counter p + acc) 0 (Simulator_processors sim).

(** ** The trace generator (matrix_vector_mult.cpp) *)

(** The digit that [std::hex] prints for a value below 16. *)
Definition hex_char (d : Z) : ascii :=
  if d <? 10 then ascii_of_nat (Z.to_nat (48 + d))
  else ascii_of_nat (Z.to_nat (87 + d)).

(** The digits of [n], most significant first, in front of [acc]; a 64-bit
    value has at most 16 of them. *)
Fixpoint hex_digits (fuel : nat) (n : Z) (acc : string) : string :=
  match fuel with
  | O => acc
  | S fuel' =>
      if n =? 0 then acc
      else hex_digits fuel' (n / 16) (String (hex_char (n mod 16)) acc)
  end.

(** [os << std::hex << value] for a [uintptr_t] of 64 bits: lower-case
    digits, no prefix, no padding. *)
Definition to_hex (n : Z) : string :=
  if n =? 0 then "0" else hex_digits 16 n "".

(** [traceAccess(traceFile, op, addr)]: the text appended to the trace. *)
Definition traceAccess (op : ascii) (addr : Z) : string :=
  String op (" 0x" +:+ to_hex addr +:+ String newline "").

(** The letter under which the generator records an operation. *)
Definition op_char (op : MemoryOperation) : ascii :=
  match op with READ => "R" | WRITE => "W" end.

(** Every character of a string satisfies [P]. *)
Fixpoint string_forall (P : ascii → Prop) (s : string) : Prop :=
  match s with
  | EmptyString => True
  | String c rest => P c ∧ string_forall P rest
  end.

(** A hexadecimal digit as [std::hex] prints it. *)
Definition is_hex_char (c : ascii) : Prop :=
  ∃ d, 0 ≤ d < 16 ∧ c = hex_char d.

(** ** TraceReader (TraceReader.h, TraceReader.cpp) *)

(** [TraceReader_cerr] collects what the reader wrote to [std::cerr]. *)
Record TraceReader := mkTraceReader {
  TraceReader_traceFilePath : string;
  TraceReader_traceFile : ifstream;
  TraceReader_fileOpen : bool;
  TraceReader_endOfFile : bool;
  TraceReader_referenceQueue : list MemoryReference;
  TraceReader_cerr : list string
}.

(** [std::toupper] in the C locale. *)
Definition toupper (c : ascii) : ascii :=
  let n := nat_of_ascii c in
  if (97 <=? n)%nat && (n <=? 122)%nat then ascii_of_nat (n - 32) else c.

(** [TraceReader::parseLine(line, reference)]: the reference when the call
    returns [true] ([None] for [false], which leaves [reference] alone) and
    what it printed on [std::cerr]. *)
Definition TraceReader_parseLine (traceFilePath line : string)
    : option MemoryReference * list string :=
  match line with
  | EmptyString => (None, [])
  | String c _ =>
      if Ascii.eqb c "#" then (None, []) else
      match parse_fields line with
      | None => (None, [])
      | Some (opType0, addressStr) =>
          let opType := toupper opType0 in
          let parse (op : MemoryOperation) :=
            match (if String.prefix "0x" addressStr || String.prefix "0X" addressStr
                   then stoul addressStr 16 else stoul addressStr 10) with
            | Ok v => (Some (mkMemoryReference op (u32 v)), [])
            | Throw _ =>
                (None, ["Error: Failed to parse address: " +:+ addressStr +:+
                        " in file: " +:+ traceFilePath])
            end in
          if Ascii.eqb opType "R" then parse READ
          else if Ascii.eqb opType "W" then parse WRITE
          else (None, ["Error: Unknown operation type: " +:+ String opType "" +:+
                       " in file: " +:+ traceFilePath])
      end
  end.

(** [TraceReader::close]; closing the stream leaves [eofbit] as it is. *)
Definition TraceReader_close (r : TraceReader) : TraceReader :=
  mkTraceReader (TraceReader_traceFilePath r)
    (if TraceReader_fileOpen r
     then mkIfstream false EmptyString (ifstream_eof (TraceReader_traceFile r))
     else TraceReader_traceFile r)
    false (TraceReader_endOfFile r) [] (TraceReader_cerr r).

(** [TraceReader::open]; [file] is what the file system holds at the path.
    The result is the returned [bool] and the reader.  Opening clears the
    state of the stream when it succeeds and leaves [eofbit] alone when it
    fails. *)
Definition TraceReader_open (file : option string) (r : TraceReader)
    : bool * TraceReader :=
  let r1 := if TraceReader_fileOpen r then TraceReader_close r else r in
  let traceFile :=
    match file with
    | Some content => mkIfstream true content false
    | None =>
        mkIfstream false EmptyString (ifstream_eof (TraceReader_traceFile r1))
    end in
  let fileOpen := ifstream_is_open traceFile in
  (fileOpen,
   mkTraceReader (TraceReader_traceFilePath r1) traceFile fileOpen false
     (TraceReader_referenceQueue r1)
     (if fileOpen then TraceReader_cerr r1
      else TraceReader_cerr r1 ++
           ["Error: Could not open trace file: " +:+ TraceReader_traceFilePath r1])).

Definition TraceReader_isOpen (r : TraceReader) : bool := TraceReader_fileOpen r.

Definition TraceReader_isEndOfFile (r : TraceReader) : bool :=
  TraceReader_endOfFile r &&
  bool_decide (TraceReader_referenceQueue r = []).

(** The loop of [preloadReferences] with [remaining = count - i] at its
    head.  A line that does not parse takes [i] back, so the loop is bounded
    by the file and not by [count]; [fuel] bounds the iterations, and one
    more than the characters left in the file is always enough. *)
Fixpoint TraceReader_preload_loop (fuel : nat) (remaining : nat)
    (r : TraceReader) : TraceReader :=
  match fuel with
  | O => r
  | S fuel' =>
      match remaining with
      | O => r
      | S remaining' =>
          if ifstream_eof (TraceReader_traceFile r) then r else
          let '(got, traceFile') := getline (TraceReader_traceFile r) in
          match got with
          | Some line =>
              let '(ref, msgs) :=
                TraceReader_parseLine (TraceReader_traceFilePath r) line in
              let r1 (queue : list MemoryReference) :=
                mkTraceReader (TraceReader_traceFilePath r) traceFile'
                  (TraceReader_fileOpen r) (TraceReader_endOfFile r) queue
                  (TraceReader_cerr r ++ msgs) in
              match ref with
              | Some reference =>
                  TraceReader_preload_loop fuel' remaining'
                    (r1 (TraceReader_referenceQueue r ++ [reference]))
              | None =>
                  TraceReader_preload_loop fuel' remaining
                    (r1 (TraceReader_referenceQueue r))
              end
          | None =>
              TraceReader_preload_loop fuel' remaining'
                (mkTraceReader (TraceReader_traceFilePath r) traceFile'
                   (TraceReader_fileOpen r) (TraceReader_endOfFile r)
                   (TraceReader_referenceQueue r) (TraceReader_cerr r))
          end
      end
  end.

(** [TraceReader::preloadReferences(count)] *)
Definition TraceReader_preloadReferences (count : Z) (r : TraceReader)
    : TraceReader :=
  if negb (TraceReader_fileOpen r) then r else
  let r' :=
    TraceReader_preload_loop
      (S (String.length (ifstream_buffer (TraceReader_traceFile r))))
      (Z.to_nat count) r in
  mkTraceReader (TraceReader_traceFilePath r') (TraceReader_traceFile r')
    (TraceReader_fileOpen r') (ifstream_eof (TraceReader_traceFile r'))
    (TraceReader_referenceQueue r') (TraceReader_cerr r').

(** [TraceReader::TraceReader(filePath)] *)
Definition TraceReader_new (filePath : string) (file : option string)
    : TraceReader :=
  let r0 := mkTraceReader filePath (mkIfstream false EmptyString false)
              false false [] [] in
  let '(_, r1) := TraceReader_open file r0 in
  if TraceReader_fileOpen r1 then TraceReader_preloadReferences 10 r1 else r1.

(** [TraceReader::getNextReference(reference)]: the reference when the
    call returns [true]. *)
Definition TraceReader_getNextReference (r : TraceReader)
    : option MemoryReference * TraceReader :=
  let r1 :=
    if bool_decide (TraceReader_referenceQueue r = []) &&
       negb (TraceReader_endOfFile r)
    then TraceReader_preloadReferences 10 r else r in
  match TraceReader_referenceQueue r1 with
  | [] => (None, r1)
  | reference :: rest =>
      let r2 :=
        mkTraceReader (TraceReader_traceFilePath r1) (TraceReader_traceFile r1)
          (TraceReader_fileOpen r1) (TraceReader_endOfFile r1) rest
          (TraceReader_cerr r1) in
      let r3 :=
        if (length (TraceReader_referenceQueue r2) <? 5)%nat &&
           negb (TraceReader_endOfFile r2)
        then TraceReader_preloadReferences 10 r2 else r2 in
      (Some reference, r3)
  end.

(** The loop of [getReferences] with [n] iterations left. *)
Fixpoint TraceReader_getReferences_loop (n : nat)
    (references : list MemoryReference) (count : Z) (r : TraceReader)
    : list MemoryReference * Z * TraceReader :=
  match n with
  | O => (references, count, r)
  | S n' =>
      match TraceReader_getNextReference r with
      | (Some reference, r') =>
          TraceReader_getReferences_loop n' (references ++ [reference])
            (count + 1) r'
      | (None, r') => (references, count, r')
      end
  end.

(** [TraceReader::getReferences(references, maxCount)]: the vector after
    the call, the returned count and the reader. *)
Definition TraceReader_getReferences (references : list MemoryReference)
    (maxCount : Z) (r : TraceReader) : list MemoryReference * Z * TraceReader :=
  TraceReader_getReferences_loop (Z.to_nat maxCount) references 0 r.

(** [TraceReader::reset] *)
Definition TraceReader_reset (file : option string) (r : TraceReader)
    : bool * TraceReader :=
  TraceReader_open file (TraceReader_close r).

(** [TraceReader::createTraceFilePath] *)
Definition TraceReader_createTraceFilePath (appName : string) (coreId : nat)
    : string :=
  appName ++ "_proc" ++ pretty coreId ++ ".trace".

(** The references of the lines that [parseLine] accepts, in order. *)
Definition parsed_references (traceFilePath : string) (lines : list string)
    : list MemoryReference :=
  omap (λ line, (TraceReader_parseLine traceFilePath line).1) lines.

(** A line of text: no newline inside. *)
Definition is_line (l : string) : Prop :=
  string_forall (λ c, Ascii.eqb c newline = false) l.

(** What ties a reader to the references it still has to deliver: the
    queue, then the accepted lines of what is left of the file. *)
Definition TraceReader_inv (r : TraceReader) (refs : list MemoryReference)
    : Prop :=
  ∃ lines,
    TraceReader_fileOpen r = true ∧
    ifstream_buffer (TraceReader_traceFile r) = trace_file lines ∧
    Forall is_line lines ∧
    TraceReader_endOfFile r = ifstream_eof (TraceReader_traceFile r) ∧
    (TraceReader_endOfFile r = true → lines = []) ∧
    refs = TraceReader_referenceQueue r ++
           parsed_references (TraceReader_traceFilePath r) lines.

(** ** The data block of a cache line (CacheLine.h, CacheLine.cpp) *)

(** A cache line with the payload that [CacheLine] leaves out: the bytes
    of [data] (empty for a null pointer) and [blockSize]. *)
Record CacheLineBlock := mkCacheLineBlock {
  CacheLineBlock_line : CacheLine;
  CacheLineBlock_data : list Z;
  CacheLineBlock_blockSize : Z
}.

(** [CacheLine::CacheLine(blockSize)]: a zeroed block when [blockSize] is
    positive, no block otherwise. *)
Definition CacheLineBlock_new (blockSize : Z) : CacheLineBlock :=
  mkCacheLineBlock CacheLine_new (replicate (Z.to_nat blockSize) 0) blockSize.

Inductive CacheLine_exception :=
| runtime_error (what : string)
| word_out_of_range (what : string).

(** [CacheLine::readWord(offset)].  The bounds test keeps every index
    inside [blockSize]; [offset + 3] is computed without wrap-around, which
    is what the code does for [offset <= INT_MAX - 3]. *)
Definition CacheLine_readWord (offset : Z) (l : CacheLineBlock)
    : CacheLine_exception + Z :=
  if negb (CacheLine_isValid (CacheLineBlock_line l)) then
    inl (runtime_error "Attempting to read from invalid cache line")
  else if (offset <? 0) || (CacheLineBlock_blockSize l <=? offset + 3) then
    inl (word_out_of_range "Word offset out of range")
  else
    inr (foldl (λ word i,
                  Z.lor word
                    (u32 (Z.shiftl (CacheLineBlock_data l !!! Z.to_nat (offset + i))
                                   (i * 8))))
               0 [0; 1; 2; 3]).

(** [CacheLine::writeWord(offset, value)]: the exception thrown, if any,
    and the line after the call.  The state changes before the bounds
    test. *)
Definition CacheLine_writeWord (offset value : Z) (l : CacheLineBlock)
    : option CacheLine_exception * CacheLineBlock :=
  let line := CacheLineBlock_line l in
  match CacheLine_state line with
  | INVALID =>
      (Some (runtime_error "Attempting to write to invalid cache line"), l)
  | state =>
      let line1 :=
        match state with
        | SHARED | EXCLUSIVE => CacheLine_setState MODIFIED line
        | _ => line
        end in
      if (offset <? 0) || (CacheLineBlock_blockSize l <=? offset + 3) then
        (Some (word_out_of_range "Word offset out of range"),
         mkCacheLineBlock line1 (CacheLineBlock_data l) (CacheLineBlock_blockSize l))
      else
        (None,
         mkCacheLineBlock line1
           (foldl (λ data i,
                     <[Z.to_nat (offset + i) :=
                         Z.land (Z.shiftr value (i * 8)) 255]> data)
                  (CacheLineBlock_data l) [0; 1; 2; 3])
           (CacheLineBlock_blockSize l))
  end.

(** The block a line was constructed with is still in place. *)
Definition CacheLineBlock_wf (l : CacheLineBlock) : Prop :=
  length (CacheLineBlock_data l) = Z.to_nat (CacheLineBlock_blockSize l).

(** Cache [j] is the only cache besides [me] that holds the block
    ([setIndex], [tag]) in SHARED. *)
Definition sole_sharer (caches : list Cache) (me setIndex : nat) (tag : Z)
    (j : nat) : Prop :=
  j ≠ me ∧
  (∃ cj, caches !! j = Some cj ∧ block_state cj setIndex tag = SHARED) ∧
  ∀ k ck, k ≠ me → caches !! k = Some ck →
          block_state ck setIndex tag = SHARED → k = j.

(** ** Generated traces *)

(** The file that the generator writes for a list of accesses, one call of
    [traceAccess] each. *)
Definition generated_trace (accesses : list (MemoryOperation * Z)) : string :=
  foldr (λ a rest, traceAccess (op_char a.1) a.2 +:+ rest) EmptyString accesses.

(** An access the generator can record: an address of 64 bits. *)
Definition access_ok (a : MemoryOperation * Z) : Prop := 0 ≤ a.2 < 2 ^ 64.

(** The reference that a recorded access is read back as. *)
Definition access_reference (a : MemoryOperation * Z) : MemoryReference :=
  mkMemoryReference a.1 (u32 a.2).

(** The reads and the writes among a list of references. *)
Definition count_reads (refs : list MemoryReference) : Z :=
  foldr (λ r n, match MemoryReference_operation r with
                | READ => n + 1
                | WRITE => n
                end) 0 refs.

Definition count_writes (refs : list MemoryReference) : Z :=
  foldr (λ r n, match MemoryReference_operation r with
                | READ => n
                | WRITE => n + 1
                end) 0 refs.

(** A processor in the middle of a generated trace of [reads] reads and
    [writes] writes, with the accesses [left] still in the file: what it has
    executed, what it has queued and what is left add up to the trace. *)
Definition Processor_trace_at (reads writes : Z)
    (left : list (MemoryOperation * Z)) (p : Processor) : Prop :=
  Forall access_ok left ∧
  ifstream_is_open (Processor_traceFile p) = true ∧
  ifstream_buffer (Processor_traceFile p) = generated_trace left ∧
  (ifstream_eof (Processor_traceFile p) = true → left = []) ∧
  (Processor_traceComplete p = true →
   Processor_pendingReferences p = [] ∧ left = []) ∧
  Processor_readInstructions p +
    count_reads (Processor_pendingReferences p ++ (access_reference <$> left))
    = reads ∧
  Processor_writeInstructions p +
    count_writes (Processor_pendingReferences p ++ (access_reference <$> left))
    = writes.

Definition Processor_trace_inv (reads writes : Z) (p : Processor) : Prop :=
  ∃ left, Processor_trace_at reads writes left p.

(** Every processor of the simulator is in the middle of its generated
    trace, core [i] of a trace of [reads i] reads and [writes i] writes, and
    a simulation that is marked complete has completed every trace. *)
Definition Simulator_trace_inv (reads writes : nat → Z) (sim : Simulator)
    : Prop :=
  (∀ i p, Simulator_processors sim !! i = Some p →
          Processor_trace_inv (reads i) (writes i) p) ∧
  (Simulator_simulationComplete sim = true →
   ∀ i p, Simulator_processors sim !! i = Some p →
          Processor_traceComplete p = true).

(** * Properties *)

(** ** CacheSet: victim selection and allocation *)

Lemma getLRUIndex_loop_spec (rest : list Z) :
  ∀ (i : nat) (m : Z) (k : nat),
    (getLRUIndex_loop i rest m k = k ∧ ∀ j c, rest !! j = Some c → c ≤ m) ∨
    (∃ j c, rest !! j = Some c ∧ getLRUIndex_loop i rest m k = (i + j)%nat ∧
            m < c ∧
            (∀ j' c', rest !! j' = Some c' → c' ≤ c) ∧
            (∀ j' c', (j' < j)%nat → rest !! j' = Some c' → c' < c)).
Proof.
  induction rest as [|c rest IH]; intros i m k; simpl.
  - left. split; [done|]. intros j c Hj. by rewrite lookup_nil in Hj.
  - destruct (Z.ltb_spec m c) as [Hlt|Hge].
    + right. destruct (IH (S i) c i) as [[Heq Hle]|(j & d & Hj & Heq & Hlt' & Hmax & Hfirst)].
      * exists 0%nat, c. rewrite Heq. repeat split; [lia|done| |].
        -- intros [|j'] c' Hj'; simpl in Hj'; [inversion Hj'; lia|eauto].
        -- intros j' c' Hj'. lia.
      * exists (S j), d. rewrite Heq. repeat split; [done|lia|lia| |].
        -- intros [|j'] c' Hj'; simpl in Hj'; [inversion Hj'; lia|eauto].
        -- intros [|j'] c' Hlt'' Hj'; simpl in Hj'; [inversion Hj'; lia|].
           eapply Hfirst; [|done]. lia.
    + destruct (IH (S i) m k) as [[Heq Hle]|(j & d & Hj & Heq & Hlt' & Hmax & Hfirst)].
      * left. split; [done|].
        intros [|j'] c' Hj'; simpl in Hj'; [inversion Hj'; lia|eauto].
      * right. exists (S j), d. rewrite Heq. repeat split; [done|lia|done| |].
        -- intros [|j'] c' Hj'; simpl in Hj'; [inversion Hj'; lia|eauto].
        -- intros [|j'] c' Hlt'' Hj'; simpl in Hj'; [inversion Hj'; lia|].
           eapply Hfirst; [|done]. lia.
Qed.

(** On a non-empty vector of non-negative counters [getLRUIndex] is the
    lowest index that carries the maximum. *)
Lemma CacheSet_getLRUIndex_victim (cs : CacheSet) :
  CacheSet_lruCounter cs ≠ [] →
  Forall (λ c, 0 ≤ c) (CacheSet_lruCounter cs) →
  lru_victim (CacheSet_lruCounter cs) (CacheSet_getLRUIndex cs).
Proof.
  intros Hne Hpos. unfold CacheSet_getLRUIndex, lru_victim.
  destruct (getLRUIndex_loop_spec (CacheSet_lruCounter cs) 0 (-1) 0)
    as [[_ Hle]|(j & c & Hj & Heq & _ & Hmax & Hfirst)].
  - destruct (CacheSet_lruCounter cs) as [|c rest]; [done|].
    apply Forall_cons in Hpos as [Hc _].
    specialize (Hle 0%nat c eq_refl). lia.
  - rewrite Heq. simpl. eauto.
Qed.

Lemma CacheSet_getLRUIndex_lt (cs : CacheSet) :
  CacheSet_lruCounter cs ≠ [] →
  (CacheSet_getLRUIndex cs < length (CacheSet_lruCounter cs))%nat.
Proof.
  intros Hne. unfold CacheSet_getLRUIndex.
  destruct (getLRUIndex_loop_spec (CacheSet_lruCounter cs) 0 (-1) 0)
    as [[Heq _]|(j & c & Hj & Heq & _)]; rewrite Heq.
  - destruct (CacheSet_lruCounter cs); [done|simpl; lia].
  - apply lookup_lt_Some in Hj. simpl. lia.
Qed.

Lemma CacheSet_isFull_no_invalid (cs : CacheSet) :
  CacheSet_isFull cs = true →
  list_find (λ l, CacheLine_isValid l = false) (CacheSet_lines cs) = None.
Proof.
  unfold CacheSet_isFull. intros Hfull. apply list_find_None.
  rewrite forallb_forall in Hfull. apply Forall_forall. intros l Hl.
  rewrite (Hfull l); [done|]. by apply list_elem_of_In.
Qed.

Lemma CacheSet_updateLRU_mru (i : nat) (cs : CacheSet) :
  (i < length (CacheSet_lines cs))%nat →
  length (CacheSet_lruCounter cs) = length (CacheSet_lines cs) →
  Forall (λ c, 0 ≤ c) (CacheSet_lruCounter cs) →
  most_recently_used (CacheSet_lruCounter (CacheSet_updateLRU i cs)) i.
Proof.
  intros Hi Hlen Hpos. unfold CacheSet_updateLRU.
  rewrite decide_True by done. simpl. exists 0. split.
  - apply list_lookup_insert_eq. rewrite length_fmap. lia.
  - intros j c Hj. destruct (decide (i = j)) as [->|Hne].
    + rewrite list_lookup_insert_eq in Hj by (rewrite length_fmap; lia).
      inversion Hj; lia.
    + rewrite list_lookup_insert_ne in Hj by done.
      rewrite list_lookup_fmap in Hj.
      destruct (CacheSet_lruCounter cs !! j) as [d|] eqn:Hd; [|done].
      simpl in Hj. inversion Hj; subst.
      rewrite Forall_lookup in Hpos. specialize (Hpos j d Hd). simpl in Hpos. lia.
Qed.

Lemma CacheSet_updateLRU_lines (i : nat) (cs : CacheSet) :
  CacheSet_lines (CacheSet_updateLRU i cs) = CacheSet_lines cs.
Proof. unfold CacheSet_updateLRU. by case_decide. Qed.

(** C7.  On a set that satisfies the class invariant, [allocateLine(tag)]
    returns the first INVALID slot when there is one, and otherwise (the
    set is full) the lowest slot with the maximum LRU counter; the returned
    slot carries [tag] afterwards and its LRU counter is the minimum of the
    set. *)
Theorem CacheSet_allocateLine_policy (tag : Z) (cs : CacheSet) :
  CacheSet_wf cs →
  let '(index, cs') := CacheSet_allocateLine tag cs in
  (∀ i, first_invalid cs i → index = i) ∧
  (CacheSet_isFull cs = true → lru_victim (CacheSet_lruCounter cs) index) ∧
  (∃ l, CacheSet_lines cs' !! index = Some l ∧ CacheLine_getTag l = tag) ∧
  most_recently_used (CacheSet_lruCounter cs') index.
Proof.
  intros [Hassoc Hlen Hrange].
  assert (Hpos : Forall (λ c, 0 ≤ c) (CacheSet_lruCounter cs)).
  { eapply Forall_impl; [exact Hrange|]. simpl. intros; lia. }
  assert (Hne : CacheSet_lruCounter cs ≠ []).
  { intros Heq. rewrite Heq in Hlen. simpl in Hlen. lia. }
  unfold CacheSet_allocateLine.
  destruct (list_find _ (CacheSet_lines cs)) as [[i l]|] eqn:Hfind.
  - apply list_find_Some in Hfind as (Hl & Hinv & Hbefore).
    pose proof (lookup_lt_Some _ _ _ Hl) as Hi.
    split; [|split; [|split]].
    + intros j [(lj & Hlj & Hjinv) Hjbefore].
      destruct (Nat.lt_trichotomy i j) as [Hlt|[->|Hgt]]; [|done|].
      * specialize (Hjbefore i l Hlt Hl). congruence.
      * specialize (Hbefore j lj Hlj Hgt). congruence.
    + intros Hfull. apply CacheSet_isFull_no_invalid in Hfull.
      apply list_find_None in Hfull. rewrite Forall_lookup in Hfull.
      specialize (Hfull i l Hl). simpl in Hfull. congruence.
    + exists (CacheLine_setTag tag l). split; [|done].
      rewrite CacheSet_updateLRU_lines. simpl.
      by rewrite list_lookup_alter_eq, Hl.
    + apply CacheSet_updateLRU_mru; simpl; rewrite ?length_alter; done.
  - pose proof (CacheSet_getLRUIndex_lt cs Hne) as Hlt. rewrite Hlen in Hlt.
    destruct (lookup_lt_is_Some_2 _ _ Hlt) as [l Hl].
    split; [|split; [|split]].
    + intros j [(lj & Hlj & Hjinv) _].
      apply list_find_None in Hfind. rewrite Forall_lookup in Hfind.
      specialize (Hfind j lj Hlj). simpl in Hfind. congruence.
    + intros _. by apply CacheSet_getLRUIndex_victim.
    + exists (CacheLine_setTag tag l). split; [|done].
      rewrite CacheSet_updateLRU_lines. simpl.
      by rewrite list_lookup_alter_eq, Hl.
    + apply CacheSet_updateLRU_mru; simpl; rewrite ?length_alter; done.
Qed.

(** The instance used for the policy: a full two-way set whose second way
    is the least recently used. *)
Lemma CacheSet_allocateLine_policy_witness :
  let cs := mkCacheSet [mkCacheLine 0 MODIFIED; mkCacheLine 2 SHARED] [0; 1] in
  CacheSet_wf cs ∧
  let '(index, cs') := CacheSet_allocateLine 4 cs in
  (∀ i, first_invalid cs i → index = i) ∧
  (CacheSet_isFull cs = true → lru_victim (CacheSet_lruCounter cs) index) ∧
  (∃ l, CacheSet_lines cs' !! index = Some l ∧ CacheLine_getTag l = 4) ∧
  most_recently_used (CacheSet_lruCounter cs') index.
Proof.
  assert (Hwf : CacheSet_wf
                  (mkCacheSet [mkCacheLine 0 MODIFIED; mkCacheLine 2 SHARED] [0; 1])).
  { split; simpl; [lia|done|].
    repeat constructor; unfold INT_MAX; lia. }
  split; [exact Hwf|].
  exact (CacheSet_allocateLine_policy 4 _ Hwf).
Defined.

(** ** Cache: snooping *)

(** C10.  A snoop whose source is the snooped cache itself returns [true]
    and leaves the cache (lines, LRU counters, statistics) and both
    reference parameters as they were. *)
Theorem Cache_snoop_self (op : BusOperation) (address : Z)
    (providedData : bool) (cycles : Z) (c : Cache) :
  Cache_snoop op address (Cache_coreId c) providedData cycles c
  = (true, c, providedData, cycles).
Proof. unfold Cache_snoop. by rewrite decide_True. Qed.

(** ** Coherence: block states under the operations of the protocol *)

Lemma decide_same {A} (P : Prop) `{Decision P} (x : A) :
  (if decide P then x else x) = x.
Proof. by destruct (decide P). Qed.

(** ** Sets: the state of a block *)

Lemma CacheLine_isValid_true (l : CacheLine) :
  CacheLine_isValid l = true ↔ CacheLine_state l ≠ INVALID.
Proof.
  unfold CacheLine_isValid. rewrite negb_true_iff, bool_decide_eq_false. done.
Qed.

Lemma CacheLine_isValid_false (l : CacheLine) :
  CacheLine_isValid l = false ↔ CacheLine_state l = INVALID.
Proof.
  unfold CacheLine_isValid. rewrite negb_false_iff, bool_decide_eq_true. done.
Qed.

Lemma CacheSet_findLine_Some (tag : Z) (cs : CacheSet) (i : nat) :
  CacheSet_findLine tag cs = Some i →
  ∃ l, CacheSet_lines cs !! i = Some l ∧ CacheLine_isValid l = true ∧
       CacheLine_getTag l = tag.
Proof.
  unfold CacheSet_findLine. intros Hfind.
  destruct (list_find _ _) as [[j l]|] eqn:Hlf; [|done].
  simpl in Hfind. simplify_eq.
  apply list_find_Some in Hlf as (Hl & [Hv Ht] & _). eauto.
Qed.

Lemma CacheSet_findLine_None (tag : Z) (cs : CacheSet) :
  CacheSet_findLine tag cs = None ↔
  ∀ i l, CacheSet_lines cs !! i = Some l → CacheLine_isValid l = true →
         CacheLine_getTag l ≠ tag.
Proof.
  unfold CacheSet_findLine. rewrite fmap_None, list_find_None, Forall_lookup.
  unfold line_matches. split.
  - intros H i l Hl Hv Ht. by apply (H i l Hl).
  - intros H i l Hl [Hv Ht]. by apply (H i l Hl).
Qed.

Lemma set_state_INVALID (tag : Z) (cs : CacheSet) :
  set_state tag cs = INVALID ↔
  ∀ i l, CacheSet_lines cs !! i = Some l → CacheLine_isValid l = true →
         CacheLine_getTag l ≠ tag.
Proof.
  unfold set_state. destruct (CacheSet_findLine tag cs) as [i|] eqn:Hfind.
  - apply CacheSet_findLine_Some in Hfind as (l & Hl & Hv & Ht).
    unfold CacheSet_getLine. rewrite Hl. split.
    + intros Hst. apply CacheLine_isValid_true in Hv. done.
    + intros Hall. exfalso. by eapply Hall.
  - by rewrite <- CacheSet_findLine_None.
Qed.

Lemma set_state_valid (tag : Z) (cs : CacheSet) (st : CacheState) :
  tags_unique cs → st ≠ INVALID →
  set_state tag cs = st ↔
  ∃ i l, CacheSet_lines cs !! i = Some l ∧ CacheLine_getTag l = tag ∧
         CacheLine_getState l = st.
Proof.
  intros Huniq Hst. unfold set_state.
  destruct (CacheSet_findLine tag cs) as [i|] eqn:Hfind.
  - apply CacheSet_findLine_Some in Hfind as (l & Hl & Hv & Ht).
    unfold CacheSet_getLine. rewrite Hl. split; [by eauto|].
    intros (j & lj & Hlj & Htj & Hsj).
    assert (i = j) as ->.
    { eapply Huniq; eauto; [|congruence].
      apply CacheLine_isValid_true. unfold CacheLine_getState in Hsj. congruence. }
    congruence.
  - split; [done|]. intros (j & lj & Hlj & Htj & Hsj).
    rewrite CacheSet_findLine_None in Hfind. exfalso.
    eapply Hfind; eauto. apply CacheLine_isValid_true.
    unfold CacheLine_getState in Hsj. congruence.
Qed.

(** Replacing line [i] of a set: the new line is the only one that changes
    the state of a block. *)
Lemma set_state_replace (cs cs' : CacheSet) (i : nat) (l0 l1 : CacheLine) :
  tags_unique cs →
  CacheSet_lines cs !! i = Some l0 →
  CacheSet_lines cs' = <[i := l1]> (CacheSet_lines cs) →
  (CacheLine_isValid l1 = true →
   ∀ j l, j ≠ i → CacheSet_lines cs !! j = Some l →
          CacheLine_isValid l = true → CacheLine_getTag l ≠ CacheLine_getTag l1) →
  tags_unique cs' ∧
  ∀ tag,
    set_state tag cs' =
      if decide (CacheLine_isValid l1 = true ∧ CacheLine_getTag l1 = tag)
      then CacheLine_getState l1
      else if decide (CacheLine_isValid l0 = true ∧ CacheLine_getTag l0 = tag)
           then INVALID
           else set_state tag cs.
Proof.
  intros Huniq Hl0 Hlines Hfresh.
  pose proof (lookup_lt_Some _ _ _ Hl0) as Hi.
  assert (Hat : ∀ j l, CacheSet_lines cs' !! j = Some l ↔
                       (j = i ∧ l = l1) ∨ (j ≠ i ∧ CacheSet_lines cs !! j = Some l)).
  { intros j l. rewrite Hlines, list_lookup_insert_Some.
    split; [intros [(-> & -> & _)|[? ?]]; [by left|by right]|].
    intros [[-> ->]|[? ?]]; [by left|by right]. }
  assert (Huniq' : tags_unique cs').
  { intros x y lx ly Hx Hy Hvx Hvy Htag.
    apply Hat in Hx as [[-> ->]|[Hxi Hx]]; apply Hat in Hy as [[-> ->]|[Hyi Hy]].
    - done.
    - exfalso. eapply (Hfresh Hvx y ly); eauto.
    - exfalso. eapply (Hfresh Hvy x lx); eauto.
    - eapply Huniq; eauto. }
  split; [done|]. intros tag.
  destruct (decide (CacheLine_isValid l1 = true ∧ CacheLine_getTag l1 = tag))
    as [[Hv1 Ht1]|Hn1].
  - apply set_state_valid; [done|by apply CacheLine_isValid_true|].
    exists i, l1. split; [|done]. apply Hat. by left.
  - destruct (decide (CacheLine_isValid l0 = true ∧ CacheLine_getTag l0 = tag))
      as [[Hv0 Ht0]|Hn0].
    + apply set_state_INVALID. intros j l Hj Hv Ht.
      apply Hat in Hj as [[-> ->]|[Hji Hj]]; [by apply Hn1|].
      apply Hji. eapply Huniq; eauto. congruence.
    + destruct (set_state tag cs) as [| | |] eqn:Hst.
      1-3: apply set_state_valid; [done|done|];
        apply set_state_valid in Hst as (j & l & Hj & Ht & Hs); [|done|done];
        exists j, l; split; [|done]; apply Hat; right; split; [|done];
        intros ->; apply Hn0; rewrite Hl0 in Hj; simplify_eq;
        split; [|done]; apply CacheLine_isValid_true;
        unfold CacheLine_getState in Hs; congruence.
      apply set_state_INVALID. intros j l Hj Hv Ht.
      apply Hat in Hj as [[-> ->]|[Hji Hj]]; [by apply Hn1|].
      rewrite set_state_INVALID in Hst. by eapply Hst.
Qed.

Lemma alter_lookup_insert {A} (f : A → A) (l : list A) (i : nat) (x : A) :
  l !! i = Some x → alter f i l = <[i := f x]> l.
Proof.
  intros Hx. apply list_eq. intros j.
  destruct (decide (i = j)) as [->|Hne].
  - rewrite list_lookup_alter_eq, Hx.
    by rewrite list_lookup_insert_eq by (by eapply lookup_lt_Some).
  - by rewrite list_lookup_alter_ne, list_lookup_insert_ne.
Qed.

(** Writing a state into the line that [findLine] returned. *)
Lemma set_state_setState (s b : Z) (cs : CacheSet) (tag : Z) (i : nat)
    (st : CacheState) :
  CacheSet_ok s b cs → CacheSet_findLine tag cs = Some i →
  CacheSet_ok s b (CacheSet_updLine i (CacheLine_setState st) cs) ∧
  ∀ tag', set_state tag' (CacheSet_updLine i (CacheLine_setState st) cs) =
          if decide (tag' = tag) then st else set_state tag' cs.
Proof.
  intros [Hways Hlru Huniq Htags] Hfind.
  apply CacheSet_findLine_Some in Hfind as (l0 & Hl0 & Hv0 & Ht0).
  set (cs' := CacheSet_updLine i (CacheLine_setState st) cs).
  assert (Hlines : CacheSet_lines cs' = <[i := CacheLine_setState st l0]> (CacheSet_lines cs)).
  { unfold cs'. simpl. by apply alter_lookup_insert. }
  destruct (set_state_replace cs cs' i l0 (CacheLine_setState st l0) Huniq Hl0 Hlines)
    as [Huniq' Hstate].
  { intros _ j l Hji Hj Hv Ht. apply Hji. eapply Huniq; eauto. }
  split.
  - split; [by rewrite Hlines, length_insert|by rewrite Hlines, length_insert|done|].
    intros j l Hj Hv. rewrite Hlines in Hj.
    apply list_lookup_insert_Some in Hj as [(-> & <- & _)|[_ Hj]]; [|by eauto].
    by apply (Htags j l0).
  - intros tag'. rewrite Hstate. unfold CacheLine_getTag in *. simpl.
    destruct (decide (tag' = tag)) as [->|Hne].
    + destruct (decide (st = INVALID)) as [->|Hst].
      * rewrite decide_False by (rewrite CacheLine_isValid_true; simpl; tauto).
        by rewrite decide_True.
      * rewrite decide_True; [done|].
        split; [|done]. by apply CacheLine_isValid_true.
    + rewrite !decide_False by (intros [_ ?]; congruence). done.
Qed.

(** Installing block [tag] in state [st] in an INVALID slot [i] of a set
    that does not hold the block. *)
Lemma set_state_install (s b : Z) (cs cs' : CacheSet) (tag : Z) (i : nat)
    (l0 : CacheLine) (st : CacheState) :
  CacheSet_ok s b cs → set_state tag cs = INVALID →
  CacheSet_lines cs !! i = Some l0 → CacheLine_isValid l0 = false →
  st ≠ INVALID → 0 ≤ tag < 2 ^ (32 - (s + b)) →
  CacheSet_lines cs' = <[i := mkCacheLine tag st]> (CacheSet_lines cs) →
  length (CacheSet_lruCounter cs') = length (CacheSet_lruCounter cs) →
  CacheSet_ok s b cs' ∧
  ∀ tag', set_state tag' cs' = if decide (tag' = tag) then st else set_state tag' cs.
Proof.
  intros [Hways Hlru Huniq Htags] Hmiss Hl0 Hv0 Hst Htag Hlines Hlen.
  destruct (set_state_replace cs cs' i l0 (mkCacheLine tag st) Huniq Hl0 Hlines)
    as [Huniq' Hstate].
  { intros _ j l Hji Hj Hv. rewrite set_state_INVALID in Hmiss. by eapply Hmiss. }
  split.
  - split; [by rewrite Hlines, length_insert| |done|].
    { rewrite Hlen, Hlines, length_insert. done. }
    intros j l Hj Hv. rewrite Hlines in Hj.
    apply list_lookup_insert_Some in Hj as [(-> & <- & _)|[_ Hj]]; [done|by eauto].
  - intros tag'. rewrite Hstate. unfold CacheLine_getTag. simpl.
    destruct (decide (tag' = tag)) as [->|Hne].
    + rewrite decide_True; [done|]. split; [|done]. by apply CacheLine_isValid_true.
    + rewrite decide_False by (intros [_ ?]; congruence).
      rewrite decide_False by (intros [? _]; congruence). done.
Qed.

(** ** Caches: the state of a block *)

Lemma Cache_ok_same_sets (s b : Z) (k : nat) (c c' : Cache) :
  Cache_ok s b k c →
  Cache_coreId c' = Cache_coreId c →
  Cache_setIndexBits c' = Cache_setIndexBits c →
  Cache_blockOffsetBits c' = Cache_blockOffsetBits c →
  Cache_sets c' = Cache_sets c →
  Cache_ok s b k c'.
Proof.
  intros [H1 H2 H3 H4 H5] E1 E2 E3 E4.
  split; rewrite ?E1, ?E2, ?E3, ?E4; done.
Qed.

Lemma block_state_same_sets (c c' : Cache) (n : nat) (tag : Z) :
  Cache_sets c' = Cache_sets c → block_state c' n tag = block_state c n tag.
Proof. unfold block_state. by intros ->. Qed.

Lemma Cache_getSet_lookup (c : Cache) (setIndex : Z) (cs : CacheSet) :
  Cache_sets c !! Z.to_nat setIndex = Some cs → Cache_getSet c setIndex = cs.
Proof. unfold Cache_getSet. by intros ->. Qed.

(** Rewriting one set of a cache. *)
Lemma Cache_updSet_spec (s b : Z) (k : nat) (c : Cache) (setIndex : Z)
    (f : CacheSet → CacheSet) (cs : CacheSet) :
  Cache_ok s b k c →
  Cache_sets c !! Z.to_nat setIndex = Some cs →
  CacheSet_ok s b (f cs) →
  Cache_ok s b k (Cache_updSet setIndex f c) ∧
  ∀ n tag, block_state (Cache_updSet setIndex f c) n tag =
           if decide (n = Z.to_nat setIndex) then set_state tag (f cs)
           else block_state c n tag.
Proof.
  intros [H1 H2 H3 H4 H5] Hcs Hok. split.
  - split; simpl; [done|done|done|by rewrite length_alter|].
    intros n cs' Hn. destruct (decide (Z.to_nat setIndex = n)) as [<-|Hne].
    + rewrite list_lookup_alter_eq, Hcs in Hn. simpl in Hn. by simplify_eq.
    + rewrite list_lookup_alter_ne in Hn by done. eauto.
  - intros n tag. unfold block_state. simpl.
    destruct (decide (n = Z.to_nat setIndex)) as [->|Hne].
    + by rewrite list_lookup_alter_eq, Hcs.
    + by rewrite list_lookup_alter_ne.
Qed.

(** [line.setState(st)] on the line that [findLine] returned. *)
Lemma Cache_setLineState_spec (s b : Z) (k : nat) (c : Cache) (setIndex : Z)
    (tag : Z) (i : nat) (st : CacheState) :
  Cache_ok s b k c →
  CacheSet_findLine tag (Cache_getSet c setIndex) = Some i →
  Cache_ok s b k (Cache_setLineState setIndex i st c) ∧
  ∀ n tag', block_state (Cache_setLineState setIndex i st c) n tag' =
            if decide (n = Z.to_nat setIndex ∧ tag' = tag) then st
            else block_state c n tag'.
Proof.
  intros Hok Hfind. unfold Cache_getSet in Hfind.
  destruct (Cache_sets c !! Z.to_nat setIndex) as [cs|] eqn:Hcs; [|done].
  simpl in Hfind.
  destruct (set_state_setState s b cs tag i st) as [Hok' Hst]; [by eapply ok_sets|done|].
  destruct (Cache_updSet_spec s b k c setIndex
              (CacheSet_updLine i (CacheLine_setState st)) cs Hok Hcs Hok')
    as [Hok'' Hbs].
  split; [done|]. intros n tag'. unfold Cache_setLineState. rewrite Hbs, Hst.
  destruct (decide (n = Z.to_nat setIndex)) as [->|Hne].
  - destruct (decide (tag' = tag)) as [->|Hne].
    + by rewrite decide_True.
    + rewrite decide_False by (intros [_ ?]; done).
      unfold block_state. by rewrite Hcs.
  - by rewrite decide_False by (intros [? _]; done).
Qed.

Lemma CacheSet_ok_updateLRU (s b : Z) (i : nat) (cs : CacheSet) :
  CacheSet_ok s b cs → CacheSet_ok s b (CacheSet_updateLRU i cs).
Proof.
  intros [H1 H2 H3 H4]. unfold CacheSet_updateLRU. case_decide; [|done].
  split; simpl; [done| |done|done].
  by rewrite length_insert, length_fmap.
Qed.

Lemma set_state_updateLRU (i : nat) (cs : CacheSet) (tag : Z) :
  set_state tag (CacheSet_updateLRU i cs) = set_state tag cs.
Proof. unfold CacheSet_updateLRU. by case_decide. Qed.

(** ** Address decomposition *)

Section Addresses.
Variables s b : Z.
Hypothesis Hs : 0 ≤ s.
Hypothesis Hb : 0 ≤ b.
Hypothesis Hsb : s + b < 32.

Lemma set_mask_ones : Z.shiftl 1 s - 1 = Z.ones s.
Proof. by rewrite Z.ones_equiv, Z.shiftl_1_l, <- Z.sub_1_r. Qed.

Lemma address_set_range (address : Z) :
  0 ≤ Z.land (Z.shiftr address b) (Z.shiftl 1 s - 1) < 2 ^ s.
Proof.
  rewrite set_mask_ones, Z.land_ones by done.
  apply Z.mod_pos_bound. by apply Z.pow_pos_nonneg.
Qed.

Lemma address_tag_range (address : Z) :
  address_ok address → 0 ≤ Z.shiftr address (s + b) < 2 ^ (32 - (s + b)).
Proof.
  intros [Hlo Hhi]. rewrite Z.shiftr_div_pow2 by lia. split.
  - apply Z.div_pos; [done|]. apply Z.pow_pos_nonneg; lia.
  - apply Z.div_lt_upper_bound; [apply Z.pow_pos_nonneg; lia|].
    rewrite <- Z.pow_add_r by lia. by replace (s + b + (32 - (s + b))) with 32 by lia.
Qed.

(** The address that [allocateLine] rebuilds for a victim decomposes
    into the victim's tag and set index again. *)
Lemma victim_address (tag setIndex : Z) :
  0 ≤ tag < 2 ^ (32 - (s + b)) → 0 ≤ setIndex < 2 ^ s →
  let victimAddress :=
    Z.lor (u32 (Z.shiftl tag (s + b))) (u32 (Z.shiftl setIndex b)) in
  Z.shiftr victimAddress (s + b) = tag ∧
  Z.land (Z.shiftr victimAddress b) (Z.shiftl 1 s - 1) = setIndex.
Proof.
  intros [Ht0 Ht1] [Hi0 Hi1]. simpl.
  assert (H2sb : 0 < 2 ^ (s + b)) by (apply Z.pow_pos_nonneg; lia).
  assert (H2b : 0 < 2 ^ b) by (apply Z.pow_pos_nonneg; lia).
  assert (Hsplit : 2 ^ 32 = 2 ^ (32 - (s + b)) * 2 ^ (s + b)).
  { rewrite <- Z.pow_add_r by lia. f_equal. lia. }
  assert (Hsplit' : 2 ^ (s + b) = 2 ^ s * 2 ^ b) by (by rewrite Z.pow_add_r).
  assert (Hle : 2 ^ (s + b) ≤ 2 ^ 32) by (apply Z.pow_le_mono_r; lia).
  unfold u32.
  rewrite (Z.mod_small (Z.shiftl tag (s + b))) by (rewrite Z.shiftl_mul_pow2 by lia; nia).
  rewrite (Z.mod_small (Z.shiftl setIndex b)) by (rewrite Z.shiftl_mul_pow2 by lia; nia).
  assert (Hidx : Z.shiftr setIndex s = 0).
  { rewrite Z.shiftr_div_pow2 by done. by apply Z.div_small. }
  split.
  - rewrite Z.shiftr_lor, Z.shiftr_shiftl_l, Z.sub_diag, Z.shiftl_0_r by lia.
    assert (Z.shiftr (Z.shiftl setIndex b) (s + b) = 0) as ->; [|by rewrite Z.lor_0_r].
    rewrite Z.shiftr_div_pow2, Z.shiftl_mul_pow2 by lia.
    apply Z.div_small. nia.
  - rewrite Z.shiftr_lor.
    rewrite (Z.shiftr_shiftl_l setIndex), Z.sub_diag, Z.shiftl_0_r by lia.
    rewrite (Z.shiftr_shiftl_l tag) by lia.
    replace (s + b - b) with s by lia.
    rewrite set_mask_ones, Z.land_ones by done.
    apply Z.bits_inj'. intros n Hn.
    destruct (Z.lt_ge_cases n s) as [Hlt|Hge].
    + rewrite Z.mod_pow2_bits_low by done.
      rewrite Z.lor_spec, Z.shiftl_spec_low by done. done.
    + rewrite Z.mod_pow2_bits_high by lia.
      destruct (decide (setIndex = 0)) as [->|Hnz]; [by rewrite Z.bits_0|].
      symmetry. apply Z.bits_above_log2; [lia|].
      apply Z.log2_lt_pow2; [lia|].
      eapply Z.lt_le_trans; [exact Hi1|]. apply Z.pow_le_mono_r; lia.
Qed.
End Addresses.

Lemma alter_id_at {A} (f : A → A) (l : list A) (i : nat) (x : A) :
  l !! i = Some x → f x = x → alter f i l = l.
Proof.
  intros Hx Hf. rewrite (alter_lookup_insert f l i x Hx), Hf.
  by apply list_insert_id.
Qed.

Lemma Cache_ok_address (s b : Z) (k : nat) (c : Cache) (address : Z) :
  Cache_ok s b k c →
  Cache_getTag c address = address_tag s b address ∧
  Z.to_nat (Cache_getSetIndex c address) = address_set s b address.
Proof.
  intros [_ Hs Hb _ _].
  unfold Cache_getTag, Cache_getSetIndex, address_tag, address_set.
  by rewrite Hs, Hb.
Qed.

(** ** Snooping *)

(** Setting a line to the state it already has changes nothing. *)
Lemma Cache_setLineState_same (c : Cache) (setIndex : Z) (i : nat) (l : CacheLine) :
  CacheSet_getLine i (Cache_getSet c setIndex) = Some l →
  Cache_sets (Cache_setLineState setIndex i (CacheLine_getState l) c) = Cache_sets c.
Proof.
  unfold Cache_getSet, CacheSet_getLine, Cache_setLineState. simpl.
  destruct (Cache_sets c !! Z.to_nat setIndex) as [cs|] eqn:Hcs;
    [|simpl; by rewrite lookup_nil].
  simpl. intros Hl. eapply alter_id_at; [done|].
  unfold CacheSet_updLine. destruct cs as [ls lru]. simpl in *. f_equal.
  eapply alter_id_at; [done|]. by destruct l.
Qed.

(** The shape of the cache that [snoop] leaves: the configuration and the
    blocking flag are kept, and the sets are those of the cache with the
    found line set to [snoop_next]. *)
Lemma Cache_snoop_shape (op : BusOperation) (address : Z) (src : nat)
    (pd : bool) (cy : Z) (c : Cache) :
  src ≠ Cache_coreId c →
  ∃ c' cy',
    Cache_snoop op address src pd cy c =
      (true, c',
       pd || snoop_provides op (Cache_getCacheLineState address c), cy') ∧
    Cache_coreId c' = Cache_coreId c ∧
    Cache_setIndexBits c' = Cache_setIndexBits c ∧
    Cache_blockOffsetBits c' = Cache_blockOffsetBits c ∧
    Cache_isBlocked c' = Cache_isBlocked c ∧
    match CacheSet_findLine (Cache_getTag c address)
            (Cache_getSet c (Cache_getSetIndex c address)) with
    | None => Cache_sets c' = Cache_sets c
    | Some i =>
        Cache_sets c' =
        Cache_sets (Cache_setLineState (Cache_getSetIndex c address) i
                      (snoop_next op (Cache_getCacheLineState address c)) c)
    end.
Proof.
  intros Hsrc. unfold Cache_snoop, Cache_getCacheLineState.
  rewrite decide_False by done.
  destruct (CacheSet_findLine _ _) as [i|] eqn:Hfind.
  - destruct (CacheSet_findLine_Some _ _ _ Hfind) as (l & Hl & Hv & _).
    unfold CacheSet_getLine. rewrite Hl.
    pose proof (Cache_setLineState_same c (Cache_getSetIndex c address) i l Hl) as Hsame.
    apply CacheLine_isValid_true in Hv. unfold CacheLine_getState in *.
    destruct op, (CacheLine_state l) eqn:Hst; try done; simpl;
      eexists _, _; rewrite ?orb_true_r, ?orb_false_r;
      (split; [reflexivity|]); simpl; done.
  - exists c, cy.
    assert (snoop_provides op INVALID = false) as -> by (by destruct op).
    by rewrite orb_false_r.
Qed.

Lemma block_state_getCacheLineState (c : Cache) (address : Z) :
  Cache_getCacheLineState address c =
  block_state c (Z.to_nat (Cache_getSetIndex c address)) (Cache_getTag c address).
Proof. done. Qed.

(** What a snoop does to the blocks of the snooped cache. *)
Lemma Cache_snoop_spec (s b : Z) (k : nat) (op : BusOperation) (address : Z)
    (src : nat) (pd : bool) (cy : Z) (c : Cache) :
  Cache_ok s b k c → src ≠ k →
  ∃ c' cy',
    Cache_snoop op address src pd cy c =
      (true, c',
       pd || snoop_provides op
               (block_state c (address_set s b address) (address_tag s b address)),
       cy') ∧
    Cache_ok s b k c' ∧
    Cache_isBlocked c' = Cache_isBlocked c ∧
    ∀ n tag, block_state c' n tag =
             if decide (n = address_set s b address ∧ tag = address_tag s b address)
             then snoop_next op (block_state c n tag)
             else block_state c n tag.
Proof.
  intros Hok Hsrc.
  destruct (Cache_ok_address s b k c address Hok) as [Htag Hset].
  destruct (Cache_snoop_shape op address src pd cy c) as
    (c' & cy' & Heq & E1 & E2 & E3 & E4 & Hsets).
  { by rewrite (ok_coreId _ _ _ _ Hok). }
  rewrite block_state_getCacheLineState, Htag, Hset in Heq, Hsets.
  exists c', cy'. split; [done|].
  destruct (CacheSet_findLine _ _) as [i|] eqn:Hfind.
  - destruct (Cache_setLineState_spec s b k c (Cache_getSetIndex c address)
                (address_tag s b address) i
                (snoop_next op (block_state c (address_set s b address)
                                  (address_tag s b address))) Hok Hfind)
      as [Hok' Hbs].
    split; [by eapply Cache_ok_same_sets|]. split; [done|].
    intros n tag. rewrite (block_state_same_sets _ _ _ _ Hsets), Hbs, Hset.
    destruct (decide (n = _ ∧ tag = _)) as [[-> ->]|]; done.
  - split; [by eapply Cache_ok_same_sets|]. split; [done|].
    intros n tag. rewrite (block_state_same_sets _ _ _ _ Hsets).
    destruct (decide (n = _ ∧ tag = _)) as [[-> ->]|]; [|done].
    assert (block_state c (address_set s b address) (address_tag s b address) = INVALID)
      as ->.
    { unfold block_state, set_state. rewrite <- Hset.
      fold (Cache_getSet c (Cache_getSetIndex c address)). by rewrite Hfind. }
    by destruct op.
Qed.

(** The snoop pass: every slot but the source is snooped once, and
    [dataProvided] is raised exactly when it was raised before or some
    snooped cache provides. *)
Lemma Bus_processSnooping_loop_spec (s b : Z) (caches : list Cache) :
  ∀ (i : nat) (tr : BusTransaction) caches' tr',
    (∀ k c, caches !! k = Some c → Cache_ok s b (i + k) c) →
    Bus_processSnooping_loop i caches tr = (caches', tr') →
    let op := BusTransaction_operation tr in
    let src := BusTransaction_sourceId tr in
    let n0 := address_set s b (BusTransaction_address tr) in
    let tag0 := address_tag s b (BusTransaction_address tr) in
    length caches' = length caches ∧
    (∀ k c, caches !! k = Some c →
       ∃ c', caches' !! k = Some c' ∧ Cache_ok s b (i + k) c' ∧
             ((i + k)%nat = src → c' = c) ∧
             ∀ n tag, block_state c' n tag =
                      snoop_update op src n0 tag0 (i + k)%nat n tag (block_state c n tag)) ∧
    (BusTransaction_dataProvided tr' = true ↔
     BusTransaction_dataProvided tr = true ∨
     ∃ k c, caches !! k = Some c ∧ (i + k)%nat ≠ src ∧
            snoop_provides op (block_state c n0 tag0) = true).
Proof.
  induction caches as [|c rest IH]; intros i tr caches' tr' Hok Hloop; simpl in *.
  - simplify_eq. split; [done|]. split; [by intros k c; rewrite lookup_nil|].
    split; [tauto|]. intros [?|(k & c & Hk & _)]; [done|]. by rewrite lookup_nil in Hk.
  - assert (Hok0 : Cache_ok s b i c).
    { specialize (Hok 0%nat c eq_refl). by rewrite Nat.add_0_r in Hok. }
    assert (Hokr : ∀ k c0, rest !! k = Some c0 → Cache_ok s b (S i + k) c0).
    { intros k c0 Hk. specialize (Hok (S k) c0 Hk).
      by rewrite Nat.add_succ_r in Hok. }
    destruct (decide (i ≠ BusTransaction_sourceId tr)) as [Hne|Heq].
    + destruct (Cache_snoop_spec s b i (BusTransaction_operation tr)
                  (BusTransaction_address tr) (BusTransaction_sourceId tr)
                  (BusTransaction_dataProvided tr) 0 c Hok0)
        as (c1 & cy1 & Hsn & Hok1 & Hbl1 & Hbs1); [done|].
      rewrite Hsn in Hloop.
      destruct (Bus_processSnooping_loop (S i) rest _) as [rest' tr1] eqn:Hrec.
      simplify_eq.
      destruct (IH _ _ _ _ Hokr Hrec) as (Hlen & Hrel & Hdp). simpl in Hrel, Hdp.
      split; [simpl; by rewrite Hlen|]. split.
      * intros [|k] c0 Hk; simpl in Hk.
        -- simplify_eq. exists c1. rewrite Nat.add_0_r.
           split; [done|]. split; [done|]. split; [done|].
           intros n tag. rewrite Hbs1. unfold snoop_update.
           destruct (decide (n = _ ∧ tag = _)) as [[-> ->]|Hn].
           ++ by rewrite decide_True.
           ++ rewrite decide_False; [done|]. tauto.
        -- destruct (Hrel k c0 Hk) as (c' & Hc' & Hok' & Hbl' & Hbs').
           exists c'. rewrite Nat.add_succ_r. done.
      * rewrite Hdp. rewrite orb_true_iff. split.
        -- intros [[Hpd|Hprov]|(k & c0 & Hk & Hne' & Hprov)].
           ++ by left.
           ++ right. exists 0%nat, c. rewrite Nat.add_0_r. done.
           ++ right. exists (S k), c0. rewrite Nat.add_succ_r. done.
        -- intros [Hpd|(k & c0 & Hk & Hne' & Hprov)].
           ++ by left; left.
           ++ destruct k as [|k]; simpl in Hk.
              ** simplify_eq. by left; right.
              ** right. exists k, c0. rewrite Nat.add_succ_r in Hne'. done.
    + apply dec_stable in Heq.
      destruct (Bus_processSnooping_loop (S i) rest tr) as [rest' tr1] eqn:Hrec.
      simplify_eq.
      destruct (IH _ _ _ _ Hokr Hrec) as (Hlen & Hrel & Hdp). simpl in Hrel, Hdp.
      split; [simpl; by rewrite Hlen|]. split.
      * intros [|k] c0 Hk; simpl in Hk.
        -- simplify_eq. exists c0. rewrite Nat.add_0_r.
           split; [done|]. split; [done|]. split; [done|].
           intros n tag. unfold snoop_update.
           rewrite decide_False; [done|]. tauto.
        -- destruct (Hrel k c0 Hk) as (c' & Hc' & Hok' & Hbl' & Hbs').
           exists c'. rewrite Nat.add_succ_r. done.
      * rewrite Hdp. split.
        -- intros [Hpd|(k & c0 & Hk & Hne' & Hprov)]; [by left|].
           right. exists (S k), c0. rewrite Nat.add_succ_r. done.
        -- intros [Hpd|(k & c0 & Hk & Hne' & Hprov)]; [by left|].
           destruct k as [|k]; simpl in Hk; [lia|].
           right. exists k, c0. rewrite Nat.add_succ_r in Hne'. done.
Qed.

(** ** Stores *)

Lemma store_rel_ok (s b : Z) F (caches caches' : list Cache) :
  store_rel s b F caches caches' → caches_ok s b caches'.
Proof.
  intros [Hlen Hrel] k c' Hk.
  assert (Hlt : (k < length caches)%nat).
  { rewrite <- Hlen. by eapply lookup_lt_Some. }
  destruct (lookup_lt_is_Some_2 _ _ Hlt) as [c Hc].
  destruct (Hrel k c Hc) as (c'' & Hc'' & Hok & _). by simplify_eq.
Qed.

Lemma store_rel_compose (s b : Z) F G (caches caches1 caches2 : list Cache) :
  store_rel s b F caches caches1 → store_rel s b G caches1 caches2 →
  store_rel s b (λ k n tag st, G k n tag (F k n tag st)) caches caches2.
Proof.
  intros [Hlen1 Hrel1] [Hlen2 Hrel2]. split; [congruence|].
  intros k c Hc.
  destruct (Hrel1 k c Hc) as (c1 & Hc1 & Hok1 & Hbs1).
  destruct (Hrel2 k c1 Hc1) as (c2 & Hc2 & Hok2 & Hbs2).
  exists c2. split; [done|]. split; [done|].
  intros n tag. by rewrite Hbs2, Hbs1.
Qed.

Lemma store_rel_ext (s b : Z) F G (caches caches' : list Cache) :
  store_rel s b F caches caches' →
  (∀ k c n tag, caches !! k = Some c →
                F k n tag (block_state c n tag) = G k n tag (block_state c n tag)) →
  store_rel s b G caches caches'.
Proof.
  intros [Hlen Hrel] Hext. split; [done|]. intros k c Hc.
  destruct (Hrel k c Hc) as (c' & Hc' & Hok & Hbs).
  exists c'. split; [done|]. split; [done|].
  intros n tag. rewrite Hbs. by apply Hext.
Qed.

(** Changing one slot of the store. *)
Lemma store_rel_alter (s b : Z) F (caches : list Cache) (me : nat) (self : Cache)
    (f : Cache → Cache) :
  caches_ok s b caches → caches !! me = Some self →
  Cache_ok s b me (f self) →
  (∀ n tag, block_state (f self) n tag = F n tag (block_state self n tag)) →
  store_rel s b (λ k n tag st, if decide (k = me) then F n tag st else st)
            caches (alter f me caches).
Proof.
  intros Hok Hself Hok' Hbs. split; [by rewrite length_alter|].
  intros k c Hc. destruct (decide (k = me)) as [->|Hne].
  - simplify_eq. exists (f self). rewrite list_lookup_alter_eq, Hself. done.
  - exists c. rewrite list_lookup_alter_ne by done. split; [done|].
    split; [by apply Hok|done].
Qed.

Lemma store_rel_refl (s b : Z) (caches : list Cache) :
  caches_ok s b caches → store_rel s b (λ _ _ _ st, st) caches caches.
Proof. intros Hok. split; [done|]. intros k c Hc. exists c. eauto. Qed.

(** The criterion for exclusivity after a rewriting of the block states. *)
Lemma exclusivity_rel (s b : Z) F (caches caches' : list Cache) :
  store_rel s b F caches caches' →
  (∀ i j ci cj n tag,
     i ≠ j → caches !! i = Some ci → caches !! j = Some cj →
     F i n tag (block_state ci n tag) = MODIFIED ∨
     F i n tag (block_state ci n tag) = EXCLUSIVE →
     F j n tag (block_state cj n tag) = INVALID) →
  exclusivity caches'.
Proof.
  intros [Hlen Hrel] Hcond i j ci' cj' n tag Hij Hi Hj Hex.
  assert (Hlti : (i < length caches)%nat) by (rewrite <- Hlen; by eapply lookup_lt_Some).
  assert (Hltj : (j < length caches)%nat) by (rewrite <- Hlen; by eapply lookup_lt_Some).
  destruct (lookup_lt_is_Some_2 _ _ Hlti) as [ci Hci].
  destruct (lookup_lt_is_Some_2 _ _ Hltj) as [cj Hcj].
  destruct (Hrel i ci Hci) as (ci'' & Hci'' & _ & Hbsi).
  destruct (Hrel j cj Hcj) as (cj'' & Hcj'' & _ & Hbsj).
  simplify_eq. rewrite Hbsj. rewrite Hbsi in Hex. by eapply Hcond.
Qed.

(** Snoops only downgrade, so they keep exclusivity. *)
Lemma exclusivity_snoop (s b : Z) op src n0 tag0 (caches caches' : list Cache) :
  store_rel s b (snoop_update op src n0 tag0) caches caches' →
  exclusivity caches → exclusivity caches'.
Proof.
  intros Hrel Hex. eapply exclusivity_rel; [done|].
  intros i j ci cj n tag Hij Hi Hj. unfold snoop_update.
  intros Hst.
  assert (Hold : block_state ci n tag = MODIFIED ∨ block_state ci n tag = EXCLUSIVE).
  { destruct (decide (i ≠ src ∧ n = n0 ∧ tag = tag0)); [|done].
    destruct op, (block_state ci n tag); simpl in Hst;
      destruct Hst; (done || tauto). }
  rewrite (Hex i j ci cj n tag Hij Hi Hj Hold).
  destruct (decide (j ≠ src ∧ n = n0 ∧ tag = tag0)); [|done]. by destruct op.
Qed.

(** Changing one block in one slot keeps exclusivity when the new state
    is compatible with what the other slots hold. *)
Lemma exclusivity_point (s b : Z) (me n0 : nat) (tag0 : Z) (st : CacheState)
    (caches caches' : list Cache) :
  store_rel s b (point_update me n0 tag0 st) caches caches' →
  exclusivity caches →
  (st = MODIFIED ∨ st = EXCLUSIVE →
   ∀ k c, k ≠ me → caches !! k = Some c → block_state c n0 tag0 = INVALID) →
  (st ≠ INVALID →
   ∀ k c, k ≠ me → caches !! k = Some c →
          block_state c n0 tag0 ≠ MODIFIED ∧ block_state c n0 tag0 ≠ EXCLUSIVE) →
  exclusivity caches'.
Proof.
  intros Hrel Hex Hexcl Hshared. eapply exclusivity_rel; [done|].
  intros i j ci cj n tag Hij Hi Hj. unfold point_update.
  destruct (decide (i = me ∧ n = n0 ∧ tag = tag0)) as [(-> & -> & ->)|Hni].
  - intros Hst. rewrite decide_False by (intros [? _]; congruence).
    by eapply Hexcl.
  - intros Hold. destruct (decide (j = me ∧ n = n0 ∧ tag = tag0)) as [(-> & -> & ->)|Hnj].
    + destruct (decide (st = INVALID)) as [|Hst]; [done|].
      destruct (Hshared Hst i ci Hij Hi). tauto.
    + by eapply Hex.
Qed.

(** ** Bus transactions *)

(** A transaction offered to an idle bus is accepted; it snoops every
    other cache, reports whether one of them provided data, leaves the bus
    idle again and stores the latency in [currentCycles]. *)
Lemma Bus_busOperation_spec (s b : Z) (op : BusOperation) (address : Z)
    (src : nat) (pd : bool) (cy : Z) (sys : System) :
  caches_ok s b (System_caches sys) →
  Bus_busy (System_bus sys) = false →
  ∃ sys' dp' cy',
    Bus_busOperation op address src pd cy sys = (sys', true, dp', cy') ∧
    store_rel s b
      (snoop_update op src (address_set s b address) (address_tag s b address))
      (System_caches sys) (System_caches sys') ∧
    (dp' = true ↔
     ∃ k c, System_caches sys !! k = Some c ∧ k ≠ src ∧
            snoop_provides op
              (block_state c (address_set s b address) (address_tag s b address))
            = true) ∧
    Bus_busy (System_bus sys') = false ∧
    Bus_pendingTransactions (System_bus sys') =
      Bus_pendingTransactions (System_bus sys) ∧
    Bus_currentCycles (System_bus sys') = cy' ∧
    (dp' = false → cy' = 100) ∧
    Bus_stats (System_bus sys') =
      (if dp' then Statistics_incrementBusTraffic 32 else id)
        (match op with
         | BusRd => Statistics_incrementBusReads 1
         | BusRdX => Statistics_incrementBusReadXs 1
         | BusUpgr => Statistics_incrementBusUpgrades 1
         | Flush | FlushOpt => Statistics_incrementBusFlushes 1
         end (Bus_stats (System_bus sys))) ∧
    (∀ c, System_caches sys !! src = Some c → System_caches sys' !! src = Some c).
Proof.
  intros Hok Hidle. unfold Bus_busOperation. rewrite Hidle.
  unfold Bus_processSnooping.
  destruct (Bus_processSnooping_loop 0 _ _) as [caches' tr'] eqn:Hloop.
  destruct (Bus_processSnooping_loop_spec s b _ 0 _ _ _ Hok Hloop)
    as (Hlen & Hrel & Hdp). simpl in Hrel, Hdp.
  assert (Hstore : store_rel s b
            (snoop_update op src (address_set s b address) (address_tag s b address))
            (System_caches sys) caches').
  { split; [done|]. intros k c Hc.
    destruct (Hrel k c Hc) as (c' & Hc' & Hok' & _ & Hbs). eauto. }
  assert (Hsrc : ∀ c, System_caches sys !! src = Some c → caches' !! src = Some c).
  { intros c Hc. destruct (Hrel src c Hc) as (c' & Hc' & _ & Heq & _).
    by rewrite (Heq eq_refl) in Hc'. }
  assert (Hprov : BusTransaction_dataProvided tr' = true ↔
            ∃ k c, System_caches sys !! k = Some c ∧ k ≠ src ∧
                   snoop_provides op
                     (block_state c (address_set s b address) (address_tag s b address))
                   = true).
  { rewrite Hdp. split; [intros [?|?]; [done|done]|by right]. }
  destruct (BusTransaction_dataProvided tr') eqn:Hd;
    eexists _, _, _; (split; [reflexivity|]); simpl;
    (split; [done|]); (split; [done|]); by destruct op.
Qed.

(** ** Eviction *)

Lemma CacheSet_findLine_unique (cs : CacheSet) (i : nat) (l : CacheLine) :
  tags_unique cs → CacheSet_lines cs !! i = Some l →
  CacheLine_isValid l = true →
  CacheSet_findLine (CacheLine_getTag l) cs = Some i.
Proof.
  intros Huniq Hl Hv.
  destruct (CacheSet_findLine (CacheLine_getTag l) cs) as [j|] eqn:Hfind.
  - destruct (CacheSet_findLine_Some _ _ _ Hfind) as (lj & Hlj & Hvj & Htj).
    f_equal. by eapply Huniq.
  - rewrite CacheSet_findLine_None in Hfind. by destruct (Hfind i l Hl Hv).
Qed.

Lemma set_state_line (cs : CacheSet) (i : nat) (l : CacheLine) :
  tags_unique cs → CacheSet_lines cs !! i = Some l →
  CacheLine_isValid l = true →
  set_state (CacheLine_getTag l) cs = CacheLine_getState l.
Proof.
  intros Huniq Hl Hv. unfold set_state.
  rewrite (CacheSet_findLine_unique cs i l) by done.
  unfold CacheSet_getLine. by rewrite Hl.
Qed.

(** The test of the peer loop is "the peer holds the block in SHARED". *)
Lemma peer_holds_shared_spec (s b : Z) (i k : nat) (self cache : Cache) (address : Z) :
  Cache_ok s b i self → Cache_ok s b k cache →
  peer_holds_shared self cache address = true ↔
  block_state cache (address_set s b address) (address_tag s b address) = SHARED.
Proof.
  intros Hself Hcache.
  destruct (Cache_ok_address s b i self address Hself) as [_ Hset].
  destruct (Cache_ok_address s b k cache address Hcache) as [Htag' Hset'].
  unfold peer_holds_shared, Cache_getLineIndex, block_state, set_state.
  rewrite Htag'. unfold Cache_getSet. rewrite Hset, Hset'.
  destruct (CacheSet_findLine _ _) as [li|]; [|done].
  destruct (CacheSet_getLine li _) as [l|]; [|done].
  rewrite andb_true_iff, bool_decide_eq_true, CacheLine_isValid_true.
  unfold CacheLine_getState. split; [tauto|]. intros ->. done.
Qed.

(** The peer loop counts the peers that pass its test and remembers the
    last of them. *)
Lemma evict_scan_spec (self : Cache) (address : Z) (caches : list Cache) :
  ∀ (cnt0 : Z) (last0 : option nat) cnt last,
    foldl (λ acc cache,
             if bool_decide (Cache_coreId cache ≠ Cache_coreId self) &&
                peer_holds_shared self cache address
             then (fst acc + 1, Some (Cache_coreId cache))
             else acc)
          (cnt0, last0) caches = (cnt, last) →
    cnt0 ≤ cnt ∧
    (cnt = cnt0 + 1 →
     ∃ i c, caches !! i = Some c ∧ last = Some (Cache_coreId c) ∧
            Cache_coreId c ≠ Cache_coreId self ∧
            peer_holds_shared self c address = true ∧
            ∀ j c', caches !! j = Some c' →
                    Cache_coreId c' ≠ Cache_coreId self →
                    peer_holds_shared self c' address = true → j = i) ∧
    (cnt = cnt0 →
     ∀ j c', caches !! j = Some c' →
             Cache_coreId c' ≠ Cache_coreId self →
             peer_holds_shared self c' address = false).
Proof.
  induction caches as [|c rest IH]; intros cnt0 last0 cnt last Hfold; simpl in Hfold.
  - simplify_eq. split; [lia|]. split; [lia|].
    intros _ j c' Hj. by rewrite lookup_nil in Hj.
  - destruct (bool_decide (Cache_coreId c ≠ Cache_coreId self) &&
              peer_holds_shared self c address) eqn:Htest; simpl in Hfold.
    + apply andb_true_iff in Htest as [Hid Hphs]. apply bool_decide_eq_true in Hid.
      destruct (IH _ _ _ _ Hfold) as (Hle & _ & Hzero).
      split; [lia|]. split; [|lia].
      intros Hcnt. specialize (Hzero Hcnt).
      assert (last = Some (Cache_coreId c)) as ->.
      { clear IH Hzero. revert Hfold Hcnt Hle. generalize (cnt0 + 1).
        intros z Hfold -> _.
        assert (∀ (l : list Cache) a r,
                  foldl (λ acc cache,
                           if bool_decide (Cache_coreId cache ≠ Cache_coreId self) &&
                              peer_holds_shared self cache address
                           then (fst acc + 1, Some (Cache_coreId cache))
                           else acc) a l = r →
                  fst a ≤ fst r ∧ (fst r = fst a → r = a)) as Haux.
        { clear. induction l as [|x l IHl]; intros a r Hr; simpl in Hr.
          - subst. split; [lia|done].
          - destruct (IHl _ _ Hr) as [Hle Heq].
            destruct (_ && _); simpl in *; [|done]. split; [lia|]. lia. }
        destruct (Haux _ _ _ Hfold) as [_ Heq]. simpl in Heq.
        specialize (Heq eq_refl). by simplify_eq. }
      exists 0%nat, c. repeat split; try done.
      intros [|j] c' Hj Hid' Hphs'; [done|]. simpl in Hj.
      rewrite (Hzero j c' Hj Hid') in Hphs'. done.
    + destruct (IH _ _ _ _ Hfold) as (Hle & Hone & Hzero).
      assert (Hc : Cache_coreId c ≠ Cache_coreId self →
                   peer_holds_shared self c address = false).
      { intros Hid. apply andb_false_iff in Htest as [Hb|Hb]; [|done].
        apply bool_decide_eq_false in Hb. done. }
      split; [done|]. split.
      * intros Hcnt. destruct (Hone Hcnt) as (i & c0 & Hi & Hlast & Hid & Hphs & Huniq).
        exists (S i), c0. repeat split; try done.
        intros [|j] c' Hj Hid' Hphs'; simpl in Hj.
        -- simplify_eq. rewrite (Hc Hid') in Hphs'. done.
        -- f_equal. by eapply Huniq.
      * intros Hcnt [|j] c' Hj Hid'; simpl in Hj.
        -- simplify_eq. by apply Hc.
        -- by eapply Hzero.
Qed.

Lemma store_rel_insert (s b : Z) F (caches : list Cache) (me : nat) (self x : Cache) :
  caches_ok s b caches → caches !! me = Some self →
  Cache_ok s b me x →
  (∀ n tag, block_state x n tag = F n tag (block_state self n tag)) →
  store_rel s b (λ k n tag st, if decide (k = me) then F n tag st else st)
            caches (<[me := x]> caches).
Proof.
  intros Hok Hself Hok' Hbs.
  assert (<[me := x]> caches = alter (λ _, x) me caches) as ->.
  { symmetry. exact (alter_lookup_insert (λ _, x) caches me self Hself). }
  by eapply store_rel_alter.
Qed.

Lemma Cache_ok_updStats (s b : Z) (k : nat) (c : Cache) f :
  Cache_ok s b k c → Cache_ok s b k (Cache_updStats f c).
Proof. intros H. by eapply Cache_ok_same_sets. Qed.

Lemma CacheSet_isFull_false (cs : CacheSet) (i : nat) (l : CacheLine) :
  CacheSet_lines cs !! i = Some l → CacheLine_isValid l = false →
  CacheSet_isFull cs = false.
Proof.
  intros Hl Hv. unfold CacheSet_isFull.
  destruct (forallb _ _) eqn:Hall; [|done].
  rewrite forallb_forall in Hall.
  rewrite (Hall l) in Hv; [done|].
  apply list_elem_of_In. by eapply list_elem_of_lookup_2.
Qed.

(** Evicting a valid line of cache [me]: only the victim's block changes
    (INVALID in [me], possibly SHARED to EXCLUSIVE in one peer),
    exclusivity is kept, the slot becomes free and a MODIFIED victim costs
    100 cycles. *)
Lemma Cache_evictLine_spec (s b : Z) (caches : list Cache) (me : nat)
    (self : Cache) (setIndex : Z) (cs : CacheSet) (victimIndex : nat)
    (lv : CacheLine) (address cycles : Z) :
  caches_ok s b caches → exclusivity caches →
  caches !! me = Some self →
  Cache_sets self !! Z.to_nat setIndex = Some cs →
  CacheSet_lines cs !! victimIndex = Some lv →
  CacheLine_isValid lv = true →
  address_tag s b address = CacheLine_getTag lv →
  address_set s b address = Z.to_nat setIndex →
  ∃ caches' F self',
    Cache_evictLine me setIndex victimIndex address cycles caches =
      (caches',
       cycles + if decide (CacheLine_getState lv = MODIFIED) then 100 else 0) ∧
    store_rel s b F caches caches' ∧
    (∀ k n tag st,
       ¬ (n = Z.to_nat setIndex ∧ tag = CacheLine_getTag lv) → F k n tag st = st) ∧
    exclusivity caches' ∧
    caches' !! me = Some self' ∧
    Cache_isBlocked self' = Cache_isBlocked self ∧
    CacheSet_isFull (Cache_getSet self' setIndex) = false.
Proof.
  intros Hok Hex Hself Hcs Hlv Hv Htag Hset.
  pose proof (Hok me self Hself) as Hokself.
  pose proof (ok_sets _ _ _ _ Hokself _ _ Hcs) as Hokcs.
  set (n0 := Z.to_nat setIndex). set (tv := CacheLine_getTag lv).
  assert (Hfind : CacheSet_findLine tv (Cache_getSet self setIndex) = Some victimIndex).
  { rewrite (Cache_getSet_lookup _ _ _ Hcs).
    apply CacheSet_findLine_unique; [by destruct Hokcs|done|done]. }
  assert (Hbsself : block_state self n0 tv = CacheLine_getState lv).
  { unfold block_state, n0. rewrite Hcs. simpl.
    apply (set_state_line cs victimIndex); [by destruct Hokcs|done|done]. }
  (* the last step: the victim line becomes INVALID *)
  assert (Hfinal : ∀ F1 caches1 c1,
            store_rel s b F1 caches caches1 → caches1 !! me = Some c1 →
            Cache_sets c1 = Cache_sets self →
            Cache_isBlocked c1 = Cache_isBlocked self →
            let caches' := alter (Cache_setLineState setIndex victimIndex INVALID) me caches1 in
            store_rel s b
              (λ k n tag st, point_update me n0 tv INVALID k n tag (F1 k n tag st))
              caches caches' ∧
            ∃ self', caches' !! me = Some self' ∧
                     Cache_isBlocked self' = Cache_isBlocked self ∧
                     CacheSet_isFull (Cache_getSet self' setIndex) = false).
  { intros F1 caches1 c1 Hrel1 Hc1 Hsets1 Hbl1. simpl.
    pose proof (store_rel_ok _ _ _ _ _ Hrel1) as Hok1.
    assert (Hfind1 : CacheSet_findLine tv (Cache_getSet c1 setIndex) = Some victimIndex).
    { unfold Cache_getSet. rewrite Hsets1. exact Hfind. }
    destruct (Cache_setLineState_spec s b me c1 setIndex tv victimIndex INVALID
                (Hok1 me c1 Hc1) Hfind1) as [Hok' Hbs'].
    split.
    - eapply store_rel_compose; [exact Hrel1|].
      eapply store_rel_ext.
      + eapply (store_rel_alter s b
                  (λ n tag st, if decide (n = n0 ∧ tag = tv) then INVALID else st));
          [done|done|done|done].
      + intros k c n tag _. unfold point_update.
        destruct (decide (k = me)) as [->|Hne].
        * destruct (decide (n = n0 ∧ tag = tv)) as [[-> ->]|Hn].
          -- by rewrite decide_True.
          -- rewrite decide_False; [done|]. tauto.
        * rewrite decide_False; [done|]. tauto.
    - eexists. rewrite list_lookup_alter_eq, Hc1. simpl. split; [done|].
      split; [done|].
      unfold Cache_setLineState, Cache_getSet, Cache_updSet. simpl.
      rewrite list_lookup_alter_eq, Hsets1, Hcs. simpl.
      eapply (CacheSet_isFull_false _ victimIndex).
      + simpl. by rewrite list_lookup_alter_eq, Hlv.
      + done. }
  unfold Cache_evictLine. rewrite Hself.
  rewrite (Cache_getSet_lookup _ _ _ Hcs). unfold CacheSet_getLine. rewrite Hlv. simpl.
  (* exclusivity when no peer is promoted *)
  assert (Hplain : ∀ caches', 
            store_rel s b (λ k n tag st, point_update me n0 tv INVALID k n tag st)
                      caches caches' → exclusivity caches').
  { intros caches' Hrel. eapply exclusivity_point; [exact Hrel|done| |done].
    intros [?|?]; done. }
  assert (Hid : ∀ k n tag st,
            ¬ (n = n0 ∧ tag = tv) → point_update me n0 tv INVALID k n tag st = st).
  { intros k n tag st Hn. unfold point_update. rewrite decide_False; [done|]. tauto. }
  destruct (CacheLine_getState lv) eqn:Hst; simpl.
  - (* MODIFIED *)
    destruct (Hfinal (λ _ _ _ st, st)
                (alter (Cache_updStats (Statistics_incrementWritebacks 1)) me caches)
                (Cache_updStats (Statistics_incrementWritebacks 1) self))
      as [Hrel (self' & Hself' & Hbl' & Hfull')]; [| |done|done|].
    { eapply store_rel_ext.
      - eapply (store_rel_alter s b (λ _ _ st, st)); [done|done| |done].
        by apply Cache_ok_updStats.
      - intros; simpl. by destruct (decide _). }
    { by rewrite list_lookup_alter_eq, Hself. }
    eexists _, _, self'. split; [reflexivity|]. split; [exact Hrel|].
    split; [exact Hid|]. split; [by apply Hplain|]. done.
  - (* EXCLUSIVE *)
    destruct (Hfinal (λ _ _ _ st, st) caches self)
      as [Hrel (self' & Hself' & Hbl' & Hfull')]; [by apply store_rel_refl|done|done|done|].
    eexists _, _, self'. rewrite Z.add_0_r. split; [reflexivity|]. split; [exact Hrel|].
    split; [exact Hid|]. split; [by apply Hplain|]. done.
  - (* SHARED *)
    assert (Hnop :
      ∃ caches' F self',
        (alter (Cache_setLineState setIndex victimIndex INVALID) me caches, cycles) =
          (caches', cycles + 0) ∧
        store_rel s b F caches caches' ∧
        (∀ k n tag st, ¬ (n = n0 ∧ tag = tv) → F k n tag st = st) ∧
        exclusivity caches' ∧ caches' !! me = Some self' ∧
        Cache_isBlocked self' = Cache_isBlocked self ∧
        CacheSet_isFull (Cache_getSet self' setIndex) = false).
    { destruct (Hfinal (λ _ _ _ st, st) caches self)
        as [Hrel (self' & Hself' & Hbl' & Hfull')];
        [by apply store_rel_refl|done|done|done|].
      eexists _, _, self'. rewrite Z.add_0_r. split; [reflexivity|]. split; [exact Hrel|].
      split; [exact Hid|]. split; [by apply Hplain|]. done. }
    destruct (evict_scan self address caches) as [count [last|]] eqn:Hscan; [|exact Hnop].
    destruct (Z.eqb_spec count 1) as [->|Hcount]; [|exact Hnop].
    unfold evict_scan in Hscan.
    destruct (evict_scan_spec self address caches 0 None 1 (Some last) Hscan)
      as (_ & Hone & _).
    destruct (Hone eq_refl) as (j & cj & Hj & Hlast & Hid' & Hphs & Huniq).
    pose proof (Hok j cj Hj) as Hokj.
    rewrite (ok_coreId _ _ _ _ Hokj) in Hlast, Hid'.
    rewrite (ok_coreId _ _ _ _ Hokself) in Hid'. simplify_eq.
    apply (peer_holds_shared_spec s b me j self cj address Hokself Hokj) in Hphs.
    rewrite Htag, Hset in Hphs. fold n0 tv in Hphs.
    unfold evict_promote. rewrite Hj.
    destruct (Cache_ok_address s b j cj address Hokj) as [Htagj Hsetj].
    destruct (Cache_ok_address s b me self address Hokself) as [_ Hsetme].
    assert (Hidx : Cache_getSetIndex self address = Cache_getSetIndex cj address).
    { unfold Cache_getSetIndex.
      by rewrite (ok_setIndexBits _ _ _ _ Hokself), (ok_blockOffsetBits _ _ _ _ Hokself),
        (ok_setIndexBits _ _ _ _ Hokj), (ok_blockOffsetBits _ _ _ _ Hokj). }
    unfold Cache_getLineIndex.
    destruct (CacheSet_findLine (Cache_getTag cj address)
                (Cache_getSet cj (Cache_getSetIndex cj address))) as [li|] eqn:Hfindj.
    2:{ exfalso. unfold block_state, set_state in Hphs.
        unfold Cache_getSet in Hfindj. rewrite Hsetj, Htagj, Htag, Hset in Hfindj.
        fold n0 tv in Hfindj. by rewrite Hfindj in Hphs. }
    rewrite Hidx.
    destruct (Cache_setLineState_spec s b j cj (Cache_getSetIndex cj address)
                (Cache_getTag cj address) li EXCLUSIVE Hokj Hfindj) as [Hokj' Hbsj'].
    rewrite Hsetj, Htagj, Htag, Hset in Hbsj'. fold n0 tv in Hbsj'.
    set (cj' := Cache_setLineState (Cache_getSetIndex cj address) li EXCLUSIVE cj) in *.
    assert (Hrel1 : store_rel s b (point_update j n0 tv EXCLUSIVE) caches (<[j := cj']> caches)).
    { eapply store_rel_ext.
      - eapply (store_rel_insert s b
                  (λ n tag st, if decide (n = n0 ∧ tag = tv) then EXCLUSIVE else st));
          [done|done|done|done].
      - intros k c n tag _. unfold point_update.
        destruct (decide (k = j)) as [->|Hne].
        + destruct (decide (n = n0 ∧ tag = tv)) as [[-> ->]|Hn].
          * by rewrite decide_True.
          * rewrite decide_False; [done|]. tauto.
        + rewrite decide_False; [done|]. tauto. }
    destruct (Hfinal _ (<[j := cj']> caches) self Hrel1)
      as [Hrel (self' & Hself' & Hbl' & Hfull')]; [|done|done|].
    { by rewrite list_lookup_insert_ne. }
    eexists _, _, self'. rewrite Z.add_0_r. split; [reflexivity|]. split; [exact Hrel|].
    split.
    { intros k n tag st Hn. unfold point_update.
      rewrite !decide_False; [done|tauto|tauto]. }
    split; [|done].
    eapply exclusivity_rel; [exact Hrel|].
    intros i1 i2 c1 c2 n tag Hi12 Hc1 Hc2. unfold point_update.
    destruct (decide (n = n0 ∧ tag = tv)) as [[-> ->]|Hn].
    2:{ rewrite !decide_False by tauto. by eapply Hex. }
    assert (Hvalid : ∀ k c, k ≠ me → caches !! k = Some c →
              block_state c n0 tv ≠ MODIFIED ∧ block_state c n0 tv ≠ EXCLUSIVE).
    { intros k c Hk Hc. split; intros Hbs.
      - assert (block_state self n0 tv = INVALID) as Hinv
          by (eapply (Hex k me c self); eauto).
        congruence.
      - assert (block_state self n0 tv = INVALID) as Hinv
          by (eapply (Hex k me c self); eauto).
        congruence. }
    destruct (decide (i1 = me)) as [->|Hi1].
    { rewrite decide_True by done. intros [?|?]; done. }
    rewrite (decide_False (P := i1 = me ∧ _)) by tauto.
    destruct (decide (i1 = j)) as [->|Hi1j].
    + intros _. destruct (decide (i2 = me)) as [->|Hi2].
      { by rewrite decide_True. }
      rewrite (decide_False (P := i2 = me ∧ _)) by tauto.
      rewrite (decide_False (P := i2 = j ∧ _)) by (intros [? _]; congruence).
      destruct (Hvalid i2 c2 Hi2 Hc2) as [HnM HnE].
      destruct (block_state c2 n0 tv) eqn:Hbs2; try done.
      exfalso. apply Hi12. symmetry. eapply (Huniq i2 c2 Hc2).
      * rewrite (ok_coreId _ _ _ _ (Hok i2 c2 Hc2)), (ok_coreId _ _ _ _ Hokself). done.
      * apply (peer_holds_shared_spec s b me i2 self c2 address Hokself (Hok i2 c2 Hc2)).
        rewrite Htag, Hset. done.
    + rewrite (decide_False (P := i1 = j ∧ _)) by tauto.
      intros Hbs. destruct (Hvalid i1 c1 Hi1 Hc1). tauto.
  - (* INVALID *)
    apply CacheLine_isValid_true in Hv. unfold CacheLine_getState in Hst. done.
Qed.

(** ** Allocation *)

Lemma CacheSet_isFull_valid (cs : CacheSet) (i : nat) (l : CacheLine) :
  CacheSet_isFull cs = true → CacheSet_lines cs !! i = Some l →
  CacheLine_isValid l = true.
Proof.
  unfold CacheSet_isFull. rewrite forallb_forall. intros Hall Hl.
  apply Hall, list_elem_of_In. by eapply list_elem_of_lookup_2.
Qed.

Lemma CacheSet_not_full_find (cs : CacheSet) :
  CacheSet_isFull cs = false →
  ∃ i l, list_find (λ l, CacheLine_isValid l = false) (CacheSet_lines cs) = Some (i, l).
Proof.
  intros Hfull.
  destruct (list_find _ _) as [[i l]|] eqn:Hfind; [by eauto|].
  exfalso. apply list_find_None in Hfind.
  assert (CacheSet_isFull cs = true); [|congruence].
  unfold CacheSet_isFull. apply forallb_forall. intros l Hl.
  apply list_elem_of_In in Hl. rewrite Forall_forall in Hfind.
  specialize (Hfind l Hl). simpl in Hfind. by destruct (CacheLine_isValid l).
Qed.

(** Installing the block of [address] in a cache that does not hold it
    and has a free slot in the set. *)
Lemma Cache_install_spec (s b : Z) (k : nat) (c : Cache) (address : Z)
    (st : CacheState) :
  0 ≤ s → 0 ≤ b → s + b < 32 →
  Cache_ok s b k c → address_ok address → st ≠ INVALID →
  block_state c (address_set s b address) (address_tag s b address) = INVALID →
  CacheSet_isFull (Cache_getSet c (Cache_getSetIndex c address)) = false →
  let c' :=
    let '(lineIndex, set') :=
      CacheSet_allocateLine (Cache_getTag c address)
        (Cache_getSet c (Cache_getSetIndex c address)) in
    Cache_with_isBlocked false
      (Cache_setLineState (Cache_getSetIndex c address) lineIndex st
         (Cache_updSet (Cache_getSetIndex c address) (λ _, set') c)) in
  Cache_ok s b k c' ∧ Cache_isBlocked c' = false ∧
  ∀ n tag, block_state c' n tag =
           if decide (n = address_set s b address ∧ tag = address_tag s b address)
           then st else block_state c n tag.
Proof.
  intros Hs Hb Hsb Hok Haddr Hst Hmiss Hfull.
  destruct (Cache_ok_address s b k c address Hok) as [Htag Hset].
  rewrite Htag. set (setIndex := Cache_getSetIndex c address) in *.
  set (n0 := address_set s b address) in *. set (t0 := address_tag s b address) in *.
  destruct (Cache_sets c !! n0) as [cs|] eqn:Hcs.
  2:{ unfold Cache_getSet in Hfull. rewrite Hset, Hcs in Hfull. done. }
  assert (Hgs : Cache_getSet c setIndex = cs).
  { apply Cache_getSet_lookup. by rewrite Hset. }
  rewrite Hgs in *.
  destruct (CacheSet_not_full_find cs Hfull) as (i & l0 & Hfind).
  unfold CacheSet_allocateLine. rewrite Hfind.
  apply list_find_Some in Hfind as (Hl0 & Hv0 & _).
  pose proof (ok_sets _ _ _ _ Hok _ _ Hcs) as Hokcs.
  set (set' := CacheSet_updateLRU i (CacheSet_updLine i (CacheLine_setTag t0) cs)).
  set (final := CacheSet_updLine i (CacheLine_setState st) set').
  assert (Hmiss' : set_state t0 cs = INVALID).
  { unfold block_state in Hmiss. by rewrite Hcs in Hmiss. }
  destruct (set_state_install s b cs final t0 i l0 st Hokcs Hmiss' Hl0 Hv0 Hst)
    as [Hokf Hstf].
  { unfold t0, address_tag. by apply address_tag_range. }
  { unfold final, set'. simpl. rewrite CacheSet_updateLRU_lines. simpl.
    rewrite list_alter_alter_eq.
    by rewrite (alter_lookup_insert _ _ _ _ Hl0). }
  { unfold final, set', CacheSet_updateLRU. simpl.
    case_decide; simpl; [|done]. by rewrite length_insert, length_fmap. }
  assert (Hsets :
    Cache_sets
      (Cache_setLineState setIndex i st (Cache_updSet setIndex (λ _, set') c)) =
    Cache_sets (Cache_updSet setIndex (λ _, final) c)).
  { unfold Cache_setLineState, Cache_updSet. simpl.
    rewrite list_alter_alter_eq. apply list_alter_ext; [|done].
    intros x _. done. }
  destruct (Cache_updSet_spec s b k c setIndex (λ _, final) cs Hok)
    as [Hok' Hbs']; [by rewrite Hset|done|].
  split; [|split; [done|]].
  - eapply Cache_ok_same_sets; [exact Hok'|done|done|done|].
    simpl. exact Hsets.
  - intros n tag.
    rewrite (block_state_same_sets (Cache_updSet setIndex (λ _, final) c))
      by (simpl; exact Hsets).
    rewrite Hbs', Hset, Hstf.
    destruct (decide (n = n0)) as [->|Hn].
    + destruct (decide (tag = t0)) as [->|Ht].
      * by rewrite decide_True.
      * rewrite decide_False by tauto. unfold block_state. by rewrite Hcs.
    + by rewrite decide_False by tauto.
Qed.

Lemma address_set_lt (s b : Z) (k : nat) (c : Cache) (address : Z) :
  0 ≤ s → 0 ≤ b → Cache_ok s b k c →
  ∃ cs, Cache_sets c !! address_set s b address = Some cs ∧
        Cache_getSet c (Cache_getSetIndex c address) = cs ∧
        0 ≤ Cache_getSetIndex c address < 2 ^ s.
Proof.
  intros Hs Hb Hok.
  destruct (Cache_ok_address s b k c address Hok) as [_ Hset].
  assert (Hrange : 0 ≤ Cache_getSetIndex c address < 2 ^ s).
  { unfold Cache_getSetIndex.
    rewrite (ok_setIndexBits _ _ _ _ Hok), (ok_blockOffsetBits _ _ _ _ Hok).
    by apply address_set_range. }
  assert (Hlt : (address_set s b address < length (Cache_sets c))%nat).
  { rewrite (ok_numSets _ _ _ _ Hok), <- Hset. lia. }
  destruct (lookup_lt_is_Some_2 _ _ Hlt) as [cs Hcs].
  exists cs. split; [done|]. split; [|done].
  apply Cache_getSet_lookup. by rewrite Hset.
Qed.

(** [allocateLine] on a miss: the victim (if the set is full) is evicted,
    the block is installed in the requested state and the cache is
    unblocked; coherence is kept when the other caches are compatible with
    the new state. *)
Lemma Cache_allocateLine_spec (s b : Z) (caches : list Cache) (me : nat)
    (self : Cache) (address : Z) (isWrite busresponse : bool) (cycles : Z) :
  0 ≤ s → 0 ≤ b → s + b < 32 →
  caches_ok s b caches → exclusivity caches →
  caches !! me = Some self → address_ok address →
  let n0 := address_set s b address in
  let t0 := address_tag s b address in
  let st := allocated_state isWrite busresponse in
  block_state self n0 t0 = INVALID →
  (st = MODIFIED ∨ st = EXCLUSIVE →
   ∀ k c, k ≠ me → caches !! k = Some c → block_state c n0 t0 = INVALID) →
  (∀ k c, k ≠ me → caches !! k = Some c →
          block_state c n0 t0 ≠ MODIFIED ∧ block_state c n0 t0 ≠ EXCLUSIVE) →
  ∃ caches' self',
    Cache_allocateLine me address isWrite cycles busresponse caches =
      (caches', cycles + eviction_cycles self address) ∧
    caches_ok s b caches' ∧ exclusivity caches' ∧
    length caches' = length caches ∧
    caches' !! me = Some self' ∧ Cache_isBlocked self' = false ∧
    block_state self' n0 t0 = st.
Proof.
  intros Hs Hb Hsb Hok Hex Hself Haddr n0 t0 st Hmiss Hexcl Hshared.
  pose proof (Hok me self Hself) as Hokself.
  destruct (Cache_ok_address s b me self address Hokself) as [Htag Hset].
  destruct (address_set_lt s b me self address Hs Hb Hokself)
    as (cs & Hcs & Hgs & Hrange).
  fold n0 in Hcs, Hset.
  pose proof (ok_sets _ _ _ _ Hokself _ _ Hcs) as Hokcs.
  assert (Hst : st ≠ INVALID).
  { unfold st, allocated_state. by destruct isWrite, busresponse. }
  (* the eviction step *)
  assert (Hevict :
    ∃ caches1 F self1,
      (if CacheSet_isFull cs then
         let victimIndex := CacheSet_getLRUIndex cs in
         match CacheSet_getLine victimIndex cs with
         | Some victimLine =>
             if CacheLine_isValid victimLine then
               let victimAddress :=
                 Z.lor (u32 (Z.shiftl (CacheLine_getTag victimLine)
                               (Cache_setIndexBits self + Cache_blockOffsetBits self)))
                       (u32 (Z.shiftl (Cache_getSetIndex self address)
                               (Cache_blockOffsetBits self))) in
               let '(cs0, cy) :=
                 Cache_evictLine me (Cache_getSetIndex self address) victimIndex
                   victimAddress cycles caches in
               (alter (Cache_updStats (Statistics_incrementEvictions 1)) me cs0, cy)
             else (caches, cycles)
         | None => (caches, cycles)
         end
       else (caches, cycles)) =
      (caches1, cycles + eviction_cycles self address) ∧
      store_rel s b F caches caches1 ∧
      (∀ k n tag st0, n = n0 ∧ tag = t0 → F k n tag st0 = st0) ∧
      exclusivity caches1 ∧ caches1 !! me = Some self1 ∧
      Cache_ok s b me self1 ∧
      Cache_getSetIndex self1 address = Cache_getSetIndex self address ∧
      Cache_getTag self1 address = Cache_getTag self address ∧
      CacheSet_isFull (Cache_getSet self1 (Cache_getSetIndex self address)) = false).
  { unfold eviction_cycles. rewrite Hgs.
    destruct (CacheSet_isFull cs) eqn:Hfull.
    2:{ exists caches, (λ _ _ _ st0, st0), self. rewrite Z.add_0_r.
        split; [done|]. split; [by apply store_rel_refl|].
        split; [done|]. split; [done|]. split; [done|]. split; [done|].
        split; [done|]. split; [done|]. by rewrite Hgs. }
    assert (Hne : CacheSet_lruCounter cs ≠ []).
    { intros Heq. destruct Hokcs as [Hw Hl _ _]. rewrite Heq in Hl. simpl in Hl. lia. }
    pose proof (CacheSet_getLRUIndex_lt cs Hne) as Hlt.
    rewrite (ok_lru _ _ _ Hokcs) in Hlt.
    destruct (lookup_lt_is_Some_2 _ _ Hlt) as [lv Hlv].
    unfold CacheSet_getLine. rewrite Hlv.
    pose proof (CacheSet_isFull_valid cs _ lv Hfull Hlv) as Hv. rewrite Hv.
    rewrite (ok_setIndexBits _ _ _ _ Hokself), (ok_blockOffsetBits _ _ _ _ Hokself).
    destruct (victim_address s b Hs Hb Hsb (CacheLine_getTag lv)
                (Cache_getSetIndex self address)) as [Hvt Hvs];
      [by eapply (ok_tags _ _ _ Hokcs)|done|].
    simpl in Hvt, Hvs.
    set (victimAddress := Z.lor _ _) in *.
    destruct (Cache_evictLine_spec s b caches me self (Cache_getSetIndex self address)
                cs (CacheSet_getLRUIndex cs) lv victimAddress cycles)
      as (caches_e & F & self_e & Heq & Hrel & HF & Hex_e & Hself_e & Hbl_e & Hfull_e);
      [done|done|done|by rewrite Hset|done|done|done| |].
    { unfold address_set. by rewrite Hvs. }
    rewrite Heq.
    assert (Hrel' : store_rel s b (λ k n tag st0, F k n tag st0) caches
              (alter (Cache_updStats (Statistics_incrementEvictions 1)) me caches_e)).
    { eapply store_rel_ext.
      - eapply store_rel_compose; [exact Hrel|].
        eapply (store_rel_alter s b (λ _ _ st0, st0)); [by eapply store_rel_ok|done| |done].
        apply Cache_ok_updStats. by eapply (store_rel_ok _ _ _ _ _ Hrel).
      - intros k c n tag _. simpl. by rewrite decide_same. }
    exists (alter (Cache_updStats (Statistics_incrementEvictions 1)) me caches_e), F,
      (Cache_updStats (Statistics_incrementEvictions 1) self_e).
    split.
    { f_equal. f_equal. unfold CacheLine_isdirty, CacheLine_getState.
      destruct (decide (CacheLine_state lv = MODIFIED)) as [Hm|Hm].
      - by rewrite bool_decide_eq_true_2.
      - by rewrite bool_decide_eq_false_2. }
    split; [exact Hrel'|].
    split.
    { intros k n tag st0 [-> ->]. apply HF. intros [_ Heqt].
      rewrite Hset in *.
      assert (block_state self n0 (CacheLine_getTag lv) = CacheLine_getState lv) as Hbs.
      { unfold block_state. rewrite Hcs. simpl.
        apply (set_state_line cs (CacheSet_getLRUIndex cs)); [by destruct Hokcs|done|done]. }
      rewrite <- Heqt, Hmiss in Hbs. apply CacheLine_isValid_true in Hv.
      unfold CacheLine_getState in Hbs. congruence. }
    split.
    { eapply exclusivity_rel.
      - eapply (store_rel_alter s b (λ _ _ st0, st0));
          [by eapply store_rel_ok|done| |done].
        apply Cache_ok_updStats. by eapply (store_rel_ok _ _ _ _ _ Hrel).
      - intros i j ci cj n tag Hij Hi Hj. cbv beta. rewrite !decide_same.
        by apply (Hex_e i j ci cj). }
    split; [by rewrite list_lookup_alter_eq, Hself_e|].
    pose proof (store_rel_ok _ _ _ _ _ Hrel me self_e Hself_e) as Hok_e.
    split; [by apply Cache_ok_updStats|].
    split.
    { unfold Cache_getSetIndex. simpl.
      by rewrite (ok_setIndexBits _ _ _ _ Hok_e), (ok_blockOffsetBits _ _ _ _ Hok_e),
        (ok_setIndexBits _ _ _ _ Hokself), (ok_blockOffsetBits _ _ _ _ Hokself). }
    split; [|done].
    unfold Cache_getTag. simpl.
    by rewrite (ok_setIndexBits _ _ _ _ Hok_e), (ok_blockOffsetBits _ _ _ _ Hok_e),
      (ok_setIndexBits _ _ _ _ Hokself), (ok_blockOffsetBits _ _ _ _ Hokself). }
  destruct Hevict as (caches1 & F & self1 & Heq1 & Hrel1 & HF & Hex1 & Hself1 &
                      Hok1 & Hidx1 & Htag1 & Hfull1).
  unfold Cache_allocateLine. rewrite Hself. cbv zeta in Heq1 |- *. rewrite Hgs.
  fold (allocated_state isWrite busresponse). fold st.
  rewrite Heq1.
  pose proof (store_rel_ok _ _ _ _ _ Hrel1) as Hoks1.
  destruct Hrel1 as [Hlen1 Hrel1].
  destruct (Hrel1 me self Hself) as (self1' & Hself1' & _ & Hbs1).
  assert (self1' = self1) as -> by congruence.
  assert (Hmiss1 : block_state self1 n0 t0 = INVALID).
  { rewrite Hbs1, HF by done. exact Hmiss. }
  set (install := λ c : Cache,
         let '(lineIndex, set') :=
           CacheSet_allocateLine (Cache_getTag self address)
             (Cache_getSet c (Cache_getSetIndex self address)) in
         Cache_with_isBlocked false
           (Cache_setLineState (Cache_getSetIndex self address) lineIndex st
              (Cache_updSet (Cache_getSetIndex self address) (λ _, set') c))).
  pose proof (Cache_install_spec s b me self1 address st Hs Hb Hsb Hok1 Haddr Hst Hmiss1)
    as Hinst.
  rewrite Hidx1, Htag1 in Hinst. specialize (Hinst Hfull1).
  fold (install self1) in Hinst. destruct Hinst as (Hok' & Hbl' & Hbs').
  exists (alter install me caches1), (install self1).
  split; [done|].
  assert (Hrel2 : store_rel s b (point_update me n0 t0 st) caches1
                    (alter install me caches1)).
  { eapply store_rel_ext.
    - eapply (store_rel_alter s b
                (λ n tag st0, if decide (n = n0 ∧ tag = t0) then st else st0));
        [done|done|done|done].
    - intros k c n tag _. unfold point_update.
      destruct (decide (k = me)) as [->|Hne].
      + destruct (decide (n = n0 ∧ tag = t0)) as [[-> ->]|Hn].
        * by rewrite decide_True.
        * rewrite decide_False; [done|]. tauto.
      + rewrite decide_False; [done|]. tauto. }
  assert (Hpeer : ∀ k c1, k ≠ me → caches1 !! k = Some c1 →
            ∃ c, caches !! k = Some c ∧ block_state c1 n0 t0 = block_state c n0 t0).
  { intros k c1 Hk Hc1.
    assert (Hlt : (k < length caches)%nat) by (rewrite <- Hlen1; by eapply lookup_lt_Some).
    destruct (lookup_lt_is_Some_2 _ _ Hlt) as [c Hc].
    destruct (Hrel1 k c Hc) as (c1' & Hc1' & _ & Hbsk).
    assert (c1' = c1) as -> by congruence.
    exists c. split; [done|]. by rewrite Hbsk, HF. }
  split; [by eapply store_rel_ok|].
  split.
  { eapply exclusivity_point; [exact Hrel2|done| |].
    - intros Hme k c1 Hk Hc1. destruct (Hpeer k c1 Hk Hc1) as (c & Hc & ->).
      by eapply Hexcl.
    - intros _ k c1 Hk Hc1. destruct (Hpeer k c1 Hk Hc1) as (c & Hc & ->).
      by eapply Hshared. }
  split; [by rewrite length_alter|].
  split; [by rewrite list_lookup_alter_eq, Hself1|].
  split; [done|]. rewrite Hbs'. by rewrite decide_True.
Qed.

(** ** Reads and writes *)

(** Replacing a cache by one with the same configuration and lines. *)
Lemma store_rel_same_sets (s b : Z) (caches : list Cache) (me : nat)
    (self x : Cache) :
  caches_ok s b caches → caches !! me = Some self →
  Cache_coreId x = Cache_coreId self →
  Cache_setIndexBits x = Cache_setIndexBits self →
  Cache_blockOffsetBits x = Cache_blockOffsetBits self →
  (∀ n tag, block_state x n tag = block_state self n tag) →
  (Cache_ok s b me self → Cache_ok s b me x) →
  store_rel s b (λ _ _ _ st, st) caches (<[me := x]> caches).
Proof.
  intros Hok Hself E1 E2 E3 Hbs Hokx.
  eapply store_rel_ext.
  - eapply (store_rel_insert s b (λ _ _ st, st)); [done|done| |done].
    apply Hokx. by apply Hok.
  - intros k c n tag _. simpl. by rewrite decide_same.
Qed.

Lemma exclusivity_same (s b : Z) (caches caches' : list Cache) :
  store_rel s b (λ _ _ _ st, st) caches caches' →
  exclusivity caches → exclusivity caches'.
Proof.
  intros Hrel Hex. eapply exclusivity_rel; [exact Hrel|].
  intros i j ci cj n tag Hij Hi Hj. by apply (Hex i j ci cj).
Qed.

Lemma Cache_lookupAndUpdate_spec (s b : Z) (k : nat) (c : Cache) (address : Z)
    (isWrite : bool) :
  0 ≤ s → 0 ≤ b → Cache_ok s b k c →
  ∃ c', Cache_lookupAndUpdate address isWrite c =
          (bool_decide (block_state c (address_set s b address)
                          (address_tag s b address) ≠ INVALID), c') ∧
        Cache_ok s b k c' ∧
        Cache_isBlocked c' = Cache_isBlocked c ∧
        Cache_blockedCycles c' = Cache_blockedCycles c ∧
        Cache_stats c' = Cache_stats c ∧
        (∀ n tag, block_state c' n tag = block_state c n tag) ∧
        (block_state c (address_set s b address) (address_tag s b address) = INVALID →
         c' = c) ∧
        (∀ n cs, Cache_sets c !! n = Some cs →
           ∃ cs', Cache_sets c' !! n = Some cs' ∧
                  CacheSet_lines cs' = CacheSet_lines cs).
Proof.
  intros Hs Hb Hok.
  destruct (Cache_ok_address s b k c address Hok) as [Htag Hset].
  destruct (address_set_lt s b k c address Hs Hb Hok) as (cs & Hcs & Hgs & Hrange).
  unfold Cache_lookupAndUpdate. rewrite Hgs, Htag.
  assert (Hbs : block_state c (address_set s b address) (address_tag s b address) =
                set_state (address_tag s b address) cs).
  { unfold block_state. by rewrite Hcs. }
  rewrite Hbs. unfold set_state.
  destruct (CacheSet_findLine (address_tag s b address) cs) as [i|] eqn:Hfind.
  - destruct (CacheSet_findLine_Some _ _ _ Hfind) as (l & Hl & Hv & Ht).
    unfold CacheSet_getLine. rewrite Hl.
    apply CacheLine_isValid_true in Hv.
    rewrite bool_decide_eq_true_2 by done.
    destruct (Cache_updSet_spec s b k c (Cache_getSetIndex c address)
                (CacheSet_updateLRU i) cs Hok) as [Hok' Hbs'];
      [by rewrite Hset|by apply CacheSet_ok_updateLRU; eapply ok_sets|].
    eexists. split; [reflexivity|]. split; [done|].
    split; [done|]. split; [done|]. split; [done|].
    split.
    { intros n tag. rewrite Hbs', set_state_updateLRU.
      destruct (decide _) as [->|]; [|done].
      unfold block_state. by rewrite Hset, Hcs. }
    split; [done|].
    intros n cs0 Hn. simpl.
    destruct (decide (Z.to_nat (Cache_getSetIndex c address) = n)) as [<-|Hne].
    + rewrite list_lookup_alter_eq, Hn. simpl. eexists. split; [done|].
      apply CacheSet_updateLRU_lines.
    + rewrite list_lookup_alter_ne by done. eauto.
  - rewrite bool_decide_eq_false_2 by (intros H; by apply H).
    exists c. split; [done|]. split; [done|]. split; [done|]. split; [done|].
    split; [done|]. split; [done|]. split; [done|].
    intros n cs0 Hn. eauto.
Qed.

Lemma eviction_cycles_same_sets (c c' : Cache) (address : Z) :
  Cache_setIndexBits c' = Cache_setIndexBits c →
  Cache_blockOffsetBits c' = Cache_blockOffsetBits c →
  Cache_sets c' = Cache_sets c →
  eviction_cycles c' address = eviction_cycles c address.
Proof.
  intros E1 E2 E3. unfold eviction_cycles, Cache_getSet, Cache_getSetIndex.
  by rewrite E1, E2, E3.
Qed.

Lemma snoop_next_not_exclusive (op : BusOperation) (st : CacheState) :
  op = BusRd ∨ op = BusRdX ∨ op = BusUpgr →
  snoop_next op st ≠ MODIFIED ∧ snoop_next op st ≠ EXCLUSIVE.
Proof. intros [-> | [-> | ->]]; by destruct st. Qed.

(** Servicing a miss of cache [me]: the bus transaction followed by
    [allocateLine]. *)
Lemma miss_service_spec (s b : Z) (sys : System) (me : nat) (self : Cache)
    (op : BusOperation) (isWrite : bool) (address : Z) :
  0 ≤ s → 0 ≤ b → s + b < 32 →
  System_ok s b sys → System_caches sys !! me = Some self →
  address_ok address →
  (op = BusRd ∧ isWrite = false) ∨ (op = BusRdX ∧ isWrite = true) →
  let n0 := address_set s b address in
  let t0 := address_tag s b address in
  block_state self n0 t0 = INVALID →
  ∃ sys2 dp bc caches3 self3,
    Bus_busOperation op address me false 0 sys = (sys2, true, dp, bc) ∧
    Cache_allocateLine me address isWrite bc (true && dp) (System_caches sys2) =
      (caches3, bc + eviction_cycles self address) ∧
    System_ok s b (mkSystem caches3 (System_bus sys2)) ∧
    caches3 !! me = Some self3 ∧ Cache_isBlocked self3 = false ∧
    block_state self3 n0 t0 = allocated_state isWrite dp ∧
    (dp = true ↔
     ∃ k c, System_caches sys !! k = Some c ∧ k ≠ me ∧
            snoop_provides op (block_state c n0 t0) = true) ∧
    Bus_currentCycles (System_bus sys2) = bc ∧
    (dp = false → bc = 100) ∧
    Bus_stats (System_bus sys2) =
      (if dp then Statistics_incrementBusTraffic 32 else id)
        (match op with
         | BusRd => Statistics_incrementBusReads 1
         | BusRdX => Statistics_incrementBusReadXs 1
         | BusUpgr => Statistics_incrementBusUpgrades 1
         | Flush | FlushOpt => Statistics_incrementBusFlushes 1
         end (Bus_stats (System_bus sys))).
Proof.
  intros Hs Hb Hsb [Hok Hex Hidle Hpend] Hself Haddr Hop n0 t0 Hmiss.
  destruct (Bus_busOperation_spec s b op address me false 0 sys Hok Hidle)
    as (sys2 & dp & bc & Hbus & Hrel & Hdp & Hidle2 & Hpend2 & Hcur & Hmem & Hstats & Hsrc).
  fold n0 t0 in Hrel, Hdp.
  pose proof (store_rel_ok _ _ _ _ _ Hrel) as Hok2.
  pose proof (exclusivity_snoop _ _ _ _ _ _ _ _ Hrel Hex) as Hex2.
  specialize (Hsrc self Hself).
  assert (Hpeer : ∀ k c2, k ≠ me → System_caches sys2 !! k = Some c2 →
            ∃ c, System_caches sys !! k = Some c ∧
                 block_state c2 n0 t0 = snoop_next op (block_state c n0 t0)).
  { intros k c2 Hk Hc2. destruct Hrel as [Hlen Hrel].
    assert (Hlt : (k < length (System_caches sys))%nat)
      by (rewrite <- Hlen; by eapply lookup_lt_Some).
    destruct (lookup_lt_is_Some_2 _ _ Hlt) as [c Hc].
    destruct (Hrel k c Hc) as (c2' & Hc2' & _ & Hbs).
    assert (c2' = c2) as -> by congruence.
    exists c. split; [done|]. rewrite Hbs. unfold snoop_update.
    by rewrite decide_True. }
  unfold n0, t0 in *. clear n0 t0.
  destruct (Cache_allocateLine_spec s b (System_caches sys2) me self address isWrite
              (true && dp) bc Hs Hb Hsb Hok2 Hex2 Hsrc Haddr Hmiss)
    as (caches3 & self3 & Halloc & Hok3 & Hex3 & Hlen3 & Hself3 & Hbl3 & Hbs3).
  { intros Hst k c2 Hk Hc2. destruct (Hpeer k c2 Hk Hc2) as (c & Hc & ->).
    destruct Hop as [[-> ->] | [-> ->]]; [|done].
    simpl in Hst. destruct dp; [destruct Hst; done|].
    destruct (block_state c _ _) eqn:Hbs; try done;
      exfalso; assert (false = true); try done; apply Hdp; exists k, c; by rewrite Hbs. }
  { intros k c2 Hk Hc2. destruct (Hpeer k c2 Hk Hc2) as (c & Hc & ->).
    apply snoop_next_not_exclusive. destruct Hop as [[-> _] | [-> _]]; tauto. }
  exists sys2, dp, bc, caches3, self3.
  split; [done|]. split; [done|].
  split; [split; simpl; [done|done|done|by rewrite Hpend2]|].
  split; [done|]. split; [done|]. split; [done|]. split; [done|]. done.
Qed.

Lemma System_ok_replace (s b : Z) (sys : System) (me : nat) (self x : Cache) :
  System_ok s b sys → System_caches sys !! me = Some self →
  Cache_coreId x = Cache_coreId self →
  Cache_setIndexBits x = Cache_setIndexBits self →
  Cache_blockOffsetBits x = Cache_blockOffsetBits self →
  Cache_ok s b me x →
  (∀ n tag, block_state x n tag = block_state self n tag) →
  System_ok s b (mkSystem (<[me := x]> (System_caches sys)) (System_bus sys)).
Proof.
  intros [Hok Hex Hidle Hpend] Hself E1 E2 E3 Hokx Hbs.
  assert (Hrel : store_rel s b (λ _ _ _ st, st) (System_caches sys)
                   (<[me := x]> (System_caches sys))).
  { by eapply store_rel_same_sets. }
  split; simpl; [by eapply store_rel_ok|by eapply exclusivity_same|done|done].
Qed.

(** A read that misses in an unblocked cache. *)
Lemma Cache_read_miss_spec (s b : Z) (sys : System) (me : nat) (self : Cache)
    (address cycles : Z) :
  0 ≤ s → 0 ≤ b → s + b < 32 →
  System_ok s b sys → System_caches sys !! me = Some self →
  Cache_isBlocked self = false → address_ok address →
  let n0 := address_set s b address in
  let t0 := address_tag s b address in
  block_state self n0 t0 = INVALID →
  ∃ sys' self' (dp : bool),
    Cache_read me address cycles sys =
      (sys', true,
       cycles + (Bus_currentCycles (System_bus sys') + eviction_cycles self address)) ∧
    System_ok s b sys' ∧
    System_caches sys' !! me = Some self' ∧ Cache_isBlocked self' = false ∧
    block_state self' n0 t0 = (if dp then SHARED else EXCLUSIVE) ∧
    (dp = true ↔
     ∃ k c, System_caches sys !! k = Some c ∧ k ≠ me ∧
            block_state c n0 t0 ≠ INVALID) ∧
    (dp = false → Bus_currentCycles (System_bus sys') = 100).
Proof.
  intros Hs Hb Hsb Hsys Hself Hbl Haddr n0 t0 Hmiss.
  pose proof (sys_caches_ok _ _ _ Hsys me self Hself) as Hokself.
  unfold Cache_read. rewrite Hself, Hbl.
  set (c1 := Cache_updStats _ self).
  assert (Hok1 : Cache_ok s b me c1) by (by apply Cache_ok_updStats).
  destruct (Cache_lookupAndUpdate_spec s b me c1 address false Hs Hb Hok1)
    as (c2 & Hlook & _ & _ & _ & _ & _ & Hsame & _).
  assert (Hmiss1 : block_state c1 (address_set s b address) (address_tag s b address) = INVALID)
    by exact Hmiss.
  rewrite Hmiss1 in Hlook. rewrite (Hsame Hmiss1) in Hlook.
  rewrite bool_decide_eq_false_2 in Hlook by (intros H; by apply H).
  rewrite Hlook. clear c2 Hlook Hsame.
  set (c3 := Cache_with_isBlocked true _).
  set (sys1 := mkSystem (<[me := c3]> (System_caches sys)) (System_bus sys)).
  assert (Hsys1 : System_ok s b sys1).
  { eapply System_ok_replace; try done. by eapply Cache_ok_same_sets. }
  assert (Hc3 : System_caches sys1 !! me = Some c3).
  { simpl. apply list_lookup_insert_eq. by eapply lookup_lt_Some. }
  destruct (miss_service_spec s b sys1 me c3 BusRd false address Hs Hb Hsb Hsys1 Hc3 Haddr)
    as (sys2 & dp & bc & caches3 & self3 & Hbus & Halloc & Hsys3 & Hself3 & Hbl3 &
        Hbs3 & Hdp & Hcur & Hmem & _); [by left|exact Hmiss|].
  rewrite (ok_coreId _ _ _ _ Hokself), Hbus.
  rewrite (eviction_cycles_same_sets self c3) in Halloc by done.
  rewrite Halloc.
  set (f := λ c : Cache, Cache_with_blockedCycles _ c).
  exists (mkSystem (alter f me caches3) (System_bus sys2)), (f self3), dp.
  simpl. rewrite Hcur. split; [done|].
  split.
  { assert (alter f me caches3 = <[me := f self3]> caches3) as ->
      by (by apply alter_lookup_insert).
    eapply (System_ok_replace s b (mkSystem caches3 (System_bus sys2)));
      [done|done|done|done|done| |done].
    eapply Cache_ok_same_sets; [by eapply (sys_caches_ok _ _ _ Hsys3)|done..]. }
  split; [by rewrite list_lookup_alter_eq, Hself3|].
  split; [done|]. split; [by destruct dp|].
  split; [|done].
  rewrite Hdp. split.
  - intros (k & c & Hc & Hk & Hprov). exists k, c.
    simpl in Hc. rewrite list_lookup_insert_ne in Hc by done.
    split; [done|]. split; [done|]. intros Hinv. fold n0 t0 in Hprov.
    by rewrite Hinv in Hprov.
  - intros (k & c & Hc & Hk & Hvalid). exists k, c.
    simpl. rewrite list_lookup_insert_ne by done.
    split; [done|]. split; [done|]. fold n0 t0.
    by destruct (block_state c n0 t0).
Qed.

(** Reads keep the invariant of the store. *)
Lemma Cache_read_ok (s b : Z) (sys : System) (me : nat) (address cycles : Z) :
  0 ≤ s → 0 ≤ b → s + b < 32 →
  System_ok s b sys → address_ok address →
  System_ok s b (Cache_read me address cycles sys).1.1.
Proof.
  intros Hs Hb Hsb Hsys Haddr.
  destruct (System_caches sys !! me) as [self|] eqn:Hself.
  2:{ unfold Cache_read. by rewrite Hself. }
  destruct (Cache_isBlocked self) eqn:Hbl.
  { unfold Cache_read. by rewrite Hself, Hbl. }
  destruct (decide (block_state self (address_set s b address)
                      (address_tag s b address) = INVALID)) as [Hmiss|Hhit].
  - destruct (Cache_read_miss_spec s b sys me self address cycles Hs Hb Hsb Hsys
                Hself Hbl Haddr Hmiss) as (sys' & self' & dp & Heq & Hsys' & _).
    by rewrite Heq.
  - pose proof (sys_caches_ok _ _ _ Hsys me self Hself) as Hokself.
    unfold Cache_read. rewrite Hself, Hbl.
    set (c1 := Cache_updStats _ self).
    assert (Hok1 : Cache_ok s b me c1) by (by apply Cache_ok_updStats).
    destruct (Cache_lookupAndUpdate_spec s b me c1 address false Hs Hb Hok1)
      as (c2 & Hlook & Hok2 & _ & _ & _ & Hbs2 & _).
    rewrite Hlook, bool_decide_eq_true_2 by exact Hhit. simpl.
    eapply System_ok_replace; try done.
    + by rewrite (ok_coreId _ _ _ _ Hok2), (ok_coreId _ _ _ _ Hokself).
    + by rewrite (ok_setIndexBits _ _ _ _ Hok2), (ok_setIndexBits _ _ _ _ Hokself).
    + by rewrite (ok_blockOffsetBits _ _ _ _ Hok2), (ok_blockOffsetBits _ _ _ _ Hokself).
Qed.

(** A write that misses in an unblocked cache. *)
Lemma Cache_write_miss_spec (s b : Z) (sys : System) (me : nat) (self : Cache)
    (address cycles : Z) :
  0 ≤ s → 0 ≤ b → s + b < 32 →
  System_ok s b sys → System_caches sys !! me = Some self →
  Cache_isBlocked self = false → address_ok address →
  let n0 := address_set s b address in
  let t0 := address_tag s b address in
  block_state self n0 t0 = INVALID →
  ∃ sys' self',
    Cache_write me address cycles sys =
      (sys', true,
       cycles + (Bus_currentCycles (System_bus sys') + eviction_cycles self address)) ∧
    System_ok s b sys' ∧
    System_caches sys' !! me = Some self' ∧ Cache_isBlocked self' = false ∧
    block_state self' n0 t0 = MODIFIED.
Proof.
  intros Hs Hb Hsb Hsys Hself Hbl Haddr n0 t0 Hmiss.
  pose proof (sys_caches_ok _ _ _ Hsys me self Hself) as Hokself.
  unfold Cache_write. rewrite Hself, Hbl.
  set (c1 := Cache_updStats _ self).
  assert (Hok1 : Cache_ok s b me c1) by (by apply Cache_ok_updStats).
  destruct (Cache_lookupAndUpdate_spec s b me c1 address true Hs Hb Hok1)
    as (c2 & Hlook & _ & _ & _ & _ & _ & Hsame & _).
  assert (Hmiss1 : block_state c1 (address_set s b address) (address_tag s b address) = INVALID)
    by exact Hmiss.
  rewrite Hmiss1 in Hlook. rewrite (Hsame Hmiss1) in Hlook.
  rewrite bool_decide_eq_false_2 in Hlook by (intros H; by apply H).
  rewrite Hlook. clear c2 Hlook Hsame. cbv zeta.
  set (c3 := Cache_with_isBlocked true _).
  set (sys1 := mkSystem (<[me := c3]> (System_caches sys)) (System_bus sys)).
  assert (Hsys1 : System_ok s b sys1).
  { eapply System_ok_replace; try done. by eapply Cache_ok_same_sets. }
  assert (Hc3 : System_caches sys1 !! me = Some c3).
  { simpl. apply list_lookup_insert_eq. by eapply lookup_lt_Some. }
  destruct (miss_service_spec s b sys1 me c3 BusRdX true address Hs Hb Hsb Hsys1 Hc3 Haddr)
    as (sys2 & dp & bc & caches3 & self3 & Hbus & Halloc & Hsys3 & Hself3 & Hbl3 &
        Hbs3 & Hdp & Hcur & Hmem & _); [by right|exact Hmiss|].
  rewrite (ok_coreId _ _ _ _ Hokself), Hbus.
  rewrite (eviction_cycles_same_sets self c3) in Halloc by done.
  rewrite Halloc.
  set (f := Cache_with_blockedCycles _).
  exists (mkSystem (alter f me caches3) (System_bus sys2)), (f self3).
  simpl. rewrite Hcur. split; [done|].
  split.
  { assert (alter f me caches3 = <[me := f self3]> caches3) as ->
      by (by apply alter_lookup_insert).
    eapply (System_ok_replace s b (mkSystem caches3 (System_bus sys2)));
      [done|done|done|done|done| |done].
    eapply Cache_ok_same_sets; [by eapply (sys_caches_ok _ _ _ Hsys3)|done..]. }
  split; [by rewrite list_lookup_alter_eq, Hself3|].
  split; [done|]. done.
Qed.

Lemma store_rel_point_alter (s b : Z) (caches : list Cache) (me : nat)
    (self : Cache) (setIndex : Z) (tag : Z) (i : nat) (st : CacheState) :
  caches_ok s b caches → caches !! me = Some self →
  CacheSet_findLine tag (Cache_getSet self setIndex) = Some i →
  store_rel s b (point_update me (Z.to_nat setIndex) tag st) caches
            (alter (Cache_setLineState setIndex i st) me caches).
Proof.
  intros Hok Hself Hfind.
  destruct (Cache_setLineState_spec s b me self setIndex tag i st (Hok me self Hself) Hfind)
    as [Hok' Hbs'].
  eapply store_rel_ext.
  - eapply (store_rel_alter s b
              (λ n tag' st0, if decide (n = Z.to_nat setIndex ∧ tag' = tag) then st else st0));
      [done|done|done|done].
  - intros k c n tag' _. unfold point_update.
    destruct (decide (k = me)) as [->|Hne].
    + destruct (decide (n = Z.to_nat setIndex ∧ tag' = tag)) as [[-> ->]|Hn].
      * by rewrite decide_True.
      * rewrite decide_False; [done|]. tauto.
    + rewrite decide_False; [done|]. tauto.
Qed.

(** A write that hits in an unblocked cache: the line ends MODIFIED; the
    bus is used only when the line was SHARED, and [cycles] grows only by
    the latency of that upgrade. *)
Lemma Cache_write_hit_spec (s b : Z) (sys : System) (me : nat) (self : Cache)
    (address cycles : Z) :
  0 ≤ s → 0 ≤ b → s + b < 32 →
  System_ok s b sys → System_caches sys !! me = Some self →
  Cache_isBlocked self = false → address_ok address →
  let n0 := address_set s b address in
  let t0 := address_tag s b address in
  block_state self n0 t0 ≠ INVALID →
  ∃ sys' self' bc,
    Cache_write me address cycles sys = (sys', true, cycles + bc) ∧
    System_ok s b sys' ∧
    System_caches sys' !! me = Some self' ∧ Cache_isBlocked self' = false ∧
    block_state self' n0 t0 = MODIFIED ∧
    (block_state self n0 t0 ≠ SHARED →
     bc = 0 ∧ System_bus sys' = System_bus sys ∧
     ∀ k, k ≠ me → System_caches sys' !! k = System_caches sys !! k).
Proof.
  intros Hs Hb Hsb Hsys Hself Hbl Haddr n0 t0 Hhit.
  pose proof (sys_caches_ok _ _ _ Hsys me self Hself) as Hokself.
  unfold Cache_write. rewrite Hself, Hbl.
  set (c1 := Cache_updStats _ self).
  assert (Hok1 : Cache_ok s b me c1) by (by apply Cache_ok_updStats).
  destruct (Cache_lookupAndUpdate_spec s b me c1 address true Hs Hb Hok1)
    as (c2 & Hlook & Hok2 & Hbl2 & _ & _ & Hbs2 & _).
  rewrite Hlook, bool_decide_eq_true_2 by exact Hhit. cbv zeta.
  assert (Hbl2' : Cache_isBlocked c2 = false) by (rewrite Hbl2; exact Hbl).
  set (sys1 := mkSystem (<[me := c2]> (System_caches sys)) (System_bus sys)).
  assert (Hsys1 : System_ok s b sys1).
  { eapply System_ok_replace; try done.
    + by rewrite (ok_coreId _ _ _ _ Hok2), (ok_coreId _ _ _ _ Hokself).
    + by rewrite (ok_setIndexBits _ _ _ _ Hok2), (ok_setIndexBits _ _ _ _ Hokself).
    + by rewrite (ok_blockOffsetBits _ _ _ _ Hok2), (ok_blockOffsetBits _ _ _ _ Hokself).  }
  assert (Hc2 : System_caches sys1 !! me = Some c2).
  { simpl. apply list_lookup_insert_eq. by eapply lookup_lt_Some. }
  assert (Hpeers : ∀ k, k ≠ me → System_caches sys1 !! k = System_caches sys !! k).
  { intros k Hk. simpl. by rewrite list_lookup_insert_ne. }
  destruct (Cache_ok_address s b me c2 address Hok2) as [Htag Hset].
  assert (Hst2 : set_state t0 (Cache_getSet c2 (Cache_getSetIndex c2 address)) =
                 block_state self n0 t0).
  { change (block_state self n0 t0) with (block_state c1 n0 t0).
    rewrite <- Hbs2. unfold block_state, Cache_getSet. by rewrite Hset. }
  unfold set_state in Hst2.
  rewrite Htag. fold t0.
  destruct (CacheSet_findLine t0 (Cache_getSet c2 (Cache_getSetIndex c2 address)))
    as [li|] eqn:Hfind; [|by rewrite <- Hst2 in Hhit].
  assert (Hstate : from_option CacheLine_getState INVALID
                     (CacheSet_getLine li (Cache_getSet c2 (Cache_getSetIndex c2 address)))
                   = block_state self n0 t0).
  { rewrite <- Hst2. by destruct (CacheSet_getLine _ _). }
  rewrite Hstate.
  pose proof (sys_exclusive _ _ _ Hsys) as Hex.
  destruct (block_state self n0 t0) eqn:Hst; [| | |done].
  - (* MODIFIED *)
    exists sys1, c2, 0. rewrite Z.add_0_r. split; [done|]. split; [done|].
    split; [done|]. split; [done|]. split; [by rewrite Hbs2|]. done.
  - (* EXCLUSIVE *)
    pose proof (store_rel_point_alter s b (System_caches sys1) me c2 _ _ _ MODIFIED
                  (sys_caches_ok _ _ _ Hsys1) Hc2 Hfind) as Hrel.
    rewrite Hset in Hrel. fold n0 in Hrel.
    eexists _, _, 0. rewrite Z.add_0_r. split; [reflexivity|].
    split.
    { split; simpl; [by eapply store_rel_ok| |by destruct Hsys|by destruct Hsys].
      eapply exclusivity_point; [exact Hrel|by destruct Hsys1| |].
      - intros _ k c Hk Hc. rewrite Hpeers in Hc by done.
        eapply (Hex me k self c); eauto.
      - intros _ k c Hk Hc. rewrite Hpeers in Hc by done.
        rewrite (Hex me k self c n0 t0); eauto. }
    simpl. rewrite list_lookup_alter_eq.
    rewrite list_lookup_insert_eq by (by eapply lookup_lt_Some). simpl.
    split; [done|]. split; [done|].
    split.
    { destruct (Cache_setLineState_spec s b me c2 _ _ _ MODIFIED Hok2 Hfind) as [_ Hbs'].
      rewrite Hbs', Hset. by rewrite decide_True. }
    intros _. split; [done|]. split; [done|].
    intros k Hk. rewrite list_lookup_alter_ne by done. by apply Hpeers.
  - (* SHARED *)
    pose proof (sys_caches_ok _ _ _ Hsys1) as Hoks1.
    destruct (Bus_busOperation_spec s b BusUpgr address me false 0 sys1 Hoks1)
      as (sys2 & dp & bc & Hbus & Hrel & Hdp & Hidle2 & Hpend2 & Hcur & Hmem & Hstats & Hsrc);
      [by destruct Hsys1|].
    rewrite (ok_coreId _ _ _ _ Hokself), Hbus.
    specialize (Hsrc c2 Hc2).
    pose proof (store_rel_ok _ _ _ _ _ Hrel) as Hoks2.
    pose proof (store_rel_point_alter s b (System_caches sys2) me c2 _ _ _ MODIFIED
                  Hoks2 Hsrc Hfind) as Hrel2.
    rewrite Hset in Hrel2. fold n0 in Hrel2.
    eexists _, _, bc. split; [reflexivity|].
    split.
    { split; simpl; [by eapply store_rel_ok| |done|].
      - eapply exclusivity_point; [exact Hrel2| | |].
        + eapply exclusivity_snoop; [exact Hrel|by destruct Hsys1].
        + intros _ k c Hk Hc. destruct Hrel as [Hlen Hrel].
          assert (Hlt : (k < length (System_caches sys1))%nat)
            by (rewrite <- Hlen; by eapply lookup_lt_Some).
          destruct (lookup_lt_is_Some_2 _ _ Hlt) as [c0 Hc0].
          destruct (Hrel k c0 Hc0) as (c' & Hc' & _ & Hbs').
          assert (c' = c) as -> by congruence.
          rewrite Hbs'. unfold snoop_update. by rewrite decide_True.
        + intros _ k c Hk Hc. destruct Hrel as [Hlen Hrel].
          assert (Hlt : (k < length (System_caches sys1))%nat)
            by (rewrite <- Hlen; by eapply lookup_lt_Some).
          destruct (lookup_lt_is_Some_2 _ _ Hlt) as [c0 Hc0].
          destruct (Hrel k c0 Hc0) as (c' & Hc' & _ & Hbs').
          assert (c' = c) as -> by congruence.
          rewrite Hbs'. unfold snoop_update. by rewrite decide_True.
      - rewrite Hpend2. by destruct Hsys1. }
    simpl. rewrite list_lookup_alter_eq, Hsrc. simpl.
    split; [done|]. split; [done|].
    split; [|done].
    destruct (Cache_setLineState_spec s b me c2 _ _ _ MODIFIED Hok2 Hfind) as [_ Hbs'].
    rewrite Hbs', Hset. by rewrite decide_True.
Qed.

(** Writes keep the invariant of the store. *)
Lemma Cache_write_ok (s b : Z) (sys : System) (me : nat) (address cycles : Z) :
  0 ≤ s → 0 ≤ b → s + b < 32 →
  System_ok s b sys → address_ok address →
  System_ok s b (Cache_write me address cycles sys).1.1.
Proof.
  intros Hs Hb Hsb Hsys Haddr.
  destruct (System_caches sys !! me) as [self|] eqn:Hself.
  2:{ unfold Cache_write. by rewrite Hself. }
  destruct (Cache_isBlocked self) eqn:Hbl.
  { unfold Cache_write. by rewrite Hself, Hbl. }
  destruct (decide (block_state self (address_set s b address)
                      (address_tag s b address) = INVALID)) as [Hmiss|Hhit].
  - destruct (Cache_write_miss_spec s b sys me self address cycles Hs Hb Hsb Hsys
                Hself Hbl Haddr Hmiss) as (sys' & self' & Heq & Hsys' & _).
    by rewrite Heq.
  - destruct (Cache_write_hit_spec s b sys me self address cycles Hs Hb Hsb Hsys
                Hself Hbl Haddr Hhit) as (sys' & self' & bc & Heq & Hsys' & _).
    by rewrite Heq.
Qed.

(** ** The drive loop: processors and simulator *)

Lemma Bus_processCycle_idle (sys : System) :
  Bus_busy (System_bus sys) = false →
  Bus_pendingTransactions (System_bus sys) = [] →
  Bus_processCycle sys = sys.
Proof.
  intros Hidle Hpend. unfold Bus_processCycle. by rewrite Hidle, Hpend.
Qed.

Lemma address_ok_u32 (v : Z) : address_ok (u32 v).
Proof. unfold address_ok, u32. apply Z.mod_pos_bound. lia. Qed.

Lemma Processor_loadNextReference_refs (p p' : Processor) (loaded : bool) :
  Processor_loadNextReference p = Ok (loaded, p') →
  refs_ok p → refs_ok p' ∧ Processor_cache p' = Processor_cache p.
Proof.
  unfold Processor_loadNextReference, refs_ok. intros Hload Hrefs.
  destruct (_ || _); [by simplify_eq|].
  destruct (getline _) as [got f'].
  assert (Hfall : ∀ r q,
            (if ifstream_eof f' &&
                bool_decide (Processor_pendingReferences (Processor_with_traceFile f' p) = [])
             then Ok (false, Processor_with_traceComplete true (Processor_with_traceFile f' p))
             else Ok (false, Processor_with_traceFile f' p)) = Ok (r, q) →
            Forall (λ r, address_ok (MemoryReference_address r))
                   (Processor_pendingReferences q) ∧
            Processor_cache q = Processor_cache p).
  { intros r q Hq. destruct (_ && _); simplify_eq; by destruct p. }
  destruct got as [line|]; [|by eapply Hfall].
  destruct (parse_fields line) as [[opType addressStr]|]; [|by eapply Hfall].
  assert (Henq : ∀ op r q,
            result_bind
              (if String.prefix "0x" addressStr
               then stoul addressStr 16 else stoul addressStr 10)
              (λ v, Ok (true,
                        Processor_with_pending
                          (Processor_pendingReferences (Processor_with_traceFile f' p) ++
                             [mkMemoryReference op (u32 v)])
                          (Processor_with_traceFile f' p))) = Ok (r, q) →
            Forall (λ r, address_ok (MemoryReference_address r))
                   (Processor_pendingReferences q) ∧
            Processor_cache q = Processor_cache p).
  { intros op r q Hq.
    destruct (if String.prefix "0x" addressStr then _ else _) as [v|e];
      simpl in Hq; [|done].
    simplify_eq. destruct p; simpl in *. split; [|done].
    apply Forall_app. split; [done|]. apply Forall_singleton. apply address_ok_u32. }
  destruct (_ || _); [by eapply Henq|].
  destruct (_ || _); [by eapply Henq|].
  simplify_eq. by destruct p.
Qed.

Lemma Processor_preload_refs (n : nat) :
  ∀ p p', Processor_preload n p = Ok p' →
          refs_ok p → refs_ok p' ∧ Processor_cache p' = Processor_cache p.
Proof.
  induction n as [|n IH]; intros p p' Hpre Hrefs; simpl in Hpre.
  - by simplify_eq.
  - destruct (Processor_loadNextReference p) as [[loaded p1]|e] eqn:Hload; [|done].
    destruct (Processor_loadNextReference_refs _ _ _ Hload Hrefs) as [Hrefs1 Hc1].
    destruct loaded.
    + destruct (IH _ _ Hpre Hrefs1) as [Hrefs' Hc']. split; [done|congruence].
    + by simplify_eq.
Qed.

(** One processor cycle keeps the store coherent and the queue well
    formed. *)
Lemma Processor_executeCycle_ok (s b : Z) (p p' : Processor) (sys sys' : System)
    (r : bool) :
  0 ≤ s → 0 ≤ b → s + b < 32 →
  Processor_executeCycle p sys = Ok (r, p', sys') →
  System_ok s b sys → refs_ok p →
  System_ok s b sys' ∧ refs_ok p'.
Proof.
  intros Hs Hb Hsb Hexec Hsys Hrefs. unfold Processor_executeCycle in Hexec.
  destruct (_ && _).
  { simplify_eq. split; [done|]. unfold refs_ok in *. by destruct p. }
  set (p2 := if Processor_blocked _ then _ else _) in Hexec.
  assert (Hrefs2 : refs_ok p2).
  { unfold p2, refs_ok in *.
    destruct p as [id c f q ti ri wi tc ic fin bl err]; simpl in *. by destruct bl. }
  destruct (if bool_decide (Processor_pendingReferences p2 = []) then _ else _)
    as [[loaded p3]|e] eqn:Hload; [|done].
  assert (Hrefs3 : refs_ok p3).
  { destruct (bool_decide _); [|by simplify_eq].
    by destruct (Processor_loadNextReference_refs _ _ _ Hload Hrefs2). }
  simpl in Hexec. destruct loaded; simpl in Hexec.
  2:{ simplify_eq. split; [done|]. unfold refs_ok in *. by destruct p3. }
  destruct (Processor_pendingReferences p3) as [|ref rest] eqn:Hpend;
    [by simplify_eq|].
  destruct (Processor_cache p3) as [h|]; [|by simplify_eq].
  assert (Href : address_ok (MemoryReference_address ref) ∧
                 Forall (λ r, address_ok (MemoryReference_address r)) rest).
  { unfold refs_ok in Hrefs3. rewrite Hpend in Hrefs3.
    by apply Forall_cons in Hrefs3. }
  destruct Href as [Haddr Hrest].
  set (acc := match MemoryReference_operation ref with
              | READ => Cache_read h (MemoryReference_address ref) 0 sys
              | WRITE => Cache_write h (MemoryReference_address ref) 0 sys
              end) in Hexec.
  assert (Hacc : System_ok s b acc.1.1).
  { unfold acc. destruct (MemoryReference_operation ref).
    - by apply Cache_read_ok.
    - by apply Cache_write_ok. }
  destruct acc as [[sys1 success] cycles1]. simpl in Hacc.
  set (p6 := if success && (1 <? cycles1) then _ else _) in Hexec.
  assert (Hrefs6 : refs_ok p6).
  { unfold p6, refs_ok.
    assert (Processor_pendingReferences (Processor_with_pending rest p3) = rest) as H4
      by (by destruct p3).
    destruct success, (MemoryReference_operation ref), (1 <? cycles1); simpl;
      destruct p3; simpl in *; done. }
  destruct (if (length (Processor_pendingReferences p6) <? 5)%nat then _ else _)
    as [p7|e] eqn:Hfill; [|done].
  simpl in Hexec. simplify_eq. split; [done|].
  destruct (_ <? _)%nat; [|by simplify_eq].
  by destruct (Processor_preload_refs 5 p6 p' Hfill Hrefs6).
Qed.

Lemma Simulator_stepProcessors_ok (s b : Z) (ps : list Processor) :
  0 ≤ s → 0 ≤ b → s + b < 32 →
  ∀ sys ps' sys',
    Simulator_stepProcessors ps sys = Ok (ps', sys') →
    System_ok s b sys → Forall refs_ok ps →
    System_ok s b sys' ∧ Forall refs_ok ps'.
Proof.
  intros Hs Hb Hsb.
  induction ps as [|p rest IH]; intros sys ps' sys' Hstep Hsys Hrefs; simpl in Hstep.
  - by simplify_eq.
  - apply Forall_cons in Hrefs as [Hp Hrest].
    assert (Hhead : ∃ p1 sys1,
              (if negb (Processor_isTraceComplete p)
               then result_bind (Processor_executeCycle p sys)
                      (λ '(_, p', sys'), Ok (p', sys'))
               else Ok (p, sys)) = Ok (p1, sys1) ∧
              System_ok s b sys1 ∧ refs_ok p1 ∧
              result_bind (Simulator_stepProcessors rest sys1)
                (λ '(rest', sys''), Ok (p1 :: rest', sys'')) = Ok (ps', sys')).
    { destruct (negb _).
      - destruct (Processor_executeCycle p sys) as [[[r p1] sys1]|e] eqn:Hexec; [|done].
        simpl in Hstep. exists p1, sys1.
        destruct (Processor_executeCycle_ok s b _ _ _ _ _ Hs Hb Hsb Hexec Hsys Hp).
        done.
      - simpl in Hstep. by exists p, sys. }
    destruct Hhead as (p1 & sys1 & _ & Hsys1 & Hp1 & Hrec).
    destruct (Simulator_stepProcessors rest sys1) as [[rest' sys2]|e] eqn:Hrest';
      [|done].
    simpl in Hrec. simplify_eq.
    destruct (IH _ _ _ Hrest' Hsys1 Hrest) as [Hsys2 Hrefs2].
    split; [done|]. by apply Forall_cons.
Qed.

Lemma System_ok_unblock (s b : Z) (sys : System) (k : nat) :
  System_ok s b sys →
  System_ok s b (mkSystem (alter Cache_unblock k (System_caches sys)) (System_bus sys)).
Proof.
  intros Hsys.
  destruct (System_caches sys !! k) as [c|] eqn:Hc.
  - rewrite (alter_lookup_insert _ _ _ _ Hc).
    eapply System_ok_replace; try done.
    eapply Cache_ok_same_sets; [by eapply (sys_caches_ok _ _ _ Hsys)|done..].
  - assert (alter Cache_unblock k (System_caches sys) = System_caches sys) as ->.
    { apply list_eq. intros j. destruct (decide (k = j)) as [->|Hne].
      - by rewrite list_lookup_alter_eq, Hc.
      - by rewrite list_lookup_alter_ne. }
    by destruct sys.
Qed.

Lemma Simulator_resolveDeadlock_ok (s b : Z) (sim : Simulator) :
  Simulator_ok s b sim → Simulator_ok s b (Simulator_resolveDeadlock sim).
Proof.
  intros [Hsys Hrefs]. split; [|done]. simpl.
  assert (Hfold : ∀ (ps : list Processor) caches b0,
            System_ok s b (mkSystem caches b0) →
            System_ok s b
              (mkSystem
                 (foldl (λ cs p, if Processor_isBlocked p
                                 then alter Cache_unblock (Processor_coreId p) cs
                                 else cs) caches ps) b0)).
  { induction ps as [|p ps IH]; intros caches b0 Hc; simpl; [done|].
    apply IH. destruct (Processor_isBlocked p); [|done].
    by apply (System_ok_unblock s b (mkSystem caches b0)). }
  specialize (Hfold (Simulator_processors sim) (System_caches (Simulator_system sim))
                (System_bus (Simulator_system sim))).
  destruct Hfold as [H1 H2 H3 H4]; [by destruct (Simulator_system sim)|].
  split; done.
Qed.

Lemma Simulator_checkForDeadlock_ok (s b : Z) (sim : Simulator) :
  Simulator_ok s b sim → Simulator_ok s b (Simulator_checkForDeadlock sim).
Proof.
  intros Hok. unfold Simulator_checkForDeadlock.
  destruct (deadlock_scan _ _) as [all any].
  destruct (_ && _); [by apply Simulator_resolveDeadlock_ok|done].
Qed.

(** One tick keeps the invariant of the simulator. *)
Lemma Simulator_tick_ok (s b : Z) (sim sim' : Simulator) :
  0 ≤ s → 0 ≤ b → s + b < 32 →
  Simulator_tick sim = Ok sim' → Simulator_ok s b sim → Simulator_ok s b sim'.
Proof.
  intros Hs Hb Hsb Htick [Hsys Hrefs]. unfold Simulator_tick in Htick.
  rewrite Bus_processCycle_idle in Htick by (by destruct Hsys).
  destruct (Simulator_stepProcessors _ _) as [[ps sys2]|e] eqn:Hstep; [|done].
  simpl in Htick. simplify_eq.
  destruct (Simulator_stepProcessors_ok s b _ Hs Hb Hsb _ _ _ Hstep Hsys Hrefs).
  apply Simulator_checkForDeadlock_ok. by split.
Qed.

Lemma Simulator_runCycles_ok (s b : Z) (numCycles : nat) :
  0 ≤ s → 0 ≤ b → s + b < 32 →
  ∀ sim sim', Simulator_runCycles numCycles sim = Ok sim' →
              Simulator_ok s b sim → Simulator_ok s b sim'.
Proof.
  intros Hs Hb Hsb. induction numCycles as [|n IH]; intros sim sim' Hrun Hok;
    simpl in Hrun.
  - by simplify_eq.
  - destruct (Simulator_simulationComplete sim); [by simplify_eq|].
    destruct (Simulator_tick sim) as [sim1|e] eqn:Htick; [|done].
    simpl in Hrun. eapply IH; [done|]. by eapply Simulator_tick_ok.
Qed.

(** ** The initial state *)

Lemma block_state_new (i : nat) (s E b : Z) (n : nat) (tag : Z) :
  block_state (Cache_new i s E b) n tag = INVALID.
Proof.
  unfold block_state. apply set_state_INVALID. intros x l Hl Hv. exfalso.
  simpl in Hl. destruct (replicate _ _ !! n) as [cs|] eqn:Hcs; simpl in Hl.
  - apply lookup_replicate in Hcs as [-> _]. simpl in Hl.
    apply lookup_replicate in Hl as [-> _]. done.
  - by rewrite lookup_nil in Hl.
Qed.

Lemma Cache_new_ok (i : nat) (s E b : Z) :
  0 ≤ s → 0 < E → Cache_ok s b i (Cache_new i s E b).
Proof.
  intros Hs HE. split; simpl; [done|done|done| |].
  - by rewrite length_replicate, Z.shiftl_1_l.
  - intros n cs Hcs. apply lookup_replicate in Hcs as [-> _].
    split; simpl.
    + rewrite length_replicate. lia.
    + by rewrite !length_replicate.
    + intros x y lx ly Hx Hy Hvx. apply lookup_replicate in Hx as [-> _]. done.
    + intros x l Hl Hv. apply lookup_replicate in Hl as [-> _]. done.
Qed.

Lemma Processor_new_refs (coreId : nat) (path : string) (file : option string)
    (p : Processor) :
  Processor_new coreId path file = Ok p → refs_ok p.
Proof.
  unfold Processor_new. intros Hnew.
  eapply (Processor_preload_refs 10); [exact Hnew|].
  unfold refs_ok. by destruct (negb _).
Qed.

Lemma Simulator_build_spec (fs : FileSystem) (tracePrefix : string) (s E b : Z)
    (n : nat) :
  0 ≤ s → 0 < E →
  ∀ i ps cs,
    Simulator_build fs tracePrefix s E b i n = Ok (ps, cs) →
    Forall refs_ok ps ∧
    ∀ k c, cs !! k = Some c → c = Cache_new (i + k) s E b.
Proof.
  intros Hs HE. induction n as [|n IH]; intros i ps cs Hbuild; simpl in Hbuild.
  - simplify_eq. split; [done|]. intros k c Hk. by rewrite lookup_nil in Hk.
  - destruct (Processor_new i _ _) as [p|e] eqn:Hp; [|done]. simpl in Hbuild.
    destruct (Simulator_build fs tracePrefix s E b (S i) n) as [[ps' cs']|e] eqn:Hrec;
      [|done].
    simpl in Hbuild. simplify_eq.
    destruct (IH _ _ _ Hrec) as [Hrefs Hcs]. split.
    + apply Forall_cons. split; [|done].
      apply Processor_new_refs in Hp. unfold refs_ok in *. by destruct p.
    + intros [|k] c Hk; simpl in Hk.
      * simplify_eq. by rewrite Nat.add_0_r.
      * rewrite Nat.add_succ_r. by apply Hcs.
Qed.

(** The simulator that the constructor builds satisfies the invariant once
    it is initialised. *)
Lemma Simulator_initial_ok (fs : FileSystem) (tracePrefix : string) (s E b : Z)
    (numCores : nat) (sim : Simulator) :
  0 ≤ s → 0 < E →
  Simulator_new fs tracePrefix s E b numCores = Ok sim →
  Simulator_ok s b (Simulator_initialize sim).
Proof.
  intros Hs HE Hnew. unfold Simulator_new in Hnew.
  destruct (Simulator_build _ _ _ _ _ _ _) as [[ps cs]|e] eqn:Hbuild; [|done].
  simpl in Hnew. simplify_eq.
  destruct (Simulator_build_spec _ _ _ _ _ _ Hs HE _ _ _ Hbuild) as [Hrefs Hcs].
  assert (Hnewc : ∀ k c, (Cache_with_stats Statistics_reset <$> cs) !! k = Some c →
            Cache_ok s b k c ∧ ∀ n tag, block_state c n tag = INVALID).
  { intros k c Hk. rewrite list_lookup_fmap in Hk.
    destruct (cs !! k) as [c0|] eqn:Hc0; [|done]. simpl in Hk. simplify_eq.
    rewrite (Hcs k c0 Hc0). simpl. split.
    - eapply Cache_ok_same_sets; [by apply (Cache_new_ok k s E b)|done..].
    - intros n tag. apply (block_state_new k s E b). }
  split; simpl.
  - split; simpl; [| |done|done].
    + intros k c Hk. by apply Hnewc.
    + intros i j ci cj n tag _ _ Hj _. by apply (Hnewc j cj Hj).
  - apply Forall_fmap. eapply Forall_impl; [exact Hrefs|].
    intros p Hp. simpl. unfold refs_ok in *. by destruct p.
Qed.

Lemma exclusivity_addresses (s b : Z) (caches : list Cache) :
  caches_ok s b caches → exclusivity caches → exclusivity_by_address caches.
Proof.
  intros Hok Hex i j ci cj address Hij Hi Hj.
  rewrite !block_state_getCacheLineState.
  destruct (Cache_ok_address s b i ci address (Hok i ci Hi)) as [-> ->].
  destruct (Cache_ok_address s b j cj address (Hok j cj Hj)) as [-> ->].
  by apply (Hex i j ci cj).
Qed.

(** C1.  In every state that the simulator reaches from its constructor by
    completed ticks, a block (set index and tag) that some cache holds in
    MODIFIED or EXCLUSIVE is INVALID in every other cache; the same holds
    address by address for [getCacheLineState]. *)
Theorem coherence_exclusivity (fs : FileSystem) (tracePrefix : string)
    (s E b : Z) (numCores numCycles : nat) (sim0 sim : Simulator) :
  0 ≤ s → 0 < E → 0 ≤ b → s + b < 32 →
  Simulator_new fs tracePrefix s E b numCores = Ok sim0 →
  Simulator_runCycles numCycles (Simulator_initialize sim0) = Ok sim →
  exclusivity (System_caches (Simulator_system sim)) ∧
  exclusivity_by_address (System_caches (Simulator_system sim)).
Proof.
  intros Hs HE Hb Hsb Hnew Hrun.
  pose proof (Simulator_initial_ok _ _ _ _ _ _ _ Hs HE Hnew) as Hinit.
  pose proof (Simulator_runCycles_ok s b numCycles Hs Hb Hsb _ _ Hrun Hinit)
    as [[Hok Hex _ _] _].
  split; [done|]. by eapply exclusivity_addresses.
Qed.

(** ** The cost of a snoop *)

(** What a snoop charges, whatever [providedData] and [cycles] hold on
    entry (the bus hands every cache the flag and the cycles that the caches
    before it have left).  A snoop that finds no valid line for the address
    changes nothing.  A snoop by another core sets [providedData] exactly
    when [snoop_provides] says so and leaves it alone otherwise; when it
    provides data it adds 2 * (blockSize / 4) cycles for BusRd and BusUpgr
    but a flat 100 for BusRdX, and 100 more together with a counted
    writeback exactly for BusRd and BusRdX on a MODIFIED line; when it does
    not provide data it adds nothing. *)
Lemma Cache_snoop_cost (op : BusOperation) (address : Z) (sourceId : nat)
    (providedData : bool) (cycles : Z) (c : Cache) :
  let '(_, c', providedData', cycles') :=
    Cache_snoop op address sourceId providedData cycles c in
  let st := Cache_getCacheLineState address c in
  let writebacks := Statistics_writebacks (Cache_stats c) in
  (st = INVALID → c' = c ∧ providedData' = providedData ∧ cycles' = cycles) ∧
  (sourceId ≠ Cache_coreId c →
   providedData' = providedData || snoop_provides op st ∧
   (snoop_provides op st = true →
    cycles' = cycles +
              match op with
              | BusRdX => 100
              | _ => 2 * (Cache_blockSize c ÷ 4)
              end +
              (if snoop_writes_back op st then 100 else 0) ∧
    Statistics_writebacks (Cache_stats c') =
      (if snoop_writes_back op st then u64 (writebacks + 1) else writebacks)) ∧
   (snoop_provides op st = false → cycles' = cycles)).
Proof.
  unfold Cache_snoop, Cache_getCacheLineState.
  destruct (decide (sourceId = Cache_coreId c)) as [Heq|_].
  { split; [done|]. intros Hne. done. }
  destruct (CacheSet_findLine _ _) as [i|] eqn:Hfind.
  2:{ split; [done|]. intros _.
      split; [destruct op; by rewrite orb_false_r|].
      split; [by destruct op|done]. }
  destruct (CacheSet_getLine i _) as [l|] eqn:Hl.
  2:{ split; [done|]. intros _.
      split; [destruct op; by rewrite orb_false_r|].
      split; [by destruct op|done]. }
  destruct (Cache_stats c) as [a m rm wm ev wb ti ri wi br bx bu bf inv bt] eqn:Hstats.
  unfold CacheLine_getState.
  destruct op, (CacheLine_state l) eqn:Hst; simpl; rewrite ?Hstats; simpl;
    rewrite ?orb_true_r, ?orb_false_r;
    (split; [done|]); intros _; (split; [done|]);
    (split; [intros Hp; first [done|split; [lia|done]]|by intros Hp]).
Qed.

(** After a provider: core 2 reads 0x0, which cores 0 and 1 share.  Core 1
    is snooped with [providedData] already set by core 0 and with the 16
    cycles of core 0, and adds its own 16. *)
Lemma Cache_snoop_cost_after_provider :
  ∃ c, System_caches (run_accesses [(0%nat, READ, 0); (1%nat, READ, 0)]
                        (fresh_system 1 2 5 4)) !! 1%nat = Some c ∧
       Cache_getCacheLineState 0 c = SHARED ∧ Cache_blockSize c = 32 ∧
       (Cache_snoop BusRd 0 2 true 16 c).1.2 = true ∧
       (Cache_snoop BusRd 0 2 true 16 c).2 = 32.
Proof. eexists. split; [vm_compute; reflexivity|]. vm_compute. by repeat split. Qed.

(** C5, the code at the failing input.  Core 0 has read 0x0 on the empty
    machine (32-byte blocks) and holds the block EXCLUSIVE.  The snoop of a
    BusRdX of core 1 for 0x0 provides data, invalidates the line, counts no
    writeback, and adds 100 cycles, not 2 * (32 / 4) = 16; the snoop of a
    BusRd in the same state adds the 16.  On a MODIFIED line (core 0 has
    written 0x0) the BusRdX snoop adds 200, not 16 + 100 = 116. *)
Theorem Cache_snoop_BusRdX_cost :
  ∃ c c' m,
    System_caches (run_accesses [(0%nat, READ, 0)] (fresh_system 1 2 5 4)) !! 0%nat
      = Some c ∧
    Cache_getCacheLineState 0 c = EXCLUSIVE ∧ Cache_blockSize c = 32 ∧
    Cache_snoop BusRdX 0 1 false 0 c = (true, c', true, 100) ∧
    Cache_getCacheLineState 0 c' = INVALID ∧
    Statistics_writebacks (Cache_stats c') = Statistics_writebacks (Cache_stats c) ∧
    0 + 2 * (Cache_blockSize c ÷ 4) = 16 ∧
    (Cache_snoop BusRd 0 1 false 0 c).2 = 16 ∧
    System_caches (run_accesses [(0%nat, WRITE, 0)] (fresh_system 1 2 5 4)) !! 0%nat
      = Some m ∧
    Cache_getCacheLineState 0 m = MODIFIED ∧
    (Cache_snoop BusRdX 0 1 false 0 m).2 = 200 ∧
    (Cache_snoop BusRd 0 1 false 0 m).2 = 116.
Proof.
  eexists _, _, _. split; [vm_compute; reflexivity|].
  split; [vm_compute; reflexivity|]. split; [vm_compute; reflexivity|].
  split; [vm_compute; reflexivity|]. split; [vm_compute; reflexivity|].
  split; [vm_compute; reflexivity|]. split; [vm_compute; reflexivity|].
  split; [vm_compute; reflexivity|]. split; [vm_compute; reflexivity|].
  vm_compute. by repeat split.
Qed.

(** ** Read misses *)

(** C4, as amended.  A read that misses in an unblocked cache of a
    coherent store is accepted; the new line is SHARED when some other
    cache held the block and EXCLUSIVE otherwise; and [cycles] grows by the
    latency of the bus transaction (which the bus keeps in
    [currentCycles]) plus the 100 cycles of the writeback when the victim
    was MODIFIED. *)
Theorem Cache_read_miss_postcondition (s b : Z) (sys : System) (me : nat)
    (self : Cache) (address cycles : Z) :
  0 ≤ s → 0 ≤ b → s + b < 32 →
  System_ok s b sys → System_caches sys !! me = Some self →
  Cache_isBlocking self = false → address_ok address →
  Cache_getCacheLineState address self = INVALID →
  ∃ sys' self',
    Cache_read me address cycles sys =
      (sys', true,
       cycles + (Bus_currentCycles (System_bus sys') + eviction_cycles self address)) ∧
    System_caches sys' !! me = Some self' ∧
    ((∃ k c, System_caches sys !! k = Some c ∧ k ≠ me ∧
             Cache_getCacheLineState address c ≠ INVALID) ∧
     Cache_getCacheLineState address self' = SHARED
     ∨
     (∀ k c, System_caches sys !! k = Some c → k ≠ me →
             Cache_getCacheLineState address c = INVALID) ∧
     Cache_getCacheLineState address self' = EXCLUSIVE ∧
     Bus_currentCycles (System_bus sys') = 100).
Proof.
  intros Hs Hb Hsb Hsys Hself Hbl Haddr Hmiss.
  pose proof (sys_caches_ok _ _ _ Hsys) as Hok.
  assert (Hst : ∀ k c, System_caches sys !! k = Some c →
            Cache_getCacheLineState address c =
            block_state c (address_set s b address) (address_tag s b address)).
  { intros k c Hc. rewrite block_state_getCacheLineState.
    by destruct (Cache_ok_address s b k c address (Hok k c Hc)) as [-> ->]. }
  rewrite (Hst me self Hself) in Hmiss.
  destruct (Cache_read_miss_spec s b sys me self address cycles Hs Hb Hsb Hsys Hself
              Hbl Haddr Hmiss)
    as (sys' & self' & dp & Heq & Hsys' & Hself' & _ & Hbs' & Hdp & Hmem).
  exists sys', self'. split; [done|]. split; [done|].
  assert (Hst' : Cache_getCacheLineState address self' =
                 block_state self' (address_set s b address) (address_tag s b address)).
  { rewrite block_state_getCacheLineState.
    by destruct (Cache_ok_address s b me self' address
                   (sys_caches_ok _ _ _ Hsys' me self' Hself')) as [-> ->]. }
  rewrite Hst', Hbs'. destruct dp.
  - left. split; [|done].
    destruct Hdp as [Hdp _]. destruct (Hdp eq_refl) as (k & c & Hc & Hk & Hv).
    exists k, c. by rewrite (Hst k c Hc).
  - right. split; [|by split; [|apply Hmem]].
    intros k c Hc Hk. rewrite (Hst k c Hc).
    destruct (decide (block_state c (address_set s b address)
                        (address_tag s b address) = INVALID)) as [|Hv]; [done|].
    destruct Hdp as [_ Hdp]. exfalso.
    assert (false = true); [|done]. apply Hdp. by exists k, c.
Qed.

Lemma fresh_system_ok (s E b : Z) (numCores : nat) :
  0 ≤ s → 0 < E → System_ok s b (fresh_system s E b numCores).
Proof.
  intros Hs HE.
  assert (Hc : ∀ k c, System_caches (fresh_system s E b numCores) !! k = Some c →
            c = Cache_new k s E b).
  { intros k c Hk. simpl in Hk. rewrite list_lookup_fmap in Hk.
    destruct (seq 0 numCores !! k) as [i|] eqn:Hi; [|done].
    apply lookup_seq in Hi as [-> _]. simpl in Hk. by simplify_eq. }
  split; [| |done|done].
  - intros k c Hk. rewrite (Hc k c Hk). by apply Cache_new_ok.
  - intros i j ci cj n tag _ _ Hj _. rewrite (Hc j cj Hj). apply block_state_new.
Qed.

Lemma run_accesses_ok (s b : Z) (refs : list (nat * MemoryOperation * Z)) :
  0 ≤ s → 0 ≤ b → s + b < 32 →
  Forall (λ ref, address_ok ref.2) refs →
  ∀ sys, System_ok s b sys → System_ok s b (run_accesses refs sys).
Proof.
  intros Hs Hb Hsb. induction 1 as [|[[core op] address] refs Haddr _ IH];
    intros sys Hsys; simpl; [done|].
  apply IH. unfold access. simpl in *. destruct op.
  - by apply Cache_read_ok.
  - by apply Cache_write_ok.
Qed.

(** The instance: core 0 has filled set 0 with two MODIFIED lines and
    reads a third block of that set. *)
Lemma Cache_read_miss_postcondition_witness :
  ∃ sys' self',
    Cache_read 0 128 0
      (run_accesses [(0%nat, WRITE, 0); (0%nat, WRITE, 64)] (fresh_system 1 2 5 4)) =
      (sys', true, 200) ∧
    System_caches sys' !! 0%nat = Some self' ∧
    Cache_getCacheLineState 128 self' = EXCLUSIVE.
Proof.
  set (sys := run_accesses [(0%nat, WRITE, 0); (0%nat, WRITE, 64)] (fresh_system 1 2 5 4)).
  assert (Hsys : System_ok 1 5 sys).
  { apply run_accesses_ok; [lia|lia|lia| |apply fresh_system_ok; lia].
    apply Forall_cons; split; [by vm_compute|].
    apply Forall_cons; split; [by vm_compute|]. apply Forall_nil_2. }
  assert (Hself : ∃ self, System_caches sys !! 0%nat = Some self ∧
                          Cache_isBlocking self = false ∧
                          Cache_getCacheLineState 128 self = INVALID).
  { eexists. vm_compute. repeat split; reflexivity. }
  destruct Hself as (self & Hself & Hbl & Hmiss).
  destruct (Cache_read_miss_postcondition 1 5 sys 0 self 128 0)
    as (sys' & self' & Heq & Hself' & Hstate);
    [lia|lia|lia|exact Hsys|exact Hself|exact Hbl|by vm_compute|exact Hmiss|].
  exists sys', self'.
  assert (Hrun : (Cache_read 0 128 0 sys).2 = 200) by (vm_compute; reflexivity).
  rewrite Heq in Hrun |- *. cbn [snd] in Hrun.
  split; [f_equal; exact Hrun|].
  split; [exact Hself'|].
  destruct Hstate as [[(k & c & Hc & Hk & Hv) _]|(_ & Hst & _)]; [|exact Hst].
  exfalso.
  assert (Hpeers : Forall (λ c, Cache_getCacheLineState 128 c = INVALID)
                          (drop 1 (System_caches sys))).
  { vm_compute. repeat constructor. }
  destruct k as [|k]; [exact (Hk eq_refl)|].
  rewrite Forall_lookup in Hpeers. apply Hv, (Hpeers k c).
  rewrite lookup_drop. exact Hc.
Defined.

(** C4, counterexample.  Core 0 has written 0x0 and 0x40 (both ways of
    set 0 are MODIFIED) and reads 0x80: the bus transaction takes 100
    cycles, the call returns 200, not 1 + 100. *)
Lemma Cache_read_miss_cycles_not_1_plus_bus :
  let sys := run_accesses [(0%nat, WRITE, 0); (0%nat, WRITE, 64)]
               (fresh_system 1 2 5 4) in
  ∃ sys',
    access READ 0 128 sys = (sys', true, 200) ∧
    Bus_currentCycles (System_bus sys') = 100 ∧
    (access READ 0 128 sys).2 ≠ 1 + Bus_currentCycles (System_bus sys').
Proof.
  eexists. split; [vm_compute; reflexivity|].
  vm_compute. split; [reflexivity|discriminate].
Qed.

(** ** Blocking *)

(** C2, as amended.  When a read or a write that misses in an unblocked
    cache returns, the call was accepted and [isBlocking()] is already
    false: [allocateLine] unblocks the cache as soon as the line is
    installed, whatever the bus latency was. *)
Theorem Cache_miss_leaves_unblocked (s b : Z) (sys : System) (me : nat)
    (self : Cache) (address cycles : Z) :
  0 ≤ s → 0 ≤ b → s + b < 32 →
  System_ok s b sys → System_caches sys !! me = Some self →
  Cache_isBlocking self = false → address_ok address →
  Cache_getCacheLineState address self = INVALID →
  (∃ sys' self' cycles',
     Cache_read me address cycles sys = (sys', true, cycles') ∧
     System_caches sys' !! me = Some self' ∧ Cache_isBlocking self' = false) ∧
  (∃ sys' self' cycles',
     Cache_write me address cycles sys = (sys', true, cycles') ∧
     System_caches sys' !! me = Some self' ∧ Cache_isBlocking self' = false).
Proof.
  intros Hs Hb Hsb Hsys Hself Hbl Haddr Hmiss.
  rewrite block_state_getCacheLineState in Hmiss.
  destruct (Cache_ok_address s b me self address
              (sys_caches_ok _ _ _ Hsys me self Hself)) as [Htag Hset].
  rewrite Htag, Hset in Hmiss. split.
  - destruct (Cache_read_miss_spec s b sys me self address cycles Hs Hb Hsb Hsys Hself
                Hbl Haddr Hmiss) as (sys' & self' & dp & Heq & _ & Hself' & Hbl' & _).
    eauto 10.
  - destruct (Cache_write_miss_spec s b sys me self address cycles Hs Hb Hsb Hsys Hself
                Hbl Haddr Hmiss) as (sys' & self' & Heq & _ & Hself' & Hbl' & _).
    eauto 10.
Qed.

(** The instance: the first access of core 0 to an empty machine. *)
Lemma Cache_miss_leaves_unblocked_witness :
  (∃ sys' self' cycles',
     Cache_read 0 0 0 (fresh_system 1 2 5 4) = (sys', true, cycles') ∧
     System_caches sys' !! 0%nat = Some self' ∧ Cache_isBlocking self' = false) ∧
  (∃ sys' self' cycles',
     Cache_write 0 0 0 (fresh_system 1 2 5 4) = (sys', true, cycles') ∧
     System_caches sys' !! 0%nat = Some self' ∧ Cache_isBlocking self' = false).
Proof.
  apply (Cache_miss_leaves_unblocked 1 5 (fresh_system 1 2 5 4) 0 (Cache_new 0 1 2 5) 0 0);
    [lia|lia|lia|apply fresh_system_ok; lia|reflexivity|reflexivity|
     split; [lia|reflexivity]|vm_compute; reflexivity].
Defined.

(** C2, counterexample.  Core 0 runs the trace [R 0x0; R 0x40].  The first
    read misses with a bus latency of 100 cycles, yet after that tick the
    cache is not blocking (only [blockedCycles] says 99), and in the very
    next tick the processor issues its second reference instead of
    idling. *)
Lemma miss_does_not_block_next_tick :
  ∃ sim1 sim2 cache1 p1 p2,
    simulate [["R 0x0"; "R 0x40"]] 1 = Ok sim1 ∧
    simulate [["R 0x0"; "R 0x40"]] 2 = Ok sim2 ∧
    System_caches (Simulator_system sim1) !! 0%nat = Some cache1 ∧
    Simulator_processors sim1 !! 0%nat = Some p1 ∧
    Simulator_processors sim2 !! 0%nat = Some p2 ∧
    Processor_totalInstructions p1 = 1 ∧ Processor_idleCycles p1 = 100 ∧
    Cache_getBlockedCycles cache1 = 99 ∧ Cache_isBlocking cache1 = false ∧
    Processor_totalInstructions p2 = 2.
Proof.
  eexists _, _, _, _, _.
  split; [vm_compute; reflexivity|]. split; [vm_compute; reflexivity|].
  split; [vm_compute; reflexivity|]. split; [vm_compute; reflexivity|].
  split; [vm_compute; reflexivity|]. vm_compute. repeat split; reflexivity.
Qed.

(** ** The bus *)

(** An idle bus accepts a transaction and is idle again when
    [busOperation] returns. *)
Lemma Bus_busOperation_leaves_idle (op : BusOperation) (address : Z) (src : nat)
    (pd : bool) (cy : Z) (sys : System) :
  Bus_busy (System_bus sys) = false →
  (Bus_busOperation op address src pd cy sys).1.1.2 = true ∧
  Bus_isBusy (System_bus (Bus_busOperation op address src pd cy sys).1.1.1) = false.
Proof.
  intros Hidle. unfold Bus_busOperation. rewrite Hidle.
  destruct (Bus_processSnooping _ _) as [caches' tr'].
  by destruct (BusTransaction_dataProvided tr').
Qed.

(** A busy bus queues the transaction and refuses it. *)
Lemma Bus_busOperation_busy (op : BusOperation) (address : Z) (src : nat)
    (pd : bool) (cy : Z) (sys : System) :
  Bus_busy (System_bus sys) = true →
  Bus_busOperation op address src pd cy sys =
    (mkSystem (System_caches sys)
       (Bus_with_pending
          (Bus_pendingTransactions (System_bus sys) ++
             [BusTransaction_new op address src]) (System_bus sys)),
     false, pd, cy).
Proof. intros Hbusy. unfold Bus_busOperation. by rewrite Hbusy. Qed.

(** C3, the code at the failing input.  On the machine as constructed,
    core 0 issues BusRd for 0x0: the transaction is accepted with latency
    100 and recorded in [currentCycles], but [isBusy()] is false as soon as
    [busOperation] returns, so a transaction of core 1 issued right after
    it is accepted as well and nothing is ever queued. *)
Theorem Bus_not_busy_after_busOperation :
  ∃ sys1 sys2,
    Bus_busOperation BusRd 0 0 false 0 (fresh_system 1 2 5 4) = (sys1, true, false, 100) ∧
    Bus_currentCycles (System_bus sys1) = 100 ∧
    Bus_isBusy (System_bus sys1) = false ∧
    Bus_busOperation BusRdX 64 1 false 0 sys1 = (sys2, true, false, 100) ∧
    Bus_pendingTransactions (System_bus sys2) = [].
Proof.
  eexists _, _. split; [vm_compute; reflexivity|].
  split; [reflexivity|]. split; [reflexivity|].
  split; [vm_compute; reflexivity|]. reflexivity.
Qed.

(** ** Write hits *)

(** A write that hits an EXCLUSIVE line of an unblocked cache makes the
    line MODIFIED without touching the bus or any other cache, and leaves
    [cycles] as the caller passed it. *)
Lemma Cache_write_hit_exclusive (s b : Z) (sys : System) (me : nat)
    (self : Cache) (address cycles : Z) :
  0 ≤ s → 0 ≤ b → s + b < 32 →
  System_ok s b sys → System_caches sys !! me = Some self →
  Cache_isBlocking self = false → address_ok address →
  Cache_getCacheLineState address self = EXCLUSIVE →
  ∃ sys' self',
    Cache_write me address cycles sys = (sys', true, cycles) ∧
    System_caches sys' !! me = Some self' ∧
    Cache_getCacheLineState address self' = MODIFIED ∧
    System_bus sys' = System_bus sys ∧
    ∀ k, k ≠ me → System_caches sys' !! k = System_caches sys !! k.
Proof.
  intros Hs Hb Hsb Hsys Hself Hbl Haddr Hst.
  rewrite block_state_getCacheLineState in Hst.
  destruct (Cache_ok_address s b me self address
              (sys_caches_ok _ _ _ Hsys me self Hself)) as [Htag Hset].
  rewrite Htag, Hset in Hst.
  destruct (Cache_write_hit_spec s b sys me self address cycles Hs Hb Hsb Hsys Hself
              Hbl Haddr) as (sys' & self' & bc & Heq & Hsys' & Hself' & _ & Hbs' & Hquiet).
  { by rewrite Hst. }
  destruct Hquiet as (-> & Hbus & Hpeers); [by rewrite Hst|].
  exists sys', self'. rewrite Z.add_0_r in Heq.
  split; [done|]. split; [done|]. split; [|done].
  rewrite block_state_getCacheLineState.
  by destruct (Cache_ok_address s b me self' address
                 (sys_caches_ok _ _ _ Hsys' me self' Hself')) as [-> ->].
Qed.

(** C8, the code at the failing input.  Core 0 has read 0x0 on the empty
    machine and holds the block EXCLUSIVE.  Its write to 0x0, issued as
    [Processor::executeCycle] does with [cycles = 0], is accepted, makes the
    line MODIFIED and leaves the bus as it was, but [cycles] is still 0 on
    return: the hit path of [write] never stores the 1 that the hit path of
    [read] stores. *)
Theorem Cache_write_hit_exclusive_cycles :
  let sys := run_accesses [(0%nat, READ, 0)] (fresh_system 1 2 5 4) in
  ∃ self sys' self',
    System_caches sys !! 0%nat = Some self ∧
    Cache_getCacheLineState 0 self = EXCLUSIVE ∧
    Cache_write 0 0 0 sys = (sys', true, 0) ∧
    System_caches sys' !! 0%nat = Some self' ∧
    Cache_getCacheLineState 0 self' = MODIFIED ∧
    System_bus sys' = System_bus sys ∧
    (Cache_read 0 0 0 sys).2 = 1.
Proof.
  eexists _, _, _. split; [vm_compute; reflexivity|].
  split; [vm_compute; reflexivity|]. split; [vm_compute; reflexivity|].
  split; [vm_compute; reflexivity|]. vm_compute. repeat split; reflexivity.
Qed.

(** ** The false-sharing scenario *)

(** C6, as amended.  From the empty machine (s = 1, E = 2, b = 5) the
    sequence core 0 W 0x00, core 1 W 0x04, core 0 W 0x00, core 1 W 0x04
    ends with 3 invalidations, 4 BusRdX and no BusUpgr or BusRd: every
    access, the first included, is a write miss, because an invalidated
    line is reclaimed by a miss (BusRdX) and never by an upgrade.  The
    simulator run on the two traces collects the same counters. *)
Theorem false_sharing_counters :
  let sys := run_accesses false_sharing (fresh_system 1 2 5 4) in
  let bus := Bus_stats (System_bus sys) in
  sum_caches Statistics_invalidations sys + Statistics_invalidations bus = 3 ∧
  Statistics_busReadXs bus = 4 ∧
  Statistics_busUpgrades bus = 0 ∧
  Statistics_busReads bus = 0 ∧
  sum_caches Statistics_accesses sys = 4 ∧
  sum_caches Statistics_writeMisses sys = 4 ∧
  ∃ sim, simulate false_sharing_traces 3 = Ok sim ∧
         Simulator_simulationComplete sim = true ∧
         Statistics_invalidations (Simulator_collectStatistics sim) = 3 ∧
         Statistics_busReadXs (Simulator_collectStatistics sim) = 4 ∧
         Statistics_busUpgrades (Simulator_collectStatistics sim) = 0.
Proof.
  cbv zeta. repeat (split; [vm_compute; reflexivity|]).
  eexists. split; [vm_compute; reflexivity|].
  vm_compute. repeat split; reflexivity.
Qed.

(** C6, counterexample.  The scenario does not end with 2 BusRdX and 2
    BusUpgr. *)
Lemma false_sharing_not_two_upgrades :
  let bus := Bus_stats (System_bus (run_accesses false_sharing (fresh_system 1 2 5 4))) in
  ¬ (Statistics_busReadXs bus = 2 ∧ Statistics_busUpgrades bus = 2).
Proof. vm_compute. intros [H _]. discriminate H. Qed.

(** ** Malformed trace lines *)

(** A line with an unknown operation letter is consumed with a message on
    [std::cerr]; a line with too few fields is consumed silently; both make
    [loadNextReference] return [false], which is also its answer at the end
    of the file. *)
Lemma Processor_loadNextReference_malformed :
  ∃ p0 p1 p2,
    Processor_new 0 "t" (Some (trace_file ["X 0"; "R"; "R 0x0"])) = Ok p0 ∧
    Processor_cerr p0 = ["Error: Unknown operation type: X"] ∧
    Processor_loadNextReference p0 = Ok (false, p1) ∧
    Processor_cerr p1 = Processor_cerr p0 ∧
    Processor_traceComplete p1 = false ∧
    Processor_loadNextReference p1 = Ok (true, p2) ∧
    Processor_pendingReferences p2 = [mkMemoryReference READ 0].
Proof.
  eexists _, _, _. split; [vm_compute; reflexivity|].
  split; [reflexivity|]. split; [vm_compute; reflexivity|].
  split; [reflexivity|]. split; [reflexivity|].
  split; [vm_compute; reflexivity|]. reflexivity.
Qed.

(** C9, the code at the failing input.  Core 0 runs the trace
    [X 0; Y 0; R 0x0].  The constructor's preload stops at the first bad
    line.  In the first tick the queue is empty, [loadNextReference] skips
    the second bad line and returns [false], and [executeCycle] takes that
    for the end of the trace: the processor is marked complete and the
    simulation ends with the well-formed [R 0x0] still unread in the file
    and no instruction executed. *)
Theorem malformed_lines_end_trace :
  ∃ sim p,
    simulate [["X 0"; "Y 0"; "R 0x0"]] 1 = Ok sim ∧
    Simulator_processors sim !! 0%nat = Some p ∧
    Processor_cerr p = ["Error: Unknown operation type: X";
                        "Error: Unknown operation type: Y"] ∧
    Processor_isTraceComplete p = true ∧
    Simulator_simulationComplete sim = true ∧
    ifstream_buffer (Processor_traceFile p) = trace_file ["R 0x0"] ∧
    ifstream_eof (Processor_traceFile p) = false ∧
    Processor_totalInstructions p = 0.
Proof.
  eexists _, _. split; [vm_compute; reflexivity|].
  split; [vm_compute; reflexivity|]. vm_compute. repeat split; reflexivity.
Qed.

(** With one bad line between good ones the trace is read to its end. *)
Lemma single_malformed_line_skipped :
  ∃ sim p,
    simulate [["R 0x0"; "X 0"; "R 0x40"]] 4 = Ok sim ∧
    Simulator_processors sim !! 0%nat = Some p ∧
    Processor_isTraceComplete p = true ∧
    Processor_totalInstructions p = 2.
Proof.
  eexists _, _. split; [vm_compute; reflexivity|].
  split; [vm_compute; reflexivity|]. vm_compute. split; reflexivity.
Qed.

(** ** An instance of the coherence theorem *)

(** Three cores share and reclaim block 0x0 and evict around it; the file
    of core 3 is missing. *)
Lemma coherence_exclusivity_witness :
  ∃ sim0 sim,
    Simulator_new
      (trace_fs [["R 0x0"; "W 0x0"; "R 0x40"; "R 0x80"];
                 ["R 0x0"; "R 0x0"; "W 0x40"];
                 ["W 0x0"; "R 0x80"]]) "app" 1 2 5 4 = Ok sim0 ∧
    Simulator_runCycles 5 (Simulator_initialize sim0) = Ok sim ∧
    exclusivity (System_caches (Simulator_system sim)) ∧
    exclusivity_by_address (System_caches (Simulator_system sim)).
Proof.
  eexists _, _. split; [vm_compute; reflexivity|].
  split; [vm_compute; reflexivity|].
  eapply (coherence_exclusivity
            (trace_fs [["R 0x0"; "W 0x0"; "R 0x40"; "R 0x80"];
                       ["R 0x0"; "R 0x0"; "W 0x40"];
                       ["W 0x0"; "R 0x80"]]) "app" 1 2 5 4 5);
    [lia|lia|lia|lia|vm_compute; reflexivity|vm_compute; reflexivity].
Defined.

(** ** Addresses: tag, set index and block offset *)

(** X1.  [getTag], [getSetIndex] and [getBlockOffset] split a 32-bit
    address into three fields that put it together again, each within its
    width: tag * 2^(s+b) + setIndex * 2^b + offset. *)
Theorem Cache_address_fields (c : Cache) (address : Z) :
  let s := Cache_setIndexBits c in
  let b := Cache_blockOffsetBits c in
  0 ≤ s → 0 ≤ b → s + b < 32 → address_ok address →
  address = Cache_getTag c address * 2 ^ (s + b)
            + Cache_getSetIndex c address * 2 ^ b
            + Cache_getBlockOffset c address ∧
  0 ≤ Cache_getTag c address < 2 ^ (32 - (s + b)) ∧
  0 ≤ Cache_getSetIndex c address < 2 ^ s ∧
  0 ≤ Cache_getBlockOffset c address < 2 ^ b.
Proof.
  intros s b Hs Hb Hsb Haddr.
  unfold Cache_getTag, Cache_getSetIndex, Cache_getBlockOffset. fold s b.
  pose proof (address_tag_range s b Hs Hb Hsb address Haddr) as Htag.
  pose proof (address_set_range s b Hs address) as Hset.
  pose proof (address_set_range b 0 Hb address) as Hoff.
  rewrite Z.shiftr_0_r in Hoff.
  split; [|done].
  rewrite !set_mask_ones, !Z.land_ones, !Z.shiftr_div_pow2 by lia.
  assert (H2b : 0 < 2 ^ b) by (apply Z.pow_pos_nonneg; lia).
  assert (H2s : 0 < 2 ^ s) by (apply Z.pow_pos_nonneg; lia).
  rewrite (Z.add_comm s b), Z.pow_add_r, <- Z.div_div by lia.
  pose proof (Z.div_mod address (2 ^ b)) as H1.
  pose proof (Z.div_mod (address / 2 ^ b) (2 ^ s)) as H2.
  nia.
Qed.

(** The instance: address 0x1234 in a cache with s = 6, b = 5. *)
Lemma Cache_address_fields_witness :
  let c := Cache_new 0 6 2 5 in
  4660 = Cache_getTag c 4660 * 2 ^ 11 + Cache_getSetIndex c 4660 * 2 ^ 5
         + Cache_getBlockOffset c 4660 ∧
  0 ≤ Cache_getTag c 4660 < 2 ^ 21 ∧
  0 ≤ Cache_getSetIndex c 4660 < 2 ^ 6 ∧
  0 ≤ Cache_getBlockOffset c 4660 < 2 ^ 5.
Proof.
  apply (Cache_address_fields (Cache_new 0 6 2 5) 4660);
    [simpl; lia|simpl; lia|simpl; lia|split; [lia|reflexivity]].
Defined.

(** X2.  In a cache whose index and offset bits fit a 32-bit address
    (s + b < 32), two 32-bit addresses have the same tag and the same set
    index exactly when they lie in the same block, that is when
    [address >> b] is the same for both. *)
Theorem Cache_same_block (c : Cache) (address address' : Z) :
  let s := Cache_setIndexBits c in
  let b := Cache_blockOffsetBits c in
  0 ≤ s → 0 ≤ b → s + b < 32 → address_ok address → address_ok address' →
  (Cache_getTag c address = Cache_getTag c address' ∧
   Cache_getSetIndex c address = Cache_getSetIndex c address') ↔
  Z.shiftr address b = Z.shiftr address' b.
Proof.
  intros s b Hs Hb _ [Ha _] [Ha' _].
  unfold Cache_getTag, Cache_getSetIndex. fold s b.
  rewrite !set_mask_ones, !Z.land_ones by lia.
  rewrite (Z.add_comm s b), <- !Z.shiftr_shiftr by lia.
  set (x := Z.shiftr address b). set (y := Z.shiftr address' b).
  rewrite !Z.shiftr_div_pow2 by lia.
  assert (H2s : 0 < 2 ^ s) by (apply Z.pow_pos_nonneg; lia).
  split.
  - intros [Ht Hi].
    rewrite (Z.div_mod x (2 ^ s)), (Z.div_mod y (2 ^ s)) by lia.
    by rewrite Ht, Hi.
  - by intros ->.
Qed.

(** The instance: 0x1234 and 0x123f in a cache with s = 6, b = 5. *)
Lemma Cache_same_block_witness :
  let c := Cache_new 0 6 2 5 in
  (Cache_getTag c 4660 = Cache_getTag c 4671 ∧
   Cache_getSetIndex c 4660 = Cache_getSetIndex c 4671) ↔
  Z.shiftr 4660 5 = Z.shiftr 4671 5.
Proof.
  apply (Cache_same_block (Cache_new 0 6 2 5) 4660 4671);
    [simpl; lia|simpl; lia|simpl; lia
    |split; [lia|reflexivity]|split; [lia|reflexivity]].
Defined.

(** X3.  The address that [allocateLine] rebuilds for a victim from its
    tag and the set index is a 32-bit address at offset 0 of the victim's
    block: it has that tag and that set index again. *)
Theorem Cache_victim_address_fields (c : Cache) (tag setIndex : Z) :
  let s := Cache_setIndexBits c in
  let b := Cache_blockOffsetBits c in
  0 ≤ s → 0 ≤ b → s + b < 32 →
  0 ≤ tag < 2 ^ (32 - (s + b)) → 0 ≤ setIndex < 2 ^ s →
  let victimAddress :=
    Z.lor (u32 (Z.shiftl tag (s + b))) (u32 (Z.shiftl setIndex b)) in
  address_ok victimAddress ∧
  Cache_getTag c victimAddress = tag ∧
  Cache_getSetIndex c victimAddress = setIndex ∧
  Cache_getBlockOffset c victimAddress = 0.
Proof.
  intros s b Hs Hb Hsb Htag Hidx victimAddress.
  destruct (victim_address s b Hs Hb Hsb tag setIndex Htag Hidx) as [Ht Hi].
  fold victimAddress in Ht, Hi.
  assert (H2sb : 0 < 2 ^ (s + b)) by (apply Z.pow_pos_nonneg; lia).
  assert (H2b : 0 < 2 ^ b) by (apply Z.pow_pos_nonneg; lia).
  assert (Hsplit : 2 ^ 32 = 2 ^ (32 - (s + b)) * 2 ^ (s + b)).
  { rewrite <- Z.pow_add_r by lia. f_equal. lia. }
  assert (Hsplit' : 2 ^ (s + b) = 2 ^ s * 2 ^ b) by (by rewrite Z.pow_add_r).
  assert (Hva : victimAddress = tag * 2 ^ (s + b) + setIndex * 2 ^ b).
  { unfold victimAddress, u32.
    rewrite !Z.shiftl_mul_pow2 by lia.
    rewrite !Z.mod_small by nia.
    assert (Hdisj : Z.land (tag * 2 ^ (s + b)) (setIndex * 2 ^ b) = 0).
    { apply Z.bits_inj'. intros n Hn. rewrite Z.land_spec, Z.bits_0.
      rewrite <- !Z.shiftl_mul_pow2 by lia.
      destruct (Z.lt_ge_cases n (s + b)) as [Hlt|Hge].
      + by rewrite Z.shiftl_spec_low.
      + rewrite (Z.shiftl_spec setIndex) by done.
        destruct (decide (setIndex = 0)) as [->|Hnz];
          [by rewrite Z.bits_0, andb_false_r|].
        rewrite (Z.bits_above_log2 setIndex); [by rewrite andb_false_r|lia|].
        apply Z.log2_lt_pow2; [lia|].
        eapply Z.lt_le_trans; [apply Hidx|]. apply Z.pow_le_mono_r; lia. }
    by rewrite <- Z.lxor_lor, <- Z.add_nocarry_lxor. }
  assert (Hok : address_ok victimAddress).
  { rewrite Hva. split; nia. }
  split; [done|]. unfold Cache_getTag, Cache_getSetIndex, Cache_getBlockOffset.
  fold s b. split; [done|]. split; [done|].
  rewrite set_mask_ones, Z.land_ones by done.
  rewrite Hva, Hsplit'.
  replace (tag * (2 ^ s * 2 ^ b) + setIndex * 2 ^ b)
    with ((tag * 2 ^ s + setIndex) * 2 ^ b) by ring.
  by apply Z.mod_mul, Z.neq_sym, Z.lt_neq.
Qed.

Lemma Cache_victim_address_fields_witness :
  let c := Cache_new 0 6 2 5 in
  let victimAddress := Z.lor (u32 (Z.shiftl 2 11)) (u32 (Z.shiftl 17 5)) in
  address_ok victimAddress ∧
  Cache_getTag c victimAddress = 2 ∧
  Cache_getSetIndex c victimAddress = 17 ∧
  Cache_getBlockOffset c victimAddress = 0.
Proof.
  apply (Cache_victim_address_fields (Cache_new 0 6 2 5) 2 17);
    simpl; lia.
Defined.

(** ** CacheSet: invalidation and replacement order *)

Lemma list_find_alter_other {A} (P : A → Prop) `{∀ x, Decision (P x)}
    (f : A → A) (l : list A) :
  ∀ (i : nat) (x : A),
    l !! i = Some x → ¬ P x → ¬ P (f x) →
    fst <$> list_find P (alter f i l) = fst <$> list_find P l.
Proof.
  induction l as [|y l IH]; intros i x Hi Hx Hfx; [done|].
  destruct i as [|i]; simpl in *.
  - assert (y = x) as -> by congruence.
    by rewrite !decide_False by done.
  - destruct (decide (P y)); [done|].
    rewrite <- !option_fmap_compose.
    specialize (IH i x Hi Hx Hfx).
    change (list_alter f i l) with (alter f i l).
    destruct (list_find P (alter f i l)) as [[j1 z1]|],
             (list_find P l) as [[j2 z2]|]; simpl in *;
      [injection IH as ->; reflexivity|discriminate IH|discriminate IH|reflexivity].
Qed.

(** X4.  In a set whose valid lines carry distinct tags,
    [invalidateTag(tag)] makes [tag] a miss, keeps [findLine] of every
    other tag and the LRU counters as they were, and changes nothing at
    all when the tag is not in the set. *)
Theorem CacheSet_invalidateTag_spec (tag : Z) (cs : CacheSet) :
  tags_unique cs →
  let cs' := CacheSet_invalidateTag tag cs in
  CacheSet_findLine tag cs' = None ∧
  (∀ tag', tag' ≠ tag → CacheSet_findLine tag' cs' = CacheSet_findLine tag' cs) ∧
  CacheSet_lruCounter cs' = CacheSet_lruCounter cs ∧
  (CacheSet_findLine tag cs = None → cs' = cs).
Proof.
  intros Huniq cs'. unfold cs', CacheSet_invalidateTag.
  destruct (CacheSet_findLine tag cs) as [i|] eqn:Hfind; [|done].
  destruct (CacheSet_findLine_Some _ _ _ Hfind) as (l & Hl & Hvalid & Htag).
  split; [|split; [|done]].
  - apply CacheSet_findLine_None. intros j lj Hj Hjvalid Hjtag.
    unfold CacheSet_invalidateLine, CacheSet_updLine in Hj. simpl in Hj.
    destruct (decide (j = i)) as [->|Hne].
    + rewrite list_lookup_alter_eq, Hl in Hj. simpl in Hj.
      by assert (lj = CacheLine_invalidate l) as -> by congruence.
    + rewrite list_lookup_alter_ne in Hj by done.
      apply Hne. apply (Huniq j i lj l Hj Hl Hjvalid Hvalid). congruence.
  - intros tag' Hne. unfold CacheSet_findLine at 1.
    unfold CacheSet_invalidateLine, CacheSet_updLine. simpl.
    apply (list_find_alter_other (line_matches tag') CacheLine_invalidate
             (CacheSet_lines cs) i l Hl).
    + intros [_ Ht]. congruence.
    + by intros [Hv _].
Qed.

(** The instance: a two-way set holding tags 7 (MODIFIED) and 9 (SHARED). *)
Lemma CacheSet_invalidateTag_spec_witness :
  let cs := mkCacheSet [mkCacheLine 7 MODIFIED; mkCacheLine 9 SHARED] [1; 0] in
  let cs' := CacheSet_invalidateTag 7 cs in
  CacheSet_findLine 7 cs' = None ∧
  (∀ tag', tag' ≠ 7 → CacheSet_findLine tag' cs' = CacheSet_findLine tag' cs) ∧
  CacheSet_lruCounter cs' = CacheSet_lruCounter cs ∧
  (CacheSet_findLine 7 cs = None → cs' = cs).
Proof.
  apply (CacheSet_invalidateTag_spec 7
           (mkCacheSet [mkCacheLine 7 MODIFIED; mkCacheLine 9 SHARED] [1; 0])).
  intros i j li lj Hi Hj _ _ Htag.
  destruct i as [|[|i]], j as [|[|j]]; simpl in Hi, Hj;
    try reflexivity; try discriminate Hi; try discriminate Hj;
    injection Hi as <-; injection Hj as <-; discriminate Htag.
Defined.

(** X5.  In a set with at least two ways, the line that [updateLRU] has
    just marked as used is not the one that [getLRUIndex] picks as the next
    victim. *)
Theorem CacheSet_updateLRU_not_victim (i : nat) (cs : CacheSet) :
  CacheSet_wf cs →
  (i < length (CacheSet_lines cs))%nat →
  (2 ≤ length (CacheSet_lines cs))%nat →
  CacheSet_getLRUIndex (CacheSet_updateLRU i cs) ≠ i.
Proof.
  intros [Hassoc Hlen Hrange] Hi Hways Hvictim.
  unfold CacheSet_updateLRU in Hvictim. rewrite decide_True in Hvictim by done.
  set (counters' := <[i := 0]> (Z.succ <$> CacheSet_lruCounter cs)) in *.
  assert (Hlen' : length counters' = length (CacheSet_lines cs)).
  { unfold counters'. by rewrite length_insert, length_fmap. }
  assert (Hpos : Forall (λ c, 0 ≤ c) counters').
  { unfold counters'. apply Forall_insert; [|done].
    apply Forall_fmap. eapply Forall_impl; [exact Hrange|]. simpl. intros; lia. }
  destruct (CacheSet_getLRUIndex_victim (mkCacheSet (CacheSet_lines cs) counters'))
    as (m & Hm & Hmax & _); simpl.
  { intros Heq. rewrite Heq in Hlen'. simpl in Hlen'. lia. }
  { done. }
  rewrite Hvictim in Hm. simpl in Hm.
  unfold counters' in Hm. rewrite list_lookup_insert_eq in Hm
    by (rewrite length_fmap; lia).
  assert (m = 0) as -> by congruence.
  set (j := if decide (i = 0%nat) then 1%nat else 0%nat).
  assert (Hj : j ≠ i ∧ (j < length (CacheSet_lruCounter cs))%nat).
  { unfold j. destruct (decide (i = 0%nat)); lia. }
  destruct Hj as [Hji Hjlt].
  destruct (lookup_lt_is_Some_2 _ _ Hjlt) as [c Hc].
  assert (Hc' : counters' !! j = Some (Z.succ c)).
  { unfold counters'. rewrite list_lookup_insert_ne by done.
    by rewrite list_lookup_fmap, Hc. }
  specialize (Hmax j _ Hc').
  rewrite Forall_lookup in Hrange. specialize (Hrange j c Hc). simpl in Hrange. lia.
Qed.

(** The instance: a four-way set, way 2 is touched. *)
Lemma CacheSet_updateLRU_not_victim_witness :
  CacheSet_getLRUIndex
    (CacheSet_updateLRU 2
       (mkCacheSet (replicate 4 CacheLine_new) [3; 0; 5; 1])) ≠ 2%nat.
Proof.
  apply (CacheSet_updateLRU_not_victim 2
           (mkCacheSet (replicate 4 CacheLine_new) [3; 0; 5; 1]));
    [|simpl; lia|simpl; lia].
  split; [simpl; lia|reflexivity|].
  repeat (apply Forall_cons; split; [unfold INT_MAX; lia|]). apply Forall_nil_2.
Defined.

(** ** Frame: what the operations leave alone *)

Lemma frame_rel_refl (Q : nat → Cache → Cache → Prop) (caches : list Cache) :
  (∀ k c, Q k c c) → frame_rel Q caches caches.
Proof.
  intros HQ. split; [done|]. intros k c c' Hc Hc'.
  assert (c' = c) as -> by congruence. apply HQ.
Qed.

Lemma frame_rel_trans (Q1 Q2 Q3 : nat → Cache → Cache → Prop)
    (l1 l2 l3 : list Cache) :
  frame_rel Q1 l1 l2 → frame_rel Q2 l2 l3 →
  (∀ k a b c, Q1 k a b → Q2 k b c → Q3 k a c) →
  frame_rel Q3 l1 l3.
Proof.
  intros [Hlen1 H1] [Hlen2 H2] HQ. split; [congruence|].
  intros k a c Ha Hc.
  assert (Hlt : (k < length l2)%nat).
  { rewrite Hlen1. by eapply lookup_lt_Some. }
  destruct (lookup_lt_is_Some_2 _ _ Hlt) as [b Hb].
  eapply HQ; [by eapply H1|by eapply H2].
Qed.

Lemma frame_rel_mono (Q Q' : nat → Cache → Cache → Prop) (l l' : list Cache) :
  frame_rel Q l l' → (∀ k c c', l !! k = Some c → Q k c c' → Q' k c c') →
  frame_rel Q' l l'.
Proof.
  intros [Hlen H] HQ. split; [done|]. intros k c c' Hc Hc'.
  apply HQ; [done|]. by eapply H.
Qed.

Lemma frame_rel_alter (f : Cache → Cache) (me : nat) (l : list Cache) :
  frame_rel (λ k c c', if decide (k = me) then c' = f c else c' = c)
            l (alter f me l).
Proof.
  split; [by rewrite length_alter|]. intros k c c' Hc Hc'.
  destruct (decide (k = me)) as [->|Hne].
  - rewrite list_lookup_alter_eq, Hc in Hc'. simpl in Hc'. congruence.
  - rewrite list_lookup_alter_ne in Hc' by done. congruence.
Qed.

Lemma frame_rel_insert (x : Cache) (me : nat) (l : list Cache) :
  frame_rel (λ k c c', if decide (k = me) then c' = x else c' = c)
            l (<[me := x]> l).
Proof.
  split; [by rewrite length_insert|]. intros k c c' Hc Hc'.
  destruct (decide (k = me)) as [->|Hne].
  - rewrite list_lookup_insert_eq in Hc' by (by eapply lookup_lt_Some). congruence.
  - rewrite list_lookup_insert_ne in Hc' by done. congruence.
Qed.

Lemma frame_rel_cons (Q : Cache → Cache → Prop) (c c' : Cache)
    (l l' : list Cache) :
  Q c c' → frame_rel (λ _, Q) l l' → frame_rel (λ _, Q) (c :: l) (c' :: l').
Proof.
  intros HQ [Hlen H]. split; [simpl; congruence|].
  intros [|k] a a' Ha Ha'; simpl in *; [congruence|by eapply H].
Qed.

Section Frame.
Context (Sinv : Statistics → Prop) (Hstable : stats_stable Sinv).

Lemma cache_frame_refl (c : Cache) : cache_frame Sinv c c.
Proof. by repeat split. Qed.

Lemma cache_frame_trans (c1 c2 c3 : Cache) :
  cache_frame Sinv c1 c2 → cache_frame Sinv c2 c3 → cache_frame Sinv c1 c3.
Proof.
  intros (?&?&?&?&?&?) (?&?&?&?&?&?). unfold cache_frame.
  split_and!; try congruence. eauto.
Qed.

Lemma cache_frame_b_refl (c : Cache) : cache_frame_b Sinv c c.
Proof. split; [apply cache_frame_refl|done]. Qed.

Lemma cache_frame_b_trans (c1 c2 c3 : Cache) :
  cache_frame_b Sinv c1 c2 → cache_frame_b Sinv c2 c3 → cache_frame_b Sinv c1 c3.
Proof.
  intros [H1 Hb1] [H2 Hb2]. split; [by eapply cache_frame_trans|congruence].
Qed.

Lemma frame_b_trans (l1 l2 l3 : list Cache) :
  frame_rel (λ _, cache_frame_b Sinv) l1 l2 →
  frame_rel (λ _, cache_frame_b Sinv) l2 l3 →
  frame_rel (λ _, cache_frame_b Sinv) l1 l3.
Proof.
  intros H1 H2. eapply frame_rel_trans; [exact H1|exact H2|].
  intros k a b c. apply cache_frame_b_trans.
Qed.

Lemma frame_b_refl (l : list Cache) : frame_rel (λ _, cache_frame_b Sinv) l l.
Proof. apply frame_rel_refl. intros k c. apply cache_frame_b_refl. Qed.

Lemma frame_b_alter (f : Cache → Cache) (me : nat) (l : list Cache) :
  (∀ c, cache_frame_b Sinv c (f c)) →
  frame_rel (λ _, cache_frame_b Sinv) l (alter f me l).
Proof.
  intros Hf. eapply frame_rel_mono; [apply frame_rel_alter|].
  intros k c c' _ H. simpl in H.
  destruct (decide (k = me)); subst; [apply Hf|apply cache_frame_b_refl].
Qed.

Lemma access_frame_trans (me : nat) (l1 l2 l3 : list Cache) :
  frame_rel (access_frame Sinv me) l1 l2 →
  frame_rel (access_frame Sinv me) l2 l3 →
  frame_rel (access_frame Sinv me) l1 l3.
Proof.
  intros H1 H2. eapply frame_rel_trans; [exact H1|exact H2|].
  intros k a b c [Hf1 Hb1] [Hf2 Hb2].
  split; [by eapply cache_frame_trans|].
  intros Hk. rewrite Hb2, Hb1; done.
Qed.

Lemma access_frame_b (me : nat) (l l' : list Cache) :
  frame_rel (λ _, cache_frame_b Sinv) l l' → frame_rel (access_frame Sinv me) l l'.
Proof.
  intros H. eapply frame_rel_mono; [exact H|].
  intros k c c' _ [Hf Hb]. by split.
Qed.

Lemma access_frame_alter (f : Cache → Cache) (me : nat) (l : list Cache) :
  (∀ c, cache_frame Sinv c (f c)) →
  frame_rel (access_frame Sinv me) l (alter f me l).
Proof.
  intros Hf. eapply frame_rel_mono; [apply frame_rel_alter|].
  intros k c c' _ H. simpl in H.
  destruct (decide (k = me)); subst; (split; [|done]);
    [apply Hf|apply cache_frame_refl].
Qed.

Lemma access_frame_insert (x self : Cache) (me : nat) (l : list Cache) :
  l !! me = Some self → cache_frame Sinv self x →
  frame_rel (access_frame Sinv me) l (<[me := x]> l).
Proof.
  intros Hself Hx. eapply frame_rel_mono; [apply frame_rel_insert|].
  intros k c c' Hc H. simpl in H.
  destruct (decide (k = me)); subst; (split; [|done]).
  - by assert (c = self) as -> by congruence.
  - apply cache_frame_refl.
Qed.

Lemma cache_frame_b_updStats (f : Statistics → Statistics) (c : Cache) :
  (∀ st, Sinv st → Sinv (f st)) → cache_frame_b Sinv c (Cache_updStats f c).
Proof. intros Hf. repeat split; simpl; auto. Qed.

Lemma cache_frame_b_setLineState (setIndex : Z) (lineIndex : nat)
    (st : CacheState) (c : Cache) :
  cache_frame_b Sinv c (Cache_setLineState setIndex lineIndex st c).
Proof. repeat split; simpl; by rewrite ?length_alter. Qed.

Lemma cache_frame_b_updSet (setIndex : Z) (f : CacheSet → CacheSet) (c : Cache) :
  cache_frame_b Sinv c (Cache_updSet setIndex f c).
Proof. repeat split; simpl; by rewrite ?length_alter. Qed.

(** [snoop] keeps the frame and does not touch [isBlocked]. *)
Lemma Cache_snoop_frame (op : BusOperation) (address : Z) (src : nat)
    (pd : bool) (cy : Z) (c : Cache) :
  cache_frame_b Sinv c (Cache_snoop op address src pd cy c).1.1.2.
Proof.
  unfold cache_frame_b.
  destruct Hstable.
  unfold Cache_snoop.
  destruct (decide (src = Cache_coreId c)); [by split; [apply cache_frame_refl|]|].
  destruct (CacheSet_findLine _ _); [|by split; [apply cache_frame_refl|]].
  destruct (CacheSet_getLine _ _) as [line|]; [|by split; [apply cache_frame_refl|]].
  unfold cache_frame.
  destruct op, (CacheLine_getState line); simpl; rewrite ?length_alter;
    (split; [split_and!; try done; intros; eauto 10|done]).
Qed.

Lemma Bus_processSnooping_loop_frame (caches : list Cache) :
  ∀ (i : nat) (tr : BusTransaction),
    frame_rel (λ _, cache_frame_b Sinv)
              caches (Bus_processSnooping_loop i caches tr).1.
Proof.
  induction caches as [|c rest IH]; intros i tr; simpl.
  - apply frame_b_refl.
  - destruct (decide (i ≠ BusTransaction_sourceId tr)).
    + pose proof (Cache_snoop_frame (BusTransaction_operation tr)
                    (BusTransaction_address tr) (BusTransaction_sourceId tr)
                    (BusTransaction_dataProvided tr) 0 c) as Hsn.
      destruct (Cache_snoop _ _ _ _ _ c) as [[[r c'] dp] sc]. simpl in Hsn.
      match goal with
      | |- context [Bus_processSnooping_loop (S i) rest ?t] =>
          specialize (IH (S i) t);
          destruct (Bus_processSnooping_loop (S i) rest t) as [rest' tr']
      end.
      simpl in *. by apply frame_rel_cons.
    + specialize (IH (S i) tr).
      destruct (Bus_processSnooping_loop (S i) rest tr) as [rest' tr'].
      simpl in *. apply frame_rel_cons; [|done]. apply cache_frame_b_refl.
Qed.

Lemma Bus_busOperation_frame (op : BusOperation) (address : Z) (src : nat)
    (pd : bool) (cy : Z) (sys : System) :
  frame_rel (λ _, cache_frame_b Sinv)
            (System_caches sys)
            (System_caches (Bus_busOperation op address src pd cy sys).1.1.1).
Proof.
  unfold Bus_busOperation. destruct (Bus_busy (System_bus sys)); simpl.
  - apply frame_b_refl.
  - pose proof (Bus_processSnooping_loop_frame (System_caches sys) 0
                  (BusTransaction_new op address src)) as H.
    unfold Bus_processSnooping.
    destruct (Bus_processSnooping_loop 0 _ _) as [caches' tr']. simpl in H.
    by destruct (BusTransaction_dataProvided tr').
Qed.

Lemma evict_promote_frame (self : Cache) (address : Z) (last : nat)
    (caches : list Cache) :
  frame_rel (λ _, cache_frame_b Sinv) caches (evict_promote self address last caches).
Proof.
  unfold evict_promote.
  destruct (caches !! last) as [lastCache|] eqn:Hlast;
    [|apply frame_b_refl].
  destruct (Cache_getLineIndex address lastCache) as [lineIndex|];
    [|apply frame_b_refl].
  eapply frame_rel_mono; [apply frame_rel_insert|].
  intros k c c' Hc H. simpl in H.
  destruct (decide (k = last)); subst; [|apply cache_frame_b_refl].
  assert (c = lastCache) as -> by congruence.
  apply cache_frame_b_setLineState.
Qed.

Lemma Cache_evictLine_frame (me : nat) (setIndex : Z) (lineIndex : nat)
    (address cycles : Z) (caches : list Cache) :
  frame_rel (λ _, cache_frame_b Sinv) caches
            (Cache_evictLine me setIndex lineIndex address cycles caches).1.
Proof.
  destruct Hstable.
  unfold Cache_evictLine.
  destruct (caches !! me) as [self|];
    [|apply frame_b_refl].
  assert (Hinv : ∀ l, frame_rel (λ _, cache_frame_b Sinv) l
                        (alter (Cache_setLineState setIndex lineIndex INVALID) me l)).
  { intros l. apply frame_b_alter. intros c. apply cache_frame_b_setLineState. }
  destruct (from_option _ _ _); simpl.
  - eapply frame_b_trans; [|apply Hinv].
    apply frame_b_alter. intros c. apply cache_frame_b_updStats. auto.
  - apply Hinv.
  - destruct (evict_scan self address caches) as [count [last|]]; [|apply Hinv].
    destruct (count =? 1); simpl; [|apply Hinv].
    eapply frame_b_trans; [apply evict_promote_frame|apply Hinv].
  - apply Hinv.
Qed.

Lemma Cache_allocateLine_frame (me : nat) (address : Z) (isWrite : bool)
    (cycles : Z) (busresponse : bool) (caches : list Cache) :
  frame_rel (access_frame Sinv me) caches
            (Cache_allocateLine me address isWrite cycles busresponse caches).1 ∧
  (is_Some (caches !! me) →
   ∀ c', (Cache_allocateLine me address isWrite cycles busresponse caches).1 !! me
         = Some c' → Cache_isBlocked c' = false).
Proof.
  destruct Hstable.
  unfold Cache_allocateLine.
  destruct (caches !! me) as [self|] eqn:Hself.
  2:{ split; [|by intros [? ?]].
      apply access_frame_b, frame_b_refl. }
  set (evicted := if CacheSet_isFull _ then _ else _).
  assert (Hev : frame_rel (λ _, cache_frame_b Sinv) caches evicted.1).
  { unfold evicted. destruct (CacheSet_isFull _);
      [|apply frame_b_refl].
    destruct (CacheSet_getLine _ _) as [victimLine|];
      [|apply frame_b_refl].
    destruct (CacheLine_isValid victimLine);
      [|apply frame_b_refl].
    match goal with
    | |- context [Cache_evictLine me ?n ?i ?a cycles caches] =>
        pose proof (Cache_evictLine_frame me n i a cycles caches) as H;
        destruct (Cache_evictLine me n i a cycles caches) as [cs cy]
    end.
    simpl in *. eapply frame_b_trans; [exact H|].
    apply frame_b_alter. intros c. apply cache_frame_b_updStats. auto. }
  destruct evicted as [caches1 cycles1]. simpl in *.
  split.
  - eapply access_frame_trans; [apply access_frame_b, Hev|].
    apply access_frame_alter. intros c.
    destruct (CacheSet_allocateLine _ _) as [lineIndex set'].
    repeat split; simpl; by rewrite ?length_alter.
  - intros _ c' Hc'. rewrite list_lookup_alter_eq in Hc'.
    destruct (caches1 !! me) as [c1|]; [|done]. simpl in Hc'.
    destruct (CacheSet_allocateLine _ _) as [lineIndex set'].
    by simplify_eq.
Qed.

Lemma Cache_lookupAndUpdate_frame (address : Z) (isWrite : bool) (c : Cache) :
  cache_frame_b Sinv c (Cache_lookupAndUpdate address isWrite c).2.
Proof.
  unfold Cache_lookupAndUpdate.
  destruct (CacheSet_findLine _ _); simpl;
    [apply cache_frame_b_updSet|apply cache_frame_b_refl].
Qed.

Lemma access_frame_close (me : nat) (l l' : list Cache) :
  frame_rel (access_frame Sinv me) l l' →
  (∀ c c', l !! me = Some c → l' !! me = Some c' →
           Cache_isBlocked c' = Cache_isBlocked c) →
  frame_rel (λ _, cache_frame_b Sinv) l l'.
Proof.
  intros [Hlen H] Hme. split; [done|]. intros k c c' Hc Hc'.
  destruct (H k c c' Hc Hc') as [Hf Hb]. split; [done|].
  destruct (decide (k = me)) as [->|Hne]; [by eapply Hme|by apply Hb].
Qed.

(** The service of a miss: the requester is marked blocked, the bus
    transaction is snooped, the line is allocated and [blockedCycles] is
    updated by [g]. *)
Lemma miss_service_frame (me : nat) (self c3 : Cache) (op : BusOperation)
    (address : Z) (isWrite : bool) (src : nat) (g : Z → Cache → Cache)
    (sys : System) :
  System_caches sys !! me = Some self →
  cache_frame Sinv self c3 → Cache_isBlocked self = false →
  (∀ n c, cache_frame_b Sinv c (g n c)) →
  let sys1 := mkSystem (<[me := c3]> (System_caches sys)) (System_bus sys) in
  let '(sys2, success, dataProvided, busCycles) :=
    Bus_busOperation op address src false 0 sys1 in
  let '(caches3, busCycles') :=
    Cache_allocateLine me address isWrite busCycles (success && dataProvided)
      (System_caches sys2) in
  frame_rel (λ _, cache_frame_b Sinv) (System_caches sys)
            (alter (g busCycles') me caches3).
Proof.
  intros Hself Hc3 Hbl Hg sys1.
  pose proof (Bus_busOperation_frame op address src false 0 sys1) as Hbus.
  destruct (Bus_busOperation op address src false 0 sys1)
    as [[[sys2 success] dataProvided] busCycles]. simpl in Hbus.
  destruct (Cache_allocateLine_frame me address isWrite busCycles
              (success && dataProvided) (System_caches sys2)) as [Hal Hunb].
  destruct (Cache_allocateLine me address isWrite busCycles
              (success && dataProvided) (System_caches sys2))
    as [caches3 busCycles']. simpl in Hal, Hunb.
  assert (Hfr : frame_rel (access_frame Sinv me) (System_caches sys)
                          (alter (g busCycles') me caches3)).
  { eapply access_frame_trans; [by eapply access_frame_insert|].
    eapply access_frame_trans; [apply access_frame_b, Hbus|].
    eapply access_frame_trans; [exact Hal|].
    apply access_frame_alter. intros c. apply Hg. }
  apply (access_frame_close me _ _ Hfr).
  intros c c' Hc Hc'. assert (c = self) as -> by congruence. rewrite Hbl.
  rewrite list_lookup_alter_eq in Hc'.
  destruct (caches3 !! me) as [c3'|] eqn:Hc3'; [|done]. simpl in Hc'.
  assert (c' = g busCycles' c3') as -> by congruence.
  destruct (Hg busCycles' c3') as [_ ->]. apply Hunb; [|done].
  apply lookup_lt_is_Some. destruct Hbus as [-> _]. simpl.
  rewrite length_insert. by eapply lookup_lt_Some.
Qed.

Lemma Cache_read_frame (me : nat) (address cycles : Z) (sys : System) :
  frame_rel (λ _, cache_frame_b Sinv) (System_caches sys)
            (System_caches (Cache_read me address cycles sys).1.1) ∧
  ∀ self, System_caches sys !! me = Some self →
          (Cache_read me address cycles sys).1.2 = negb (Cache_isBlocked self).
Proof.
  pose proof Hstable as [].
  unfold Cache_read.
  destruct (System_caches sys !! me) as [self|] eqn:Hself;
    [|split; [apply frame_b_refl|done]].
  destruct (Cache_isBlocked self) eqn:Hbl.
  { split; [apply frame_b_refl|]. intros ? [= <-]. by rewrite Hbl. }
  set (c1 := Cache_updStats _ self).
  assert (Hc1 : cache_frame_b Sinv self c1)
    by (apply cache_frame_b_updStats; auto).
  pose proof (Cache_lookupAndUpdate_frame address false c1) as Hc2.
  destruct (Cache_lookupAndUpdate address false c1) as [hit c2]. simpl in Hc2.
  pose proof (cache_frame_b_trans _ _ _ Hc1 Hc2) as Hself2.
  destruct hit.
  - simpl. split; [|intros ? [= <-]; by rewrite Hbl].
    eapply frame_rel_mono; [apply frame_rel_insert|].
    intros k c c' Hc H. simpl in H.
    destruct (decide (k = me)); subst; [|apply cache_frame_b_refl].
    by assert (c = self) as -> by congruence.
  - set (c3 := Cache_with_isBlocked true _).
    assert (Hc3 : cache_frame Sinv self c3).
    { eapply cache_frame_trans; [apply Hself2|].
      repeat split; simpl; auto. }
    pose proof (miss_service_frame me self c3 BusRd address false
                  (Cache_coreId self)
                  (λ n c, Cache_with_blockedCycles (Cache_blockedCycles c + (n - 1)) c)
                  sys Hself Hc3 Hbl) as Hmiss.
    simpl in Hmiss.
    destruct (Bus_busOperation BusRd address (Cache_coreId self) false 0 _)
      as [[[sys2 success] dataProvided] busCycles].
    destruct (Cache_allocateLine me address false busCycles _ _)
      as [caches3 busCycles'].
    simpl. split; [|intros ? [= <-]; by rewrite Hbl].
    apply Hmiss. intros n c. by repeat split.
Qed.

Lemma Cache_write_frame (me : nat) (address cycles : Z) (sys : System) :
  frame_rel (λ _, cache_frame_b Sinv) (System_caches sys)
            (System_caches (Cache_write me address cycles sys).1.1) ∧
  ∀ self, System_caches sys !! me = Some self →
          (Cache_write me address cycles sys).1.2 = negb (Cache_isBlocked self).
Proof.
  pose proof Hstable as [].
  unfold Cache_write.
  destruct (System_caches sys !! me) as [self|] eqn:Hself;
    [|split; [apply frame_b_refl|done]].
  destruct (Cache_isBlocked self) eqn:Hbl.
  { split; [apply frame_b_refl|]. intros ? [= <-]. by rewrite Hbl. }
  set (c1 := Cache_updStats _ self).
  assert (Hc1 : cache_frame_b Sinv self c1)
    by (apply cache_frame_b_updStats; auto).
  pose proof (Cache_lookupAndUpdate_frame address true c1) as Hc2.
  destruct (Cache_lookupAndUpdate address true c1) as [hit c2]. simpl in Hc2.
  pose proof (cache_frame_b_trans _ _ _ Hc1 Hc2) as Hself2.
  assert (Hsys1 : frame_rel (λ _, cache_frame_b Sinv) (System_caches sys)
                            (<[me := c2]> (System_caches sys))).
  { eapply frame_rel_mono; [apply frame_rel_insert|].
    intros k c c' Hc H. simpl in H.
    destruct (decide (k = me)); subst; [|apply cache_frame_b_refl].
    by assert (c = self) as -> by congruence. }
  assert (Hmod : ∀ setIndex lineIndex l,
            frame_rel (λ _, cache_frame_b Sinv) l
              (alter (Cache_setLineState setIndex lineIndex MODIFIED) me l)).
  { intros. apply frame_b_alter. intros c. apply cache_frame_b_setLineState. }
  cbv zeta. destruct hit.
  - split; [|intros ? [= <-]; rewrite Hbl;
             repeat (case_match; simpl; try done)].
    destruct (CacheSet_findLine _ _) as [lineIndex|]; [|exact Hsys1].
    destruct (from_option _ _ _); simpl; try exact Hsys1.
    + eapply frame_b_trans; [exact Hsys1|apply Hmod].
    + pose proof (Bus_busOperation_frame BusUpgr address (Cache_coreId self)
                    false 0
                    (mkSystem (<[me := c2]> (System_caches sys)) (System_bus sys)))
        as Hbus.
      destruct (Bus_busOperation BusUpgr address (Cache_coreId self) false 0 _)
        as [[[sys2 success] dataProvided] busCycles]. simpl in *.
      eapply frame_b_trans; [exact Hsys1|].
      eapply frame_b_trans; [exact Hbus|apply Hmod].
  - set (c3 := Cache_with_isBlocked true _).
    assert (Hc3 : cache_frame Sinv self c3).
    { eapply cache_frame_trans; [apply Hself2|].
      repeat split; simpl; auto. }
    pose proof (miss_service_frame me self c3 BusRdX address true
                  (Cache_coreId self)
                  (λ n c, Cache_with_blockedCycles (if 0 <? n then n - 1 else 0) c)
                  sys Hself Hc3 Hbl) as Hmiss.
    simpl in Hmiss.
    destruct (Bus_busOperation BusRdX address (Cache_coreId self) false 0 _)
      as [[[sys2 success] dataProvided] busCycles].
    destruct (Cache_allocateLine me address true busCycles _ _)
      as [caches3 busCycles'].
    simpl. split; [|intros ? [= <-]; by rewrite Hbl].
    apply Hmiss. intros n c. by repeat split.
Qed.
End Frame.

(** ** Processor: reading the trace *)

Lemma read_line_length (s : string) :
  ∀ l r, read_line s = (l, r) →
         match r with
         | Some rest => (String.length rest < String.length s)%nat
         | None => True
         end.
Proof.
  induction s as [|c s IH]; intros l r Heq; simpl in Heq.
  - by simplify_eq.
  - destruct (Ascii.eqb c newline).
    + simplify_eq. simpl. lia.
    + destruct (read_line s) as [l0 r0]. simplify_eq.
      specialize (IH l0 r eq_refl). destruct r; simpl; [lia|done].
Qed.

Lemma getline_length (f : ifstream) :
  let '(got, f') := getline f in
  ifstream_is_open f' = ifstream_is_open f ∧
  (String.length (ifstream_buffer f') ≤ String.length (ifstream_buffer f))%nat ∧
  (is_Some got →
   (String.length (ifstream_buffer f') < String.length (ifstream_buffer f))%nat).
Proof.
  unfold getline. destruct (ifstream_buffer f) as [|c buf] eqn:Hbuf.
  - simpl. split; [done|]. split; [done|]. by intros [? ?].
  - pose proof (read_line_length (String c buf)) as Hlen.
    destruct (read_line (String c buf)) as [l [rest|]].
    + specialize (Hlen l (Some rest) eq_refl). simpl in *. split; [done|]. lia.
    + simpl. split; [done|]. lia.
Qed.

Lemma Processor_loadNextReference_shape (p p' : Processor) (loaded : bool) :
  Processor_loadNextReference p = Ok (loaded, p') →
  Processor_frame p p' ∧
  if loaded then
    (∃ r, Processor_pendingReferences p' = Processor_pendingReferences p ++ [r]) ∧
    (String.length (ifstream_buffer (Processor_traceFile p')) <
     String.length (ifstream_buffer (Processor_traceFile p)))%nat ∧
    Processor_traceComplete p' = Processor_traceComplete p
  else
    Processor_pendingReferences p' = Processor_pendingReferences p ∧
    (String.length (ifstream_buffer (Processor_traceFile p')) ≤
     String.length (ifstream_buffer (Processor_traceFile p)))%nat.
Proof.
  destruct p as [id c f q ti ri wi tc ic fin bl err].
  unfold Processor_loadNextReference. simpl.
  destruct (ifstream_eof f || negb (ifstream_is_open f)).
  { intros [= <- <-]. by repeat split. }
  pose proof (getline_length f) as Hlen.
  destruct (getline f) as [got f']. destruct Hlen as (_ & Hle & Hlt).
  simpl.
  assert (Hfall :
    (if ifstream_eof f' && bool_decide (q = [])
     then Ok (false, mkProcessor id c f' q ti ri wi tc ic true bl err)
     else Ok (false, mkProcessor id c f' q ti ri wi tc ic fin bl err))
    = Ok (loaded, p') →
    Processor_frame (mkProcessor id c f q ti ri wi tc ic fin bl err) p' ∧
    if loaded then
      (∃ r, Processor_pendingReferences p' = q ++ [r]) ∧
      (String.length (ifstream_buffer (Processor_traceFile p')) <
       String.length (ifstream_buffer f))%nat ∧
      Processor_traceComplete p' = fin
    else
      Processor_pendingReferences p' = q ∧
      (String.length (ifstream_buffer (Processor_traceFile p')) ≤
       String.length (ifstream_buffer f))%nat).
  { destruct (ifstream_eof f' && bool_decide (q = []));
      intros [= <- <-]; by repeat split. }
  destruct got as [line|]; [|exact Hfall].
  destruct (parse_fields line) as [[opType addressStr]|]; [|exact Hfall].
  specialize (Hlt (ltac:(by eexists))).
  destruct (Ascii.eqb opType "R" || Ascii.eqb opType "r").
  { destruct (if String.prefix "0x" addressStr then _ else _) as [v|e];
      simpl; [|done].
    intros [= <- <-]. simpl. split; [by repeat split|]. split; [by eexists|done]. }
  destruct (Ascii.eqb opType "W" || Ascii.eqb opType "w").
  { destruct (if String.prefix "0x" addressStr then _ else _) as [v|e];
      simpl; [|done].
    intros [= <- <-]. simpl. split; [by repeat split|]. split; [by eexists|done]. }
  intros [= <- <-]. simpl. split; [by repeat split|]. split; [done|lia].
Qed.

Lemma Processor_frame_trans (p1 p2 p3 : Processor) :
  Processor_frame p1 p2 → Processor_frame p2 p3 → Processor_frame p1 p3.
Proof.
  intros (?&?&?&?&?&?&?&?&?) (?&?&?&?&?&?&?&?&?).
  unfold Processor_frame. split_and!; try congruence. auto.
Qed.

Lemma Processor_frame_refl (p : Processor) : Processor_frame p p.
Proof. by repeat split. Qed.

Lemma Processor_preload_shape (n : nat) :
  ∀ p p', Processor_preload n p = Ok p' →
    Processor_frame p p' ∧
    ∃ rs, Processor_pendingReferences p' = Processor_pendingReferences p ++ rs ∧
          (length rs + String.length (ifstream_buffer (Processor_traceFile p')) ≤
           String.length (ifstream_buffer (Processor_traceFile p)))%nat.
Proof.
  induction n as [|n IH]; intros p p' Heq; simpl in Heq.
  - simplify_eq. split; [apply Processor_frame_refl|].
    exists []. by rewrite app_nil_r.
  - destruct (Processor_loadNextReference p) as [[[|] p1]|e] eqn:Hload; [| |done].
    + destruct (Processor_loadNextReference_shape _ _ _ Hload)
        as (Hf & [r Hr] & Hlen & _).
      destruct (IH p1 p' Heq) as (Hf' & rs & Hrs & Hlen').
      split; [by eapply Processor_frame_trans|].
      exists (r :: rs). rewrite Hrs, Hr, <- app_assoc. split; [done|]. simpl. lia.
    + simplify_eq.
      destruct (Processor_loadNextReference_shape _ _ _ Hload) as (Hf & Hq & Hlen).
      split; [done|]. exists []. rewrite app_nil_r. split; [done|]. simpl. lia.
Qed.

(** ** Processor: one cycle *)

Lemma unblocked_frame (Sinv : Statistics → Prop) (l l' : list Cache) :
  frame_rel (λ _, cache_frame_b Sinv) l l' → unblocked l → unblocked l'.
Proof.
  intros [Hlen H] Hunb k c' Hc'.
  assert (Hlt : (k < length l)%nat) by (rewrite <- Hlen; by eapply lookup_lt_Some).
  destruct (lookup_lt_is_Some_2 _ _ Hlt) as [c Hc].
  destruct (H k c c' Hc Hc') as [_ Hb]. unfold Cache_isBlocking. rewrite Hb.
  by apply (Hunb k c).
Qed.

Lemma Processor_measure_complete (p : Processor) :
  Processor_traceComplete p = true → Processor_measure p = 0%nat.
Proof. unfold Processor_measure. by intros ->. Qed.

Section ProcessorStep.
Context (Sinv : Statistics → Prop) (Hstable : stats_stable Sinv).

Lemma access_step (op : MemoryOperation) (h : nat) (address : Z) (sys : System) :
  (h < length (System_caches sys))%nat → unblocked (System_caches sys) →
  ∃ sys' cycles',
    match op with
    | READ => Cache_read h address 0 sys
    | WRITE => Cache_write h address 0 sys
    end = (sys', true, cycles') ∧
    frame_rel (λ _, cache_frame_b Sinv) (System_caches sys) (System_caches sys').
Proof.
  intros Hh Hunb.
  destruct (lookup_lt_is_Some_2 _ _ Hh) as [self Hself].
  pose proof (Hunb h self Hself) as Hbl. unfold Cache_isBlocking in Hbl.
  destruct op.
  - destruct (Cache_read_frame Sinv Hstable h address 0 sys) as [Hfr Hacc].
    specialize (Hacc self Hself). rewrite Hbl in Hacc.
    destruct (Cache_read h address 0 sys) as [[sys' r] cy]. simpl in *. subst r.
    by exists sys', cy.
  - destruct (Cache_write_frame Sinv Hstable h address 0 sys) as [Hfr Hacc].
    specialize (Hacc self Hself). rewrite Hbl in Hacc.
    destruct (Cache_write h address 0 sys) as [[sys' r] cy]. simpl in *. subst r.
    by exists sys', cy.
Qed.

Lemma Processor_executeCycle_step (p p' : Processor) (sys sys' : System)
    (r : bool) (h : nat) :
  Processor_executeCycle p sys = Ok (r, p', sys') →
  Processor_traceComplete p = false →
  Processor_cache p = Some h → (h < length (System_caches sys))%nat →
  unblocked (System_caches sys) →
  frame_rel (λ _, cache_frame_b Sinv) (System_caches sys) (System_caches sys') ∧
  Processor_cache p' = Some h ∧
  Processor_coreId p' = Processor_coreId p ∧
  (Processor_counters_ok p → Processor_counters_ok p') ∧
  (Processor_measure p' < Processor_measure p)%nat.
Proof.
  intros Hexec Hinc Hcache Hh Hunb.
  destruct p as [id c f q ti ri wi tc ic fin bl err]. simpl in Hinc, Hcache.
  subst c fin.
  unfold Processor_executeCycle in Hexec.
  assert (Hnb : Processor_cacheIsBlocking
                  (Processor_with_totalCycles (tc + 1)
                     (mkProcessor id (Some h) f q ti ri wi tc ic false bl err)) sys
                = false).
  { destruct (lookup_lt_is_Some_2 _ _ Hh) as [self Hself].
    unfold Processor_cacheIsBlocking, Processor_with_totalCycles.
    cbn [Processor_cache]. rewrite Hself. simpl. by apply (Hunb h self). }
  cbn [Processor_totalCycles] in Hexec.
  rewrite Hnb, andb_false_r in Hexec.
  set (p2 := mkProcessor id (Some h) f q ti ri wi (tc + 1) ic false false err).
  assert (Hp2 : (if Processor_blocked
                      (Processor_with_totalCycles (tc + 1)
                         (mkProcessor id (Some h) f q ti ri wi tc ic false bl err))
                 then Processor_with_blocked false
                        (Processor_with_totalCycles (tc + 1)
                           (mkProcessor id (Some h) f q ti ri wi tc ic false bl err))
                 else Processor_with_totalCycles (tc + 1)
                        (mkProcessor id (Some h) f q ti ri wi tc ic false bl err))
                = p2).
  { simpl. by destruct bl. }
  rewrite Hp2 in Hexec. clear Hp2 Hnb.
  set (loaded := if bool_decide (Processor_pendingReferences p2 = [])
                 then Processor_loadNextReference p2 else Ok (true, p2)) in Hexec.
  assert (Hloaded : ∀ l p3, loaded = Ok (l, p3) →
            Processor_frame p2 p3 ∧
            if l then
              (∃ ref rest, Processor_pendingReferences p3 = ref :: rest ∧
                 (length rest + String.length (ifstream_buffer (Processor_traceFile p3))
                  < length q + String.length (ifstream_buffer f))%nat) ∧
              Processor_traceComplete p3 = false
            else True).
  { intros l p3 Heq. unfold loaded in Heq. simpl in Heq.
    destruct (bool_decide_reflect (q = [])) as [->|Hq].
    - destruct (Processor_loadNextReference_shape _ _ _ Heq) as [Hf Hl].
      split; [done|]. destruct l; [|done].
      destruct Hl as ([ref Href] & Hlen & Hfin). simpl in *.
      split; [|done]. exists ref, []. split; [done|]. simpl. lia.
    - simplify_eq. split; [apply Processor_frame_refl|].
      destruct q as [|ref rest]; [done|]. split; [|done].
      exists ref, rest. split; [done|]. simpl. lia. }
  destruct loaded as [[l p3]|e]; [|done].
  cbn -[Processor_preload Processor_loadNextReference Cache_read Cache_write]
    in Hexec.
  destruct (Hloaded l p3 eq_refl) as [Hf3 Hl3]. clear Hloaded.
  destruct p3 as [id3 c3 f3 q3 ti3 ri3 wi3 tc3 ic3 fin3 bl3 err3].
  destruct Hf3 as (Hid & Hc & Hti & Hri & Hwi & Htc & Hic & Hbl & _).
  simpl in Hid, Hc, Hti, Hri, Hwi, Htc, Hic, Hbl. subst.
  destruct l;
    cbn -[Processor_preload Processor_loadNextReference Cache_read Cache_write]
      in Hexec.
  2:{ simplify_eq. split; [apply frame_rel_refl; intros; apply cache_frame_b_refl|].
      split; [done|]. split; [done|]. split.
      - unfold Processor_counters_ok. simpl. lia.
      - unfold Processor_measure. simpl. lia. }
  destruct Hl3 as [(ref & rest & Hq3 & Hlen) Hfin3]. simpl in Hq3, Hfin3, Hlen.
  subst q3 fin3.
  destruct (access_step (MemoryReference_operation ref) h
              (MemoryReference_address ref) sys Hh Hunb)
    as (sys1 & cycles' & Hacc & Hfr).
  assert (Hacc' :
    match MemoryReference_operation ref with
    | READ => Cache_read h (MemoryReference_address ref) 0 sys
    | WRITE => Cache_write h (MemoryReference_address ref) 0 sys
    end = (sys1, true, cycles')) by exact Hacc.
  rewrite Hacc' in Hexec. cbv iota beta in Hexec. cbn [andb] in Hexec.
  match type of Hexec with
  | result_bind (if _ then Processor_preload 5 ?x else _) _ = _ =>
      set (p6 := x) in Hexec
  end.
  assert (Hp6 : Processor_cache p6 = Some h ∧ Processor_coreId p6 = id ∧
                Processor_pendingReferences p6 = rest ∧
                Processor_traceFile p6 = f3 ∧
                Processor_traceComplete p6 = false ∧
                Processor_totalInstructions p6 = ti + 1 ∧
                Processor_totalCycles p6 = tc + 1 ∧
                Processor_readInstructions p6 + Processor_writeInstructions p6
                  = ri + wi + 1 ∧
                ri ≤ Processor_readInstructions p6 ∧
                wi ≤ Processor_writeInstructions p6).
  { unfold p6. destruct (MemoryReference_operation ref), (1 <? cycles');
      simpl; repeat split; lia. }
  destruct Hp6 as (Hc6 & Hid6 & Hq6 & Hf6 & Hfin6 & Hti6 & Htc6 & Hrw6 & Hr6 & Hw6).
  assert (Hfill : ∃ p7, p' = p7 ∧ r = true ∧ sys' = sys1 ∧
            Processor_frame p6 p7 ∧
            ∃ rs, Processor_pendingReferences p7 = Processor_pendingReferences p6 ++ rs ∧
                  (length rs + String.length (ifstream_buffer (Processor_traceFile p7)) ≤
                   String.length (ifstream_buffer (Processor_traceFile p6)))%nat).
  { match type of Hexec with
    | result_bind ?fill _ = _ => destruct fill as [p7|e] eqn:Hfill
    end; simpl in Hexec; [|done].
    simplify_eq. exists p'. split; [done|]. split; [done|]. split; [done|].
    match type of Hfill with
    | (if ?cond then _ else _) = _ => destruct cond
    end.
    - by apply (Processor_preload_shape 5).
    - simplify_eq. split; [apply Processor_frame_refl|].
      exists []. by rewrite app_nil_r. }
  destruct Hfill as (p7 & -> & -> & -> & Hshape). clear Hexec.
  destruct Hshape as ((Hid7 & Hc7 & Hti7 & Hri7 & Hwi7 & Htc7 & _) & rs & Hq7 & Hlen7).
  split; [done|]. split; [by rewrite Hc7|]. split; [by rewrite Hid7|]. split.
  - unfold Processor_counters_ok. simpl. intros (H1 & H2 & H3 & H4).
    rewrite Hti7, Hri7, Hwi7, Htc7. lia.
  - unfold Processor_measure at 2. simpl.
    unfold Processor_measure. destruct (Processor_traceComplete p7); [lia|].
    rewrite Hq7, Hq6, Hf6 in *. rewrite length_app. lia.
Qed.
End ProcessorStep.

(** ** Simulator: one tick *)

Lemma stats_frame (Sinv : Statistics → Prop) (l l' : list Cache) :
  frame_rel (λ _, cache_frame_b Sinv) l l' →
  (∀ k c, l !! k = Some c → Sinv (Cache_stats c)) →
  ∀ k c, l' !! k = Some c → Sinv (Cache_stats c).
Proof.
  intros [Hlen H] Hst k c' Hc'.
  assert (Hlt : (k < length l)%nat) by (rewrite <- Hlen; by eapply lookup_lt_Some).
  destruct (lookup_lt_is_Some_2 _ _ Hlt) as [c Hc].
  destruct (H k c c' Hc Hc') as [(_ & _ & _ & _ & _ & HS) _]. eauto.
Qed.

Lemma sum_list_lt (l l' : list nat) :
  length l' = length l →
  (∀ k a a', l !! k = Some a → l' !! k = Some a' → (a' ≤ a)%nat) →
  (∃ k a a', l !! k = Some a ∧ l' !! k = Some a' ∧ (a' < a)%nat) →
  (sum_list l' < sum_list l)%nat.
Proof.
  revert l'. induction l as [|x l IH]; intros [|x' l'] Hlen Hle Hlt;
    simpl in *; try lia.
  - by destruct Hlt as (k & a & a' & Hk & _).
  - pose proof (Hle 0%nat x x' eq_refl eq_refl) as Hx.
    assert (Hle' : ∀ k a a', l !! k = Some a → l' !! k = Some a' → (a' ≤ a)%nat)
      by (intros k a a' Ha Ha'; exact (Hle (S k) a a' Ha Ha')).
    destruct Hlt as ([|k] & a & a' & Hk & Hk' & Hlt); simpl in *.
    + simplify_eq.
      assert (sum_list l' ≤ sum_list l)%nat; [|lia].
      clear -Hlen Hle'. revert l' Hlen Hle'.
      induction l as [|y l IH]; intros [|y' l'] Hlen Hle; simpl in *; try lia.
      pose proof (Hle 0%nat y y' eq_refl eq_refl).
      assert (sum_list l' ≤ sum_list l)%nat; [|lia].
      apply IH; [lia|]. intros k a a' Ha Ha'. exact (Hle (S k) a a' Ha Ha').
    + assert (sum_list l' < sum_list l)%nat; [|lia].
      apply IH; [lia|done|]. by exists k, a, a'.
Qed.

Section SimulatorStep.
Context (Sinv : Statistics → Prop) (Hstable : stats_stable Sinv).

Lemma Bus_processCycle_frame (sys : System) :
  frame_rel (λ _, cache_frame_b Sinv) (System_caches sys)
            (System_caches (Bus_processCycle sys)).
Proof.
  assert (Hnext : ∀ sys0,
            frame_rel (λ _, cache_frame_b Sinv) (System_caches sys0)
                      (System_caches (Bus_processNextPendingTransaction sys0))).
  { intros sys0. unfold Bus_processNextPendingTransaction.
    destruct (Bus_pendingTransactions (System_bus sys0)) as [|tr rest];
      [apply frame_b_refl|].
    match goal with
    | |- context [Bus_busOperation ?op ?a ?src false 0 ?s1] =>
        pose proof (Bus_busOperation_frame Sinv Hstable op a src false 0 s1) as H;
        destruct (Bus_busOperation op a src false 0 s1) as [[[sys2 success] dp] cy]
    end.
    simpl in H. by destruct success. }
  unfold Bus_processCycle.
  destruct (Bus_busy (System_bus sys) && (0 <? Bus_currentCycles (System_bus sys))).
  - destruct (_ =? 0); [|apply frame_b_refl].
    apply (Hnext (mkSystem (System_caches sys) _)).
  - destruct (negb _ && negb _); [apply Hnext|apply frame_b_refl].
Qed.

Lemma Simulator_stepProcessors_step (ps : list Processor) :
  ∀ (i0 : nat) (sys : System) ps' sys',
    Simulator_stepProcessors ps sys = Ok (ps', sys') →
    (∀ k p, ps !! k = Some p →
            Processor_cache p = Some (i0 + k)%nat ∧
            Processor_coreId p = (i0 + k)%nat ∧
            (i0 + k < length (System_caches sys))%nat) →
    unblocked (System_caches sys) →
    frame_rel (λ _, cache_frame_b Sinv) (System_caches sys) (System_caches sys') ∧
    length ps' = length ps ∧
    ∀ k p p', ps !! k = Some p → ps' !! k = Some p' →
      Processor_cache p' = Processor_cache p ∧
      Processor_coreId p' = Processor_coreId p ∧
      (Processor_counters_ok p → Processor_counters_ok p') ∧
      (Processor_traceComplete p = true → p' = p) ∧
      (Processor_traceComplete p = false →
       (Processor_measure p' < Processor_measure p)%nat).
Proof.
  induction ps as [|p ps IH]; intros i0 sys ps' sys' Hstep Hwired Hunb;
    simpl in Hstep.
  - simplify_eq. split; [apply frame_b_refl|]. split; [done|].
    intros k p p' Hk. by rewrite lookup_nil in Hk.
  - destruct (Hwired 0%nat p eq_refl) as (Hc & Hid & Hlt).
    rewrite Nat.add_0_r in Hc, Hid, Hlt.
    unfold Processor_isTraceComplete in Hstep.
    assert (Hhead : ∃ p1 sys1,
              (if negb (Processor_traceComplete p)
               then result_bind (Processor_executeCycle p sys)
                      (λ '(_, p', sys'), Ok (p', sys'))
               else Ok (p, sys)) = Ok (p1, sys1) ∧
              frame_rel (λ _, cache_frame_b Sinv) (System_caches sys)
                        (System_caches sys1) ∧
              Processor_cache p1 = Processor_cache p ∧
              Processor_coreId p1 = Processor_coreId p ∧
              (Processor_counters_ok p → Processor_counters_ok p1) ∧
              (Processor_traceComplete p = true → p1 = p) ∧
              (Processor_traceComplete p = false →
               (Processor_measure p1 < Processor_measure p)%nat) ∧
              result_bind (Simulator_stepProcessors ps sys1)
                (λ '(rest', sys''), Ok (p1 :: rest', sys'')) = Ok (ps', sys')).
    { destruct (Processor_traceComplete p) eqn:Hfin; simpl in Hstep |- *.
      - exists p, sys. split; [done|]. split; [apply frame_b_refl|]. done.
      - destruct (Processor_executeCycle p sys) as [[[r p1] sys1]|e] eqn:Hexec;
          [|done]. simpl in Hstep.
        destruct (Processor_executeCycle_step Sinv Hstable p p1 sys sys1 r i0
                    Hexec Hfin Hc Hlt Hunb) as (Hfr & Hc1 & Hid1 & Hcnt & Hm).
        exists p1, sys1. split; [done|]. split; [done|].
        split; [congruence|]. split; [done|]. split; [done|]. done. }
    destruct Hhead as (p1 & sys1 & _ & Hfr & Hc1 & Hid1 & Hcnt & Hsame & Hm & Hrest).
    destruct (Simulator_stepProcessors ps sys1) as [[rest' sys'']|e] eqn:Htail;
      [|done]. simpl in Hrest. injection Hrest as <- <-.
    destruct (IH (S i0) sys1 rest' sys'' Htail) as (Hfr' & Hlen & Hps).
    { intros k q Hq. destruct (Hwired (S k) q Hq) as (? & ? & ?).
      rewrite Nat.add_succ_r in *. destruct Hfr as [Hl _].
      split; [done|]. split; [done|]. simpl. by rewrite Hl. }
    { by eapply unblocked_frame. }
    split; [by eapply frame_b_trans|]. split; [simpl; congruence|].
    intros [|k] q q' Hq Hq'; simpl in Hq, Hq'; [|by eapply Hps].
    injection Hq as <-. injection Hq' as <-. done.
Qed.

Lemma Simulator_resolveDeadlock_inv (sim : Simulator) :
  Simulator_inv Sinv sim → Simulator_inv Sinv (Simulator_resolveDeadlock sim).
Proof.
  intros [Hw Hu Hc Hs].
  assert (Hfold : ∀ ps cs,
            unblocked cs → (∀ k c, cs !! k = Some c → Sinv (Cache_stats c)) →
            let cs' := foldl (λ cs p,
                                if Processor_isBlocked p
                                then alter Cache_unblock (Processor_coreId p) cs
                                else cs) cs ps in
            length cs' = length cs ∧ unblocked cs' ∧
            ∀ k c, cs' !! k = Some c → Sinv (Cache_stats c)).
  { induction ps as [|p ps IH]; intros cs Hun Hst; simpl; [done|].
    destruct (Processor_isBlocked p); [|by apply IH].
    destruct (IH (alter Cache_unblock (Processor_coreId p) cs)) as (Hl & Hu' & Hs').
    - intros k c Hk. destruct (decide (k = Processor_coreId p)) as [->|Hne].
      + rewrite list_lookup_alter_eq in Hk.
        destruct (cs !! Processor_coreId p); simpl in Hk; [|done].
        by injection Hk as <-.
      + rewrite list_lookup_alter_ne in Hk by done. by eapply Hun.
    - intros k c Hk. destruct (decide (k = Processor_coreId p)) as [->|Hne].
      + rewrite list_lookup_alter_eq in Hk.
        destruct (cs !! Processor_coreId p) as [c0|] eqn:Hc0; simpl in Hk; [|done].
        injection Hk as <-. simpl. by eapply Hst.
      + rewrite list_lookup_alter_ne in Hk by done. by eapply Hst.
    - rewrite length_alter in Hl. done. }
  destruct (Hfold (Simulator_processors sim) _ Hu Hs) as (Hl & Hu' & Hs').
  split; simpl; [|done|done|done].
  intros i p Hp. destruct (Hw i p Hp) as (? & ? & ?). by rewrite Hl.
Qed.

Lemma Simulator_checkForDeadlock_inv (sim : Simulator) :
  Simulator_inv Sinv sim → Simulator_inv Sinv (Simulator_checkForDeadlock sim).
Proof.
  intros Hinv. unfold Simulator_checkForDeadlock.
  destruct (deadlock_scan _ _) as [a b].
  destruct (a && b && negb _); [by apply Simulator_resolveDeadlock_inv|done].
Qed.

Lemma Simulator_checkForDeadlock_processors (sim : Simulator) :
  Simulator_processors (Simulator_checkForDeadlock sim) = Simulator_processors sim ∧
  Simulator_simulationComplete (Simulator_checkForDeadlock sim)
    = Simulator_simulationComplete sim ∧
  Simulator_currentCycle (Simulator_checkForDeadlock sim)
    = Simulator_currentCycle sim.
Proof.
  unfold Simulator_checkForDeadlock.
  destruct (deadlock_scan _ _) as [a b]. by destruct (a && b && negb _).
Qed.

Lemma Simulator_tick_step (sim sim' : Simulator) :
  Simulator_tick sim = Ok sim' → Simulator_inv Sinv sim →
  Simulator_simulationComplete sim = false →
  Simulator_inv Sinv sim' ∧
  (Simulator_measure sim' < Simulator_measure sim)%nat ∧
  Simulator_currentCycle sim' = Simulator_currentCycle sim + 1.
Proof.
  intros Htick [Hw Hu Hc Hs] Hrun. unfold Simulator_tick in Htick.
  pose proof (Bus_processCycle_frame (Simulator_system sim)) as Hbus.
  set (sys1 := Bus_processCycle (Simulator_system sim)) in *.
  destruct (Simulator_stepProcessors (Simulator_processors sim) sys1)
    as [[ps sys2]|e] eqn:Hstep; [|done]. simpl in Htick.
  destruct (Simulator_stepProcessors_step _ 0 sys1 ps sys2 Hstep)
    as (Hfr & Hlen & Hps).
  { intros k p Hp. destruct (Hw k p Hp) as (? & ? & ?).
    destruct Hbus as [Hl _]. simpl. by rewrite Hl. }
  { by eapply unblocked_frame. }
  pose proof (frame_b_trans Sinv _ _ _ Hbus Hfr) as Hfr2.
  match type of Htick with
  | Ok (Simulator_checkForDeadlock ?s) = _ => set (sim2 := s) in *
  end.
  assert (Hinv2 : Simulator_inv Sinv sim2).
  { split; simpl.
    - intros i p' Hp'.
      assert (Hlt : (i < length (Simulator_processors sim))%nat)
        by (rewrite <- Hlen; by eapply lookup_lt_Some).
      destruct (lookup_lt_is_Some_2 _ _ Hlt) as [p Hp].
      destruct (Hps i p p' Hp Hp') as (Hc' & Hid' & _).
      destruct (Hw i p Hp) as (? & ? & ?). destruct Hfr2 as [Hl _].
      rewrite Hc', Hid', Hl. done.
    - by eapply unblocked_frame.
    - intros i p' Hp'.
      assert (Hlt : (i < length (Simulator_processors sim))%nat)
        by (rewrite <- Hlen; by eapply lookup_lt_Some).
      destruct (lookup_lt_is_Some_2 _ _ Hlt) as [p Hp].
      destruct (Hps i p p' Hp Hp') as (_ & _ & Hcnt & _). eauto.
    - by eapply stats_frame. }
  simplify_eq.
  destruct (Simulator_checkForDeadlock_processors sim2) as (Hpr & Hfin & Hcy).
  split; [by apply Simulator_checkForDeadlock_inv|].
  split; [|by rewrite Hcy].
  unfold Simulator_measure. rewrite Hfin, Hpr, Hrun. simpl.
  unfold Simulator_allProcessorsComplete. simpl.
  destruct (forallb Processor_isTraceComplete ps) eqn:Hall; [lia|].
  apply -> Nat.succ_lt_mono.
  apply sum_list_lt.
  - by rewrite !length_fmap.
  - intros k a a' Ha Ha'. rewrite list_lookup_fmap in Ha, Ha'.
    destruct (Simulator_processors sim !! k) as [p|] eqn:Hp; [|done].
    destruct (ps !! k) as [p'|] eqn:Hp'; [|done]. simpl in *. simplify_eq.
    destruct (Hps k p p' Hp Hp') as (_ & _ & _ & Hsame & Hm).
    destruct (Processor_traceComplete p) eqn:Hfin'.
    + by rewrite (Hsame eq_refl).
    + specialize (Hm eq_refl). lia.
  - assert (Hex : ∃ k p', ps !! k = Some p' ∧ Processor_traceComplete p' = false).
    { clear -Hall. induction ps as [|q ps IH]; simpl in Hall; [done|].
      unfold Processor_isTraceComplete in Hall at 1.
      destruct (Processor_traceComplete q) eqn:Hq.
      - destruct (IH Hall) as (k & p' & Hk & Hp'). by exists (S k), p'.
      - by exists 0%nat, q. }
    destruct Hex as (k & p' & Hp' & Hfin').
    assert (Hlt : (k < length (Simulator_processors sim))%nat)
      by (rewrite <- Hlen; by eapply lookup_lt_Some).
    destruct (lookup_lt_is_Some_2 _ _ Hlt) as [p Hp].
    destruct (Hps k p p' Hp Hp') as (_ & _ & _ & Hsame & Hm).
    exists k, (Processor_measure p), (Processor_measure p').
    rewrite !list_lookup_fmap, Hp, Hp'. split; [done|]. split; [done|].
    apply Hm. destruct (Processor_traceComplete p) eqn:Hfinp; [|done].
    rewrite (Hsame eq_refl) in Hfin'. congruence.
Qed.

Lemma Simulator_runCycles_inv (numCycles : nat) :
  ∀ sim sim', Simulator_runCycles numCycles sim = Ok sim' →
              Simulator_inv Sinv sim → Simulator_inv Sinv sim'.
Proof.
  induction numCycles as [|n IH]; intros sim sim' Hrun Hinv; simpl in Hrun.
  - by simplify_eq.
  - destruct (Simulator_simulationComplete sim) eqn:Hfin; [by simplify_eq|].
    destruct (Simulator_tick sim) as [sim1|e] eqn:Htick; [|done]. simpl in Hrun.
    destruct (Simulator_tick_step sim sim1 Htick Hinv Hfin) as (Hinv1 & _).
    by eapply IH.
Qed.

Lemma Simulator_runCycles_complete (numCycles : nat) :
  ∀ sim, Simulator_inv Sinv sim →
         (Simulator_measure sim ≤ numCycles)%nat →
         match Simulator_runCycles numCycles sim with
         | Ok sim' =>
             Simulator_simulationComplete sim' = true ∧
             Simulator_currentCycle sim' ≤
               Simulator_currentCycle sim + Z.of_nat (Simulator_measure sim)
         | Throw _ => True
         end.
Proof.
  induction numCycles as [|n IH]; intros sim Hinv Hm; simpl.
  - unfold Simulator_measure in Hm |- *.
    destruct (Simulator_simulationComplete sim); [split; [done|lia]|lia].
  - destruct (Simulator_simulationComplete sim) eqn:Hfin; [split; [done|lia]|].
    destruct (Simulator_tick sim) as [sim1|e] eqn:Htick; [|done]. simpl.
    destruct (Simulator_tick_step sim sim1 Htick Hinv Hfin) as (Hinv1 & Hlt & Hcy).
    specialize (IH sim1 Hinv1 ltac:(lia)).
    destruct (Simulator_runCycles n sim1) as [sim'|]; [|done].
    destruct IH as [? ?]. split; [done|]. lia.
Qed.
End SimulatorStep.

(** ** The simulator from its constructor on *)

Lemma Processor_new_frame (coreId : nat) (path : string) (file : option string)
    (p : Processor) :
  Processor_new coreId path file = Ok p →
  Processor_coreId p = coreId ∧ Processor_cache p = None.
Proof.
  unfold Processor_new. intros Hnew.
  destruct (Processor_preload_shape 10 _ _ Hnew) as [(Hid & Hc & _) _].
  rewrite Hid, Hc. by destruct (negb _).
Qed.

Lemma Simulator_build_wired (fs : FileSystem) (tracePrefix : string) (s E b : Z)
    (n : nat) :
  ∀ i ps cs,
    Simulator_build fs tracePrefix s E b i n = Ok (ps, cs) →
    length cs = length ps ∧
    (∀ k p, ps !! k = Some p →
            Processor_cache p = Some (i + k)%nat ∧
            Processor_coreId p = (i + k)%nat) ∧
    (∀ k c, cs !! k = Some c → c = Cache_new (i + k) s E b).
Proof.
  induction n as [|n IH]; intros i ps cs Hbuild; simpl in Hbuild.
  - simplify_eq. split; [done|]. split; intros k x Hk; by rewrite lookup_nil in Hk.
  - destruct (Processor_new i _ _) as [p|e] eqn:Hp; [|done]. simpl in Hbuild.
    destruct (Simulator_build fs tracePrefix s E b (S i) n) as [[ps' cs']|e] eqn:Hrec;
      [|done].
    simpl in Hbuild. injection Hbuild as <- <-.
    destruct (IH _ _ _ Hrec) as (Hlen & Hps & Hcs).
    destruct (Processor_new_frame _ _ _ _ Hp) as [Hid _].
    split; [simpl; congruence|]. split.
    + intros [|k] q Hk; simpl in Hk.
      * injection Hk as <-. rewrite Nat.add_0_r. by destruct p.
      * rewrite Nat.add_succ_r. by apply Hps.
    + intros [|k] c Hk; simpl in Hk.
      * injection Hk as <-. by rewrite Nat.add_0_r.
      * rewrite Nat.add_succ_r. by apply Hcs.
Qed.

Lemma Simulator_initial_inv (Sinv : Statistics → Prop) (fs : FileSystem)
    (tracePrefix : string) (s E b : Z) (numCores : nat) (sim : Simulator) :
  Sinv Statistics_reset →
  Simulator_new fs tracePrefix s E b numCores = Ok sim →
  Simulator_inv Sinv (Simulator_initialize sim).
Proof.
  intros Hreset Hnew. unfold Simulator_new in Hnew.
  destruct (Simulator_build _ _ _ _ _ _ _) as [[ps cs]|e] eqn:Hbuild; [|done].
  simpl in Hnew. injection Hnew as <-.
  destruct (Simulator_build_wired _ _ _ _ _ _ _ _ _ Hbuild) as (Hlen & Hps & Hcs).
  split; simpl.
  - intros i p Hp. rewrite list_lookup_fmap in Hp.
    destruct (ps !! i) as [p0|] eqn:Hp0; [|done]. simpl in Hp. injection Hp as <-.
    destruct (Hps i p0 Hp0) as [Hc Hid]. simpl in Hc, Hid.
    rewrite length_fmap, Hlen.
    split; [by destruct p0|]. split; [by destruct p0|]. by eapply lookup_lt_Some.
  - intros k c Hc. rewrite list_lookup_fmap in Hc.
    destruct (cs !! k) as [c0|] eqn:Hc0; [|done]. simpl in Hc. injection Hc as <-.
    by rewrite (Hcs k c0 Hc0).
  - intros i p Hp. rewrite list_lookup_fmap in Hp.
    destruct (ps !! i) as [p0|] eqn:Hp0; [|done]. simpl in Hp. injection Hp as <-.
    destruct p0. unfold Processor_counters_ok. simpl. lia.
  - intros k c Hc. rewrite list_lookup_fmap in Hc.
    destruct (cs !! k) as [c0|] eqn:Hc0; [|done]. simpl in Hc. by injection Hc as <-.
Qed.

Lemma stats_stable_True : stats_stable (λ _, True).
Proof. by split. Qed.

Lemma u64_add_l (x y : Z) : u64 (u64 x + y) = u64 (x + y).
Proof. unfold u64. by rewrite Z.add_mod_idemp_l. Qed.

Lemma u64_add_r (x y : Z) : u64 (x + u64 y) = u64 (x + y).
Proof. unfold u64. by rewrite Z.add_mod_idemp_r. Qed.

Lemma stats_stable_consistent : stats_stable Statistics_consistent.
Proof.
  split; intros; destruct st as [a m rm wm ev wb ti ri wi br bx bu bf inv bt];
    unfold Statistics_consistent in *; simpl in *;
    destruct_and!; subst; split_and!; try done;
    rewrite ?u64_add_l, ?u64_add_r; f_equal; lia.
Qed.

(** X6.  In every state that the simulator reaches from its constructor
    by completed ticks, the counters of each processor agree: every
    executed instruction is a read or a write, and the cycles counted in
    [totalCycles] are exactly the executed instructions (a cycle in which
    the trace ends is taken back, and no cycle is ever spent waiting for a
    blocked cache). *)
Theorem Processor_counters_agree (fs : FileSystem) (tracePrefix : string)
    (s E b : Z) (numCores numCycles : nat) (sim0 sim : Simulator) :
  0 ≤ s → 0 < E → 0 ≤ b → s + b < 32 →
  Simulator_new fs tracePrefix s E b numCores = Ok sim0 →
  Simulator_runCycles numCycles (Simulator_initialize sim0) = Ok sim →
  ∀ i p, Simulator_processors sim !! i = Some p →
    Processor_totalInstructions p =
      Processor_readInstructions p + Processor_writeInstructions p ∧
    Processor_totalCycles p = Processor_totalInstructions p.
Proof.
  intros _ _ _ _ Hnew Hrun i p Hp.
  pose proof (Simulator_initial_inv (λ _, True) _ _ _ _ _ _ _ I Hnew) as Hinit.
  pose proof (Simulator_runCycles_inv _ stats_stable_True _ _ _ Hrun Hinit) as Hinv.
  destruct (inv_counters _ _ Hinv i p Hp) as (H1 & H2 & _). done.
Qed.

Lemma Processor_counters_agree_witness :
  ∃ sim0 sim,
    Simulator_new
      (trace_fs [["R 0x0"; "W 0x0"; "R 0x40"; "R 0x80"];
                 ["R 0x0"; "R 0x0"; "W 0x40"];
                 ["W 0x0"; "R 0x80"]]) "app" 1 2 5 4 = Ok sim0 ∧
    Simulator_runCycles 3 (Simulator_initialize sim0) = Ok sim ∧
    ∀ i p, Simulator_processors sim !! i = Some p →
      Processor_totalInstructions p =
        Processor_readInstructions p + Processor_writeInstructions p ∧
      Processor_totalCycles p = Processor_totalInstructions p.
Proof.
  eexists _, _. split; [vm_compute; reflexivity|].
  split; [vm_compute; reflexivity|].
  eapply (Processor_counters_agree
            (trace_fs [["R 0x0"; "W 0x0"; "R 0x40"; "R 0x80"];
                       ["R 0x0"; "R 0x0"; "W 0x40"];
                       ["W 0x0"; "R 0x80"]]) "app" 1 2 5 4 3);
    [lia|lia|lia|lia|vm_compute; reflexivity|vm_compute; reflexivity].
Defined.

(** X7.  Between two ticks the machine is quiescent: no cache is
    blocked, the bus is not busy and no transaction is queued on it. *)
Theorem Simulator_quiescent (fs : FileSystem) (tracePrefix : string)
    (s E b : Z) (numCores numCycles : nat) (sim0 sim : Simulator) :
  0 ≤ s → 0 < E → 0 ≤ b → s + b < 32 →
  Simulator_new fs tracePrefix s E b numCores = Ok sim0 →
  Simulator_runCycles numCycles (Simulator_initialize sim0) = Ok sim →
  (∀ k c, System_caches (Simulator_system sim) !! k = Some c →
          Cache_isBlocking c = false) ∧
  length (System_caches (Simulator_system sim)) = numCores ∧
  Bus_isBusy (System_bus (Simulator_system sim)) = false ∧
  Bus_pendingTransactions (System_bus (Simulator_system sim)) = [] ∧
  Bus_processCycle (Simulator_system sim) = Simulator_system sim.
Proof.
  intros Hs HE Hb Hsb Hnew Hrun.
  pose proof (Simulator_initial_inv (λ _, True) _ _ _ _ _ _ _ I Hnew) as Hinit.
  pose proof (Simulator_runCycles_inv _ stats_stable_True _ _ _ Hrun Hinit) as Hinv.
  pose proof (Simulator_initial_ok _ _ _ _ _ _ _ Hs HE Hnew) as Hok0.
  pose proof (Simulator_runCycles_ok s b numCycles Hs Hb Hsb _ _ Hrun Hok0)
    as [[_ _ Hidle Hpend] _].
  split; [exact (inv_unblocked _ _ Hinv)|].
  split; [|split; [done|split; [done|by apply Bus_processCycle_idle]]].
  assert (Hlen : ∀ n sim1 sim2, Simulator_runCycles n sim1 = Ok sim2 →
            Simulator_inv (λ _, True) sim1 →
            length (System_caches (Simulator_system sim2)) =
            length (System_caches (Simulator_system sim1))).
  { induction n as [|n IH]; intros sim1 sim2 Hr Hi; simpl in Hr.
    - by injection Hr as <-.
    - destruct (Simulator_simulationComplete sim1) eqn:Hfin; [by injection Hr as <-|].
      destruct (Simulator_tick sim1) as [sim1'|e] eqn:Htick; [|done]. simpl in Hr.
      destruct (Simulator_tick_step _ stats_stable_True _ _ Htick Hi Hfin)
        as (Hi' & _).
      rewrite (IH _ _ Hr Hi').
      clear -Htick Hi Hfin. unfold Simulator_tick in Htick.
      pose proof (Bus_processCycle_frame _ stats_stable_True
                    (Simulator_system sim1)) as [Hl1 _].
      destruct (Simulator_stepProcessors _ _) as [[ps sys2]|e] eqn:Hstep; [|done].
      simpl in Htick. injection Htick as <-.
      destruct (Simulator_stepProcessors_step _ stats_stable_True _ 0 _ _ _ Hstep)
        as ([Hl2 _] & _).
      { intros k p Hp. destruct (inv_wired _ _ Hi k p Hp) as (? & ? & ?).
        simpl. by rewrite Hl1. }
      { eapply unblocked_frame; [apply Bus_processCycle_frame, stats_stable_True|].
        exact (inv_unblocked _ _ Hi). }
      rewrite <- Hl1, <- Hl2.
      unfold Simulator_checkForDeadlock.
      destruct (deadlock_scan _ _) as [x y]. destruct (x && y && negb _); [|done].
      simpl. generalize (System_caches sys2). clear.
      induction ps as [|p ps IH]; intros cs; simpl; [done|].
      destruct (Processor_isBlocked p); rewrite IH; by rewrite ?length_alter. }
  rewrite (Hlen _ _ _ Hrun Hinit). simpl.
  unfold Simulator_new in Hnew.
  destruct (Simulator_build _ _ _ _ _ _ _) as [[ps cs]|e] eqn:Hbuild; [|done].
  simpl in Hnew. injection Hnew as <-. simpl. rewrite length_fmap.
  clear -Hbuild. revert ps cs Hbuild. generalize 0%nat.
  induction numCores as [|n IH]; intros i ps cs Hbuild; simpl in Hbuild.
  - by injection Hbuild as <- <-.
  - destruct (Processor_new i _ _) as [p|e]; [|done]. simpl in Hbuild.
    destruct (Simulator_build _ _ _ _ _ (S i) n) as [[ps' cs']|e] eqn:Hrec; [|done].
    simpl in Hbuild. injection Hbuild as <- <-. simpl. f_equal. by eapply IH.
Qed.

Lemma Simulator_quiescent_witness :
  ∃ sim0 sim,
    Simulator_new
      (trace_fs [["R 0x0"; "W 0x0"; "R 0x40"; "R 0x80"];
                 ["R 0x0"; "R 0x0"; "W 0x40"];
                 ["W 0x0"; "R 0x80"]]) "app" 1 2 5 4 = Ok sim0 ∧
    Simulator_runCycles 3 (Simulator_initialize sim0) = Ok sim ∧
    (∀ k c, System_caches (Simulator_system sim) !! k = Some c →
            Cache_isBlocking c = false) ∧
    length (System_caches (Simulator_system sim)) = 4%nat ∧
    Bus_isBusy (System_bus (Simulator_system sim)) = false ∧
    Bus_pendingTransactions (System_bus (Simulator_system sim)) = [] ∧
    Bus_processCycle (Simulator_system sim) = Simulator_system sim.
Proof.
  eexists _, _. split; [vm_compute; reflexivity|].
  split; [vm_compute; reflexivity|].
  eapply (Simulator_quiescent
            (trace_fs [["R 0x0"; "W 0x0"; "R 0x40"; "R 0x80"];
                       ["R 0x0"; "R 0x0"; "W 0x40"];
                       ["W 0x0"; "R 0x80"]]) "app" 1 2 5 4 3);
    [lia|lia|lia|lia|vm_compute; reflexivity|vm_compute; reflexivity].
Defined.

(** X8.  In every state that the simulator reaches, the counters of each
    cache agree: its misses are its read misses plus its write misses, the
    accesses it counts as instructions are its reads plus its writes
    (modulo 2^64, the width of the counters), and it never counts a bus
    operation; those are counted by the bus alone. *)
Theorem Cache_statistics_consistent (fs : FileSystem) (tracePrefix : string)
    (s E b : Z) (numCores numCycles : nat) (sim0 sim : Simulator) :
  0 ≤ s → 0 < E → 0 ≤ b → s + b < 32 →
  Simulator_new fs tracePrefix s E b numCores = Ok sim0 →
  Simulator_runCycles numCycles (Simulator_initialize sim0) = Ok sim →
  ∀ k c, System_caches (Simulator_system sim) !! k = Some c →
         Statistics_consistent (Cache_stats c).
Proof.
  intros _ _ _ _ Hnew Hrun.
  assert (Hreset : Statistics_consistent Statistics_reset) by by repeat split.
  pose proof (Simulator_initial_inv _ _ _ _ _ _ _ _ Hreset Hnew) as Hinit.
  pose proof (Simulator_runCycles_inv _ stats_stable_consistent _ _ _ Hrun Hinit)
    as Hinv.
  exact (inv_stats _ _ Hinv).
Qed.

Lemma Cache_statistics_consistent_witness :
  ∃ sim0 sim,
    Simulator_new
      (trace_fs [["R 0x0"; "W 0x0"; "R 0x40"; "R 0x80"];
                 ["R 0x0"; "R 0x0"; "W 0x40"];
                 ["W 0x0"; "R 0x80"]]) "app" 1 2 5 4 = Ok sim0 ∧
    Simulator_runCycles 3 (Simulator_initialize sim0) = Ok sim ∧
    ∀ k c, System_caches (Simulator_system sim) !! k = Some c →
           Statistics_consistent (Cache_stats c).
Proof.
  eexists _, _. split; [vm_compute; reflexivity|].
  split; [vm_compute; reflexivity|].
  eapply (Cache_statistics_consistent
            (trace_fs [["R 0x0"; "W 0x0"; "R 0x40"; "R 0x80"];
                       ["R 0x0"; "R 0x0"; "W 0x40"];
                       ["W 0x0"; "R 0x80"]]) "app" 1 2 5 4 3);
    [lia|lia|lia|lia|vm_compute; reflexivity|vm_compute; reflexivity].
Defined.

Lemma Simulator_runUntilCompletion_spec (Sinv : Statistics → Prop)
    (Hstable : stats_stable Sinv) (fuel : nat) :
  ∀ sim, Simulator_inv Sinv sim →
         (Simulator_measure sim ≤ fuel)%nat →
         Simulator_currentCycle sim ≤ MAX_CYCLES →
         match Simulator_runUntilCompletion fuel sim with
         | Ok (Some sim') =>
             (Simulator_simulationComplete sim' = true ∨
              Simulator_currentCycle sim' = MAX_CYCLES) ∧
             (Simulator_currentCycle sim + Z.of_nat (Simulator_measure sim)
                ≤ MAX_CYCLES →
              Simulator_simulationComplete sim' = true) ∧
             Simulator_currentCycle sim' ≤
               Simulator_currentCycle sim + Z.of_nat (Simulator_measure sim) ∧
             Simulator_inv Sinv sim'
         | Ok None => False
         | Throw _ => True
         end.
Proof.
  induction fuel as [|fuel IH]; intros sim Hinv Hm Hmax;
    unfold Simulator_runUntilCompletion; fold Simulator_runUntilCompletion.
  - unfold Simulator_measure in Hm |- *.
    destruct (Simulator_simulationComplete sim) eqn:Hfin; simpl; [|lia].
    split; [by left|]. split; [done|]. split; [lia|done].
  - destruct (Simulator_simulationComplete sim) eqn:Hfin; simpl.
    { split; [by left|]. split; [done|]. split; [lia|done]. }
    assert (Hpos : (1 ≤ Simulator_measure sim)%nat).
    { unfold Simulator_measure. rewrite Hfin. lia. }
    destruct (Z.ltb_spec (Simulator_currentCycle sim) MAX_CYCLES) as [Hlim|Hlim].
    2:{ split; [right; lia|]. split; [lia|]. split; [lia|done]. }
    rewrite Hfin.
    destruct (Simulator_tick sim) as [sim1|e] eqn:Htick; [|done]. simpl.
    destruct (Simulator_tick_step Sinv Hstable sim sim1 Htick Hinv Hfin)
      as (Hinv1 & Hlt & Hcy).
    specialize (IH sim1 Hinv1 ltac:(lia) ltac:(lia)).
    destruct (Simulator_runUntilCompletion fuel sim1) as [[sim'|]|]; [|done..].
    destruct IH as (Hend & Hdone & Hcc & Hinv').
    split; [done|]. split; [intros ?; apply Hdone; lia|]. split; [lia|done].
Qed.

(** X9.  [runUntilCompletion] always returns, unless [std::stoul] throws
    on a malformed address: within [Simulator_measure] iterations (one for
    every queued reference and every unread character of an unfinished
    trace, plus one) the loop ends, either with every trace read to its end
    or at the cycle limit [MAX_CYCLES]; [currentCycle] is then at most the
    measure, and when the measure does not exceed [MAX_CYCLES] the loop ends
    by completion.  It never deadlocks. *)
Theorem Simulator_runUntilCompletion_completes (fs : FileSystem)
    (tracePrefix : string) (s E b : Z) (numCores : nat) (sim0 : Simulator)
    (fuel : nat) :
  0 ≤ s → 0 < E → 0 ≤ b → s + b < 32 →
  Simulator_new fs tracePrefix s E b numCores = Ok sim0 →
  let sim1 := Simulator_initialize sim0 in
  (Simulator_measure sim1 ≤ fuel)%nat →
  match Simulator_runUntilCompletion fuel sim1 with
  | Ok (Some sim) =>
      (Simulator_simulationComplete sim = true ∨
       Simulator_currentCycle sim = MAX_CYCLES) ∧
      (Z.of_nat (Simulator_measure sim1) ≤ MAX_CYCLES →
       Simulator_simulationComplete sim = true) ∧
      Simulator_currentCycle sim ≤ Z.of_nat (Simulator_measure sim1)
  | Ok None => False
  | Throw _ => True
  end.
Proof.
  intros _ _ _ _ Hnew sim1 Hfuel.
  pose proof (Simulator_initial_inv (λ _, True) _ _ _ _ _ _ _ I Hnew) as Hinit.
  pose proof (Simulator_runUntilCompletion_spec _ stats_stable_True fuel sim1
                Hinit Hfuel) as H.
  destruct (Simulator_runUntilCompletion fuel sim1) as [[sim|]|];
    [|by apply H|done].
  destruct H as (Hend & Hdone & Hcc & _); [done|].
  split; [done|]. split; [|simpl in *; lia].
  intros Hm. apply Hdone. simpl. lia.
Qed.

(** The instance: three cores with traces of four, three and two
    references; the measure is 13 and the run ends complete. *)
Lemma Simulator_runUntilCompletion_completes_witness :
  ∃ sim0,
    Simulator_new
      (trace_fs [["R 0x0"; "W 0x0"; "R 0x40"; "R 0x80"];
                 ["R 0x0"; "R 0x0"; "W 0x40"];
                 ["W 0x0"; "R 0x80"]]) "app" 1 2 5 4 = Ok sim0 ∧
    Simulator_measure (Simulator_initialize sim0) = 13%nat ∧
    match Simulator_runUntilCompletion 40 (Simulator_initialize sim0) with
    | Ok (Some sim) =>
        (Simulator_simulationComplete sim = true ∨
         Simulator_currentCycle sim = MAX_CYCLES) ∧
        (Z.of_nat (Simulator_measure (Simulator_initialize sim0)) ≤ MAX_CYCLES →
         Simulator_simulationComplete sim = true) ∧
        Simulator_currentCycle sim ≤
          Z.of_nat (Simulator_measure (Simulator_initialize sim0))
    | Ok None => False
    | Throw _ => True
    end.
Proof.
  eexists. split; [vm_compute; reflexivity|].
  split; [vm_compute; reflexivity|].
  eapply (Simulator_runUntilCompletion_completes
            (trace_fs [["R 0x0"; "W 0x0"; "R 0x40"; "R 0x80"];
                       ["R 0x0"; "R 0x0"; "W 0x40"];
                       ["W 0x0"; "R 0x80"]]) "app" 1 2 5 4 _ 40);
    [lia|lia|lia|lia|vm_compute; reflexivity|vm_compute; lia].
Defined.

(** ** Collected statistics *)

Lemma u64_idem (x : Z) : u64 (u64 x) = u64 x.
Proof. unfold u64. by rewrite Z.mod_mod. Qed.

Lemma collect_processors (ps : list Processor) :
  ∀ g : Statistics,
    let g' := foldl (λ g p,
                 Statistics_incrementWriteInstructions (Processor_writeInstructions p)
                   (Statistics_incrementReadInstructions (Processor_readInstructions p)
                      (Statistics_incrementTotalInstructions
                         (Processor_totalInstructions p) g))) g ps in
    u64 (Statistics_totalInstructions g') =
      u64 (Statistics_totalInstructions g +
           foldr (λ p acc, Processor_totalInstructions p + Processor_readInstructions p
                           + Processor_writeInstructions p + acc) 0 ps) ∧
    u64 (Statistics_readInstructions g') =
      u64 (Statistics_readInstructions g +
           foldr (λ p acc, Processor_readInstructions p + acc) 0 ps) ∧
    u64 (Statistics_writeInstructions g') =
      u64 (Statistics_writeInstructions g +
           foldr (λ p acc, Processor_writeInstructions p + acc) 0 ps).
Proof.
  induction ps as [|p ps IH]; intros g; simpl.
  - rewrite !Z.add_0_r. done.
  - match goal with |- context [foldl _ ?g1 ps] => specialize (IH g1) end.
    simpl in IH. destruct IH as (Ht & Hr & Hw).
    destruct g as [a m rm wm ev wb ti ri wi br bx bu bf inv bt]. simpl in *.
    rewrite Ht, Hr, Hw.
    repeat (rewrite <- ?Z.add_assoc; rewrite u64_add_l).
    split; [f_equal; lia|]. split; [f_equal; lia|]. f_equal; lia.
Qed.

Lemma collect_processors_range (ps : list Processor) :
  ps ≠ [] →
  ∀ g : Statistics,
    let g' := foldl (λ g p,
                 Statistics_incrementWriteInstructions (Processor_writeInstructions p)
                   (Statistics_incrementReadInstructions (Processor_readInstructions p)
                      (Statistics_incrementTotalInstructions
                         (Processor_totalInstructions p) g))) g ps in
    Statistics_totalInstructions g' = u64 (Statistics_totalInstructions g') ∧
    Statistics_readInstructions g' = u64 (Statistics_readInstructions g') ∧
    Statistics_writeInstructions g' = u64 (Statistics_writeInstructions g').
Proof.
  induction ps as [|p ps IH]; [done|]. intros _ g.
  destruct ps as [|q ps].
  - destruct g. simpl. by rewrite !u64_idem.
  - apply (IH ltac:(done)).
Qed.

Lemma collect_rest_instructions (sim : Simulator) (g1 : Statistics) :
  let g2 :=
    foldl (λ g c,
             let s := Cache_stats c in
             Statistics_incrementBusTraffic (Statistics_busTraffic s)
               (Statistics_incrementInvalidations (Statistics_invalidations s)
                  (Statistics_incrementWritebacks (Statistics_writebacks s)
                     (Statistics_incrementEvictions (Statistics_evictions s)
                        (Statistics_incrementMisses (Statistics_misses s)
                           (Statistics_incrementAccesses (Statistics_accesses s) g))))))
          g1 (System_caches (Simulator_system sim)) in
  let b := Bus_stats (System_bus (Simulator_system sim)) in
  let g3 :=
    Statistics_incrementInvalidations (Statistics_invalidations b)
      (Statistics_incrementBusTraffic (Statistics_busTraffic b)
         (Statistics_incrementBusFlushes (Statistics_busFlushes b)
            (Statistics_incrementBusUpgrades (Statistics_busUpgrades b)
               (Statistics_incrementBusReadXs (Statistics_busReadXs b)
                  (Statistics_incrementBusReads (Statistics_busReads b) g2))))) in
  Statistics_totalInstructions g3 = Statistics_totalInstructions g1 ∧
  Statistics_readInstructions g3 = Statistics_readInstructions g1 ∧
  Statistics_writeInstructions g3 = Statistics_writeInstructions g1.
Proof.
  intros g2 b g3.
  assert (Hg2 : Statistics_totalInstructions g2 = Statistics_totalInstructions g1 ∧
                Statistics_readInstructions g2 = Statistics_readInstructions g1 ∧
                Statistics_writeInstructions g2 = Statistics_writeInstructions g1).
  { unfold g2. generalize (System_caches (Simulator_system sim)) g1. clear.
    induction l as [|c l IH]; intros g; simpl; [done|].
    match goal with |- context [foldl _ ?g1 l] => destruct (IH g1) as (-> & -> & ->) end.
    by destruct g. }
  destruct Hg2 as (<- & <- & <-). unfold g3. by destruct g2.
Qed.

(** X10.  [collectStatistics] counts every executed instruction twice in
    the global [totalInstructions]: it adds each processor's total and then
    its reads and its writes, whose increments add to the total again.  The
    global read and write counts are the sums over the processors. *)
Theorem Simulator_collectStatistics_instructions (fs : FileSystem)
    (tracePrefix : string) (s E b : Z) (numCores numCycles : nat)
    (sim0 sim : Simulator) :
  0 ≤ s → 0 < E → 0 ≤ b → s + b < 32 →
  Simulator_new fs tracePrefix s E b numCores = Ok sim0 →
  Simulator_runCycles numCycles (Simulator_initialize sim0) = Ok sim →
  let g := Simulator_collectStatistics sim in
  Statistics_totalInstructions g =
    u64 (2 * sum_processors Processor_totalInstructions sim) ∧
  Statistics_readInstructions g =
    u64 (sum_processors Processor_readInstructions sim) ∧
  Statistics_writeInstructions g =
    u64 (sum_processors Processor_writeInstructions sim).
Proof.
  intros _ _ _ _ Hnew Hrun g.
  pose proof (Simulator_initial_inv (λ _, True) _ _ _ _ _ _ _ I Hnew) as Hinit.
  pose proof (Simulator_runCycles_inv _ stats_stable_True _ _ _ Hrun Hinit) as Hinv.
  pose proof (inv_counters _ _ Hinv) as Hcnt.
  unfold g, Simulator_collectStatistics.
  match goal with
  | |- context [foldl ?f ?g1 (System_caches _)] =>
      destruct (collect_rest_instructions sim g1) as (Ht & Hr & Hw)
  end.
  cbv zeta in Ht, Hr, Hw. rewrite Ht, Hr, Hw. clear Ht Hr Hw.
  destruct (collect_processors (Simulator_processors sim) Statistics_reset)
    as (Ht & Hr & Hw).
  pose proof (collect_processors_range (Simulator_processors sim)) as Hrange.
  cbv zeta in Ht, Hr, Hw, Hrange. simpl in Ht, Hr, Hw.
  unfold sum_processors.
  assert (Hsum : foldr (λ p acc, Processor_totalInstructions p
                                 + Processor_readInstructions p
                                 + Processor_writeInstructions p + acc) 0
                       (Simulator_processors sim)
                 = 2 * foldr (λ p acc, Processor_totalInstructions p + acc) 0
                         (Simulator_processors sim)).
  { clear -Hcnt. induction (Simulator_processors sim) as [|p ps IH]; simpl; [done|].
    rewrite IH by (intros i q Hq; exact (Hcnt (S i) q Hq)).
    destruct (Hcnt 0%nat p eq_refl) as (H1 & _). lia. }
  rewrite Hsum in Ht.
  destruct (Simulator_processors sim) as [|p ps] eqn:Hps; [done|].
  destruct (Hrange ltac:(done) Statistics_reset) as (Ht' & Hr' & Hw').
  rewrite Ht', Hr', Hw'. done.
Qed.

Lemma Simulator_collectStatistics_instructions_witness :
  ∃ sim0 sim,
    Simulator_new
      (trace_fs [["R 0x0"; "W 0x0"; "R 0x40"; "R 0x80"];
                 ["R 0x0"; "R 0x0"; "W 0x40"];
                 ["W 0x0"; "R 0x80"]]) "app" 1 2 5 4 = Ok sim0 ∧
    Simulator_runCycles 5 (Simulator_initialize sim0) = Ok sim ∧
    sum_processors Processor_totalInstructions sim = 9 ∧
    Statistics_totalInstructions (Simulator_collectStatistics sim) = 18 ∧
    (let g := Simulator_collectStatistics sim in
     Statistics_totalInstructions g =
       u64 (2 * sum_processors Processor_totalInstructions sim) ∧
     Statistics_readInstructions g =
       u64 (sum_processors Processor_readInstructions sim) ∧
     Statistics_writeInstructions g =
       u64 (sum_processors Processor_writeInstructions sim)).
Proof.
  eexists _, _. split; [vm_compute; reflexivity|].
  split; [vm_compute; reflexivity|].
  split; [vm_compute; reflexivity|].
  split; [vm_compute; reflexivity|].
  eapply (Simulator_collectStatistics_instructions
            (trace_fs [["R 0x0"; "W 0x0"; "R 0x40"; "R 0x80"];
                       ["R 0x0"; "R 0x0"; "W 0x40"];
                       ["W 0x0"; "R 0x80"]]) "app" 1 2 5 4 5);
    [lia|lia|lia|lia|vm_compute; reflexivity|vm_compute; reflexivity].
Defined.

(** ** MESI transitions seen from the addresses *)

Lemma Cache_getCacheLineState_block (s b : Z) (k : nat) (c : Cache) (address : Z) :
  Cache_ok s b k c →
  Cache_getCacheLineState address c =
  block_state c (address_set s b address) (address_tag s b address).
Proof.
  intros Hok. rewrite block_state_getCacheLineState.
  by destruct (Cache_ok_address s b k c address Hok) as [-> ->].
Qed.



(** ** Hits *)

Lemma Cache_read_hit_spec (s b : Z) (sys : System) (me : nat) (self : Cache)
    (address cycles : Z) :
  0 ≤ s → 0 ≤ b →
  System_ok s b sys → System_caches sys !! me = Some self →
  Cache_isBlocked self = false →
  block_state self (address_set s b address) (address_tag s b address) ≠ INVALID →
  ∃ self',
    Cache_read me address cycles sys =
      (mkSystem (<[me := self']> (System_caches sys)) (System_bus sys), true, 1) ∧
    System_ok s b (mkSystem (<[me := self']> (System_caches sys)) (System_bus sys)) ∧
    Cache_ok s b me self' ∧ Cache_isBlocked self' = false ∧
    (∀ n tag, block_state self' n tag = block_state self n tag) ∧
    Cache_stats self' =
      Statistics_incrementReads 1 (Statistics_incrementAccesses 1 (Cache_stats self)).
Proof.
  intros Hs Hb Hsys Hself Hbl Hhit.
  pose proof (sys_caches_ok _ _ _ Hsys me self Hself) as Hokself.
  unfold Cache_read. rewrite Hself, Hbl.
  set (c1 := Cache_updStats _ self).
  assert (Hok1 : Cache_ok s b me c1) by (by apply Cache_ok_updStats).
  destruct (Cache_lookupAndUpdate_spec s b me c1 address false Hs Hb Hok1)
    as (c2 & Hlook & Hok2 & Hbl2 & _ & Hst2 & Hbs2 & _).
  rewrite Hlook, bool_decide_eq_true_2 by exact Hhit.
  exists c2. split; [done|]. split.
  { eapply System_ok_replace; try done.
    + by rewrite (ok_coreId _ _ _ _ Hok2), (ok_coreId _ _ _ _ Hokself).
    + by rewrite (ok_setIndexBits _ _ _ _ Hok2), (ok_setIndexBits _ _ _ _ Hokself).
    + by rewrite (ok_blockOffsetBits _ _ _ _ Hok2), (ok_blockOffsetBits _ _ _ _ Hokself). }
  split; [done|]. split; [by rewrite Hbl2|]. split; [exact Hbs2|]. by rewrite Hst2.
Qed.



(** X13.  Single writer: after a write by an unblocked cache of a
    coherent store (hit or miss) the writer holds the block MODIFIED and no
    other cache holds it in any valid state. *)
Theorem Cache_write_single_writer (s b : Z) (sys : System) (me : nat)
    (self : Cache) (address cycles : Z) :
  0 ≤ s → 0 ≤ b → s + b < 32 →
  System_ok s b sys → System_caches sys !! me = Some self →
  Cache_isBlocking self = false → address_ok address →
  ∃ sys' cycles',
    Cache_write me address cycles sys = (sys', true, cycles') ∧
    length (System_caches sys') = length (System_caches sys) ∧
    ∀ k c, System_caches sys' !! k = Some c →
           Cache_getCacheLineState address c =
             if decide (k = me) then MODIFIED else INVALID.
Proof.
  intros Hs Hb Hsb Hsys Hself Hbl Haddr.
  assert (Hspec : ∃ sys' self' cycles',
            Cache_write me address cycles sys = (sys', true, cycles') ∧
            System_ok s b sys' ∧ System_caches sys' !! me = Some self' ∧
            block_state self' (address_set s b address) (address_tag s b address)
              = MODIFIED).
  { destruct (decide (block_state self (address_set s b address)
                        (address_tag s b address) = INVALID)) as [Hmiss|Hhit].
    - destruct (Cache_write_miss_spec s b sys me self address cycles Hs Hb Hsb Hsys
                  Hself Hbl Haddr Hmiss) as (sys' & self' & Heq & Hok & Hs' & _ & Hm).
      by eexists sys', self', _.
    - destruct (Cache_write_hit_spec s b sys me self address cycles Hs Hb Hsb Hsys
                  Hself Hbl Haddr Hhit)
        as (sys' & self' & bc & Heq & Hok & Hs' & _ & Hm & _).
      by eexists sys', self', _. }
  destruct Hspec as (sys' & self' & cycles' & Heq & Hok' & Hself' & Hm).
  exists sys', cycles'. split; [done|]. split.
  - destruct (Cache_write_frame _ stats_stable_True me address cycles sys)
      as [[Hlen _] _]. by rewrite Heq in Hlen.
  - intros k c Hc.
    rewrite (Cache_getCacheLineState_block s b k c)
      by exact (sys_caches_ok _ _ _ Hok' k c Hc).
    destruct (decide (k = me)) as [->|Hne].
    + by assert (c = self') as -> by congruence.
    + apply (sys_exclusive _ _ _ Hok' me k self' c); auto.
Qed.

(** The instance: core 1 writes a block that cores 0 and 2 share. *)
Lemma Cache_write_single_writer_witness :
  let sys := run_accesses [(0%nat, READ, 64); (2%nat, READ, 64)]
               (fresh_system 1 2 5 4) in
  ∃ sys' cycles',
    Cache_write 1 64 0 sys = (sys', true, cycles') ∧
    length (System_caches sys') = length (System_caches sys) ∧
    ∀ k c, System_caches sys' !! k = Some c →
           Cache_getCacheLineState 64 c =
             if decide (k = 1%nat) then MODIFIED else INVALID.
Proof.
  intros sys.
  assert (Hsys : System_ok 1 5 sys).
  { apply run_accesses_ok; [lia|lia|lia| |apply fresh_system_ok; lia].
    apply Forall_cons; split; [by vm_compute|].
    apply Forall_cons; split; [by vm_compute|]. apply Forall_nil_2. }
  assert (Hself : ∃ self, System_caches sys !! 1%nat = Some self ∧
                          Cache_isBlocking self = false).
  { eexists. vm_compute. split; reflexivity. }
  destruct Hself as (self & Hself & Hbl).
  apply (Cache_write_single_writer 1 5 sys 1 self 64 0);
    [lia|lia|lia|exact Hsys|exact Hself|exact Hbl|split; [lia|reflexivity]].
Defined.

(** X14.  Once a read has been served, hit or miss, the block is resident:
    [isHit] holds for its address, and the next read of that address by
    the same cache is a hit that takes 1 cycle and leaves the bus and all
    other caches alone. *)
Theorem Cache_read_then_hit (s b : Z) (sys : System) (me : nat)
    (self : Cache) (address cycles cycles2 : Z) :
  0 ≤ s → 0 ≤ b → s + b < 32 →
  System_ok s b sys → System_caches sys !! me = Some self →
  Cache_isBlocking self = false → address_ok address →
  ∃ sys1 cycles1 self1 self2,
    Cache_read me address cycles sys = (sys1, true, cycles1) ∧
    System_caches sys1 !! me = Some self1 ∧
    Cache_isHit address self1 = true ∧
    Cache_read me address cycles2 sys1 =
      (mkSystem (<[me := self2]> (System_caches sys1)) (System_bus sys1), true, 1).
Proof.
  intros Hs Hb Hsb Hsys Hself Hbl Haddr.
  assert (Hfirst : ∃ sys1 cycles1 self1,
            Cache_read me address cycles sys = (sys1, true, cycles1) ∧
            System_ok s b sys1 ∧ System_caches sys1 !! me = Some self1 ∧
            Cache_isBlocked self1 = false ∧
            block_state self1 (address_set s b address) (address_tag s b address)
              ≠ INVALID).
  { destruct (decide (block_state self (address_set s b address)
                        (address_tag s b address) = INVALID)) as [Hmiss|Hhit].
    - destruct (Cache_read_miss_spec s b sys me self address cycles Hs Hb Hsb Hsys
                  Hself Hbl Haddr Hmiss)
        as (sys1 & self1 & dp & Heq & Hok & Hs1 & Hbl1 & Hst & _).
      eexists sys1, _, self1. split; [done|]. split; [done|]. split; [done|].
      split; [done|]. rewrite Hst. by destruct dp.
    - destruct (Cache_read_hit_spec s b sys me self address cycles Hs Hb Hsys
                  Hself Hbl Hhit) as (self1 & Heq & Hok & _ & Hbl1 & Hbs & _).
      eexists _, _, self1. split; [done|]. split; [done|]. simpl.
      rewrite list_lookup_insert_eq by (by eapply lookup_lt_Some).
      split; [done|]. split; [done|]. by rewrite Hbs. }
  destruct Hfirst as (sys1 & cycles1 & self1 & Heq & Hok1 & Hself1 & Hbl1 & Hvalid).
  destruct (Cache_read_hit_spec s b sys1 me self1 address cycles2 Hs Hb Hok1
              Hself1 Hbl1 Hvalid) as (self2 & Heq2 & _).
  exists sys1, cycles1, self1, self2. split; [done|]. split; [done|].
  split; [|done].
  unfold Cache_isHit, Cache_getLineIndex. apply bool_decide_eq_true_2.
  pose proof (sys_caches_ok _ _ _ Hok1 me self1 Hself1) as Hokself1.
  rewrite <- (Cache_getCacheLineState_block s b me self1) in Hvalid by done.
  unfold Cache_getCacheLineState in Hvalid.
  destruct (CacheSet_findLine _ _); [by eexists|done].
Qed.

(** The instance: core 0 reads 0x80 on the fresh machine, twice. *)
Lemma Cache_read_then_hit_witness :
  ∃ sys1 cycles1 self1 self2,
    Cache_read 0 128 0 (fresh_system 1 2 5 4) = (sys1, true, cycles1) ∧
    System_caches sys1 !! 0%nat = Some self1 ∧
    Cache_isHit 128 self1 = true ∧
    Cache_read 0 128 0 sys1 =
      (mkSystem (<[0%nat := self2]> (System_caches sys1)) (System_bus sys1), true, 1).
Proof.
  apply (Cache_read_then_hit 1 5 (fresh_system 1 2 5 4) 0 (Cache_new 0 1 2 5) 128 0 0);
    [lia|lia|lia|apply fresh_system_ok; lia|reflexivity|reflexivity|
     split; [lia|reflexivity]].
Defined.

(** X15.  A write that hits a SHARED line issues one BusUpgr: the call is
    accepted and adds the 100 cycles of the transaction to [cycles] (no
    cache provides data for an upgrade of a shared block), the bus counts
    one more upgrade and no data traffic, and the writer counts no miss. *)
Theorem Cache_write_hit_shared (s b : Z) (sys : System) (me : nat)
    (self : Cache) (address cycles : Z) :
  0 ≤ s → 0 ≤ b → s + b < 32 →
  System_ok s b sys → System_caches sys !! me = Some self →
  Cache_isBlocking self = false → address_ok address →
  Cache_getCacheLineState address self = SHARED →
  ∃ sys' self',
    Cache_write me address cycles sys = (sys', true, cycles + 100) ∧
    Bus_stats (System_bus sys') =
      Statistics_incrementBusUpgrades 1 (Bus_stats (System_bus sys)) ∧
    Bus_currentCycles (System_bus sys') = 100 ∧
    System_caches sys' !! me = Some self' ∧
    Cache_getCacheLineState address self' = MODIFIED ∧
    Statistics_misses (Cache_stats self') = Statistics_misses (Cache_stats self).
Proof.
  intros Hs Hb Hsb Hsys Hself Hbl Haddr Hshared.
  pose proof (sys_caches_ok _ _ _ Hsys me self Hself) as Hokself.
  rewrite (Cache_getCacheLineState_block s b me self) in Hshared by done.
  set (n0 := address_set s b address) in *.
  set (t0 := address_tag s b address) in *.
  unfold Cache_write. unfold Cache_isBlocking in Hbl. rewrite Hself, Hbl.
  set (c1 := Cache_updStats _ self).
  assert (Hok1 : Cache_ok s b me c1) by (by apply Cache_ok_updStats).
  destruct (Cache_lookupAndUpdate_spec s b me c1 address true Hs Hb Hok1)
    as (c2 & Hlook & Hok2 & Hbl2 & _ & Hstats2 & Hbs2 & _).
  fold n0 t0 in Hlook.
  assert (Hbs1 : block_state c1 n0 t0 = SHARED) by exact Hshared.
  rewrite Hlook, bool_decide_eq_true_2 by (by rewrite Hbs1). cbv zeta.
  set (sys1 := mkSystem (<[me := c2]> (System_caches sys)) (System_bus sys)).
  assert (Hsys1 : System_ok s b sys1).
  { eapply System_ok_replace; try done.
    + by rewrite (ok_coreId _ _ _ _ Hok2), (ok_coreId _ _ _ _ Hokself).
    + by rewrite (ok_setIndexBits _ _ _ _ Hok2), (ok_setIndexBits _ _ _ _ Hokself).
    + by rewrite (ok_blockOffsetBits _ _ _ _ Hok2), (ok_blockOffsetBits _ _ _ _ Hokself). }
  assert (Hc2 : System_caches sys1 !! me = Some c2).
  { simpl. apply list_lookup_insert_eq. by eapply lookup_lt_Some. }
  destruct (Cache_ok_address s b me c2 address Hok2) as [Htag Hset].
  assert (Hst2 : set_state t0 (Cache_getSet c2 (Cache_getSetIndex c2 address)) = SHARED).
  { rewrite <- Hbs1, <- Hbs2. unfold block_state, Cache_getSet. by rewrite Hset. }
  unfold set_state in Hst2. rewrite Htag. fold t0.
  destruct (CacheSet_findLine t0 (Cache_getSet c2 (Cache_getSetIndex c2 address)))
    as [li|] eqn:Hfind; [|done].
  assert (Hstate : from_option CacheLine_getState INVALID
                     (CacheSet_getLine li (Cache_getSet c2 (Cache_getSetIndex c2 address)))
                   = SHARED).
  { rewrite <- Hst2. by destruct (CacheSet_getLine _ _). }
  rewrite Hstate.
  destruct (Bus_busOperation_spec s b BusUpgr address me false 0 sys1
              (sys_caches_ok _ _ _ Hsys1))
    as (sys2 & dp & bc & Hbus & Hrel & Hdp & _ & _ & Hcur & Hmem & Hstats & Hsrc);
    [by destruct Hsys1|].
  rewrite (ok_coreId _ _ _ _ Hokself), Hbus.
  assert (dp = false) as ->.
  { destruct dp; [|done]. exfalso.
    destruct Hdp as [Hdp _]. destruct (Hdp eq_refl) as (k & c & Hc & Hk & Hprov).
    simpl in Hc. rewrite list_lookup_insert_ne in Hc by done.
    fold n0 t0 in Hprov.
    assert (Hme : block_state self n0 t0 = INVALID).
    { apply (sys_exclusive _ _ _ Hsys k me c self n0 t0); [done|done|done|].
      destruct (block_state c n0 t0); simpl in Hprov; auto; done. }
    congruence. }
  rewrite (Hmem eq_refl) in *. simpl in Hstats.
  eexists _, _. split; [reflexivity|]. simpl.
  split; [done|]. split; [done|].
  rewrite list_lookup_alter_eq, (Hsrc c2 Hc2). simpl. split; [reflexivity|].
  destruct (Cache_setLineState_spec s b me c2 _ _ _ MODIFIED Hok2 Hfind)
    as [Hok' Hbs'].
  split.
  - rewrite (Cache_getCacheLineState_block s b me) by done.
    fold n0 t0. rewrite Hbs', Hset. by rewrite decide_True.
  - simpl. rewrite Hstats2. unfold c1. simpl. by destruct (Cache_stats self).
Qed.

(** The instance: cores 0 and 1 have read 0x0; core 0 writes it. *)
Lemma Cache_write_hit_shared_witness :
  let sys := run_accesses [(0%nat, READ, 0); (1%nat, READ, 0)]
               (fresh_system 1 2 5 4) in
  ∃ self sys' self',
    System_caches sys !! 0%nat = Some self ∧
    Cache_write 0 0 0 sys = (sys', true, 0 + 100) ∧
    Bus_stats (System_bus sys') =
      Statistics_incrementBusUpgrades 1 (Bus_stats (System_bus sys)) ∧
    Bus_currentCycles (System_bus sys') = 100 ∧
    System_caches sys' !! 0%nat = Some self' ∧
    Cache_getCacheLineState 0 self' = MODIFIED ∧
    Statistics_misses (Cache_stats self') = Statistics_misses (Cache_stats self).
Proof.
  intros sys.
  assert (Hsys : System_ok 1 5 sys).
  { apply run_accesses_ok; [lia|lia|lia| |apply fresh_system_ok; lia].
    apply Forall_cons; split; [by vm_compute|].
    apply Forall_cons; split; [by vm_compute|]. apply Forall_nil_2. }
  assert (Hself : ∃ self, System_caches sys !! 0%nat = Some self ∧
                          Cache_isBlocking self = false ∧
                          Cache_getCacheLineState 0 self = SHARED).
  { eexists. split; [vm_compute; reflexivity|]. vm_compute. split; reflexivity. }
  destruct Hself as (self & Hself & Hbl & Hsh).
  destruct (Cache_write_hit_shared 1 5 sys 0 self 0 0 ltac:(lia) ltac:(lia)
              ltac:(lia) Hsys Hself Hbl ltac:(split; [lia|reflexivity]) Hsh)
    as (sys' & self' & H).
  exists self, sys', self'. split; [exact Hself|exact H].
Defined.

(** ** From the trace generator to the processor *)

Lemma hex_char_spec (d : Z) :
  0 ≤ d < 16 →
  digit_value (hex_char d) = Some d ∧ isspace (hex_char d) = false ∧
  Ascii.eqb (hex_char d) newline = false.
Proof.
  intros Hd.
  assert (Hcases : d = 0 ∨ d = 1 ∨ d = 2 ∨ d = 3 ∨ d = 4 ∨ d = 5 ∨ d = 6 ∨ d = 7 ∨
                   d = 8 ∨ d = 9 ∨ d = 10 ∨ d = 11 ∨ d = 12 ∨ d = 13 ∨ d = 14 ∨
                   d = 15) by lia.
  repeat (destruct Hcases as [->|Hcases]; [by vm_compute|]).
  subst. by vm_compute.
Qed.

Lemma hex_digits_chars (fuel : nat) :
  ∀ n acc, 0 ≤ n → string_forall is_hex_char acc →
           string_forall is_hex_char (hex_digits fuel n acc) ∧
           (String.length acc ≤ String.length (hex_digits fuel n acc))%nat.
Proof.
  induction fuel as [|fuel IH]; intros n acc Hn Hacc; simpl; [done|].
  destruct (Z.eqb_spec n 0) as [->|Hnz]; [done|].
  destruct (IH (n / 16) (String (hex_char (n mod 16)) acc)) as [Hall Hlen].
  - apply Z.div_pos; lia.
  - split; [|done]. exists (n mod 16). split; [|done].
    apply Z.mod_pos_bound. lia.
  - split; [done|]. simpl in Hlen. lia.
Qed.

Lemma hex_digits_nonempty (fuel : nat) (n : Z) (acc : string) :
  n ≠ 0 → 0 ≤ n →
  (String.length acc < String.length (hex_digits (S fuel) n acc))%nat.
Proof.
  intros Hnz Hn.
  change (hex_digits (S fuel) n acc)
    with (if n =? 0 then acc
          else hex_digits fuel (n / 16) (String (hex_char (n mod 16)) acc)).
  destruct (Z.eqb_spec n 0); [done|].
  pose proof (hex_digits_chars fuel (n / 16)
                (String (hex_char (n mod 16)) acc) ltac:(apply Z.div_pos; lia))
    as Hlen.
  assert (Hlen' : (String.length (String (hex_char (n mod 16)) acc) ≤
                   String.length (hex_digits fuel (n / 16)
                                    (String (hex_char (n mod 16)) acc)))%nat).
  { clear Hlen. generalize (String (hex_char (n mod 16)) acc) (n / 16).
    induction fuel as [|f IH]; intros s0 m; simpl; [done|].
    destruct (m =? 0); [done|]. etrans; [|apply IH]. simpl. lia. }
  simpl in Hlen'. lia.
Qed.

Lemma hex_digits_read (fuel : nat) :
  ∀ n acc a, 0 ≤ n < 16 ^ Z.of_nat fuel →
    ∃ k, 0 ≤ k ∧
         read_digits 16 (hex_digits fuel n acc) a =
         read_digits 16 acc
           (if n =? 0 then a else Some (default 0 a * 16 ^ k + n)).
Proof.
  induction fuel as [|fuel IH]; intros n acc a Hn.
  - simpl in *. assert (n = 0) as -> by lia. by exists 0.
  - simpl hex_digits. destruct (Z.eqb_spec n 0) as [->|Hnz]; [by exists 0|].
    assert (Hdiv : 0 ≤ n / 16 < 16 ^ Z.of_nat fuel).
    { split; [apply Z.div_pos; lia|]. apply Z.div_lt_upper_bound; [lia|].
      rewrite Nat2Z.inj_succ, Z.pow_succ_r in Hn by lia. lia. }
    destruct (IH (n / 16) (String (hex_char (n mod 16)) acc) a Hdiv) as (k & Hk & Heq).
    rewrite Heq. simpl read_digits.
    assert (Hmod : 0 ≤ n mod 16 < 16) by (apply Z.mod_pos_bound; lia).
    destruct (hex_char_spec (n mod 16) Hmod) as (-> & _ & _).
    destruct (Z.ltb_spec (n mod 16) 16) as [_|?]; [|lia].
    pose proof (Z.div_mod n 16 ltac:(lia)) as Hdm.
    destruct (Z.eqb_spec (n / 16) 0) as [Hz|Hz].
    + exists 1. split; [lia|]. do 2 f_equal. rewrite Z.pow_1_r. lia.
    + exists (k + 1). split; [lia|]. do 2 f_equal. simpl.
      rewrite Z.pow_add_r, Z.pow_1_r by lia. lia.
Qed.

Lemma to_hex_spec (n : Z) :
  0 ≤ n < 2 ^ 64 →
  ∃ h r, to_hex n = String h r ∧ string_forall is_hex_char (String h r) ∧
         read_digits 16 (String h r) None = Some n.
Proof.
  intros Hn. unfold to_hex. destruct (Z.eqb_spec n 0) as [->|Hnz].
  { exists "0"%char, EmptyString. split; [done|]. split; [|done].
    split; [|done]. by exists 0. }
  assert (H16 : 0 ≤ n < 16 ^ Z.of_nat 16) by (change (16 ^ Z.of_nat 16) with (2 ^ 64); lia).
  destruct (hex_digits_read 16 n EmptyString None H16) as (k & Hk & Hread).
  destruct (hex_digits_chars 16 n EmptyString ltac:(lia) I) as [Hall _].
  destruct (hex_digits 16 n EmptyString) as [|h r] eqn:Hd.
  { exfalso. pose proof (hex_digits_nonempty 15 n EmptyString Hnz ltac:(lia)) as Hlen.
    rewrite Hd in Hlen. simpl in Hlen. lia. }
  exists h, r. split; [done|]. split; [done|].
  rewrite Hread. simpl. destruct (Z.eqb_spec n 0); [done|]. simpl. f_equal; lia.
Qed.

Lemma read_line_append (l rest : string) :
  string_forall (λ c, Ascii.eqb c newline = false) l →
  read_line (l +:+ String newline rest) = (l, Some rest).
Proof.
  induction l as [|c l IH]; intros Hl; simpl.
  - by rewrite ?Ascii.eqb_refl.
  - destruct Hl as [-> Hl]. by rewrite (IH Hl).
Qed.

Lemma read_token_all (t : string) :
  string_forall (λ c, isspace c = false) t → read_token t = (t, EmptyString).
Proof.
  induction t as [|c t IH]; intros Ht; simpl; [done|].
  destruct Ht as [-> Ht]. by rewrite (IH Ht).
Qed.

Lemma string_forall_impl (P Q : ascii → Prop) (s : string) :
  (∀ c, P c → Q c) → string_forall P s → string_forall Q s.
Proof.
  intros HPQ. induction s as [|c s IH]; simpl; [done|].
  intros [Hc Hs]. split; [by apply HPQ|by apply IH].
Qed.

Lemma string_app_cons (x : ascii) (a b : string) :
  String x a +:+ b = String x (a +:+ b).
Proof. reflexivity. Qed.

Lemma string_app_assoc (a b c : string) : (a +:+ b) +:+ c = a +:+ (b +:+ c).
Proof.
  induction a as [|x a IH]; [done|]. by rewrite !string_app_cons, IH.
Qed.

Lemma getline_line (f : ifstream) (line rest : string) :
  read_line (ifstream_buffer f) = (line, Some rest) →
  getline f = (Some line, mkIfstream (ifstream_is_open f) rest (ifstream_eof f)).
Proof.
  unfold getline. destruct (ifstream_buffer f) as [|x y]; [done|]. by intros ->.
Qed.

(** The text that [traceAccess] writes is one line that
    [loadNextReference] parses back. *)
Lemma traceAccess_parse (op : ascii) (addr : Z) (rest : string) :
  0 ≤ addr < 2 ^ 64 → isspace op = false → Ascii.eqb op newline = false →
  ∃ line addressStr,
    read_line (traceAccess op addr +:+ rest) = (line, Some rest) ∧
    parse_fields line = Some (op, addressStr) ∧
    String.prefix "0x" addressStr = true ∧
    stoul addressStr 16 = Ok addr.
Proof.
  intros Haddr Hsp Hnl.
  destruct (to_hex_spec addr Haddr) as (h & r & Hhex & Hall & Hread).
  assert (Hchars : ∀ c, is_hex_char c →
            isspace c = false ∧ Ascii.eqb c newline = false ∧
            ∃ d, digit_value c = Some d ∧ d < 16).
  { intros c (d & Hd & ->). destruct (hex_char_spec d Hd) as (? & ? & ?).
    split; [done|]. split; [done|]. exists d. split; [done|lia]. }
  exists (String op (" 0x" +:+ String h r)), ("0x" +:+ String h r).
  split; [|split; [|split]].
  - unfold traceAccess. rewrite Hhex.
    change (String op (" 0x" +:+ String h r +:+ String newline "") +:+ rest)
      with (String op ((" 0x" +:+ String h r +:+ String newline "") +:+ rest)).
    rewrite string_app_assoc.
    change (String op (" 0x" +:+ String h r) ) with (String op (" 0x" +:+ String h r)).
    replace ((String h r +:+ String newline "") +:+ rest)
      with (String h r +:+ String newline rest)
      by (rewrite string_app_assoc; done).
    change (String op (" 0x" +:+ (String h r +:+ String newline rest)))
      with (String op (" 0x" +:+ String h r) +:+ String newline rest).
    apply read_line_append. do 4 (split; [done|]).
    refine (string_forall_impl _ _ (String h r) _ Hall).
    intros c Hc. by apply Hchars.
  - unfold parse_fields. simpl skip_ws at 1. rewrite Hsp.
    change (skip_ws (" 0x" +:+ String h r)) with ("0x" +:+ String h r).
    rewrite read_token_all; [done|].
    do 2 (split; [done|]).
    refine (string_forall_impl _ _ (String h r) _ Hall).
    intros c Hc. by apply Hchars.
  - done.
  - unfold stoul. destruct Hall as [Hh _].
    destruct (Hchars h Hh) as (_ & _ & d & Hd & Hlt).
    change (skip_ws ("0x" +:+ String h r)) with ("0x" +:+ String h r).
    simpl. unfold is_hex_digit. rewrite Hd.
    destruct (Z.ltb_spec d 16) as [_|?]; [|lia]. simpl.
    change (match digit_value h with
            | Some d0 => if d0 <? 16
                         then read_digits 16 r (Some (0 * 16 + d0)) else None
            | None => None
            end) with (read_digits 16 (String h r) None).
    rewrite Hread. destruct (Z.leb_spec (2 ^ 64) addr) as [?|_]; [lia|done].
Qed.

(** X16.  Round trip between the trace generator and the simulator: the
    line that [traceAccess] writes for a read or a write of a 64-bit address
    is read back by [loadNextReference] as one reference with that operation
    and the low 32 bits of the address; nothing is printed on [std::cerr] and
    the rest of the file is left for the next call. *)
Theorem trace_line_roundtrip (op : MemoryOperation) (addr : Z) (p : Processor)
    (rest : string) :
  0 ≤ addr < 2 ^ 64 →
  ifstream_is_open (Processor_traceFile p) = true →
  ifstream_eof (Processor_traceFile p) = false →
  ifstream_buffer (Processor_traceFile p) = traceAccess (op_char op) addr +:+ rest →
  ∃ p',
    Processor_loadNextReference p = Ok (true, p') ∧
    Processor_pendingReferences p' =
      Processor_pendingReferences p ++ [mkMemoryReference op (u32 addr)] ∧
    ifstream_buffer (Processor_traceFile p') = rest ∧
    Processor_cerr p' = Processor_cerr p.
Proof.
  intros Haddr Hopen Heof Hbuf.
  destruct (traceAccess_parse (op_char op) addr rest Haddr)
    as (line & addressStr & Hline & Hparse & Hprefix & Hstoul);
    [by destruct op|by destruct op|].
  destruct p as [id c f q ti ri wi tc ic fin bl err]. simpl in *.
  unfold Processor_loadNextReference. simpl.
  rewrite Heof, Hopen. simpl.
  rewrite (getline_line f line rest) by (by rewrite Hbuf).
  simpl. rewrite Hparse, Hprefix, Hstoul.
  destruct op; simpl; by eexists.
Qed.

(** The instance: the generator records a write of 0x7ffc12345678. *)
Lemma trace_line_roundtrip_witness :
  ∃ p',
    Processor_loadNextReference
      (mkProcessor 0 None
         (mkIfstream true (traceAccess "W" 140720614299256 +:+ "R 0x10") false)
         [] 0 0 0 0 0 false false [])
    = Ok (true, p') ∧
    Processor_pendingReferences p' = [] ++ [mkMemoryReference WRITE (u32 140720614299256)] ∧
    ifstream_buffer (Processor_traceFile p') = "R 0x10" ∧
    Processor_cerr p' = [].
Proof.
  apply (trace_line_roundtrip WRITE 140720614299256
           (mkProcessor 0 None
              (mkIfstream true (traceAccess "W" 140720614299256 +:+ "R 0x10") false)
              [] 0 0 0 0 0 false false []) "R 0x10");
    [lia|reflexivity|reflexivity|reflexivity].
Defined.

(** ** TraceReader: every accepted line is delivered, in order *)

Lemma string_length_app (a b : string) :
  String.length (a +:+ b) = (String.length a + String.length b)%nat.
Proof.
  induction a as [|x a IH]; [done|]. rewrite string_app_cons. simpl. by rewrite IH.
Qed.

Lemma trace_file_length (lines : list string) :
  (length lines ≤ String.length (trace_file lines))%nat.
Proof.
  induction lines as [|l ls IH]; simpl; [lia|].
  rewrite string_length_app. simpl. lia.
Qed.

Lemma TraceReader_preload_loop_eof (fuel remaining : nat) (r : TraceReader) :
  ifstream_eof (TraceReader_traceFile r) = true →
  TraceReader_preload_loop fuel remaining r = r.
Proof. intros Heof. destruct fuel, remaining; simpl; by rewrite ?Heof. Qed.

Lemma getline_trace_file (f : ifstream) (l : string) (ls : list string) :
  is_line l →
  ifstream_buffer f = trace_file (l :: ls) →
  getline f =
    (Some l, mkIfstream (ifstream_is_open f) (trace_file ls) (ifstream_eof f)).
Proof.
  intros Hl Hbuf. apply getline_line. rewrite Hbuf. simpl.
  by apply read_line_append.
Qed.

Lemma TraceReader_preload_loop_spec (lines : list string) :
  ∀ fuel remaining r,
    Forall is_line lines →
    ifstream_buffer (TraceReader_traceFile r) = trace_file lines →
    (ifstream_eof (TraceReader_traceFile r) = true → lines = []) →
    (length lines < fuel)%nat →
    ∃ lines',
      let r' := TraceReader_preload_loop fuel remaining r in
      TraceReader_traceFilePath r' = TraceReader_traceFilePath r ∧
      TraceReader_fileOpen r' = TraceReader_fileOpen r ∧
      ifstream_buffer (TraceReader_traceFile r') = trace_file lines' ∧
      Forall is_line lines' ∧
      (ifstream_eof (TraceReader_traceFile r') = true → lines' = []) ∧
      TraceReader_referenceQueue r' ++
        parsed_references (TraceReader_traceFilePath r) lines' =
      TraceReader_referenceQueue r ++
        parsed_references (TraceReader_traceFilePath r) lines ∧
      (ifstream_eof (TraceReader_traceFile r') = true ∨
       length (TraceReader_referenceQueue r') =
       (length (TraceReader_referenceQueue r) + remaining)%nat).
Proof.
  induction lines as [|l ls IH]; intros fuel remaining r Hlines Hbuf Heof Hfuel.
  - destruct fuel as [|fuel]; [simpl in Hfuel; lia|].
    destruct remaining as [|remaining].
    { exists []. simpl. repeat split; try done. right. lia. }
    simpl.
    destruct (ifstream_eof (TraceReader_traceFile r)) eqn:He.
    { exists []. simpl. repeat split; try done. by left. }
    unfold getline. rewrite Hbuf. simpl.
    rewrite TraceReader_preload_loop_eof by done.
    exists []. simpl. repeat split; try done. by left.
  - destruct fuel as [|fuel]; [simpl in Hfuel; lia|].
    destruct remaining as [|remaining].
    { exists (l :: ls). simpl. repeat split; try done. right. lia. }
    apply Forall_cons in Hlines as [Hl Hls].
    cbn [TraceReader_preload_loop].
    destruct (ifstream_eof (TraceReader_traceFile r)) eqn:He.
    { by specialize (Heof eq_refl). }
    rewrite (getline_trace_file _ l ls Hl Hbuf).
    unfold parsed_references at 2. cbn [omap list_omap].
    fold (parsed_references (TraceReader_traceFilePath r) ls).
    destruct (TraceReader_parseLine (TraceReader_traceFilePath r) l)
      as [[reference|] msgs]; cbn [fst].
    + match goal with
      | |- context [TraceReader_preload_loop fuel remaining ?r1] =>
          destruct (IH fuel remaining r1 Hls) as (lines' & Hspec);
            [done|cbn; by rewrite He|simpl in Hfuel; lia|]
      end.
      exists lines'. cbv zeta in Hspec |- *. cbn in Hspec.
      destruct Hspec as (Hp & Ho & Hb & Hli & Hend & Hq & Hn).
      repeat split; try done.
      * rewrite Hq. by rewrite <- app_assoc.
      * destruct Hn as [Hn|Hn]; [by left|right].
        rewrite Hn, length_app. simpl. lia.
    + match goal with
      | |- context [TraceReader_preload_loop fuel (S remaining) ?r1] =>
          destruct (IH fuel (S remaining) r1 Hls) as (lines' & Hspec);
            [done|cbn; by rewrite He|simpl in Hfuel; lia|]
      end.
      exists lines'. cbv zeta in Hspec |- *. cbn in Hspec.
      destruct Hspec as (Hp & Ho & Hb & Hli & Hend & Hq & Hn).
      repeat split; done.
Qed.

Lemma TraceReader_preloadReferences_spec (count : Z) (r : TraceReader)
    (refs : list MemoryReference) :
  TraceReader_inv r refs →
  TraceReader_inv (TraceReader_preloadReferences count r) refs ∧
  (TraceReader_endOfFile (TraceReader_preloadReferences count r) = true ∨
   length (TraceReader_referenceQueue (TraceReader_preloadReferences count r)) =
   (length (TraceReader_referenceQueue r) + Z.to_nat count)%nat).
Proof.
  intros (lines & Hopen & Hbuf & Hlines & Heq & Hend & Hrefs).
  unfold TraceReader_preloadReferences. rewrite Hopen. cbn [negb].
  destruct (TraceReader_preload_loop_spec lines
              (S (String.length (ifstream_buffer (TraceReader_traceFile r))))
              (Z.to_nat count) r Hlines Hbuf) as (lines' & Hspec).
  { intros He. apply Hend. by rewrite Heq. }
  { rewrite Hbuf. pose proof (trace_file_length lines). lia. }
  cbv zeta in Hspec.
  set (r' := TraceReader_preload_loop _ _ r) in *. clearbody r'.
  destruct Hspec as (Hp & Ho & Hb & Hli & Hend' & Hq & Hn).
  split; [|done].
  exists lines'. cbn.
  split; [by rewrite Ho|]. split; [done|]. split; [done|]. split; [done|].
  split; [done|]. by rewrite Hp, Hq.
Qed.

Lemma TraceReader_new_inv (filePath : string) (lines : list string) :
  Forall is_line lines →
  TraceReader_inv (TraceReader_new filePath (Some (trace_file lines)))
    (parsed_references filePath lines).
Proof.
  intros Hlines. unfold TraceReader_new.
  cbn -[TraceReader_preloadReferences].
  apply TraceReader_preloadReferences_spec.
  exists lines. cbn. repeat split; done.
Qed.

Lemma TraceReader_getNextReference_spec (r : TraceReader)
    (refs : list MemoryReference) :
  TraceReader_inv r refs →
  (TraceReader_getNextReference r).1 = head refs ∧
  TraceReader_inv (TraceReader_getNextReference r).2 (tail refs).
Proof.
  intros Hinv. unfold TraceReader_getNextReference.
  set (r1 := if bool_decide (TraceReader_referenceQueue r = []) &&
                negb (TraceReader_endOfFile r)
             then TraceReader_preloadReferences 10 r else r).
  assert (H1 : TraceReader_inv r1 refs ∧
               (TraceReader_referenceQueue r1 = [] → refs = [])).
  { subst r1. destruct (bool_decide_reflect (TraceReader_referenceQueue r = []))
      as [Hq|Hq]; cbn [andb].
    - destruct (TraceReader_endOfFile r) eqn:He; cbn [negb].
      + split; [done|]. intros _.
        destruct Hinv as (lines & _ & _ & _ & _ & Hend & ->).
        rewrite Hq, (Hend He). done.
      + destruct (TraceReader_preloadReferences_spec 10 r refs Hinv)
          as [Hinv' Hn].
        split; [done|]. intros Hq'.
        destruct Hn as [Hn|Hn].
        * destruct Hinv' as (lines & _ & _ & _ & _ & Hend & ->).
          rewrite Hq', (Hend Hn). done.
        * rewrite Hq', Hq in Hn. simpl in Hn. lia.
    - split; [done|]. intros Hq'. done. }
  clearbody r1. destruct H1 as [Hinv1 Hempty].
  destruct (TraceReader_referenceQueue r1) as [|reference rest] eqn:Hq1.
  { rewrite (Hempty eq_refl) in *. done. }
  cbn [fst snd].
  destruct Hinv1 as (lines & Hopen & Hbuf & Hlines & Heq & Hend & ->).
  rewrite Hq1. cbn [head tail app].
  split; [done|].
  set (r2 := mkTraceReader _ _ _ _ rest _).
  assert (Hinv2 : TraceReader_inv r2
            (rest ++ parsed_references (TraceReader_traceFilePath r1) lines)).
  { exists lines. subst r2. cbn. repeat split; done. }
  clearbody r2.
  destruct ((length (TraceReader_referenceQueue r2) <? 5)%nat &&
            negb (TraceReader_endOfFile r2)); [|done].
  by apply TraceReader_preloadReferences_spec.
Qed.

Lemma TraceReader_getReferences_loop_spec (n : nat) :
  ∀ references count r refs,
    TraceReader_inv r refs →
    ∃ r', TraceReader_getReferences_loop n references count r =
            (references ++ take n refs,
             count + Z.of_nat (length (take n refs)), r') ∧
          TraceReader_inv r' (drop n refs).
Proof.
  induction n as [|n IH]; intros references count r refs Hinv.
  { exists r. simpl. rewrite app_nil_r, Z.add_0_r. by rewrite drop_0. }
  simpl TraceReader_getReferences_loop.
  destruct (TraceReader_getNextReference_spec r refs Hinv) as [Hhead Hinv'].
  destruct (TraceReader_getNextReference r) as [got r1]. cbn [fst snd] in *.
  destruct refs as [|reference refs]; simpl in Hhead; subst got.
  - exists r1. simpl. rewrite app_nil_r, Z.add_0_r. done.
  - destruct (IH (references ++ [reference]) (count + 1) r1 refs Hinv')
      as (r' & -> & Hinv'').
    exists r'. split; [|done]. simpl. rewrite <- app_assoc. simpl.
    do 2 f_equal. lia.
Qed.

(** X17. A trace reader built on a file of newline-ended lines hands out,
    through [getReferences], the references of the lines [parseLine]
    accepts, in file order and at most [maxCount] of them, appended to the
    caller's vector; the returned count is their number.  Lines that do not
    parse (comments, blank lines, unknown operations, bad addresses) are
    skipped and the lines after them are still read.  Once the reader
    reports end of file, nothing was left out. *)
Theorem TraceReader_getReferences_spec (filePath : string)
    (lines : list string) (references : list MemoryReference) (maxCount : Z) :
  Forall is_line lines →
  ∃ r',
    TraceReader_getReferences references maxCount
      (TraceReader_new filePath (Some (trace_file lines))) =
    (references ++ take (Z.to_nat maxCount) (parsed_references filePath lines),
     Z.of_nat (length (take (Z.to_nat maxCount)
                         (parsed_references filePath lines))),
     r') ∧
    (TraceReader_isEndOfFile r' = true →
     (length (parsed_references filePath lines) ≤ Z.to_nat maxCount)%nat).
Proof.
  intros Hlines. unfold TraceReader_getReferences.
  destruct (TraceReader_getReferences_loop_spec (Z.to_nat maxCount) references 0
              _ _ (TraceReader_new_inv filePath lines Hlines))
    as (r' & Hloop & Hinv).
  exists r'. split; [by rewrite Hloop|].
  unfold TraceReader_isEndOfFile. intros [Hend Hq]%andb_true_iff.
  apply bool_decide_eq_true in Hq.
  destruct Hinv as (rest & _ & _ & _ & _ & Hrest & Hdrop).
  rewrite Hq, (Hrest Hend) in Hdrop. simpl in Hdrop.
  apply (f_equal length) in Hdrop. rewrite length_drop in Hdrop. simpl in Hdrop.
  lia.
Qed.

Lemma TraceReader_getReferences_spec_witness :
  let lines := ["R 0x10"; "# a comment"; ""; "X 0x5"; "w 0X20"; "R zz";
                "W 32"; "R"; "  r   7f junk"] in
  parsed_references "t.trace" lines =
    [mkMemoryReference READ 16; mkMemoryReference WRITE 32;
     mkMemoryReference WRITE 32; mkMemoryReference READ 7] ∧
  ∃ r',
    TraceReader_getReferences [] 3
      (TraceReader_new "t.trace" (Some (trace_file lines))) =
    ([] ++ take (Z.to_nat 3) (parsed_references "t.trace" lines),
     Z.of_nat (length (take (Z.to_nat 3) (parsed_references "t.trace" lines))),
     r') ∧
    (TraceReader_isEndOfFile r' = true →
     (length (parsed_references "t.trace" lines) ≤ Z.to_nat 3)%nat).
Proof.
  cbv zeta. split; [vm_compute; reflexivity|].
  apply (TraceReader_getReferences_spec "t.trace").
  repeat (constructor; [vm_compute; repeat split; reflexivity|]). constructor.
Defined.

(** ** Word access to the data block of a line *)

Lemma word_bytes (value : Z) :
  0 ≤ value < 2 ^ 32 →
  Z.lor (Z.lor (Z.lor (Z.lor 0
    (u32 (Z.shiftl (Z.land (Z.shiftr value (0 * 8)) 255) (0 * 8))))
    (u32 (Z.shiftl (Z.land (Z.shiftr value (1 * 8)) 255) (1 * 8))))
    (u32 (Z.shiftl (Z.land (Z.shiftr value (2 * 8)) 255) (2 * 8))))
    (u32 (Z.shiftl (Z.land (Z.shiftr value (3 * 8)) 255) (3 * 8))) = value.
Proof.
  intros Hv.
  assert (Hbyte : ∀ i, 0 ≤ i ≤ 3 →
            u32 (Z.shiftl (Z.land (Z.shiftr value (i * 8)) 255) (i * 8)) =
            Z.shiftl (Z.land (Z.shiftr value (i * 8)) 255) (i * 8)).
  { intros i Hi. unfold u32. apply Z.mod_small.
    change 255 with (Z.ones 8). rewrite Z.land_ones by lia.
    rewrite Z.shiftl_mul_pow2 by lia.
    pose proof (Z.mod_pos_bound (Z.shiftr value (i * 8)) (2 ^ 8) ltac:(lia)).
    assert (2 ^ (i * 8) ≤ 2 ^ 24) by (apply Z.pow_le_mono_r; lia).
    assert (0 < 2 ^ (i * 8)) by (apply Z.pow_pos_nonneg; lia).
    change (2 ^ 32) with (2 ^ 8 * 2 ^ 24). nia. }
  rewrite !Hbyte by lia.
  apply Z.bits_inj'. intros n Hn.
  rewrite !Z.lor_spec, Z.bits_0, !Z.shiftl_spec by lia.
  change 255 with (Z.ones 8). cbn [orb].
  assert (Hbit : ∀ k, Z.testbit (Z.land (Z.shiftr value k) (Z.ones 8)) (n - k) =
                      Z.testbit value n && (k <=? n) && (n <? k + 8)).
  { intros k. destruct (Z.leb_spec k n).
    - rewrite Z.land_spec, Z.shiftr_spec by lia.
      replace (n - k + k) with n by lia.
      destruct (Z.ltb_spec n (k + 8)).
      + rewrite Z.ones_spec_low by lia. by rewrite !andb_true_r.
      + rewrite Z.ones_spec_high by lia. by rewrite !andb_false_r.
    - rewrite Z.testbit_neg_r by lia. by rewrite andb_false_r. }
  rewrite !Hbit.
  destruct (Z.ltb_spec n 32) as [Hlt|Hge].
  - destruct (Z.testbit value n); [|done]. cbn [andb].
    destruct (Z.leb_spec (0 * 8) n), (Z.ltb_spec n (0 * 8 + 8)),
      (Z.leb_spec (1 * 8) n), (Z.ltb_spec n (1 * 8 + 8)),
      (Z.leb_spec (2 * 8) n), (Z.ltb_spec n (2 * 8 + 8)),
      (Z.leb_spec (3 * 8) n), (Z.ltb_spec n (3 * 8 + 8)); cbn; lia || done.
  - assert (Z.testbit value n = false) as ->; [|done].
    destruct (Z.eq_dec value 0) as [->|Hnz]; [apply Z.bits_0|].
    apply Z.bits_above_log2; [lia|].
    assert (Z.log2 value < 32) by (apply Z.log2_lt_pow2; lia). lia.
Qed.

(** X18. Writing a word into a valid line at an offset the block has room
    for, and reading it back at that offset, gives the word: the write
    succeeds, leaves the line MODIFIED with its tag, its block size and
    every byte outside the four written ones as they were, and the read
    returns the value written. *)
Theorem CacheLine_writeWord_readWord (l : CacheLineBlock) (offset value : Z) :
  CacheLineBlock_wf l →
  CacheLine_state (CacheLineBlock_line l) ≠ INVALID →
  0 ≤ offset → offset + 3 < CacheLineBlock_blockSize l →
  0 ≤ value < 2 ^ 32 →
  ∃ l',
    CacheLine_writeWord offset value l = (None, l') ∧
    CacheLine_readWord offset l' = inr value ∧
    CacheLine_state (CacheLineBlock_line l') = MODIFIED ∧
    CacheLine_tag (CacheLineBlock_line l') = CacheLine_tag (CacheLineBlock_line l) ∧
    CacheLineBlock_blockSize l' = CacheLineBlock_blockSize l ∧
    CacheLineBlock_wf l' ∧
    ∀ j, (j < Z.to_nat offset ∨ Z.to_nat offset + 4 ≤ j)%nat →
         CacheLineBlock_data l' !! j = CacheLineBlock_data l !! j.
Proof.
  intros Hwf Hvalid Ho Hroom Hv.
  destruct l as [[tag state] data blockSize]. unfold CacheLineBlock_wf in *.
  cbn [CacheLineBlock_line CacheLineBlock_data CacheLineBlock_blockSize
       CacheLine_state CacheLine_tag] in *.
  unfold CacheLine_writeWord, CacheLine_readWord.
  cbn [CacheLineBlock_line CacheLineBlock_data CacheLineBlock_blockSize
       CacheLine_state CacheLine_tag].
  assert (Hbounds : (offset <? 0) || (blockSize <=? offset + 3) = false).
  { destruct (Z.ltb_spec offset 0), (Z.leb_spec blockSize (offset + 3)); lia || done. }
  rewrite Hbounds.
  set (data' := foldl _ data [0; 1; 2; 3]).
  exists (mkCacheLineBlock (mkCacheLine tag MODIFIED) data' blockSize).
  assert (Hlen : length data' = length data).
  { subst data'. cbn [foldl]. by rewrite !length_insert. }
  assert (Hget : ∀ i, 0 ≤ i ≤ 3 →
            data' !!! Z.to_nat (offset + i) = Z.land (Z.shiftr value (i * 8)) 255).
  { intros i Hi. subst data'. cbn [foldl].
    assert (Hcases : i = 0 ∨ i = 1 ∨ i = 2 ∨ i = 3) by lia.
    apply list_lookup_total_correct.
    destruct Hcases as [-> | [-> | [-> | ->] ] ].
    - rewrite !list_lookup_insert_ne by lia.
      apply list_lookup_insert_eq. lia.
    - rewrite !list_lookup_insert_ne by lia.
      apply list_lookup_insert_eq. rewrite !length_insert. lia.
    - rewrite !list_lookup_insert_ne by lia.
      apply list_lookup_insert_eq. rewrite !length_insert. lia.
    - apply list_lookup_insert_eq. rewrite !length_insert. lia. }
  assert (Hother : ∀ j, (j < Z.to_nat offset ∨ Z.to_nat offset + 4 ≤ j)%nat →
                        data' !! j = data !! j).
  { intros j Hj. subst data'. cbn [foldl].
    rewrite !list_lookup_insert_ne by lia. done. }
  split.
  { by destruct state. }
  clearbody data'.
  split.
  { cbn [CacheLineBlock_line CacheLineBlock_data
          CacheLineBlock_blockSize CacheLine_isValid
          CacheLine_state negb].
    assert (CacheLine_isValid (mkCacheLine tag MODIFIED) = true) as -> by done.
    cbn [negb]. rewrite Hbounds. f_equal. cbn [foldl].
    rewrite !Hget by lia. by apply word_bytes. }
  cbn [CacheLineBlock_line CacheLineBlock_data CacheLineBlock_blockSize
       CacheLine_state CacheLine_tag].
  split; [done|]. split; [done|]. split; [done|].
  split; [|done].
  unfold CacheLineBlock_wf.
  cbn [CacheLineBlock_data CacheLineBlock_blockSize]. by rewrite Hlen.
Qed.

Lemma CacheLine_writeWord_readWord_witness :
  let l := mkCacheLineBlock (mkCacheLine 7 SHARED)
             [1; 2; 3; 4; 5; 6; 7; 8] 8 in
  CacheLine_writeWord 4 3735928559 l =
    (None, mkCacheLineBlock (mkCacheLine 7 MODIFIED)
             [1; 2; 3; 4; 239; 190; 173; 222] 8) ∧
  ∃ l',
    CacheLine_writeWord 4 3735928559 l = (None, l') ∧
    CacheLine_readWord 4 l' = inr 3735928559 ∧
    CacheLine_state (CacheLineBlock_line l') = MODIFIED ∧
    CacheLine_tag (CacheLineBlock_line l') = CacheLine_tag (CacheLineBlock_line l) ∧
    CacheLineBlock_blockSize l' = CacheLineBlock_blockSize l ∧
    CacheLineBlock_wf l' ∧
    ∀ j, (j < Z.to_nat 4 ∨ Z.to_nat 4 + 4 ≤ j)%nat →
         CacheLineBlock_data l' !! j = CacheLineBlock_data l !! j.
Proof.
  cbv zeta. split; [vm_compute; reflexivity|].
  apply (CacheLine_writeWord_readWord
           (mkCacheLineBlock (mkCacheLine 7 SHARED) [1; 2; 3; 4; 5; 6; 7; 8] 8)
           4 3735928559);
    [reflexivity|discriminate|lia|simpl; lia|lia].
Defined.

(** X19. A word access that a valid line refuses (for offsets up to
    [INT_MAX - 3], where [offset + 3] is defined): exactly the offsets
    below 0 or above [blockSize - 4] are refused, by both [readWord] and
    [writeWord], with an out-of-range exception.  The refused write leaves
    the data as it was, but the line is MODIFIED afterwards even when it
    was SHARED or EXCLUSIVE before. *)
Theorem CacheLine_word_out_of_range (l : CacheLineBlock) (offset value : Z) :
  CacheLine_state (CacheLineBlock_line l) ≠ INVALID →
  offset ≤ INT_MAX - 3 →
  ((∃ e, CacheLine_readWord offset l = inl e) ↔
   (offset < 0 ∨ CacheLineBlock_blockSize l - 4 < offset)) ∧
  ((CacheLine_writeWord offset value l).1 ≠ None ↔
   (offset < 0 ∨ CacheLineBlock_blockSize l - 4 < offset)) ∧
  ((CacheLine_writeWord offset value l).1 ≠ None →
   (CacheLine_writeWord offset value l).1 =
     Some (word_out_of_range "Word offset out of range") ∧
   CacheLineBlock_data (CacheLine_writeWord offset value l).2 =
     CacheLineBlock_data l ∧
   CacheLine_state (CacheLineBlock_line (CacheLine_writeWord offset value l).2) =
     MODIFIED).
Proof.
  intros Hvalid _. destruct l as [[tag state] data blockSize].
  unfold CacheLine_readWord, CacheLine_writeWord.
  cbn [CacheLineBlock_line CacheLineBlock_data CacheLineBlock_blockSize
       CacheLine_state CacheLine_tag] in *.
  assert (Hv : CacheLine_isValid (mkCacheLine tag state) = true).
  { by destruct state. }
  rewrite Hv. cbn [negb].
  destruct (Z.ltb_spec offset 0) as [Hneg|Hpos];
    destruct (Z.leb_spec blockSize (offset + 3)) as [Hhigh|Hlow]; cbn [orb].
  all: split;
    [first [split; [intros _; lia|intros _; by eexists]
           |split; [intros [e He]; discriminate|lia]]|].
  all: destruct state; try done; cbn [fst snd].
  all: split;
    [first [split; [intros _; lia|done]|split; [done|lia]]|done].
Qed.

Lemma CacheLine_word_out_of_range_witness :
  let l := mkCacheLineBlock (mkCacheLine 7 SHARED)
             [1; 2; 3; 4; 5; 6; 7; 8] 8 in
  CacheLine_writeWord 5 1 l =
    (Some (word_out_of_range "Word offset out of range"),
     mkCacheLineBlock (mkCacheLine 7 MODIFIED) [1; 2; 3; 4; 5; 6; 7; 8] 8) ∧
  ((∃ e, CacheLine_readWord 5 l = inl e) ↔
   (5 < 0 ∨ CacheLineBlock_blockSize l - 4 < 5)) ∧
  ((CacheLine_writeWord 5 1 l).1 ≠ None ↔
   (5 < 0 ∨ CacheLineBlock_blockSize l - 4 < 5)) ∧
  ((CacheLine_writeWord 5 1 l).1 ≠ None →
   (CacheLine_writeWord 5 1 l).1 =
     Some (word_out_of_range "Word offset out of range") ∧
   CacheLineBlock_data (CacheLine_writeWord 5 1 l).2 =
     CacheLineBlock_data l ∧
   CacheLine_state (CacheLineBlock_line (CacheLine_writeWord 5 1 l).2) =
     MODIFIED).
Proof.
  cbv zeta. split; [vm_compute; reflexivity|].
  apply (CacheLine_word_out_of_range
           (mkCacheLineBlock (mkCacheLine 7 SHARED) [1; 2; 3; 4; 5; 6; 7; 8] 8)
           5 1); [discriminate|unfold INT_MAX; lia].
Defined.

(** ** Eviction of a SHARED line *)

Lemma evict_scan_none (self : Cache) (address : Z) (caches : list Cache) :
  ∀ acc : Z * option nat,
    (∀ j c, caches !! j = Some c → Cache_coreId c ≠ Cache_coreId self →
            peer_holds_shared self c address = false) →
    foldl (λ acc cache,
             if bool_decide (Cache_coreId cache ≠ Cache_coreId self) &&
                peer_holds_shared self cache address
             then (fst acc + 1, Some (Cache_coreId cache))
             else acc)
          acc caches = acc.
Proof.
  induction caches as [|c rest IH]; intros acc Hnone; [done|]. simpl.
  destruct (bool_decide_reflect (Cache_coreId c ≠ Cache_coreId self)) as [Hid|Hid];
    cbn [andb].
  - rewrite (Hnone 0%nat c eq_refl Hid). apply IH.
    intros j c' Hj. exact (Hnone (S j) c' Hj).
  - apply IH. intros j c' Hj. exact (Hnone (S j) c' Hj).
Qed.

(** With exactly one peer passing the test of the loop, the loop counts
    one and remembers that peer. *)
Lemma evict_scan_one (self : Cache) (address : Z) (caches : list Cache) :
  ∀ (cnt0 : Z) (last0 : option nat) (i : nat) (c : Cache),
    caches !! i = Some c →
    Cache_coreId c ≠ Cache_coreId self →
    peer_holds_shared self c address = true →
    (∀ j c', caches !! j = Some c' → Cache_coreId c' ≠ Cache_coreId self →
             peer_holds_shared self c' address = true → j = i) →
    foldl (λ acc cache,
             if bool_decide (Cache_coreId cache ≠ Cache_coreId self) &&
                peer_holds_shared self cache address
             then (fst acc + 1, Some (Cache_coreId cache))
             else acc)
          (cnt0, last0) caches = (cnt0 + 1, Some (Cache_coreId c)).
Proof.
  induction caches as [|c0 rest IH]; intros cnt0 last0 i c Hi Hid Hphs Huniq;
    [done|].
  simpl. destruct i as [|i].
  - simpl in Hi. injection Hi as ->.
    rewrite bool_decide_eq_true_2 by done. rewrite Hphs. cbn [andb fst].
    apply evict_scan_none. intros j c' Hj Hid'.
    destruct (peer_holds_shared self c' address) eqn:Hc'; [|done].
    by specialize (Huniq (S j) c' Hj Hid' Hc').
  - simpl in Hi.
    assert (Hc0 : bool_decide (Cache_coreId c0 ≠ Cache_coreId self) &&
                  peer_holds_shared self c0 address = false).
    { destruct (bool_decide_reflect (Cache_coreId c0 ≠ Cache_coreId self))
        as [Hid0|Hid0]; [|done]. cbn [andb].
      destruct (peer_holds_shared self c0 address) eqn:Hc0; [|done].
      by specialize (Huniq 0%nat c0 eq_refl Hid0 Hc0). }
    rewrite Hc0. apply (IH cnt0 last0 i c Hi Hid Hphs).
    intros j c' Hj Hid' Hc'. specialize (Huniq (S j) c' Hj Hid' Hc'). lia.
Qed.

(** X20. Evicting a SHARED line (the line really is line [victimIndex]
    of set [setIndex] of cache [me], and [address] names its block) costs no
    cycle and touches no counter.  Afterwards the evicting cache holds the
    block INVALID; if exactly one other cache held the block SHARED, that
    cache now holds it EXCLUSIVE; every other cache, and every other block
    of every cache, is as before. *)
Theorem Cache_evictLine_shared (s b : Z) (caches : list Cache) (me : nat)
    (self : Cache) (setIndex : Z) (cs : CacheSet) (victimIndex : nat)
    (lv : CacheLine) (address cycles : Z) :
  caches_ok s b caches →
  caches !! me = Some self →
  Cache_sets self !! Z.to_nat setIndex = Some cs →
  CacheSet_lines cs !! victimIndex = Some lv →
  CacheLine_getState lv = SHARED →
  address_tag s b address = CacheLine_getTag lv →
  address_set s b address = Z.to_nat setIndex →
  ∃ caches',
    Cache_evictLine me setIndex victimIndex address cycles caches =
      (caches', cycles) ∧
    length caches' = length caches ∧
    ∀ k c, caches !! k = Some c →
      ∃ c', caches' !! k = Some c' ∧
        Cache_stats c' = Cache_stats c ∧
        Cache_isBlocked c' = Cache_isBlocked c ∧
        (∀ n tag, ¬ (n = Z.to_nat setIndex ∧ tag = CacheLine_getTag lv) →
                  block_state c' n tag = block_state c n tag) ∧
        (k = me →
         block_state c' (Z.to_nat setIndex) (CacheLine_getTag lv) = INVALID) ∧
        (k ≠ me →
         sole_sharer caches me (Z.to_nat setIndex) (CacheLine_getTag lv) k →
         block_state c' (Z.to_nat setIndex) (CacheLine_getTag lv) = EXCLUSIVE) ∧
        (k ≠ me →
         ¬ sole_sharer caches me (Z.to_nat setIndex) (CacheLine_getTag lv) k →
         block_state c' (Z.to_nat setIndex) (CacheLine_getTag lv) =
           block_state c (Z.to_nat setIndex) (CacheLine_getTag lv)).
Proof.
  intros Hok Hself Hcs Hlv Hst Htag Hset.
  pose proof (Hok me self Hself) as Hokself.
  pose proof (ok_sets _ _ _ _ Hokself _ _ Hcs) as Hokcs.
  set (n0 := Z.to_nat setIndex) in *. set (tv := CacheLine_getTag lv) in *.
  assert (Hv : CacheLine_isValid lv = true).
  { apply CacheLine_isValid_true. unfold CacheLine_getState in Hst. by rewrite Hst. }
  assert (Hfind : CacheSet_findLine tv (Cache_getSet self setIndex) = Some victimIndex).
  { rewrite (Cache_getSet_lookup _ _ _ Hcs).
    apply CacheSet_findLine_unique; [by destruct Hokcs|done|done]. }
  destruct (Cache_setLineState_spec s b me self setIndex tv victimIndex INVALID
              Hokself Hfind) as [_ Hbsme]. fold n0 in Hbsme.
  assert (Htest : ∀ k c, caches !! k = Some c →
            (Cache_coreId c ≠ Cache_coreId self ∧
             peer_holds_shared self c address = true) ↔
            (k ≠ me ∧ block_state c n0 tv = SHARED)).
  { intros k c Hc. pose proof (Hok k c Hc) as Hokc.
    rewrite (ok_coreId _ _ _ _ Hokc), (ok_coreId _ _ _ _ Hokself).
    rewrite (peer_holds_shared_spec s b me k self c address Hokself Hokc).
    by rewrite Htag, Hset. }
  (* the state of the store when no peer is promoted *)
  assert (Hplain :
    ∀ k c, caches !! k = Some c →
      ∃ c', alter (Cache_setLineState setIndex victimIndex INVALID) me caches !! k
              = Some c' ∧
        Cache_stats c' = Cache_stats c ∧
        Cache_isBlocked c' = Cache_isBlocked c ∧
        (∀ n tag, ¬ (n = n0 ∧ tag = tv) →
                  block_state c' n tag = block_state c n tag) ∧
        (k = me → block_state c' n0 tv = INVALID) ∧
        (k ≠ me → c' = c)).
  { intros k c Hc. destruct (decide (k = me)) as [->|Hk].
    - rewrite Hself in Hc. injection Hc as <-.
      eexists. rewrite list_lookup_alter_eq, Hself. split; [done|].
      split; [done|]. split; [done|]. split.
      + intros n tag Hn. rewrite Hbsme. by rewrite decide_False.
      + split; [|done]. intros _. rewrite Hbsme. by rewrite decide_True.
    - exists c. rewrite list_lookup_alter_ne by done. done. }
  unfold Cache_evictLine. rewrite Hself.
  rewrite (Cache_getSet_lookup _ _ _ Hcs). unfold CacheSet_getLine.
  rewrite Hlv. cbn [from_option]. rewrite Hst.
  destruct (evict_scan self address caches) as [count last] eqn:Hscan.
  unfold evict_scan in Hscan.
  (* a sole sharer is found by the loop *)
  assert (Hsole : ∀ j, sole_sharer caches me n0 tv j →
                       count = 1 ∧ last = Some j).
  { intros j (Hjme & (cj & Hj & Hbsj) & Huniq).
    destruct (proj2 (Htest j cj Hj) (conj Hjme Hbsj)) as [Hidj Hphsj].
    rewrite (evict_scan_one self address caches 0 None j cj Hj Hidj Hphsj)
      in Hscan.
    - injection Hscan as <- <-. by rewrite (ok_coreId _ _ _ _ (Hok j cj Hj)).
    - intros k ck Hk Hidk Hphsk.
      destruct (proj1 (Htest k ck Hk) (conj Hidk Hphsk)) as [Hkme Hbsk].
      by apply (Huniq k ck). }
  assert (Hnop :
    (∀ j, ¬ sole_sharer caches me n0 tv j) →
    ∃ caches',
      (alter (Cache_setLineState setIndex victimIndex INVALID) me caches, cycles)
        = (caches', cycles) ∧
      length caches' = length caches ∧
      ∀ k c, caches !! k = Some c →
        ∃ c', caches' !! k = Some c' ∧
          Cache_stats c' = Cache_stats c ∧
          Cache_isBlocked c' = Cache_isBlocked c ∧
          (∀ n tag, ¬ (n = n0 ∧ tag = tv) →
                    block_state c' n tag = block_state c n tag) ∧
          (k = me → block_state c' n0 tv = INVALID) ∧
          (k ≠ me → sole_sharer caches me n0 tv k →
           block_state c' n0 tv = EXCLUSIVE) ∧
          (k ≠ me → ¬ sole_sharer caches me n0 tv k →
           block_state c' n0 tv = block_state c n0 tv)).
  { intros Hnosole. eexists. split; [reflexivity|].
    split; [by rewrite length_alter|].
    intros k c Hc.
    destruct (Hplain k c Hc) as (c' & Hc' & Hstats & Hbl & Hother & Hme & Hne).
    exists c'. split; [done|]. split; [done|]. split; [done|]. split; [done|].
    split; [done|]. split.
    - intros _ Hs. by destruct (Hnosole k).
    - intros Hk _. by rewrite (Hne Hk). }
  destruct last as [last|].
  2:{ apply Hnop. intros j Hs. by destruct (Hsole j Hs). }
  destruct (Z.eqb_spec count 1) as [->|Hcount].
  2:{ apply Hnop. intros j Hs. by destruct (Hsole j Hs). }
  (* one peer is promoted *)
  destruct (evict_scan_spec self address caches 0 None 1 (Some last) Hscan)
    as (_ & Hone & _).
  destruct (Hone eq_refl) as (j & cj & Hj & Hlast & Hidj & Hphsj & Huniq).
  pose proof (Hok j cj Hj) as Hokj.
  destruct (proj1 (Htest j cj Hj) (conj Hidj Hphsj)) as [Hjme Hbsj].
  rewrite (ok_coreId _ _ _ _ Hokj) in Hlast. injection Hlast as ->.
  assert (Hsj : sole_sharer caches me n0 tv j).
  { split; [done|]. split; [by exists cj|].
    intros k ck Hkme Hk Hbsk.
    destruct (proj2 (Htest k ck Hk) (conj Hkme Hbsk)) as [Hidk Hphsk].
    by apply (Huniq k ck). }
  unfold evict_promote. rewrite Hj.
  destruct (Cache_ok_address s b j cj address Hokj) as [Htagj Hsetj].
  assert (Hidx : Cache_getSetIndex self address = Cache_getSetIndex cj address).
  { unfold Cache_getSetIndex.
    by rewrite (ok_setIndexBits _ _ _ _ Hokself), (ok_blockOffsetBits _ _ _ _ Hokself),
      (ok_setIndexBits _ _ _ _ Hokj), (ok_blockOffsetBits _ _ _ _ Hokj). }
  unfold Cache_getLineIndex.
  destruct (CacheSet_findLine (Cache_getTag cj address)
              (Cache_getSet cj (Cache_getSetIndex cj address))) as [li|] eqn:Hfindj.
  2:{ exfalso. unfold block_state, set_state in Hbsj.
      unfold Cache_getSet in Hfindj. rewrite Hsetj, Htagj, Htag, Hset in Hfindj.
      fold n0 tv in Hfindj. by rewrite Hfindj in Hbsj. }
  rewrite Hidx.
  destruct (Cache_setLineState_spec s b j cj (Cache_getSetIndex cj address)
              (Cache_getTag cj address) li EXCLUSIVE Hokj Hfindj) as [_ Hbsj'].
  rewrite Hsetj, Htagj, Htag, Hset in Hbsj'. fold n0 tv in Hbsj'.
  set (cj' := Cache_setLineState (Cache_getSetIndex cj address) li EXCLUSIVE cj) in *.
  cbn [Z.eqb Pos.eqb].
  eexists. split; [reflexivity|].
  split; [by rewrite length_alter, length_insert|].
  intros k c Hc. destruct (decide (k = me)) as [->|Hk].
  - rewrite Hself in Hc. injection Hc as <-.
    eexists. rewrite list_lookup_alter_eq, list_lookup_insert_ne, Hself by done.
    split; [done|]. split; [done|]. split; [done|]. split.
    + intros n tag Hn. rewrite Hbsme. by rewrite decide_False.
    + split; [|done]. intros _. rewrite Hbsme. by rewrite decide_True.
  - rewrite list_lookup_alter_ne by done.
    destruct (decide (k = j)) as [->|Hkj].
    + rewrite Hj in Hc. injection Hc as <-.
      exists cj'. rewrite list_lookup_insert_eq by (by eapply lookup_lt_Some).
      split; [done|]. split; [done|]. split; [done|]. split.
      * intros n tag Hn. rewrite Hbsj'. by rewrite decide_False.
      * split; [done|]. split; [|done].
        intros _ _. rewrite Hbsj'. by rewrite decide_True.
    + exists c. rewrite list_lookup_insert_ne by done.
      split; [done|]. split; [done|]. split; [done|]. split; [done|].
      split; [done|]. split; [|done].
      intros _ (_ & _ & Huk). by specialize (Huk j cj Hjme Hj Hbsj).
Qed.

(** The instance: cores 0 and 1 have read 0x0 and share its block; core 0
    evicts it and core 1 is left with the block in EXCLUSIVE. *)
Lemma Cache_evictLine_shared_witness :
  let caches :=
    System_caches (run_accesses [(0%nat, READ, 0); (1%nat, READ, 0)]
                     (fresh_system 1 2 5 4)) in
  (Cache_getCacheLineState 0 <$> (Cache_evictLine 0 0 0 0 7 caches).1) =
    [INVALID; EXCLUSIVE; INVALID; INVALID] ∧
  ∃ self cs lv caches',
    caches !! 0%nat = Some self ∧
    Cache_sets self !! Z.to_nat 0 = Some cs ∧
    CacheSet_lines cs !! 0%nat = Some lv ∧
    CacheLine_getState lv = SHARED ∧
    Cache_evictLine 0 0 0 0 7 caches = (caches', 7) ∧
    length caches' = length caches ∧
    ∀ k c, caches !! k = Some c →
      ∃ c', caches' !! k = Some c' ∧
        Cache_stats c' = Cache_stats c ∧
        Cache_isBlocked c' = Cache_isBlocked c ∧
        (∀ n tag, ¬ (n = Z.to_nat 0 ∧ tag = CacheLine_getTag lv) →
                  block_state c' n tag = block_state c n tag) ∧
        (k = 0%nat →
         block_state c' (Z.to_nat 0) (CacheLine_getTag lv) = INVALID) ∧
        (k ≠ 0%nat →
         sole_sharer caches 0 (Z.to_nat 0) (CacheLine_getTag lv) k →
         block_state c' (Z.to_nat 0) (CacheLine_getTag lv) = EXCLUSIVE) ∧
        (k ≠ 0%nat →
         ¬ sole_sharer caches 0 (Z.to_nat 0) (CacheLine_getTag lv) k →
         block_state c' (Z.to_nat 0) (CacheLine_getTag lv) =
           block_state c (Z.to_nat 0) (CacheLine_getTag lv)).
Proof.
  intros caches. split; [vm_compute; reflexivity|].
  assert (Hok : caches_ok 1 5 caches).
  { apply sys_caches_ok.
    apply run_accesses_ok; [lia|lia|lia| |apply fresh_system_ok; lia].
    apply Forall_cons; split; [by vm_compute|].
    apply Forall_cons; split; [by vm_compute|]. apply Forall_nil_2. }
  assert (Hline : ∃ self cs lv,
            caches !! 0%nat = Some self ∧
            Cache_sets self !! Z.to_nat 0 = Some cs ∧
            CacheSet_lines cs !! 0%nat = Some lv ∧
            CacheLine_getState lv = SHARED ∧
            address_tag 1 5 0 = CacheLine_getTag lv ∧
            address_set 1 5 0 = Z.to_nat 0).
  { eexists _, _, _. repeat (split; [vm_compute; reflexivity|]).
    vm_compute; reflexivity. }
  destruct Hline as (self & cs & lv & Hself & Hcs & Hlv & Hst & Htag & Hset).
  destruct (Cache_evictLine_shared 1 5 caches 0 self 0 cs 0 lv 0 7
              Hok Hself Hcs Hlv Hst Htag Hset) as (caches' & H).
  exists self, cs, lv, caches'. by repeat (split; [done|]).
Defined.

(** ** Generated traces are executed reference by reference *)

Lemma count_reads_app (l1 l2 : list MemoryReference) :
  count_reads (l1 ++ l2) = count_reads l1 + count_reads l2.
Proof.
  induction l1 as [|r l1 IH]; simpl; [done|].
  destruct (MemoryReference_operation r); lia.
Qed.

Lemma count_writes_app (l1 l2 : list MemoryReference) :
  count_writes (l1 ++ l2) = count_writes l1 + count_writes l2.
Proof.
  induction l1 as [|r l1 IH]; simpl; [done|].
  destruct (MemoryReference_operation r); lia.
Qed.

Lemma count_reads_writes (l : list MemoryReference) :
  count_reads l + count_writes l = Z.of_nat (length l).
Proof.
  induction l as [|r l IH]; simpl length; [done|].
  rewrite Nat2Z.inj_succ. simpl. destruct (MemoryReference_operation r); lia.
Qed.

Section GeneratedTrace.
Context (reads writes : Z).

(** One more recorded access in the file: [loadNextReference] queues it. *)
Lemma Processor_loadNextReference_access (p : Processor)
    (a : MemoryOperation * Z) (left : list (MemoryOperation * Z)) :
  Processor_trace_at reads writes (a :: left) p →
  ∃ p', Processor_loadNextReference p = Ok (true, p') ∧
        Processor_trace_at reads writes left p' ∧
        Processor_pendingReferences p' =
          Processor_pendingReferences p ++ [access_reference a] ∧
        Processor_traceComplete p' = Processor_traceComplete p.
Proof.
  intros (Hok & Hopen & Hbuf & Heof & Hfin & Hr & Hw).
  apply Forall_cons in Hok as [Ha Hok].
  destruct a as [op addr]. unfold access_ok in Ha. simpl in Ha.
  destruct (traceAccess_parse (op_char op) addr (generated_trace left) Ha)
    as (line & addressStr & Hline & Hparse & Hprefix & Hstoul);
    [by destruct op|by destruct op|].
  destruct p as [id c f q ti ri wi tc ic fin bl err]. simpl in *.
  assert (Hne : ifstream_eof f = false).
  { destruct (ifstream_eof f); [|done]. by specialize (Heof eq_refl). }
  assert (Hnf : fin = false).
  { destruct fin; [|done]. by destruct (Hfin eq_refl). }
  subst fin.
  unfold Processor_loadNextReference. simpl.
  rewrite Hne, Hopen. simpl.
  rewrite (getline_line f line (generated_trace left)) by (by rewrite Hbuf).
  simpl. rewrite Hparse, Hprefix, Hstoul.
  exists (mkProcessor id c
            (mkIfstream (ifstream_is_open f) (generated_trace left) (ifstream_eof f))
            (q ++ [access_reference (op, addr)]) ti ri wi tc ic false bl err).
  split; [by destruct op|]. split; [|done].
  unfold Processor_trace_at. simpl. rewrite <- !app_assoc. simpl.
  repeat split; try done. by rewrite Hne.
Qed.

(** Nothing left in the file: [loadNextReference] finds the end, and
    declares the trace complete when the queue is empty too. *)
Lemma Processor_loadNextReference_end (p : Processor) :
  Processor_trace_at reads writes [] p →
  ∃ p', Processor_loadNextReference p = Ok (false, p') ∧
        Processor_trace_at reads writes [] p' ∧
        Processor_pendingReferences p' = Processor_pendingReferences p.
Proof.
  intros (Hok & Hopen & Hbuf & Heof & Hfin & Hr & Hw).
  destruct p as [id c f q ti ri wi tc ic fin bl err]. simpl in *.
  unfold Processor_loadNextReference. simpl. rewrite Hopen. simpl.
  destruct (ifstream_eof f) eqn:He; simpl.
  { eexists. split; [done|]. split; [|done].
    unfold Processor_trace_at. simpl. by rewrite He, Hopen. }
  unfold getline. rewrite Hbuf. simpl.
  destruct (bool_decide_reflect (q = [])) as [->|Hq].
  - eexists. split; [done|]. split; [|done]. by unfold Processor_trace_at.
  - eexists. split; [done|]. split; [|done]. by unfold Processor_trace_at.
Qed.

Lemma Processor_loadNextReference_inv (p : Processor)
    (left : list (MemoryOperation * Z)) :
  Processor_trace_at reads writes left p →
  ∃ loaded p' left',
    Processor_loadNextReference p = Ok (loaded, p') ∧
    Processor_trace_at reads writes left' p' ∧
    if loaded
    then Processor_traceComplete p' = Processor_traceComplete p ∧
         ∃ r, Processor_pendingReferences p' = Processor_pendingReferences p ++ [r]
    else Processor_pendingReferences p' = Processor_pendingReferences p ∧
         left' = [].
Proof.
  intros Hat. destruct left as [|a left].
  - destruct (Processor_loadNextReference_end p Hat) as (p' & Hl & Hat' & Hq).
    by exists false, p', [].
  - destruct (Processor_loadNextReference_access p a left Hat)
      as (p' & Hl & Hat' & Hq & Hfin).
    exists true, p', left. split; [done|]. split; [done|]. split; [done|].
    by eexists.
Qed.

Lemma Processor_preload_inv (n : nat) :
  ∀ p left,
    Processor_trace_at reads writes left p →
    ∃ p' left', Processor_preload n p = Ok p' ∧
                Processor_trace_at reads writes left' p'.
Proof.
  induction n as [|n IH]; intros p left Hat; simpl.
  - by exists p, left.
  - destruct (Processor_loadNextReference_inv p left Hat)
      as (loaded & p1 & left1 & -> & Hat1 & _).
    destruct loaded; [by eapply IH|]. by exists p1, left1.
Qed.

(** One cycle of a processor in the middle of a generated trace, with no
    cache blocked: the cycle does not throw and leaves the processor in the
    middle of the same trace. *)
Lemma Processor_executeCycle_inv (p : Processor) (sys : System) (h : nat)
    (left : list (MemoryOperation * Z)) :
  Processor_trace_at reads writes left p →
  Processor_traceComplete p = false →
  Processor_cache p = Some h → (h < length (System_caches sys))%nat →
  unblocked (System_caches sys) →
  ∃ r p' sys', Processor_executeCycle p sys = Ok (r, p', sys') ∧
               Processor_trace_inv reads writes p'.
Proof.
  intros Hat Hinc Hcache Hh Hunb.
  destruct p as [id c f q ti ri wi tc ic fin bl err]. simpl in Hinc, Hcache.
  subst c fin.
  unfold Processor_executeCycle.
  assert (Hnb : Processor_cacheIsBlocking
                  (Processor_with_totalCycles (tc + 1)
                     (mkProcessor id (Some h) f q ti ri wi tc ic false bl err)) sys
                = false).
  { destruct (lookup_lt_is_Some_2 _ _ Hh) as [self Hself].
    unfold Processor_cacheIsBlocking, Processor_with_totalCycles.
    cbn [Processor_cache]. rewrite Hself. simpl. by apply (Hunb h self). }
  cbn [Processor_totalCycles].
  rewrite Hnb, andb_false_r.
  set (p2 := mkProcessor id (Some h) f q ti ri wi (tc + 1) ic false false err).
  assert (Hp2 : (if Processor_blocked
                      (Processor_with_totalCycles (tc + 1)
                         (mkProcessor id (Some h) f q ti ri wi tc ic false bl err))
                 then Processor_with_blocked false
                        (Processor_with_totalCycles (tc + 1)
                           (mkProcessor id (Some h) f q ti ri wi tc ic false bl err))
                 else Processor_with_totalCycles (tc + 1)
                        (mkProcessor id (Some h) f q ti ri wi tc ic false bl err))
                = p2).
  { simpl. by destruct bl. }
  rewrite Hp2. clear Hp2 Hnb.
  assert (Hat2 : Processor_trace_at reads writes left p2) by exact Hat.
  match goal with
  | |- context [result_bind _ ?k] => set (K := k)
  end.
  (* from the reference at the head of the queue on *)
  assert (Htail : ∀ p3 left3,
            Processor_trace_at reads writes left3 p3 →
            Processor_traceComplete p3 = false →
            Processor_cache p3 = Some h →
            Processor_pendingReferences p3 ≠ [] →
            ∃ r p' sys', K (true, p3) = Ok (r, p', sys') ∧
                         Processor_trace_inv reads writes p').
  { intros p3 left3 Hat3 Hfin3 Hc3 Hq3.
    destruct p3 as [id3 c3 f3 q3 ti3 ri3 wi3 tc3 ic3 fin3 bl3 err3].
    simpl in Hfin3, Hc3, Hq3. subst c3 fin3.
    destruct q3 as [|ref rest]; [done|].
    unfold K.
    cbn -[Processor_preload Processor_loadNextReference Cache_read Cache_write].
    destruct (access_step (λ _, True) stats_stable_True
                (MemoryReference_operation ref) h
                (MemoryReference_address ref) sys Hh Hunb)
      as (sys1 & cycles' & Hacc & _).
    assert (Hacc' :
      match MemoryReference_operation ref with
      | READ => Cache_read h (MemoryReference_address ref) 0 sys
      | WRITE => Cache_write h (MemoryReference_address ref) 0 sys
      end = (sys1, true, cycles')) by exact Hacc.
    rewrite Hacc'. cbv iota beta. cbn [andb].
    match goal with
    | |- context [if _ then Processor_preload 5 ?x else _] => set (p6 := x)
    end.
    assert (Hat6 : Processor_trace_at reads writes left3 p6).
    { destruct Hat3 as (Hok & Hopen & Hbuf & Heof & _ & Hr & Hw).
      simpl in Hopen, Hbuf, Heof, Hr, Hw.
      unfold p6, Processor_trace_at.
      destruct (MemoryReference_operation ref), (1 <? cycles'); simpl;
        (split; [done|]); (split; [done|]); (split; [done|]); (split; [done|]);
        (split; [done|]); split; lia. }
    clearbody p6.
    match goal with
    | |- context [if ?cond then Processor_preload 5 p6 else _] => destruct cond
    end.
    - destruct (Processor_preload_inv 5 p6 left3 Hat6) as (p7 & left7 & Hpre & Hat7).
      rewrite Hpre. simpl. eexists _, _, _. split; [reflexivity|]. by exists left7.
    - simpl. eexists _, _, _. split; [reflexivity|]. by exists left3. }
  destruct (bool_decide_reflect (Processor_pendingReferences p2 = [])) as [Hq|Hq].
  - destruct (Processor_loadNextReference_inv p2 left Hat2)
      as (loaded & p3 & left3 & Hload & Hat3 & Hl).
    rewrite Hload. cbn [result_bind]. destruct loaded.
    + destruct Hl as [Hfin3 [r Hq3]].
      apply (Htail p3 left3 Hat3).
      * by rewrite Hfin3.
      * destruct (Processor_loadNextReference_shape _ _ _ Hload) as [Hf _].
        destruct Hf as (_ & Hc3 & _). by rewrite Hc3.
      * rewrite Hq3. by destruct (Processor_pendingReferences p2).
    + destruct Hl as [Hq3 ->]. rewrite Hq in Hq3.
      unfold K. cbn [negb].
      eexists _, _, _. split; [reflexivity|]. exists [].
      destruct p3 as [id3 c3 f3 q3 ti3 ri3 wi3 tc3 ic3 fin3 bl3 err3].
      simpl in Hq3. subst q3.
      destruct Hat3 as (Hok & Hopen & Hbuf & Heof & _ & Hr & Hw).
      unfold Processor_trace_at. simpl in *. done.
  - cbn [result_bind]. by apply (Htail p2 left Hat2).
Qed.
End GeneratedTrace.

Section GeneratedTraces.
Context (reads writes : nat → Z).

Lemma Simulator_stepProcessors_traces (ps : list Processor) :
  ∀ (i0 : nat) (sys : System),
    (∀ k p, ps !! k = Some p →
            Processor_cache p = Some (i0 + k)%nat ∧
            Processor_coreId p = (i0 + k)%nat ∧
            (i0 + k < length (System_caches sys))%nat) →
    unblocked (System_caches sys) →
    (∀ k p, ps !! k = Some p →
            Processor_trace_inv (reads (i0 + k)%nat) (writes (i0 + k)%nat) p) →
    ∃ ps' sys',
      Simulator_stepProcessors ps sys = Ok (ps', sys') ∧
      length ps' = length ps ∧
      ∀ k p', ps' !! k = Some p' →
              Processor_trace_inv (reads (i0 + k)%nat) (writes (i0 + k)%nat) p'.
Proof.
  induction ps as [|p ps IH]; intros i0 sys Hwired Hunb Hinv.
  - exists [], sys. split; [done|]. split; [done|].
    intros k p' Hk. by rewrite lookup_nil in Hk.
  - destruct (Hwired 0%nat p eq_refl) as (Hc & Hid & Hlt).
    rewrite Nat.add_0_r in Hc, Hid, Hlt.
    pose proof (Hinv 0%nat p eq_refl) as Hp. rewrite Nat.add_0_r in Hp.
    assert (Hhead : ∃ p1 sys1,
              (if negb (Processor_isTraceComplete p)
               then result_bind (Processor_executeCycle p sys)
                      (λ '(_, p', sys'), Ok (p', sys'))
               else Ok (p, sys)) = Ok (p1, sys1) ∧
              Processor_trace_inv (reads i0) (writes i0) p1 ∧
              unblocked (System_caches sys1) ∧
              length (System_caches sys1) = length (System_caches sys)).
    { unfold Processor_isTraceComplete.
      destruct (Processor_traceComplete p) eqn:Hfin; cbn [negb].
      - by exists p, sys.
      - destruct Hp as [left Hat].
        destruct (Processor_executeCycle_inv _ _ p sys i0 left Hat Hfin Hc Hlt Hunb)
          as (r & p1 & sys1 & Hexec & Hp1).
        destruct (Processor_executeCycle_step (λ _, True) stats_stable_True
                    p p1 sys sys1 r i0 Hexec Hfin Hc Hlt Hunb) as (Hfr & _).
        exists p1, sys1. rewrite Hexec. split; [done|]. split; [done|].
        split; [by eapply unblocked_frame|]. by destruct Hfr. }
    destruct Hhead as (p1 & sys1 & Hhead & Hp1 & Hunb1 & Hlen1).
    destruct (IH (S i0) sys1) as (ps' & sys' & Hrest & Hlen' & Hps').
    { intros k q Hq. destruct (Hwired (S k) q Hq) as (? & ? & ?).
      rewrite Nat.add_succ_r in *. by rewrite Hlen1. }
    { done. }
    { intros k q Hq. specialize (Hinv (S k) q Hq).
      by rewrite Nat.add_succ_r in Hinv. }
    exists (p1 :: ps'), sys'. split; [|split].
    + cbn [Simulator_stepProcessors]. rewrite Hhead. cbn [result_bind].
      rewrite Hrest. done.
    + simpl. by rewrite Hlen'.
    + intros [|k] q Hq; simpl in Hq.
      * injection Hq as <-. by rewrite Nat.add_0_r.
      * rewrite Nat.add_succ_r. by apply Hps'.
Qed.

Lemma Simulator_tick_traces (sim : Simulator) :
  Simulator_inv (λ _, True) sim → Simulator_trace_inv reads writes sim →
  ∃ sim', Simulator_tick sim = Ok sim' ∧ Simulator_trace_inv reads writes sim' ∧
          length (Simulator_processors sim') = length (Simulator_processors sim).
Proof.
  intros [Hw Hu Hc Hs] [Hps _]. unfold Simulator_tick.
  pose proof (Bus_processCycle_frame (λ _, True) stats_stable_True
                (Simulator_system sim)) as Hbus.
  set (sys1 := Bus_processCycle (Simulator_system sim)) in *.
  destruct (Simulator_stepProcessors_traces (Simulator_processors sim) 0 sys1)
    as (ps & sys2 & Hstep & Hlen & Hps').
  { intros k p Hp. destruct (Hw k p Hp) as (? & ? & ?).
    destruct Hbus as [Hl _]. simpl. by rewrite Hl. }
  { by eapply unblocked_frame. }
  { intros k p Hp. by apply Hps. }
  rewrite Hstep. cbn [result_bind]. eexists. split; [reflexivity|].
  match goal with
  | |- context [Simulator_checkForDeadlock ?s] => set (sim2 := s)
  end.
  destruct (Simulator_checkForDeadlock_processors sim2) as (Hpr & Hfin & _).
  split; [|by rewrite Hpr]. split.
  - rewrite Hpr. simpl. intros i p Hp. by apply (Hps' i p).
  - rewrite Hpr, Hfin. simpl. unfold Simulator_allProcessorsComplete. simpl.
    intros Hall i p Hp.
    rewrite forallb_forall in Hall. apply Hall.
    apply list_elem_of_In. by eapply list_elem_of_lookup_2.
Qed.

Lemma Simulator_runCycles_traces (numCycles : nat) :
  ∀ sim,
    Simulator_inv (λ _, True) sim → Simulator_trace_inv reads writes sim →
    ∃ sim', Simulator_runCycles numCycles sim = Ok sim' ∧
            Simulator_inv (λ _, True) sim' ∧
            Simulator_trace_inv reads writes sim' ∧
            length (Simulator_processors sim') =
              length (Simulator_processors sim) ∧
            ((Simulator_measure sim ≤ numCycles)%nat →
             Simulator_simulationComplete sim' = true).
Proof.
  induction numCycles as [|n IH]; intros sim Hinv Htr; simpl.
  - exists sim. split; [done|]. split; [done|]. split; [done|]. split; [done|].
    unfold Simulator_measure. destruct (Simulator_simulationComplete sim); [done|lia].
  - destruct (Simulator_simulationComplete sim) eqn:Hfin.
    { by exists sim. }
    destruct (Simulator_tick_traces sim Hinv Htr) as (sim1 & Htick & Htr1 & Hlen1).
    destruct (Simulator_tick_step (λ _, True) stats_stable_True sim sim1
                Htick Hinv Hfin) as (Hinv1 & Hlt & _).
    destruct (IH sim1 Hinv1 Htr1) as (sim' & Hrun & Hinv' & Htr' & Hlen' & Hdone).
    exists sim'. rewrite Htick. cbn [result_bind].
    split; [done|]. split; [done|]. split; [done|]. split; [congruence|].
    intros Hm. apply Hdone. lia.
Qed.
End GeneratedTraces.

(** The constructor on a generated trace: the first references are queued
    and nothing has been executed. *)
Lemma Processor_new_generated (coreId : nat) (path : string)
    (accesses : list (MemoryOperation * Z)) :
  Forall access_ok accesses →
  ∃ p, Processor_new coreId path (Some (generated_trace accesses)) = Ok p ∧
       Processor_trace_inv (count_reads (access_reference <$> accesses))
         (count_writes (access_reference <$> accesses))
         (Processor_resetStatistics (Processor_setCache coreId p)).
Proof.
  intros Hok. unfold Processor_new, ifstream_open.
  cbn [ifstream_is_open negb].
  set (p0 := mkProcessor coreId None
               (mkIfstream true (generated_trace accesses) false) [] 0 0 0 0 0
               false false []).
  assert (Hat0 : Processor_trace_at (count_reads (access_reference <$> accesses))
                   (count_writes (access_reference <$> accesses)) accesses p0).
  { unfold Processor_trace_at. simpl. repeat split; done. }
  destruct (Processor_preload_inv _ _ 10 p0 accesses Hat0)
    as (p & left & Hpre & Hat).
  exists p. split; [done|]. exists left.
  destruct (Processor_preload_shape 10 _ _ Hpre) as [Hf _].
  destruct Hf as (_ & _ & _ & Hri & Hwi & _).
  destruct p as [id c f q ti ri wi tc ic fin bl err]. simpl in Hri, Hwi.
  subst ri wi. exact Hat.
Qed.

Section GeneratedSimulation.
Context (fs : FileSystem) (tracePrefix : string) (s E b : Z)
        (accesses : nat → list (MemoryOperation * Z)).

Lemma Simulator_build_generated (n : nat) :
  ∀ i,
    (∀ k, (k < n)%nat →
          fs (tracePath tracePrefix (i + k)) =
            Some (generated_trace (accesses (i + k)%nat)) ∧
          Forall access_ok (accesses (i + k)%nat)) →
    ∃ ps cs,
      Simulator_build fs tracePrefix s E b i n = Ok (ps, cs) ∧
      length ps = n ∧
      ∀ k p, ps !! k = Some p →
        Processor_trace_inv
          (count_reads (access_reference <$> accesses (i + k)%nat))
          (count_writes (access_reference <$> accesses (i + k)%nat))
          (Processor_resetStatistics p).
Proof.
  induction n as [|n IH]; intros i Hfs.
  - exists [], []. split; [done|]. split; [done|].
    intros k p Hk. by rewrite lookup_nil in Hk.
  - destruct (Hfs 0%nat ltac:(lia)) as [Hfile Hok].
    rewrite Nat.add_0_r in Hfile, Hok.
    destruct (Processor_new_generated i (tracePath tracePrefix i) _ Hok)
      as (p & Hnew & Hp).
    destruct (IH (S i)) as (ps & cs & Hbuild & Hlen & Hps).
    { intros k Hk. specialize (Hfs (S k) ltac:(lia)).
      by rewrite Nat.add_succ_r in Hfs. }
    eexists _, _. split.
    + cbn [Simulator_build]. rewrite Hfile, Hnew. cbn [result_bind].
      rewrite Hbuild. reflexivity.
    + split; [simpl; by rewrite Hlen|].
      intros [|k] q Hq; simpl in Hq.
      * injection Hq as <-. by rewrite Nat.add_0_r.
      * rewrite Nat.add_succ_r. by apply Hps.
Qed.
End GeneratedSimulation.

(** X21. Generated traces are executed completely: when every core's
    trace file holds what the generator wrote for a list of accesses, the
    simulator is built without an exception, [runCycles] with at least as
    many cycles as the work measures neither throws nor stops early, and at
    the end every processor has completed its trace with an empty queue and
    has counted exactly the reads and the writes of its list: no reference
    is lost, repeated or left over. *)
Theorem Simulator_executes_generated_traces (fs : FileSystem)
    (tracePrefix : string) (s E b : Z) (numCores : nat)
    (accesses : nat → list (MemoryOperation * Z)) :
  0 ≤ s → 0 < E → 0 ≤ b → s + b < 32 →
  (∀ i, (i < numCores)%nat →
        fs (tracePath tracePrefix i) = Some (generated_trace (accesses i)) ∧
        Forall access_ok (accesses i)) →
  ∃ sim0,
    Simulator_new fs tracePrefix s E b numCores = Ok sim0 ∧
    ∀ numCycles,
      (Simulator_measure (Simulator_initialize sim0) ≤ numCycles)%nat →
      ∃ sim,
        Simulator_runCycles numCycles (Simulator_initialize sim0) = Ok sim ∧
        Simulator_simulationComplete sim = true ∧
        length (Simulator_processors sim) = numCores ∧
        ∀ i p, Simulator_processors sim !! i = Some p →
          Processor_traceComplete p = true ∧
          Processor_pendingReferences p = [] ∧
          Processor_readInstructions p =
            count_reads (access_reference <$> accesses i) ∧
          Processor_writeInstructions p =
            count_writes (access_reference <$> accesses i) ∧
          Processor_totalInstructions p = Z.of_nat (length (accesses i)).
Proof.
  intros _ _ _ _ Hfs.
  destruct (Simulator_build_generated fs tracePrefix s E b accesses numCores 0)
    as (ps & cs & Hbuild & Hlen & Hps).
  { intros k Hk. by apply Hfs. }
  set (sim0 := mkSimulator numCores ps (mkSystem cs Bus_new) 0 false).
  assert (Hnew : Simulator_new fs tracePrefix s E b numCores = Ok sim0).
  { unfold Simulator_new. by rewrite Hbuild. }
  exists sim0. split; [done|].
  pose proof (Simulator_initial_inv (λ _, True) fs tracePrefix s E b numCores
                sim0 I Hnew) as Hinv.
  set (reads := λ i, count_reads (access_reference <$> accesses i)).
  set (writes := λ i, count_writes (access_reference <$> accesses i)).
  assert (Htr : Simulator_trace_inv reads writes (Simulator_initialize sim0)).
  { split; [|done]. intros i p Hp. simpl in Hp. rewrite list_lookup_fmap in Hp.
    destruct (ps !! i) as [p0|] eqn:Hp0; [|done]. simpl in Hp.
    injection Hp as <-. by apply (Hps i p0). }
  intros numCycles Hm.
  destruct (Simulator_runCycles_traces reads writes numCycles _ Hinv Htr)
    as (sim & Hrun & Hinv' & [Hps' Hall] & Hlen' & Hdone).
  specialize (Hdone Hm).
  exists sim. split; [done|]. split; [done|]. split.
  { rewrite Hlen'. simpl. by rewrite length_fmap. }
  intros i p Hp. pose proof (Hall Hdone i p Hp) as Hfin.
  destruct (Hps' i p Hp) as (left & _ & _ & _ & _ & Hc & Hr & Hw).
  destruct (Hc Hfin) as [Hq ->]. rewrite Hq in Hr, Hw. simpl in Hr, Hw.
  destruct (inv_counters _ _ Hinv' i p Hp) as (Hti & _).
  pose proof (count_reads_writes (access_reference <$> accesses i)) as Hcount.
  rewrite length_fmap in Hcount. unfold reads, writes in Hr, Hw.
  split; [done|]. split; [done|]. split; [lia|]. split; [lia|]. lia.
Qed.

(** The instance: two cores; core 0 records a read, a write and a read,
    core 1 a write and a read of the same block. *)
Lemma Simulator_executes_generated_traces_witness :
  let accesses := λ i : nat,
    match i with
    | 0%nat => [(READ, 64); (WRITE, 140720614299256); (READ, 64)]
    | 1%nat => [(WRITE, 64); (READ, 96)]
    | _ => []
    end in
  let fs := λ path : string,
    if String.eqb path (tracePath "app" 0) then Some (generated_trace (accesses 0%nat))
    else if String.eqb path (tracePath "app" 1)
         then Some (generated_trace (accesses 1%nat))
         else None in
  generated_trace (accesses 1%nat) =
    String "W" (" 0x40" +:+ String newline ("R 0x60" +:+ String newline "")) ∧
  ∃ sim0,
    Simulator_new fs "app" 1 2 5 2 = Ok sim0 ∧
    ∀ numCycles,
      (Simulator_measure (Simulator_initialize sim0) ≤ numCycles)%nat →
      ∃ sim,
        Simulator_runCycles numCycles (Simulator_initialize sim0) = Ok sim ∧
        Simulator_simulationComplete sim = true ∧
        length (Simulator_processors sim) = 2%nat ∧
        ∀ i p, Simulator_processors sim !! i = Some p →
          Processor_traceComplete p = true ∧
          Processor_pendingReferences p = [] ∧
          Processor_readInstructions p =
            count_reads (access_reference <$> accesses i) ∧
          Processor_writeInstructions p =
            count_writes (access_reference <$> accesses i) ∧
          Processor_totalInstructions p = Z.of_nat (length (accesses i)).
Proof.
  intros accesses fs. split; [vm_compute; reflexivity|].
  apply (Simulator_executes_generated_traces fs "app" 1 2 5 2 accesses);
    [lia|lia|lia|lia|].
  intros i Hi.
  destruct i as [|[|i]]; [| |lia].
  - split; [vm_compute; reflexivity|].
    repeat (constructor; [unfold access_ok; simpl; lia|]). constructor.
  - split; [vm_compute; reflexivity|].
    repeat (constructor; [unfold access_ok; simpl; lia|]). constructor.
Defined.
